(** * Map generator core: placement, apportionment and tone mapping

    A shallow embedding of [src/lib/map-generator.ts], and of the tile
    formatter of [src/app/page.tsx].

    Conventions of the embedding.
    - A JavaScript [number] that the program only ever uses as an integer
      (canvas size, tile size, grid coordinates, coverage counts, colour
      channels) is a [Z].
    - Every other [number] is an exact rational [Q]: the model has neither
      rounding of the binary64 format nor NaN or infinities.
    - The tile batch normalizer, whose result depends on the rounding of
      its divisions and products, is embedded a second time over binary64
      numbers ([number], module [Binary64]): round to nearest, ties to
      even, with subnormals, overflow to the infinities and NaN.  Its
      totals and its rounding branches are proved of that embedding.
    - A JavaScript string is the list of its UTF-16 code units.
    - The [Math] functions the engine calls ([cos], [sin], [sqrt], [log],
      [pow], [hypot]), the [seedrandom] generator and the PNG encoder are
      parameters of the section that embeds the engine; the conversions
      of strings to lower case and of numbers to strings are parameters
      of the functions that call them. *)

From Stdlib Require Import Ascii String.
From Stdlib Require Import ZArith QArith Qround Qminmax Qabs.
From Stdlib Require Import List Bool Lia Lqa.
From Stdlib Require Import Permutation Sorted.
From Stdlib Require Qcanon.
Import ListNotations.

Local Open Scope Z_scope.

(* ------------------------------------------------------------------ *)
(** ** JavaScript numbers and strings *)

Definition jsstring : Type := list Z.

(** The code units of an ASCII literal. *)
Definition codeUnits (s : string) : jsstring :=
  map (fun c => Z.of_N (N_of_ascii c)) (list_ascii_of_string s).

Definition Math_floor (v : Q) : Z := Qfloor v.

(** [Math.round] rounds half-way cases towards plus infinity. *)
Definition Math_round (v : Q) : Z := Qfloor (v + (1 # 2)).

(** Truncation towards zero, the integer conversion of an array index. *)
Definition ToIntegerOrInfinity (v : Q) : Z :=
  if Qle_bool 0 v then Qfloor v else Qceiling v.

Definition Qltb (a b : Q) : bool := negb (Qle_bool b a).

Definition clampInt (v minVal maxVal : Z) : Z :=
  if v <? minVal then minVal
  else if v >? maxVal then maxVal
  else v.

Definition clampFloat (v minVal maxVal : Q) : Q :=
  if Qltb v minVal then minVal
  else if Qltb maxVal v then maxVal
  else v.

(** [Number(b)] for a BigInt [b]: the nearest integer with a significand of
    53 bits, ties to the even significand. *)
Definition Number_ofBigInt (b : Z) : Z :=
  let a := Z.abs b in
  if a <? 2 ^ 53 then b
  else
    let e := Z.log2 a - 52 in
    let q := Z.shiftr a e in
    let r := Z.land a (Z.ones e) in
    let half := Z.shiftl 1 (e - 1) in
    let q' :=
      if r <? half then q
      else if half <? r then q + 1
      else if Z.even q then q else q + 1 in
    Z.sgn b * Z.shiftl q' e.

(* ------------------------------------------------------------------ *)
(** ** Seed derivation *)

Definition FNV_OFFSET : Z := 1469598103934665603.
Definition FNV_PRIME : Z := 1099511628211.
Definition MASK63 : Z := 0x7fffffffffffffff.

(** One iteration of the loop of [seedFromString]: [h ^= c; h *= prime] on
    BigInts, which do not wrap. *)
Definition fnvStep (h c : Z) : Z := Z.lxor h c * FNV_PRIME.

Definition seedHash (seed : jsstring) : Z := fold_left fnvStep seed FNV_OFFSET.

(** [now] is the value of [Date.now()] at the call. *)
Definition seedFromString (now : Z) (seed : jsstring) : Z :=
  match seed with
  | [] => now
  | _ :: _ => Number_ofBigInt (Z.land (seedHash seed) MASK63)
  end.

(** The hash as the specification words it: 64-bit FNV-1a, one
    XOR-then-multiply step per character, masked to the low 63 bits. *)
Definition spec_fnv1a64_step (h c : Z) : Z :=
  (Z.lxor h c * FNV_PRIME) mod 2 ^ 64.

Definition spec_fnv1a64 (seed : jsstring) : Z :=
  fold_left spec_fnv1a64_step seed FNV_OFFSET.

Definition spec_fnv1a63 (seed : jsstring) : Z :=
  Z.land (spec_fnv1a64 seed) MASK63.

(* ------------------------------------------------------------------ *)
(** ** Tile batch normalizer *)

Record TileSpec : Type := mkTileSpec
  { spec_w : Z; spec_h : Z; spec_count : Q }.

Record TileBatch : Type := mkTileBatch
  { batch_w : Z; batch_h : Z; batch_count : Z }.

(** An element of the [fractions] array. *)
Record Fraction : Type := mkFraction { index : nat; frac : Q }.

(** [Array.prototype.sort] with a comparator: a stable sort that puts [a]
    before [b] when [cmp a b] is negative. *)
Fixpoint sortInsert {A : Type} (cmp : A -> A -> Q) (x : A) (l : list A)
  : list A :=
  match l with
  | [] => [x]
  | y :: l' =>
      if Qle_bool (cmp x y) 0 then x :: l else y :: sortInsert cmp x l'
  end.

Definition Array_sort {A : Type} (cmp : A -> A -> Q) (l : list A) : list A :=
  fold_right (sortInsert cmp) [] l.

(** [l.slice(0, e)]. *)
Definition Array_slice0 {A : Type} (l : list A) (e : Q) : list A :=
  let k := ToIntegerOrInfinity e in
  if k <? 0 then firstn (Z.to_nat (Z.max 0 (Z.of_nat (length l) + k))) l
  else firstn (Z.to_nat k) l.

(** [a[i] = f(a[i])] on an array; nothing happens out of range. *)
Fixpoint updateAt {A : Type} (f : A -> A) (i : nat) (l : list A) : list A :=
  match l, i with
  | [], _ => []
  | x :: l', O => f x :: l'
  | x :: l', S i' => x :: updateAt f i' l'
  end.

Definition Qsum (l : list Q) : Q := fold_left Qplus l 0%Q.
Definition Zsum (l : list Z) : Z := fold_left Z.add l 0.

Definition fracAscending (a b : Fraction) : Q :=
  if Qeq_bool (frac a) (frac b)
  then inject_Z (Z.of_nat (index a) - Z.of_nat (index b))
  else (frac a - frac b)%Q.

Definition fracDescending (a b : Fraction) : Q :=
  if Qeq_bool (frac a) (frac b)
  then inject_Z (Z.of_nat (index a) - Z.of_nat (index b))
  else (frac b - frac a)%Q.

Definition sumCounts (specs : list TileSpec) : Q :=
  Qsum (map spec_count specs).

Definition capScale (specs : list TileSpec) (capLimit : Q) : Q :=
  if Qltb 0 capLimit && Qltb capLimit (sumCounts specs)
  then (capLimit / sumCounts specs)%Q
  else 1%Q.

(** [scaledTotals] after the first [forEach]: entries whose adjusted count
    is not positive keep the 0 the array was filled with. *)
Definition scaledTotals (specs : list TileSpec) (scale : Q) : list Q :=
  map (fun s =>
         let adjusted := (spec_count s * scale)%Q in
         if Qle_bool adjusted 0 then 0%Q else adjusted) specs.

(** [fractions] after the first [forEach], in index order. *)
Fixpoint fractionsFrom (i : nat) (totals : list Q) : list Fraction :=
  match totals with
  | [] => []
  | adjusted :: rest =>
      let fr := (adjusted - inject_Z (Math_floor adjusted))%Q in
      if Qltb 0 fr then mkFraction i fr :: fractionsFrom (S i) rest
      else fractionsFrom (S i) rest
  end.

Definition targetTotal (specs : list TileSpec) (capLimit : Q) : Q :=
  let scale := capScale specs capLimit in
  let t := inject_Z (Math_round (Qsum (scaledTotals specs scale))) in
  if Qltb 0 capLimit
  then (if Qltb scale 1 then capLimit else Qmin capLimit t)
  else t.

Definition decrementFloor (floors : list Z) (f : Fraction) : list Z :=
  updateAt (fun v => if 0 <? v then v - 1 else v) (index f) floors.

Definition incrementFloor (floors : list Z) (f : Fraction) : list Z :=
  updateAt (fun v => v + 1) (index f) floors.

(** The two rounding branches of [finalizeTileBatches]; the result is the
    [floors] array as the last [forEach] reads it. *)
Definition adjustFloors (floors : list Z) (fractions : list Fraction)
  (target : Q) : list Z :=
  let totalFloors := inject_Z (Zsum floors) in
  let '(floors1, fractions1, totalFloors1) :=
    if Qltb target totalFloors
    then
      let sorted := Array_sort fracAscending fractions in
      (fold_left decrementFloor
         (Array_slice0 sorted (totalFloors - target)%Q) floors,
       sorted, target)
    else (floors, fractions, totalFloors) in
  if Qltb totalFloors1 target
  then
    let remaining := (target - totalFloors1)%Q in
    fold_left incrementFloor
      (Array_slice0 (Array_sort fracDescending fractions1) remaining) floors1
  else floors1.

Definition finalFloors (specs : list TileSpec) (capLimit : Q) : list Z :=
  let scale := capScale specs capLimit in
  let totals := scaledTotals specs scale in
  adjustFloors (map Math_floor totals) (fractionsFrom 0 totals)
    (targetTotal specs capLimit).

Fixpoint collectBatches (specs : list TileSpec) (floors : list Z)
  : list TileBatch :=
  match specs, floors with
  | s :: specs', count :: floors' =>
      if count <=? 0 then collectBatches specs' floors'
      else mkTileBatch (spec_w s) (spec_h s) count
             :: collectBatches specs' floors'
  | _, _ => []
  end.

Definition finalizeTileBatches (specs : list TileSpec) (capLimit : Q)
  : list TileBatch :=
  if Qeq_bool (sumCounts specs) 0 then []
  else collectBatches specs (finalFloors specs capLimit).

Definition totalCount (batches : list TileBatch) : Z :=
  Zsum (map batch_count batches).

(* ------------------------------------------------------------------ *)
(** ** Data model *)

Inductive MapMode : Type :=
| mode_center
| mode_weighted
| mode_islands
| mode_dual_continents
| mode_ring.

Record GenerationParams : Type := mkParams
  { width : Z;
    height : Z;
    tileString : jsstring;
    ka : Q;
    cap : Q;
    mode : MapMode;
    rings : Z;
    ringStart : Q;
    ringEnd : Q;
    seed : jsstring;
    logTone : bool;
    brownCap : Q;
    bgAlpha : Z;
    islands : Z;
    islandRFrac : Q;
    rotate : bool;
    polish : bool;
    n22 : Q;
    n21 : Q;
    n11 : Q }.

Record Point : Type := mkPoint { px : Z; py : Z }.

Record Color : Type := mkColor { cr : Z; cg : Z; cb : Z; ca : Z }.

(* ------------------------------------------------------------------ *)
(** ** Tile specification language *)

Inductive GenError : Type :=
| InvalidTileDimensions (part : jsstring)
| NonPositiveTileDimensions (part : jsstring)
| InvalidTileCount (part : jsstring)
| NoValidTileDefinitions
| NoTilesAfterCap.

Inductive result (A : Type) : Type :=
| Ok (a : A)
| Err (e : GenError).

Arguments Ok {A} a.
Arguments Err {A} e.

(** White space and line terminators of ECMAScript, by code unit. *)
Definition isWhiteSpace (c : Z) : bool :=
  ((9 <=? c) && (c <=? 13)) || (c =? 32) || (c =? 160) || (c =? 5760)
  || ((8192 <=? c) && (c <=? 8202)) || (c =? 8232) || (c =? 8233)
  || (c =? 8239) || (c =? 8287) || (c =? 12288) || (c =? 65279).

Fixpoint trimStart (s : jsstring) : jsstring :=
  match s with
  | c :: s' => if isWhiteSpace c then trimStart s' else s
  | [] => []
  end.

Definition String_trim (s : jsstring) : jsstring :=
  rev (trimStart (rev (trimStart s))).

(** [s.split(sep)] for a separator of one code unit. *)
Fixpoint String_split (sep : Z) (s : jsstring) : list jsstring :=
  match s with
  | [] => [[]]
  | c :: s' =>
      match String_split sep s' with
      | cur :: rest => if c =? sep then [] :: cur :: rest else (c :: cur) :: rest
      | [] => [[c]]
      end
  end.

(** The longest prefix of decimal digits, as digit values, and the rest. *)
Fixpoint takeDigits (s : jsstring) : list Z * jsstring :=
  match s with
  | c :: s' =>
      if (48 <=? c) && (c <=? 57)
      then let '(ds, rest) := takeDigits s' in (c - 48 :: ds, rest)
      else ([], s)
  | [] => ([], [])
  end.

Definition digitsValue (ds : list Z) : Z :=
  fold_left (fun acc d => 10 * acc + d) ds 0.

(** An optional sign: whether it is a minus, and the rest. *)
Definition takeSign (s : jsstring) : bool * jsstring :=
  match s with
  | 43 :: s' => (false, s')
  | 45 :: s' => (true, s')
  | _ => (false, s)
  end.

(** [parseInt(s, 10)]; [None] is NaN. *)
Definition parseInt10 (s : jsstring) : option Z :=
  let '(neg, s1) := takeSign (trimStart s) in
  match takeDigits s1 with
  | ([], _) => None
  | (ds, _) => Some (if neg : bool then - digitsValue ds else digitsValue ds)
  end.

(** The exponent part [e], [e+] or [e-] and digits at the head of [s], or 0
    when [s] does not start with one. *)
Definition takeExponent (s : jsstring) : Z :=
  match s with
  | c :: s' =>
      if (c =? 101) || (c =? 69) then
        let '(neg, s2) := takeSign s' in
        match takeDigits s2 with
        | ([], _) => 0
        | (ds, _) => if neg : bool then - digitsValue ds else digitsValue ds
        end
      else 0
  | [] => 0
  end.

(** [parseFloat(s)] when the result is finite; [None] is NaN or an
    infinity, which the caller rejects alike. *)
Definition parseFloat (s : jsstring) : option Q :=
  let '(neg, s1) := takeSign (trimStart s) in
  if match s1 with
     | 73 :: 110 :: 102 :: 105 :: 110 :: 105 :: 116 :: 121 :: _ => true
     | _ => false
     end
  then None
  else
    let '(ip, s2) := takeDigits s1 in
    let '(fp, s3) :=
      match s2 with
      | 46 :: s2' =>
          match ip, takeDigits s2' with
          | [], ([], _) => ([], s2)
          | _, r => r
          end
      | _ => ([], s2)
      end in
    match ip, fp with
    | [], [] => None
    | _, _ =>
        let mantissa :=
          (inject_Z (digitsValue (ip ++ fp))
           / inject_Z (10 ^ Z.of_nat (length fp)))%Q in
        let value := (mantissa * Qpower 10 (takeExponent s3))%Q in
        Some (if neg : bool then (- value)%Q else value)
    end.

Definition defaultTiles : list TileSpec :=
  [mkTileSpec 2 2 400; mkTileSpec 2 1 300; mkTileSpec 1 1 100].

(** The body of the loop of [parseTileList] on one element of [parts];
    [None] is [continue]. *)
Definition parseTilePart (partRaw : jsstring) : result (option TileSpec) :=
  let part := String_trim partRaw in
  match part with
  | [] => Ok None
  | _ :: _ =>
      let pieces := String_split 42 part in
      let dimStr := hd [] pieces in
      let countStr := nth_error pieces 1 in
      match String_split 120 dimStr with
      | [d0; d1] =>
          match parseInt10 (String_trim d0), parseInt10 (String_trim d1) with
          | Some w, Some h =>
              if (w <=? 0) || (h <=? 0) then Err (NonPositiveTileDimensions part)
              else
                let count :=
                  match countStr with
                  | Some (c :: cs) => parseFloat (String_trim (c :: cs))
                  | _ => Some 1%Q
                  end in
                match count with
                | None => Err (InvalidTileCount part)
                | Some count =>
                    if Qle_bool count 0 then Ok None
                    else Ok (Some (mkTileSpec w h count))
                end
          | _, _ => Err (NonPositiveTileDimensions part)
          end
      | _ => Err (InvalidTileDimensions part)
      end
  end.

Fixpoint parseTileParts (parts : list jsstring) : result (list TileSpec) :=
  match parts with
  | [] => Ok []
  | partRaw :: rest =>
      match parseTilePart partRaw with
      | Err e => Err e
      | Ok entry =>
          match parseTileParts rest with
          | Err e => Err e
          | Ok specs =>
              Ok (match entry with Some s => s :: specs | None => specs end)
          end
      end
  end.

Definition parseTileList (input : jsstring) : result (list TileSpec) :=
  let trimmed := String_trim input in
  match trimmed with
  | [] => Ok defaultTiles
  | _ :: _ =>
      match parseTileParts (String_split 44 trimmed) with
      | Err e => Err e
      | Ok [] => Err NoValidTileDefinitions
      | Ok specs => Ok specs
      end
  end.

(** [found.count += n] on the first entry of size [w] x [h], or [None] when
    [specs.find] finds none. *)
Fixpoint addToFound (specs : list TileSpec) (w h : Z) (n : Q)
  : option (list TileSpec) :=
  match specs with
  | [] => None
  | s :: rest =>
      if (spec_w s =? w) && (spec_h s =? h)
      then Some (mkTileSpec (spec_w s) (spec_h s) (spec_count s + n)%Q :: rest)
      else option_map (cons s) (addToFound rest w h n)
  end.

Definition applyLegacyEntry (specs : list TileSpec) (entry : Z * Z * Q)
  : list TileSpec :=
  let '(w, h, n) := entry in
  if Qle_bool n 0 then specs
  else
    match addToFound specs w h n with
    | Some specs' => specs'
    | None => specs ++ [mkTileSpec w h n]
    end.

Definition applyLegacyTiles (specs : list TileSpec) (n22 n21 n11 : Q)
  : list TileSpec :=
  fold_left applyLegacyEntry [(2, 2, n22); (2, 1, n21); (1, 1, n11)] specs.

Definition activateMultiplier (specs : list TileSpec) (ka : Q)
  : list TileSpec :=
  if Qle_bool ka 0 then specs
  else if Qeq_bool ka 1 then specs
  else map (fun s => mkTileSpec (spec_w s) (spec_h s) (spec_count s * ka)%Q)
         specs.

Definition finalizeSpecs (params : GenerationParams)
  : result (list TileBatch) :=
  match parseTileList (tileString params) with
  | Err e => Err e
  | Ok specs =>
      let specs :=
        applyLegacyTiles specs (n22 params) (n21 params) (n11 params) in
      Ok (finalizeTileBatches (activateMultiplier specs (ka params))
            (cap params))
  end.

(* ------------------------------------------------------------------ *)
(** ** Vocabulary of the properties of the normalizer *)

(** Every entry has a positive count, as the parser, the legacy merge and
    the multiplier leave them. *)
Definition positiveCounts (specs : list TileSpec) : Prop :=
  Forall (fun s => (0 < spec_count s)%Q) specs.

(** [f] may stand before [g] when the larger remainder goes first, and
    when the smaller remainder goes first; ties go by index. *)
Definition largerFirst (f g : Fraction) : Prop :=
  (frac g < frac f)%Q \/ ((frac f == frac g)%Q /\ (index f <= index g)%nat).

Definition smallerFirst (f g : Fraction) : Prop :=
  (frac f < frac g)%Q \/ ((frac f == frac g)%Q /\ (index f <= index g)%nat).

(** [i] is the index of an entry of [fs]. *)
Definition indexIn (i : nat) (fs : list Fraction) : bool :=
  existsb (Nat.eqb i) (map index fs).

(* ------------------------------------------------------------------ *)
(** ** Ring boundary table *)

(** The body of the loop [for (let i = 1; i <= segments; i++)] of
    [initRingBands], run [n] more times from index [i]. *)
Fixpoint ringLoop (n : nat) (i segments : Z) (start end_ step prev : Q)
  : list Q :=
  match n with
  | O => []
  | S n' =>
      let val :=
        if i =? 1 then start
        else if i =? segments then end_
        else (start + inject_Z (i - 1) * step)%Q in
      let val := clampFloat val prev 1 in
      val :: ringLoop n' (i + 1) segments start end_ step val
  end.

(** The bounds [start] and [end] after the adjustment at the head of
    [initRingBands]; they become [this.ringStart] and [this.ringEnd]. *)
Definition ringBounds (ringStart ringEnd : Q) : Q * Q :=
  let start := clampFloat ringStart 0 1 in
  let end_ := clampFloat ringEnd 0 1 in
  if Qle_bool end_ start then
    if Qle_bool 1 end_ then (clampFloat (end_ - (1 # 10)) 0 1, end_)
    else (start, clampFloat (start + (1 # 10)) 0 1)
  else (start, end_).

(** The adjustment as the specification words it: shrink the end by 0.1
    when it is already at least 1, else grow the start by 0.1. *)
Definition spec_ringBounds (ringStart ringEnd : Q) : Q * Q :=
  let start := clampFloat ringStart 0 1 in
  let end_ := clampFloat ringEnd 0 1 in
  if Qle_bool end_ start then
    if Qle_bool 1 end_ then (start, (end_ - (1 # 10))%Q)
    else ((start + (1 # 10))%Q, end_)
  else (start, end_).

(** [this.ringBoundaries] as [initRingBands] leaves it. *)
Definition ringTable (rings : Z) (ringStart ringEnd : Q) : list Q :=
  let '(start, end_) := ringBounds ringStart ringEnd in
  let segments := Z.max 1 rings in
  if segments =? 1 then [0%Q; Qmax start (Qmin 1 end_)]
  else
    let span := (end_ - start)%Q in
    let '(span, end_) :=
      if Qle_bool span 0
      then ((1 # 10)%Q, clampFloat (start + (1 # 10)) start 1)
      else (span, end_) in
    let step := (span / inject_Z (segments - 1))%Q in
    0%Q :: ringLoop (Z.to_nat segments) 1 segments start end_ step 0.

(* ------------------------------------------------------------------ *)
(** ** Coverage grid *)

(** [coverage[idx] += 1] on a [Uint16Array]: the stored value is reduced
    modulo 2^16, and a write outside the array is dropped. *)
Definition coverageIncr (coverage : list Z) (idx : Z) : list Z :=
  if idx <? 0 then coverage
  else updateAt (fun c => (c + 1) mod 65536) (Z.to_nat idx) coverage.

(** The integers [lo], [lo + 1], ..., below [hi]. *)
Definition zrange (lo hi : Z) : list Z :=
  map (fun k => lo + Z.of_nat k) (seq 0 (Z.to_nat (hi - lo))).

(** The rasterization of one tile without edge polish. *)
Definition rasterPlain (w_canvas : Z) (coverage : list Z) (x y w h : Z)
  : list Z :=
  fold_left
    (fun cov yy =>
       let rowOffset := yy * w_canvas in
       fold_left (fun cov' xx => coverageIncr cov' (rowOffset + xx))
         (zrange x (x + w)) cov)
    (zrange y (y + h)) coverage.

(** The rasterization of one tile with edge polish. *)
Definition rasterPolish (w_canvas h_canvas : Z) (coverage : list Z)
  (x y w h : Z) : list Z :=
  let padding := 1 in
  let radiusSq := 1 in
  let innerRight := x + w in
  let innerBottom := y + h in
  let startY := Z.max 0 (y - padding) in
  let endY := Z.min h_canvas (innerBottom + padding) in
  let startX := Z.max 0 (x - padding) in
  let endX := Z.min w_canvas (innerRight + padding) in
  fold_left
    (fun cov yy =>
       let rowOffset := yy * w_canvas in
       let insideY := (y <=? yy) && (yy <? innerBottom) in
       fold_left
         (fun cov' xx =>
            let insideX := (x <=? xx) && (xx <? innerRight) in
            let idx := rowOffset + xx in
            if insideX && insideY then coverageIncr cov' idx
            else
              let nearestX :=
                if xx <? x then x
                else if innerRight <=? xx then innerRight - 1 else xx in
              let nearestY :=
                if yy <? y then y
                else if innerBottom <=? yy then innerBottom - 1 else yy in
              let dx := xx - nearestX in
              let dy := yy - nearestY in
              if dx * dx + dy * dy <=? radiusSq then coverageIncr cov' idx
              else cov')
         (zrange startX endX) cov)
    (zrange startY endY) coverage.

(* ------------------------------------------------------------------ *)
(** ** Tone mapping: the part that needs no logarithm *)

Definition green : Color := mkColor 34 139 34 255.
Definition brown : Color := mkColor 139 69 19 255.

(** [water] of [generateMap]; [params.bgAlpha || 255] replaces a zero
    alpha by 255. *)
Definition water (params : GenerationParams) : Color :=
  mkColor 22 75 135
    (clampInt (if bgAlpha params =? 0 then 255 else bgAlpha params) 0 255).

(** The local [clamp] of [blendColor]. *)
Definition blendClamp (v : Q) : Z :=
  if Qltb v 0 then 0
  else if Qltb 255 v then 255
  else Math_round v.

Definition blendColor (a b : Color) (t : Q) : Color :=
  let mix (u v : Z) : Q := ((1 - t) * inject_Z u + t * inject_Z v)%Q in
  let alpha := if Qeq_bool (mix (ca a) (ca b)) 0 then 1%Q
               else mix (ca a) (ca b) in
  mkColor (blendClamp (mix (cr a) (cr b)))
          (blendClamp (mix (cg a) (cg b)))
          (blendClamp (mix (cb a) (cb b)))
          (blendClamp alpha).

(* ------------------------------------------------------------------ *)
(** ** Vocabulary of the properties of the merge *)



(* ------------------------------------------------------------------ *)
(** ** Requests *)

(** A request of the API.  Every field may be absent ([undefined] or
    [null]); the fields that the engine uses as integers hold integers. *)
Record MapRequest : Type := mkRequest
  { req_w : option Z;
    req_h : option Z;
    req_tiles : option jsstring;
    req_ka : option Q;
    req_cap : option Q;
    req_mode : option jsstring;
    req_rings : option Z;
    req_ringStart : option Q;
    req_ringEnd : option Q;
    req_seed : option jsstring;
    req_logTone : option Q;
    req_brownCap : option Q;
    req_bgA : option Z;
    req_islands : option Z;
    req_islandRFrac : option Q;
    req_rot : option Q;
    req_n22 : option Q;
    req_n21 : option Q;
    req_n11 : option Q;
    req_polish : option bool }.

(** [v ?? d]. *)
Definition nullish {A : Type} (v : option A) (d : A) : A :=
  match v with Some a => a | None => d end.

(** [v && v > 0 ? v : d] on an integer and on a rational field. *)
Definition positiveOr (v : option Z) (d : Z) : Z :=
  match v with
  | Some a => if 0 <? a then a else d
  | None => d
  end.

Definition positiveOrQ (v : option Q) (d : Q) : Q :=
  match v with
  | Some a => if Qltb 0 a then a else d
  | None => d
  end.

(** [v == null ? true : v !== 0]. *)
Definition flagOr (v : option Q) : bool :=
  match v with
  | Some a => negb (Qeq_bool a 0)
  | None => true
  end.

Definition jsstring_eqb (a b : jsstring) : bool :=
  if list_eq_dec Z.eq_dec a b then true else false.

(** What a lookup in [MODE_ALIASES] can give: a mode, or the value of a
    property that the object inherits from [Object.prototype]. *)
Inductive ModeValue : Type :=
| alias (m : MapMode)
| inheritedProperty.

Definition ownAliases : list (jsstring * MapMode) :=
  [ (codeUnits "merkez", mode_center);
    (codeUnits "center", mode_center);
    (codeUnits "agirlik", mode_weighted);
    (codeUnits "weighted", mode_weighted);
    (codeUnits "adalar", mode_islands);
    (codeUnits "islands", mode_islands);
    (codeUnits "iki-kita", mode_dual_continents);
    (codeUnits "dual-continents", mode_dual_continents);
    (codeUnits "dual-continent", mode_dual_continents);
    (codeUnits "two-continents", mode_dual_continents);
    (codeUnits "ring", mode_ring) ].

(** The property names of [Object.prototype]; their values are functions
    or objects, all of them truthy. *)
Definition objectPrototypeKeys : list jsstring :=
  map codeUnits
    [ "constructor"; "__defineGetter__"; "__defineSetter__";
      "hasOwnProperty"; "__lookupGetter__"; "__lookupSetter__";
      "isPrototypeOf"; "propertyIsEnumerable"; "toString"; "valueOf";
      "__proto__"; "toLocaleString" ]%string.

(** [MODE_ALIASES[key]]; [None] is [undefined]. *)
Definition MODE_ALIASES (key : jsstring) : option ModeValue :=
  match find (fun kv => jsstring_eqb (fst kv) key) ownAliases with
  | Some kv => Some (alias (snd kv))
  | None =>
      if existsb (jsstring_eqb key) objectPrototypeKeys
      then Some inheritedProperty
      else None
  end.

(** The arms that the [switch] statements of the generator select for a
    value of the mode field: a value that is no mode selects the default
    arms, which are those of the weighted mode. *)
Definition modeArm (v : ModeValue) : MapMode :=
  match v with
  | alias m => m
  | inheritedProperty => mode_weighted
  end.

Inductive RequestError : Type :=
| WidthNotPositive
| HeightNotPositive
| UnsupportedMode (requested : option jsstring)
| RingEndNotGreater.

Inductive Normalized : Type :=
| Returns (params : GenerationParams)
| Throws (e : RequestError).

(** [normalizeRequest]; [toLowerCase] is [String.prototype.toLowerCase].
    The mode field of the result holds the arms its value selects. *)
Definition normalizeRequest (toLowerCase : jsstring -> jsstring)
  (req : MapRequest) : Normalized :=
  let width := positiveOr (req_w req) 100 in
  let height := positiveOr (req_h req) 100 in
  if width <=? 0 then Throws WidthNotPositive
  else if height <=? 0 then Throws HeightNotPositive
  else
    let rawMode :=
      toLowerCase (nullish (req_mode req) (codeUnits "center")) in
    match MODE_ALIASES rawMode with
    | None => Throws (UnsupportedMode (req_mode req))
    | Some mode =>
        let rings := positiveOr (req_rings req) 10 in
        let ringStart :=
          clampFloat (nullish (req_ringStart req) (1 # 10)%Q) 0 1 in
        let ringEnd :=
          clampFloat (nullish (req_ringEnd req) (8 # 10)%Q) 0 1 in
        let adjusted :=
          clampFloat (ringStart + (5 # 100))%Q ringStart 1 in
        if Qle_bool ringEnd ringStart && Qeq_bool adjusted ringStart
        then Throws RingEndNotGreater
        else
          let ringEnd :=
            if Qle_bool ringEnd ringStart then adjusted else ringEnd in
          let ka := nullish (req_ka req) 1%Q in
          let cap := positiveOrQ (req_cap req) 0 in
          let logTone := flagOr (req_logTone req) in
          let brownCap := positiveOrQ (req_brownCap req) 8 in
          let bgAlpha := clampInt (nullish (req_bgA req) 0) 0 255 in
          let islands := positiveOr (req_islands req) 4 in
          let islandRFrac := positiveOrQ (req_islandRFrac req) (1 # 4) in
          let rotate := flagOr (req_rot req) in
          let polish :=
            match req_polish req with Some true => true | _ => false end in
          Returns
            (mkParams width height (nullish (req_tiles req) []) ka cap
               (modeArm mode) rings ringStart ringEnd
               (nullish (req_seed req) []) logTone brownCap bgAlpha islands
               islandRFrac rotate polish (nullish (req_n22 req) 0%Q)
               (nullish (req_n21 req) 0%Q) (nullish (req_n11 req) 0%Q))
    end.

(** The raw mode that [normalizeRequest] looks up. *)
Definition rawModeOf (toLowerCase : jsstring -> jsstring) (req : MapRequest)
  : jsstring :=
  toLowerCase (nullish (req_mode req) (codeUnits "center")).

(* ------------------------------------------------------------------ *)
(** ** The tile editor of the page

    [formatTiles] of [src/app/page.tsx] writes the tile string that the
    page sends to the API. *)

Record TileEntry : Type := mkTileEntry
  { entry_width : Q;
    entry_height : Q;
    entry_count : Q }.

(** [parts.join(sep)]. *)
Definition Array_join (sep : jsstring) (parts : list jsstring) : jsstring :=
  match parts with
  | [] => []
  | p :: rest => p ++ flat_map (fun q => sep ++ q) rest
  end.

(** The template literal of [formatTiles]; [toString] is the conversion of
    a number to a string. *)
Definition formatTile (toString : Q -> jsstring) (t : TileEntry) : jsstring :=
  toString (entry_width t) ++ codeUnits "x" ++ toString (entry_height t)
  ++ codeUnits "*" ++ toString (entry_count t).

Definition formatTiles (toString : Q -> jsstring) (tiles : list TileEntry)
  : jsstring :=
  Array_join (codeUnits ",") (map (formatTile toString) tiles).

(** The decimal digits of a non-negative integer, most significant first:
    what the conversion of a number to a string gives for an integer below
    2^53. *)
Fixpoint decimalDigitsFrom (fuel : nat) (n : Z) (acc : jsstring) : jsstring :=
  let acc' := (48 + n mod 10) :: acc in
  match fuel with
  | O => acc'
  | S fuel' =>
      if n / 10 =? 0 then acc' else decimalDigitsFrom fuel' (n / 10) acc'
  end.

Definition decimalDigits (n : Z) : jsstring :=
  decimalDigitsFrom (Z.to_nat (Z.log2 n)) n [].

Definition isDigit (c : Z) : bool := (48 <=? c) && (c <=? 57).

(** The value of a string of decimal digits. *)
Definition decimalValue (s : jsstring) : Z :=
  digitsValue (map (fun c => c - 48) s).

(** A tile of the editor whose three fields are integers, and the entry of
    the parser with the same fields. *)
Definition entryOf (t : Z * Z * Z) : TileEntry :=
  let '(w, h, c) := t in mkTileEntry (inject_Z w) (inject_Z h) (inject_Z c).

Definition specOf (t : Z * Z * Z) : TileSpec :=
  let '(w, h, c) := t in mkTileSpec w h (inject_Z c).

(** The integers from 1 to 2^53 - 1, which a number holds exactly. *)
Definition safePositive (n : Z) : Prop := 0 < n < 2 ^ 53.

(** A value that a byte of the pixel buffer holds as it is. *)
Definition isByte (v : Z) : Prop := 0 <= v <= 255.

(** A string that starts and ends with a digit. *)
Definition digitEnds (s : jsstring) : Prop :=
  isDigit (hd 0 s) = true /\ isDigit (last s 0) = true.

(** A tile whose three fields are such integers. *)
Definition safeTile (t : Z * Z * Z) : Prop :=
  let '(w, h, c) := t in safePositive w /\ safePositive h /\ safePositive c.

(* ------------------------------------------------------------------ *)
(** ** Binary64 numbers

    The values of a JavaScript [number] and the arithmetic of IEEE 754
    binary64, rounding to nearest, ties to even.  A finite value is the
    rational it stands for, in lowest terms; the sign of a zero is not
    modelled. *)

Inductive number : Type :=
| Finite (q : Q)
| PosInfinity
| NegInfinity
| NaN.

(** The nearest integer, ties to the even one. *)
Definition roundHalfEven (x : Q) : Z :=
  let f := Qfloor x in
  match Qcompare (x - inject_Z f) (1 # 2) with
  | Lt => f
  | Gt => f + 1
  | Eq => if Z.even f then f else f + 1
  end.

(** The least quantum of binary64 is 2^-1074; magnitudes are rounded in
    units of it.  [quantumShift n] is the binary exponent of the quantum
    of a magnitude of [n] units: 0 up to 53 bits, and what leaves 53
    significant bits above. *)
Definition scaleUnits : positive := 2 ^ 1074.

Definition quantumShift (n : Z) : Z :=
  if n <? 2 ^ 53 then 0 else Z.log2 n - 52.

Definition roundUnits (x : Q) : Z :=
  let s := quantumShift (Qfloor x) in
  roundHalfEven (x / inject_Z (2 ^ s)) * 2 ^ s.

(** The binary64 number nearest to [q]; a magnitude that rounds to 2^1024
    or more overflows. *)
Definition binary64 (q : Q) : number :=
  let units := roundUnits (Qabs q * inject_Z (Zpos scaleUnits)) in
  if 2 ^ 2098 <=? units
  then (if Qle_bool 0 q then PosInfinity else NegInfinity)
  else Finite (Qred (Qmake (Z.sgn (Qnum q) * units) scaleUnits)).

Definition Number_neg (a : number) : number :=
  match a with
  | Finite x => Finite (- x)
  | PosInfinity => NegInfinity
  | NegInfinity => PosInfinity
  | NaN => NaN
  end.

(** [a + b]. *)
Definition Number_add (a b : number) : number :=
  match a, b with
  | NaN, _ | _, NaN => NaN
  | PosInfinity, NegInfinity | NegInfinity, PosInfinity => NaN
  | PosInfinity, _ | _, PosInfinity => PosInfinity
  | NegInfinity, _ | _, NegInfinity => NegInfinity
  | Finite x, Finite y => binary64 (x + y)
  end.

(** [a - b]. *)
Definition Number_sub (a b : number) : number :=
  Number_add a (Number_neg b).

(** The infinity of the sign of [x], and NaN for a zero. *)
Definition signedInfinity (x : Q) : number :=
  if Qeq_bool x 0 then NaN
  else if Qle_bool 0 x then PosInfinity else NegInfinity.

(** [a * b]. *)
Definition Number_mul (a b : number) : number :=
  match a, b with
  | NaN, _ | _, NaN => NaN
  | Finite x, Finite y => binary64 (x * y)
  | Finite x, PosInfinity | PosInfinity, Finite x => signedInfinity x
  | Finite x, NegInfinity | NegInfinity, Finite x => signedInfinity (- x)
  | PosInfinity, PosInfinity | NegInfinity, NegInfinity => PosInfinity
  | PosInfinity, NegInfinity | NegInfinity, PosInfinity => NegInfinity
  end.

(** [a / b]; a zero divisor counts as +0. *)
Definition Number_div (a b : number) : number :=
  match a, b with
  | NaN, _ | _, NaN => NaN
  | Finite x, Finite y =>
      if Qeq_bool y 0 then signedInfinity x else binary64 (x / y)
  | Finite _, _ => Finite 0
  | PosInfinity, Finite y => if Qle_bool 0 y then PosInfinity else NegInfinity
  | NegInfinity, Finite y => if Qle_bool 0 y then NegInfinity else PosInfinity
  | _, _ => NaN
  end.

(** [a < b], [a <= b] and [a === b]; all false on NaN. *)
Definition Number_lt (a b : number) : bool :=
  match a, b with
  | NaN, _ | _, NaN => false
  | Finite x, Finite y => Qltb x y
  | _, NegInfinity | PosInfinity, _ => false
  | _, _ => true
  end.

Definition Number_eq (a b : number) : bool :=
  match a, b with
  | Finite x, Finite y => Qeq_bool x y
  | PosInfinity, PosInfinity | NegInfinity, NegInfinity => true
  | _, _ => false
  end.

Definition Number_le (a b : number) : bool :=
  Number_lt a b || Number_eq a b.

(** [Math.floor], [Math.round] and [Math.min] on numbers. *)
Definition Number_floor (a : number) : number :=
  match a with
  | Finite x => Finite (inject_Z (Math_floor x))
  | _ => a
  end.

Definition Number_round (a : number) : number :=
  match a with
  | Finite x => Finite (inject_Z (Math_round x))
  | _ => a
  end.

Definition Number_min (a b : number) : number :=
  match a, b with
  | NaN, _ | _, NaN => NaN
  | _, _ => if Number_lt b a then b else a
  end.

(** [l.slice(0, e)] for a number [e]. *)
Definition Number_slice0 {A : Type} (l : list A) (e : number) : list A :=
  match e with
  | Finite q => Array_slice0 l q
  | PosInfinity => l
  | NegInfinity | NaN => []
  end.

(** The integer [z] as a number. *)
Definition Number_ofZ (z : Z) : number := Finite (inject_Z z).

(** The unit roundoff of binary64. *)
Definition roundoff : Q := 1 # 2 ^ 53.

Definition unitScale : Q := inject_Z (Zpos scaleUnits).

(** The binary64 numbers among the rationals, in lowest terms. *)
Definition isBinary64 (q : Q) : Prop := binary64 q = Finite q.

(** The positive binary64 numbers. *)
Definition positiveNumber (a : number) : Prop :=
  exists q : Q, a = Finite q /\ isBinary64 q /\ (0 < q)%Q.

(** The rational a finite number stands for. *)
Definition Number_value (a : number) : Q :=
  match a with
  | Finite q => q
  | _ => 0%Q
  end.

(** An entry of [fractions] with its remainder in lowest terms. *)
Definition reduceFraction (f : Fraction) : Fraction :=
  mkFraction (index f) (Qred (frac f)).

(* ------------------------------------------------------------------ *)
(** ** The tile batch normalizer in binary64

    [finalizeTileBatches] with the arithmetic the program runs it in.
    [fractions] keeps the rational value of each remainder: a remainder
    [adjusted - base] that passes [frac > 0] is finite
    ([remainder_finite]), and the comparators of the two sorts are used
    for their sign only, which is the sign of the exact difference of two
    binary64 numbers ([binary64_sub_sign]). *)

Module Binary64.

Record TileSpec : Type := mkTileSpec
  { spec_w : Z; spec_h : Z; spec_count : number }.

Record TileBatch : Type := mkTileBatch
  { batch_w : Z; batch_h : Z; batch_count : number }.

Definition sumCounts (specs : list TileSpec) : number :=
  fold_left Number_add (map spec_count specs) (Finite 0).

Definition capScale (specs : list TileSpec) (capLimit : number) : number :=
  if Number_lt (Finite 0) capLimit && Number_lt capLimit (sumCounts specs)
  then Number_div capLimit (sumCounts specs)
  else Finite 1.

(** [adjusted] of the first [forEach], entry by entry. *)
Definition adjustedCounts (specs : list TileSpec) (scale : number)
  : list number :=
  map (fun s => Number_mul (spec_count s) scale) specs.

(** [scaledTotals] and [floors] after the first [forEach]: an entry whose
    adjusted count is [<= 0] keeps the 0 the arrays were filled with. *)
Definition scaledTotals (adjusted : list number) : list number :=
  map (fun a => if Number_le a (Finite 0) then Finite 0 else a) adjusted.

Definition floorsOf (adjusted : list number) : list number :=
  map (fun a => if Number_le a (Finite 0) then Finite 0 else Number_floor a)
    adjusted.

(** [totalFloors] after the first [forEach]. *)
Definition totalFloorsOf (adjusted : list number) : number :=
  fold_left
    (fun acc a =>
       if Number_le a (Finite 0) then acc else Number_add acc (Number_floor a))
    adjusted (Finite 0).

(** [fractions] after the first [forEach], in index order. *)
Fixpoint fractionsFrom (i : nat) (adjusted : list number) : list Fraction :=
  match adjusted with
  | [] => []
  | a :: rest =>
      if Number_le a (Finite 0) then fractionsFrom (S i) rest
      else
        match Number_sub a (Number_floor a) with
        | Finite fr =>
            if Qltb 0 fr then mkFraction i fr :: fractionsFrom (S i) rest
            else fractionsFrom (S i) rest
        | _ => fractionsFrom (S i) rest
        end
  end.

Definition targetTotal (specs : list TileSpec) (capLimit : number) : number :=
  let scale := capScale specs capLimit in
  let totals := scaledTotals (adjustedCounts specs scale) in
  let t := Number_round (fold_left Number_add totals (Finite 0)) in
  if Number_lt (Finite 0) capLimit
  then (if Number_lt scale (Finite 1) then capLimit else Number_min capLimit t)
  else t.

Definition decrementFloor (floors : list number) (f : Fraction)
  : list number :=
  updateAt
    (fun v => if Number_lt (Finite 0) v then Number_sub v (Finite 1) else v)
    (index f) floors.

Definition incrementFloor (floors : list number) (f : Fraction)
  : list number :=
  updateAt (fun v => Number_add v (Finite 1)) (index f) floors.

(** The two rounding branches. *)
Definition adjustFloors (floors : list number) (totalFloors : number)
  (fractions : list Fraction) (target : number) : list number :=
  let '(floors1, fractions1, totalFloors1) :=
    if Number_lt target totalFloors
    then
      let sorted := Array_sort fracAscending fractions in
      (fold_left decrementFloor
         (Number_slice0 sorted (Number_sub totalFloors target)) floors,
       sorted, target)
    else (floors, fractions, totalFloors) in
  if Number_lt totalFloors1 target
  then
    let remaining := Number_sub target totalFloors1 in
    fold_left incrementFloor
      (Number_slice0 (Array_sort fracDescending fractions1) remaining) floors1
  else floors1.

Definition finalFloors (specs : list TileSpec) (capLimit : number)
  : list number :=
  let adjusted := adjustedCounts specs (capScale specs capLimit) in
  adjustFloors (floorsOf adjusted) (totalFloorsOf adjusted)
    (fractionsFrom 0 adjusted) (targetTotal specs capLimit).

Fixpoint collectBatches (specs : list TileSpec) (floors : list number)
  : list TileBatch :=
  match specs, floors with
  | s :: specs', count :: floors' =>
      if Number_le count (Finite 0) then collectBatches specs' floors'
      else mkTileBatch (spec_w s) (spec_h s) count
             :: collectBatches specs' floors'
  | _, _ => []
  end.

Definition finalizeTileBatches (specs : list TileSpec) (capLimit : number)
  : list TileBatch :=
  if Number_eq (sumCounts specs) (Finite 0) then []
  else collectBatches specs (finalFloors specs capLimit).

(** What [placeTiles] adds up: [totalPlacements += batch.count]. *)
Definition totalCount (batches : list TileBatch) : number :=
  fold_left Number_add (map batch_count batches) (Finite 0).

(** The tile specs that reach the normalizer have positive counts. *)
Definition positiveCounts (specs : list TileSpec) : Prop :=
  Forall (fun s => positiveNumber (spec_count s)) specs.

(** The counts as rationals. *)
Definition exactCounts (specs : list TileSpec) : list Q :=
  map (fun s => Number_value (spec_count s)) specs.

(** The range in which the rounding errors of the normalizer stay below
    one unit, for an integer cap [k]: under a cap, twice the number of
    entries plus two, times the cap plus one, is at most 2^53, and the
    counts sum to at most 2^1000; without one, the integer parts of the
    counts and the number of entries sum to at most 2^53. *)
Definition withinPrecision (specs : list TileSpec) (k : Z) : Prop :=
  if 0 <? k
  then 2 * (Z.of_nat (length specs) + 2) * (k + 1) <= 2 ^ 53
       /\ (Qsum (exactCounts specs) <= inject_Z (2 ^ 1000))%Q
  else Zsum (map Qfloor (exactCounts specs)) + Z.of_nat (length specs)
       <= 2 ^ 53.

End Binary64.

(** The tiles [1x1*1,2x1*2,2x2*7], and the count [1e308]. *)
Definition sevenTenths : list Binary64.TileSpec :=
  [Binary64.mkTileSpec 1 1 (Number_ofZ 1);
   Binary64.mkTileSpec 2 1 (Number_ofZ 2);
   Binary64.mkTileSpec 2 2 (Number_ofZ 7)].

Definition e308 : number := binary64 (inject_Z (10 ^ 308)).

(* ------------------------------------------------------------------ *)
(** ** The engine, over the library functions it calls *)

Section Engine.

(** The state of a [seedrandom] generator, and [seedrandom(String(seed),
    { state: true })] and [quick()] on it. *)
Variable PRNG : Type.
Variable seedrandom : Z -> PRNG.
Variable quick : PRNG -> Q * PRNG.

Variables Math_cos Math_sin Math_sqrt Math_log : Q -> Q.
Variables Math_pow Math_hypot : Q -> Q -> Q.
Variable Math_PI : Q.

(** [PNG.sync.write] on an image of the given width, height and RGBA
    data. *)
Variable PNG_sync_write : Z -> Z -> list Z -> list Z.

Local Open Scope Q_scope.

Definition Number_EPSILON : Q := 1 # 4503599627370496.

(** *** Deterministic RNG *)

Record RNG : Type := mkRNG { uniform : PRNG; spare : option Q }.

(** A computation that draws from the one [RNG] object of a run. *)
Definition Rand (A : Type) : Type := RNG -> A * RNG.

Definition ret {A : Type} (a : A) : Rand A := fun r => (a, r).

Definition bind {A B : Type} (m : Rand A) (k : A -> Rand B) : Rand B :=
  fun r => let '(a, r') := m r in k a r'.

Notation "x <- m ;; k" := (bind m (fun x => k))
  (at level 61, m at next level, right associativity).

Definition RNG_float : Rand Q :=
  fun r => let '(u, g) := quick (uniform r) in (u, mkRNG g (spare r)).

Definition RNG_intn (n : Z) : Rand Z :=
  if (n <=? 0)%Z then ret 0%Z
  else u <- RNG_float ;; ret (Math_floor (u * inject_Z n)).

Definition orEpsilon (u : Q) : Q :=
  if Qeq_bool u 0 then Number_EPSILON else u.

Definition RNG_normFloat64 : Rand Q :=
  fun r =>
    match spare r with
    | Some value => (value, mkRNG (uniform r) None)
    | None =>
        let '(u0, r1) := RNG_float r in
        let '(v0, r2) := RNG_float r1 in
        let u := orEpsilon u0 in
        let v := orEpsilon v0 in
        let mag := Math_sqrt (-2 * Math_log u) in
        let z0 := mag * Math_cos (2 * Math_PI * v) in
        let z1 := mag * Math_sin (2 * Math_PI * v) in
        (z0, mkRNG (uniform r2) (Some z1))
    end.

(** *** Placement engine *)

Record Generator : Type := mkGenerator
  { g_width : Z;
    g_height : Z;
    g_mode : MapMode;
    g_rings : Z;
    g_ringStart : Q;
    g_ringEnd : Q;
    g_islands : Z;
    g_islandRFrac : Q;
    islandCenters : list Point;
    continentCenters : list Point;
    ringBoundaries : list Q;
    totalArea : Z;
    sumX : Q;
    sumY : Q }.

(** The callback of [Array.from({ length: count }).map] in [initIslands],
    run [count] times. *)
Fixpoint islandLoop (count : nat) (w h margin : Z) : Rand (list Point) :=
  match count with
  | O => ret []
  | S count' =>
      dx <- (if (0 <? w - 2 * margin)%Z then RNG_intn (w - 2 * margin)
             else ret 0%Z) ;;
      dy <- (if (0 <? h - 2 * margin)%Z then RNG_intn (h - 2 * margin)
             else ret 0%Z) ;;
      rest <- islandLoop count' w h margin ;;
      ret (mkPoint (margin + dx) (margin + dy) :: rest)
  end.

Definition initIslands (w h islands_ : Z) : Rand (list Point) :=
  let count := Z.max 1 (if (islands_ =? 0)%Z then 3 else islands_) in
  let minDim := Z.min w h in
  let margin := Math_floor (inject_Z minDim * (1 # 10)) in
  islandLoop (Z.to_nat count) w h margin.

Definition initContinents (w h : Z) : list Point :=
  [ mkPoint (Math_floor (inject_Z w / 4)) (Math_floor (inject_Z h / 2));
    mkPoint (Math_floor (inject_Z (3 * w) / 4)) (Math_floor (inject_Z h / 2)) ].

(** The constructor of [Generator]. *)
Definition newGenerator (params : GenerationParams) : Rand Generator :=
  let base :=
    mkGenerator (width params) (height params) (mode params) (rings params)
      (ringStart params) (ringEnd params) (islands params)
      (islandRFrac params) [] [] [] 0%Z 0 0 in
  match mode params with
  | mode_islands =>
      centers <- initIslands (width params) (height params) (islands params) ;;
      ret (mkGenerator (width params) (height params) (mode params)
             (rings params) (ringStart params) (ringEnd params)
             (islands params) (islandRFrac params) centers [] [] 0%Z 0 0)
  | mode_dual_continents =>
      ret (mkGenerator (width params) (height params) (mode params)
             (rings params) (ringStart params) (ringEnd params)
             (islands params) (islandRFrac params) []
             (initContinents (width params) (height params)) [] 0%Z 0 0)
  | mode_ring =>
      let '(start, end_) := ringBounds (ringStart params) (ringEnd params) in
      ret (mkGenerator (width params) (height params) (mode params)
             (rings params) start end_
             (islands params) (islandRFrac params) [] []
             (ringTable (rings params) (ringStart params) (ringEnd params))
             0%Z 0 0)
  | _ => ret base
  end.

Definition randomPlacement (g : Generator) (tw th : Z) : Rand Point :=
  let spanX := Z.max 0 (g_width g - tw) in
  let spanY := Z.max 0 (g_height g - th) in
  x <- (if (0 <? spanX)%Z then RNG_intn (spanX + 1) else ret 0%Z) ;;
  y <- (if (0 <? spanY)%Z then RNG_intn (spanY + 1) else ret 0%Z) ;;
  ret (mkPoint x y).

(** The first loop of [selectRingSegment]: the weight of every segment from
    index [i] on. [bounds] is the table from index [i]. *)
Fixpoint ringWeights (bounds : list Q) (start end_ span : Q) : list Q :=
  match bounds with
  | rawInner :: ((rawOuter :: _) as rest) =>
      let inner := Qmax rawInner start in
      let outer := Qmin rawOuter end_ in
      let weight :=
        if Qle_bool outer inner then 0
        else
          let mid := (inner + outer) / 2 in
          let normalized := clampFloat ((mid - start) / span) 0 1 in
          (2 # 100) + Math_pow normalized (3 # 2) in
      weight :: ringWeights rest start end_ span
  | _ => []
  end.

(** The second loop of [selectRingSegment]. *)
Fixpoint pickSegment (weights : list Q) (i : Z) (threshold : Q)
  (last : Z) : Z :=
  match weights with
  | [] => last
  | w :: rest =>
      let threshold := threshold - w in
      if Qle_bool threshold 0 then i
      else pickSegment rest (i + 1)%Z threshold last
  end.

Definition selectRingSegment (g : Generator) : Rand Z :=
  let segments := (Z.of_nat (length (ringBoundaries g)) - 1)%Z in
  if (segments <=? 0)%Z then ret (-1)%Z
  else
    let start := clampFloat (g_ringStart g) 0 1 in
    let end_ := clampFloat (g_ringEnd g) start 1 in
    let span := Qmax (end_ - start) (1 # 1000) in
    let weights := ringWeights (ringBoundaries g) start end_ span in
    let totalWeight := Qsum weights in
    if Qle_bool totalWeight 0 then ret (segments - 1)%Z
    else
      u <- RNG_float ;;
      ret (pickSegment weights 0%Z (u * totalWeight) (segments - 1)%Z).

(** The point of the ring at radius fraction [radiusFrac] and angle
    [theta], as a clamped tile position. *)
Definition ringPoint (g : Generator) (tw th : Z) (radiusFrac theta : Q)
  : Point :=
  let minDim := Z.min (g_width g) (g_height g) in
  let radiusMax := inject_Z minDim / 2 in
  let radius := radiusFrac * radiusMax in
  let cx := inject_Z (g_width g) / 2 + Math_cos theta * radius in
  let cy := inject_Z (g_height g) / 2 + Math_sin theta * radius in
  mkPoint
    (clampInt (Math_round cx - Math_floor (inject_Z tw / 2)) 0
       (g_width g - tw))
    (clampInt (Math_round cy - Math_floor (inject_Z th / 2)) 0
       (g_height g - th)).

(** [ringBoundaries[i]]. *)
Definition boundaryAt (g : Generator) (i : Z) : Q :=
  nth (Z.to_nat i) (ringBoundaries g) 0.

(** The loop [for (let attempt = 0; attempt < 12; attempt++)] of
    [positionRing]; [None] when every attempt ran into [continue]. *)
Fixpoint ringAttempts (n : nat) (g : Generator) (tw th : Z)
  : Rand (option Point) :=
  match n with
  | O => ret None
  | S n' =>
      segment <- selectRingSegment g ;;
      if (segment <? 0)%Z
         || (Z.of_nat (length (ringBoundaries g)) <=? segment + 1)%Z
      then ringAttempts n' g tw th
      else
        let inner := Qmax (boundaryAt g segment) (g_ringStart g) in
        let outer :=
          Qmin (Qmax inner (boundaryAt g (segment + 1))) (g_ringEnd g) in
        if Qle_bool outer inner then ringAttempts n' g tw th
        else
          u <- RNG_float ;;
          v <- RNG_float ;;
          ret (Some (ringPoint g tw th (inner + u * (outer - inner))
                       (v * 2 * Math_PI)))
  end.

Definition positionRing (g : Generator) (tw th : Z) : Rand Point :=
  found <- ringAttempts 12 g tw th ;;
  match found with
  | Some p => ret p
  | None =>
      let fallbackSpan := Qmax (g_ringEnd g - g_ringStart g) 0 in
      if Qltb 0 fallbackSpan then
        u <- RNG_float ;;
        v <- RNG_float ;;
        ret (ringPoint g tw th (g_ringStart g + u * fallbackSpan)
               (v * 2 * Math_PI))
      else randomPlacement g tw th
  end.

(** *** Centre mode *)

Definition centerFallback (g : Generator) (tw th : Z) : Point :=
  let centerX := inject_Z (g_width g) / 2 in
  let centerY := inject_Z (g_height g) / 2 in
  mkPoint
    (clampInt (Math_round (centerX - inject_Z tw / 2)) 0 (g_width g - tw))
    (clampInt (Math_round (centerY - inject_Z th / 2)) 0 (g_height g - th)).

(** The rejection loop of [sampleCenteredDisk]. *)
Fixpoint diskAttempts (n : nat) (g : Generator) (tw th : Z)
  (maxOffsetX maxOffsetY : Q) : Rand (option Point) :=
  match n with
  | O => ret None
  | S n' =>
      let centerX := inject_Z (g_width g) / 2 in
      let centerY := inject_Z (g_height g) / 2 in
      u <- RNG_float ;;
      let theta := u * 2 * Math_PI in
      v <- RNG_float ;;
      let radiusFactor := Math_sqrt v in
      let dx := Math_cos theta * maxOffsetX * radiusFactor in
      let dy := Math_sin theta * maxOffsetY * radiusFactor in
      let tileCenterX :=
        clampFloat (centerX + dx) (inject_Z tw / 2)
          (inject_Z (g_width g) - inject_Z tw / 2) in
      let tileCenterY :=
        clampFloat (centerY + dy) (inject_Z th / 2)
          (inject_Z (g_height g) - inject_Z th / 2) in
      let x := clampInt (Math_round (tileCenterX - inject_Z tw / 2)) 0
                 (g_width g - tw) in
      let y := clampInt (Math_round (tileCenterY - inject_Z th / 2)) 0
                 (g_height g - th) in
      if (0 <=? x)%Z && (x <=? g_width g - tw)%Z
         && (0 <=? y)%Z && (y <=? g_height g - th)%Z
      then ret (Some (mkPoint x y))
      else diskAttempts n' g tw th maxOffsetX maxOffsetY
  end.

Definition sampleCenteredDisk (g : Generator) (tw th : Z) (fraction : Q)
  : Rand Point :=
  let halfW := inject_Z (g_width g) / 2 in
  let halfH := inject_Z (g_height g) / 2 in
  let regionRadiusX := Qmin halfW (inject_Z (g_width g) * fraction / 2) in
  let regionRadiusY := Qmin halfH (inject_Z (g_height g) * fraction / 2) in
  let maxOffsetX := Qmax 0 (Qmin regionRadiusX (halfW - inject_Z tw / 2)) in
  let maxOffsetY := Qmax 0 (Qmin regionRadiusY (halfH - inject_Z th / 2)) in
  if Qeq_bool maxOffsetX 0 && Qeq_bool maxOffsetY 0
  then ret (centerFallback g tw th)
  else
    found <- diskAttempts 16 g tw th maxOffsetX maxOffsetY ;;
    match found with
    | Some p => ret p
    | None => ret (centerFallback g tw th)
    end.

Definition positionCenter (g : Generator) (tw th : Z) : Rand Point :=
  roll <- RNG_float ;;
  if Qltb roll (7 # 10) then sampleCenteredDisk g tw th (3 # 10)
  else if Qltb roll (99 # 100) then sampleCenteredDisk g tw th (1 # 2)
  else randomPlacement g tw th.

(** *** Weighted mode *)

Definition centerOfMass (g : Generator) : option (Q * Q) :=
  if (totalArea g <=? 0)%Z then None
  else Some (sumX g / inject_Z (totalArea g), sumY g / inject_Z (totalArea g)).

Definition distanceAfterPlacement (g : Generator) (x y tw th : Z)
  (targetX targetY : Q) : Q :=
  let area := (tw * th)%Z in
  if (area <=? 0)%Z then
    match centerOfMass g with
    | None => 0
    | Some (cx, cy) => Math_hypot (cx - targetX) (cy - targetY)
    end
  else
    let total := (totalArea g + area)%Z in
    let tileCenterX := inject_Z x + inject_Z tw / 2 in
    let tileCenterY := inject_Z y + inject_Z th / 2 in
    let newCx := (sumX g + tileCenterX * inject_Z area) / inject_Z total in
    let newCy := (sumY g + tileCenterY * inject_Z area) / inject_Z total in
    Math_hypot (newCx - targetX) (newCy - targetY).

(** The loop over random candidates of [positionWeighted]; [currentDist] is
    [None] for [Number.POSITIVE_INFINITY]. *)
Fixpoint weightedAttempts (n : nat) (g : Generator) (tw th : Z)
  (targetX targetY : Q) (currentDist : option Q)
  (best : Point) (bestScore : Q) : Rand Point :=
  match n with
  | O => ret best
  | S n' =>
      p <- randomPlacement g tw th ;;
      let score :=
        distanceAfterPlacement g (px p) (py p) tw th targetX targetY in
      if Qltb score bestScore then
        match currentDist with
        | Some d =>
            if Qle_bool score (d * (7 # 10)) then ret p
            else weightedAttempts n' g tw th targetX targetY currentDist
                   p score
        | None =>
            weightedAttempts n' g tw th targetX targetY currentDist p score
        end
      else weightedAttempts n' g tw th targetX targetY currentDist
             best bestScore
  end.

Definition positionWeighted (g : Generator) (tw th : Z) : Rand Point :=
  let targetX := inject_Z (g_width g) / 2 in
  let targetY := inject_Z (g_height g) / 2 in
  let centerX :=
    clampInt (Math_round targetX - Math_floor (inject_Z tw / 2)) 0
      (g_width g - tw) in
  let centerY :=
    clampInt (Math_round targetY - Math_floor (inject_Z th / 2)) 0
      (g_height g - th) in
  let best := mkPoint centerX centerY in
  let bestScore :=
    distanceAfterPlacement g centerX centerY tw th targetX targetY in
  let '(currentDist, best, bestScore) :=
    match centerOfMass g with
    | None => (None, best, bestScore)
    | Some (cx, cy) =>
        let currentDist := Math_hypot (cx - targetX) (cy - targetY) in
        let mirrorCenterX := targetX * 2 - cx in
        let mirrorCenterY := targetY * 2 - cy in
        let mirrorX :=
          clampInt (Math_round mirrorCenterX - Math_floor (inject_Z tw / 2))
            0 (g_width g - tw) in
        let mirrorY :=
          clampInt (Math_round mirrorCenterY - Math_floor (inject_Z th / 2))
            0 (g_height g - th) in
        let mirrorScore :=
          distanceAfterPlacement g mirrorX mirrorY tw th targetX targetY in
        if Qltb mirrorScore bestScore
        then (Some currentDist, mkPoint mirrorX mirrorY, mirrorScore)
        else (Some currentDist, best, bestScore)
    end in
  weightedAttempts 24 g tw th targetX targetY currentDist best bestScore.

(** *** Islands and dual continents *)

Definition positionIslands (g : Generator) (tw th : Z) : Rand Point :=
  match islandCenters g with
  | [] => positionCenter g tw th
  | first :: _ =>
      i <- RNG_intn (Z.of_nat (length (islandCenters g))) ;;
      let center := nth (Z.to_nat i) (islandCenters g) first in
      let radiusFrac :=
        Qmax (if Qeq_bool (g_islandRFrac g) 0 then 1 # 4
              else g_islandRFrac g) (5 # 100) in
      let maxRadius :=
        radiusFrac * inject_Z (Z.min (g_width g) (g_height g)) in
      u <- RNG_float ;;
      let radius := u * maxRadius in
      v <- RNG_float ;;
      let theta := v * 2 * Math_PI in
      let cx := inject_Z (px center) + Math_cos theta * radius in
      let cy := inject_Z (py center) + Math_sin theta * radius in
      ret (mkPoint
             (clampInt (Math_round cx - Math_floor (inject_Z tw / 2)) 0
                (g_width g - tw))
             (clampInt (Math_round cy - Math_floor (inject_Z th / 2)) 0
                (g_height g - th)))
  end.

(** The loop [for (let attempt = 0; attempt < 6; attempt++)] of
    [positionDualContinents]. *)
Fixpoint continentAttempts (n : nat) (g : Generator) (tw th : Z)
  (center : Point) (sigmaX sigmaY : Q) : Rand (option Point) :=
  match n with
  | O => ret None
  | S n' =>
      nx <- RNG_normFloat64 ;;
      let x := Math_round (inject_Z (px center) + nx * sigmaX) in
      ny <- RNG_normFloat64 ;;
      let y := Math_round (inject_Z (py center) + ny * sigmaY) in
      if (0 <=? x)%Z && (x <=? g_width g - tw)%Z
         && (0 <=? y)%Z && (y <=? g_height g - th)%Z
      then ret (Some (mkPoint x y))
      else continentAttempts n' g tw th center sigmaX sigmaY
  end.

Definition positionDualContinents (g : Generator) (tw th : Z) : Rand Point :=
  match continentCenters g with
  | [] => positionCenter g tw th
  | first :: _ =>
      i <- RNG_intn (Z.of_nat (length (continentCenters g))) ;;
      let center := nth (Z.to_nat i) (continentCenters g) first in
      let sigmaX := inject_Z (g_width g) / 10 in
      let sigmaY := inject_Z (g_height g) / 6 in
      found <- continentAttempts 6 g tw th center sigmaX sigmaY ;;
      match found with
      | Some p => ret p
      | None => positionCenter g tw th
      end
  end.

Definition positionForTile (g : Generator) (tw th : Z) : Rand Point :=
  if (g_width g <=? tw)%Z || (g_height g <=? th)%Z then ret (mkPoint 0 0)
  else
    match g_mode g with
    | mode_center => positionCenter g tw th
    | mode_weighted => positionWeighted g tw th
    | mode_islands => positionIslands g tw th
    | mode_dual_continents => positionDualContinents g tw th
    | mode_ring => positionRing g tw th
    end.

Definition recordPlacement (g : Generator) (x y tw th : Z) : Generator :=
  let area := (tw * th)%Z in
  if (area <=? 0)%Z then g
  else
    let centerX := inject_Z x + inject_Z tw / 2 in
    let centerY := inject_Z y + inject_Z th / 2 in
    mkGenerator (g_width g) (g_height g) (g_mode g) (g_rings g)
      (g_ringStart g) (g_ringEnd g) (g_islands g) (g_islandRFrac g)
      (islandCenters g) (continentCenters g) (ringBoundaries g)
      (totalArea g + area)%Z
      (sumX g + centerX * inject_Z area)
      (sumY g + centerY * inject_Z area).

(** *** Coverage accumulation *)

(** One iteration of the inner loop of [placeTiles]: one unit of [batch]. *)
Definition placeUnit (params : GenerationParams) (batch : TileBatch)
  (st : Generator * list Z) : Rand (Generator * list Z) :=
  let '(generator, coverage) := st in
  let w := batch_w batch in
  let h := batch_h batch in
  swap <- (if rotate params && negb (w =? h)%Z
           then (k <- RNG_intn 2 ;; ret (k =? 0)%Z)
           else ret false) ;;
  let '(w, h) := if swap : bool then (h, w) else (w, h) in
  if (w <=? 0)%Z || (h <=? 0)%Z || (width params <? w)%Z
     || (height params <? h)%Z
  then ret st
  else
    p <- positionForTile generator w h ;;
    let generator' := recordPlacement generator (px p) (py p) w h in
    ret (generator',
         if polish params
         then rasterPolish (width params) (height params) coverage
                (px p) (py p) w h
         else rasterPlain (width params) coverage (px p) (py p) w h).

Fixpoint placeUnits (n : nat) (params : GenerationParams) (batch : TileBatch)
  (st : Generator * list Z) : Rand (Generator * list Z) :=
  match n with
  | O => ret st
  | S n' =>
      st' <- placeUnit params batch st ;;
      placeUnits n' params batch st'
  end.

Fixpoint placeBatches (params : GenerationParams) (batches : list TileBatch)
  (st : Generator * list Z) (totalPlacements : Z)
  : Rand (Generator * list Z * Z) :=
  match batches with
  | [] => ret (st, totalPlacements)
  | batch :: rest =>
      st' <- placeUnits (Z.to_nat (batch_count batch)) params batch st ;;
      placeBatches params rest st' (totalPlacements + batch_count batch)%Z
  end.

Definition placeTiles (generator : Generator) (params : GenerationParams)
  (batches : list TileBatch) (coverage : list Z)
  : Rand (Generator * list Z * Z) :=
  placeBatches params batches (generator, coverage) 0%Z.

(** *** Tone mapping *)

Definition coverageToColor (coverage : Z) (brownCap : Q) (logTone : bool)
  (green brown : Color) : Color :=
  if (coverage <=? 0)%Z then mkColor 0 0 0 0
  else if (coverage =? 1)%Z then green
  else
    let cap := Qmax 1 brownCap in
    let ratio :=
      if logTone
      then Math_log (inject_Z coverage) / Math_log (cap + 1)
      else (inject_Z coverage - 1) / cap in
    blendColor green brown (clampFloat ratio 0 1).

(** The colour the pixel loop of [generateMap] gives to a cell of coverage
    [cov]. *)
Definition pixelColor (params : GenerationParams) (cov : Z) : Color :=
  if (cov =? 0)%Z then water params
  else coverageToColor cov (brownCap params) (logTone params) green brown.

(** A store into the byte buffer [png.data]. *)
Definition ToUint8 (v : Z) : Z := (v mod 256)%Z.

Definition pixelBytes (c : Color) : list Z :=
  [ToUint8 (cr c); ToUint8 (cg c); ToUint8 (cb c); ToUint8 (ca c)].

(** [png.data] after the pixel loop, four bytes per cell in row order. *)
Definition renderData (params : GenerationParams) (coverage : list Z)
  : list Z :=
  flat_map
    (fun y =>
       flat_map
         (fun x =>
            let idx := (y * width params + x)%Z in
            pixelBytes (pixelColor params (nth (Z.to_nat idx) coverage 0%Z)))
         (zrange 0 (width params)))
    (zrange 0 (height params)).

(** *** The generation call *)

Record GenerationResult : Type := mkResult
  { data : list Z;
    batches : Z;
    totalPlacements : Z;
    seedValue : Z }.

(** [generateMap] at an instant when [Date.now()] is [now]. *)
Definition generateMap (now : Z) (params : GenerationParams)
  : result GenerationResult :=
  match finalizeSpecs params with
  | Err e => Err e
  | Ok [] => Err NoTilesAfterCap
  | Ok specs =>
      let seedValue := seedFromString now (seed params) in
      let rng := mkRNG (seedrandom seedValue) None in
      let '(generator, rng) := newGenerator params rng in
      let coverage :=
        repeat 0%Z (Z.to_nat (width params * height params)) in
      let '(_, coverage, total, _) :=
        placeTiles generator params specs coverage rng in
      Ok (mkResult
            (PNG_sync_write (width params) (height params)
               (renderData params coverage))
            (Z.of_nat (length specs)) total seedValue)
  end.

(** *** Vocabulary of the properties of the engine *)

(** [m] returns a value satisfying [P] from every state of the RNG. *)
Definition yields {A : Type} (m : Rand A) (P : A -> Prop) : Prop :=
  forall r : RNG, P (fst (m r)).

(** The bounds of a placement of a [tw] x [th] tile. *)
Definition inBounds (g : Generator) (tw th : Z) (p : Point) : Prop :=
  (0 <= px p <= g_width g - tw)%Z /\ (0 <= py p <= g_height g - th)%Z.


(** A canvas of one cell and a batch of 65536 tiles of one cell. *)
Definition wrapParams : GenerationParams :=
  mkParams 1 1 (codeUnits "1x1*65536") 1 0 mode_center 10 (1 # 10) (8 # 10)
    (codeUnits "wrap") true 8 0 4 (1 # 4) true false 0 0 0.

(** A cell of a canvas of [w] x [h] cells. *)
Definition inCanvas (w h : Z) (p : Point) : Prop :=
  (0 <= px p < w)%Z /\ (0 <= py p < h)%Z.


(** The score of a candidate position in weighted mode. *)
Definition weightedScore (g : Generator) (tw th : Z) (p : Point) : Q :=
  distanceAfterPlacement g (px p) (py p) tw th
    (inject_Z (g_width g) / 2) (inject_Z (g_height g) / 2).

(** The first candidate of weighted mode, the centred placement. *)
Definition centredCandidate (g : Generator) (tw th : Z) : Point :=
  mkPoint
    (clampInt (Math_round (inject_Z (g_width g) / 2)
               - Math_floor (inject_Z tw / 2)) 0 (g_width g - tw))
    (clampInt (Math_round (inject_Z (g_height g) / 2)
               - Math_floor (inject_Z th / 2)) 0 (g_height g - th)).

(** The two nested loops of a rasterization: every cell of the rows [ys]
    and columns [xs] that [hit] selects is incremented. *)
Definition rasterWith (w_canvas : Z) (coverage : list Z) (ys xs : list Z)
  (hit : Z -> Z -> bool) : list Z :=
  fold_left
    (fun cov yy =>
       fold_left
         (fun cov' xx =>
            if hit xx yy then coverageIncr cov' (yy * w_canvas + xx)%Z
            else cov')
         xs cov)
    ys coverage.

(** The cells that a tile at ([x], [y]) of size [w] x [h] covers. *)
Definition inTile (x y w h cx cy : Z) : bool :=
  ((x <=? cx) && (cx <? x + w) && (y <=? cy) && (cy <? y + h))%Z.

(** The cells of the tile and the cells that share an edge with it: the
    tile grown by one cell, without the four corners. *)
Definition inPolishedTile (x y w h cx cy : Z) : bool :=
  (((x <=? cx) && (cx <? x + w) && (y - 1 <=? cy) && (cy <? y + h + 1))
   || ((x - 1 <=? cx) && (cx <? x + w + 1) && (y <=? cy) && (cy <? y + h)))%Z.

(** What the inner loop of the polished rasterization tests. *)
Definition polishHit (x y w h xx yy : Z) : bool :=
  (let insideX := (x <=? xx) && (xx <? x + w) in
   let insideY := (y <=? yy) && (yy <? y + h) in
   let nearestX := if xx <? x then x
                   else if x + w <=? xx then x + w - 1 else xx in
   let nearestY := if yy <? y then y
                   else if y + h <=? yy then y + h - 1 else yy in
   (insideX && insideY)
   || ((xx - nearestX) * (xx - nearestX) + (yy - nearestY) * (yy - nearestY)
       <=? 1))%Z.


(** What [placeTiles] keeps whatever is drawn: the grid keeps its length
    and the generator its canvas. *)
Definition sameShape (g : Generator) (coverage : list Z)
  (st : Generator * list Z) : Prop :=
  length (snd st) = length coverage
  /\ g_width (fst st) = g_width g /\ g_height (fst st) = g_height g.

(** The centre of a [tw] x [th] tile placed at [p] is off the centre of
    the canvas by at most half of [fraction] of the canvas each way, plus
    the half cell of the rounding. *)
Definition centredWithin (g : Generator) (tw th : Z) (fraction : Q)
  (p : Point) : Prop :=
  let offX := inject_Z (px p) + inject_Z tw / 2 - inject_Z (g_width g) / 2 in
  let offY := inject_Z (py p) + inject_Z th / 2 - inject_Z (g_height g) / 2 in
  let reachX := inject_Z (g_width g) * fraction / 2 + (1 # 2) in
  let reachY := inject_Z (g_height g) * fraction / 2 + (1 # 2) in
  - reachX <= offX /\ offX <= reachX /\ - reachY <= offY /\ offY <= reachY.

(** The centre of a [tw] x [th] tile placed at [p] is off the centre of
    the canvas by at most the outer radius of the ring each way, plus one
    cell for the two roundings. *)
Definition withinOuterRing (g : Generator) (tw th : Z) (p : Point) : Prop :=
  let offX := inject_Z (px p) + inject_Z tw / 2 - inject_Z (g_width g) / 2 in
  let offY := inject_Z (py p) + inject_Z th / 2 - inject_Z (g_height g) / 2 in
  let reach :=
    g_ringEnd g * (inject_Z (Z.min (g_width g) (g_height g)) / 2) + 1 in
  - reach <= offX /\ offX <= reach /\ - reach <= offY /\ offY <= reach.

(* ================================================================== *)
(** * Properties *)

Local Open Scope Z_scope.

(** ** Seed derivation *)

Lemma lxor_mod_pow2 (n h c : Z) :
  0 <= n -> Z.lxor h c mod 2 ^ n = Z.lxor (h mod 2 ^ n) c mod 2 ^ n.
Proof.
  intros Hn. apply Z.bits_inj'. intros k Hk.
  rewrite !Z.testbit_mod_pow2 by lia.
  destruct (k <? n) eqn:E; [|reflexivity].
  rewrite !Z.lxor_spec, Z.testbit_mod_pow2 by lia.
  rewrite E. reflexivity.
Qed.

Lemma fnvStep_mod (h c : Z) :
  fnvStep h c mod 2 ^ 64 = spec_fnv1a64_step (h mod 2 ^ 64) c.
Proof.
  unfold fnvStep, spec_fnv1a64_step.
  rewrite Z.mul_mod by lia.
  rewrite (lxor_mod_pow2 64 h c) by lia.
  rewrite <- Z.mul_mod by lia. reflexivity.
Qed.

Lemma fold_fnvStep_mod (seed : jsstring) : forall h,
  fold_left fnvStep seed h mod 2 ^ 64 =
  fold_left spec_fnv1a64_step seed (h mod 2 ^ 64) mod 2 ^ 64.
Proof.
  induction seed as [|c seed IH]; intros h; simpl.
  - rewrite Z.mod_mod by lia. reflexivity.
  - rewrite IH, fnvStep_mod. reflexivity.
Qed.

Lemma land_MASK63 (a : Z) : Z.land a MASK63 = a mod 2 ^ 63.
Proof. change MASK63 with (Z.ones 63). apply Z.land_ones. lia. Qed.

Lemma mod64_mod63 (a : Z) : (a mod 2 ^ 64) mod 2 ^ 63 = a mod 2 ^ 63.
Proof.
  apply Z.mod_mod_divide. exists 2. reflexivity.
Qed.

(** The unbounded BigInt computation and the wrapping 64-bit one agree on
    the low 63 bits. *)
Lemma seedHash_masked (seed : jsstring) :
  Z.land (seedHash seed) MASK63 = spec_fnv1a63 seed.
Proof.
  unfold spec_fnv1a63, seedHash, spec_fnv1a64.
  rewrite !land_MASK63.
  rewrite <- (mod64_mod63 (fold_left fnvStep seed FNV_OFFSET)).
  rewrite fold_fnvStep_mod, mod64_mod63.
  reflexivity.
Qed.

Lemma spec_fnv1a63_range (seed : jsstring) : 0 <= spec_fnv1a63 seed < 2 ^ 63.
Proof.
  unfold spec_fnv1a63. rewrite land_MASK63. apply Z.mod_pos_bound. lia.
Qed.

Lemma Number_ofBigInt_small (b : Z) :
  Z.abs b < 2 ^ 53 -> Number_ofBigInt b = b.
Proof.
  intros H. unfold Number_ofBigInt.
  destruct (Z.abs b <? 2 ^ 53) eqn:E; [reflexivity|].
  apply Z.ltb_ge in E. lia.
Qed.

(** Rounding at exponent [e]: the result is a multiple of [2 ^ e] within
    half a unit of the argument. *)
Lemma round_at_exponent (b e : Z) :
  0 < b -> 1 <= e ->
  let q := Z.shiftr b e in
  let r := Z.land b (Z.ones e) in
  let half := Z.shiftl 1 (e - 1) in
  let q' := if r <? half then q
            else if half <? r then q + 1
            else if Z.even q then q else q + 1 in
  Z.abs (Z.shiftl q' e - b) <= 2 ^ (e - 1) /\
  0 <= Z.shiftl q' e <= (b / 2 ^ e + 1) * 2 ^ e.
Proof.
  intros Hb He q r half q'.
  assert (Hq : q = b / 2 ^ e) by (apply Z.shiftr_div_pow2; lia).
  assert (Hr : r = b mod 2 ^ e) by (apply Z.land_ones; lia).
  assert (Hh : half = 2 ^ (e - 1)).
  { unfold half. rewrite Z.shiftl_mul_pow2 by lia. lia. }
  assert (Hp : 2 ^ e = 2 * 2 ^ (e - 1)).
  { rewrite <- Z.pow_succ_r by lia. f_equal. lia. }
  assert (Hpos : 0 < 2 ^ (e - 1)) by (apply Z.pow_pos_nonneg; lia).
  pose proof (Z.div_mod b (2 ^ e) ltac:(lia)) as Hdm.
  pose proof (Z.mod_pos_bound b (2 ^ e) ltac:(lia)) as Hmb.
  assert (Hq0 : 0 <= q).
  { rewrite Hq. apply Z.div_pos; lia. }
  rewrite Z.shiftl_mul_pow2 by lia.
  rewrite <- Hq, <- Hr in *.
  assert (Hcases : q' = q /\ r <= half \/ q' = q + 1 /\ half <= r).
  { unfold q'. destruct (r <? half) eqn:E1.
    - apply Z.ltb_lt in E1. left. lia.
    - apply Z.ltb_ge in E1. destruct (half <? r) eqn:E2.
      + right. lia.
      + apply Z.ltb_ge in E2. destruct (Z.even q); [left|right]; lia. }
  destruct Hcases as [[-> Hc]|[-> Hc]]; split; nia.
Qed.

Lemma Number_ofBigInt_63 (b : Z) :
  0 <= b < 2 ^ 63 ->
  0 <= Number_ofBigInt b <= 2 ^ 63 /\ Z.abs (Number_ofBigInt b - b) <= 512.
Proof.
  intros Hb. unfold Number_ofBigInt.
  rewrite (Z.abs_eq b) by lia.
  destruct (b <? 2 ^ 53) eqn:E.
  - apply Z.ltb_lt in E. rewrite Z.sub_diag. simpl Z.abs. lia.
  - apply Z.ltb_ge in E.
    assert (Hlog : 53 <= Z.log2 b < 63).
    { split.
      - change 53 with (Z.log2 (2 ^ 53)). apply Z.log2_le_mono. lia.
      - apply Z.log2_lt_pow2; lia. }
    assert (Hsgn : Z.sgn b = 1) by (apply Z.sgn_pos; lia).
    rewrite Hsgn, Z.mul_1_l.
    set (e := Z.log2 b - 52) in *.
    destruct (round_at_exponent b e ltac:(lia) ltac:(lia)) as [Habs [Hlo Hhi]].
    cbv zeta in Habs, Hlo, Hhi.
    assert (Hq : b / 2 ^ e < 2 ^ 53).
    { apply Z.div_lt_upper_bound; [apply Z.pow_pos_nonneg; lia|].
      rewrite <- Z.pow_add_r by lia.
      replace (e + 53) with (Z.succ (Z.log2 b)) by (unfold e; lia).
      apply Z.log2_spec. lia. }
    assert (He1 : 2 ^ (e - 1) <= 2 ^ 9) by (apply Z.pow_le_mono_r; lia).
    assert (He2 : 2 ^ e <= 2 ^ 10) by (apply Z.pow_le_mono_r; lia).
    assert (Hpe : 0 < 2 ^ e) by (apply Z.pow_pos_nonneg; lia).
    change (2 ^ 9) with 512 in He1.
    split; [split; [exact Hlo|]|lia].
    eapply Z.le_trans; [exact Hhi|].
    change (2 ^ 63) with (2 ^ 53 * 2 ^ 10).
    apply Z.mul_le_mono_nonneg; lia.
Qed.

(** C7, as the code has it: for a non-empty seed, [seedFromString] is the
    64-bit FNV-1a-style hash (offset 1469598103934665603, prime
    1099511628211, one XOR-then-multiply step per code unit) masked to 63
    bits and then converted by [Number], that is rounded to a significand of
    53 bits.  The result is non-negative, at most [2 ^ 63], within 512 of the
    masked hash, and equal to it when the hash is below [2 ^ 53]. *)
Theorem seedFromString_is_rounded_hash (now : Z) (seed : jsstring) :
  seed <> [] ->
  seedFromString now seed = Number_ofBigInt (spec_fnv1a63 seed)
  /\ 0 <= seedFromString now seed <= 2 ^ 63
  /\ Z.abs (seedFromString now seed - spec_fnv1a63 seed) <= 512
  /\ (spec_fnv1a63 seed < 2 ^ 53 ->
      seedFromString now seed = spec_fnv1a63 seed).
Proof.
  intros Hne. destruct seed as [|c seed]; [congruence|].
  unfold seedFromString. rewrite seedHash_masked.
  pose proof (spec_fnv1a63_range (c :: seed)) as Hr.
  destruct (Number_ofBigInt_63 _ Hr) as [H1 H2].
  repeat split; try lia.
  intros Hs. apply Number_ofBigInt_small. lia.
Qed.

Lemma seedFromString_is_rounded_hash_witness :
  codeUnits "a" <> []
  /\ seedFromString 0 (codeUnits "a")
     = Number_ofBigInt (spec_fnv1a63 (codeUnits "a")).
Proof.
  split; [discriminate|].
  apply (seedFromString_is_rounded_hash 0 (codeUnits "a")). discriminate.
Defined.

(** C7 as stated fails: on the seed "a" the masked hash is
    4953267810257967366, and the value returned is 4953267810257967104. *)
Lemma seedFromString_not_exact_hash :
  seedFromString 0 (codeUnits "a") = 4953267810257967104
  /\ spec_fnv1a63 (codeUnits "a") = 4953267810257967366
  /\ seedFromString 0 (codeUnits "a") <> spec_fnv1a63 (codeUnits "a").
Proof. repeat split. vm_compute. discriminate. Qed.

(** ** Order facts on rationals *)

Lemma Qltb_lt (a b : Q) : Qltb a b = true <-> (a < b)%Q.
Proof.
  unfold Qltb. rewrite negb_true_iff, <- not_true_iff_false, Qle_bool_iff.
  split; [apply Qnot_le_lt|apply Qlt_not_le].
Qed.

Lemma Qltb_ge (a b : Q) : Qltb a b = false <-> (b <= a)%Q.
Proof.
  unfold Qltb. rewrite negb_false_iff. apply Qle_bool_iff.
Qed.

Lemma Qle_bool_gt (a b : Q) : Qle_bool a b = false <-> (b < a)%Q.
Proof.
  rewrite <- not_true_iff_false, Qle_bool_iff.
  split; [apply Qnot_le_lt|apply Qlt_not_le].
Qed.

Lemma clampFloat_range (v lo hi : Q) :
  (lo <= hi)%Q -> (lo <= clampFloat v lo hi <= hi)%Q.
Proof.
  intros H. unfold clampFloat.
  destruct (Qltb v lo) eqn:E1.
  - split; [apply Qle_refl|exact H].
  - apply Qltb_ge in E1. destruct (Qltb hi v) eqn:E2.
    + split; [exact H|apply Qle_refl].
    + apply Qltb_ge in E2. split; assumption.
Qed.

Lemma clampFloat_unit (v : Q) : (0 <= clampFloat v 0 1 <= 1)%Q.
Proof. apply clampFloat_range. discriminate. Qed.

(** ** Ring boundary table *)

Lemma ringBounds_unit (ringStart ringEnd : Q) :
  (0 <= fst (ringBounds ringStart ringEnd) <= 1)%Q
  /\ (0 <= snd (ringBounds ringStart ringEnd) <= 1)%Q.
Proof.
  unfold ringBounds.
  destruct (Qle_bool _ _); [destruct (Qle_bool _ _)|]; simpl;
    split; apply clampFloat_unit.
Qed.

Lemma ringLoop_spec (segments : Z) (start end_ step : Q) :
  forall (n : nat) (i : Z) (prev : Q),
    (prev <= 1)%Q ->
    let l := ringLoop n i segments start end_ step prev in
    length l = n
    /\ Forall (fun v => (prev <= v <= 1)%Q) l
    /\ Sorted Qle l
    /\ HdRel Qle prev l.
Proof.
  induction n as [|n IH]; intros i prev Hprev; simpl.
  - repeat split; constructor.
  - set (val := clampFloat _ prev 1).
    destruct (clampFloat_range
                (if i =? 1 then start
                 else if i =? segments then end_
                 else (start + inject_Z (i - 1) * step)%Q) prev 1 Hprev)
      as [Hlo Hhi].
    fold val in Hlo, Hhi.
    destruct (IH (i + 1) val Hhi) as (Hlen & Hall & Hsorted & Hhd).
    repeat split.
    + f_equal. exact Hlen.
    + constructor; [split; assumption|].
      eapply Forall_impl; [|exact Hall].
      intros v [Hv1 Hv2]. split; [|exact Hv2].
      eapply Qle_trans; eassumption.
    + constructor; assumption.
    + constructor. exact Hlo.
Qed.

(** C5: for every ring count and every pair of bounds, the boundary table
    has [max(1, rings) + 1] entries, every entry lies in [0,1], and the
    entries never decrease; the bounds may be in any order, so the
    adjustment of [ringEnd <= ringStart] is covered. *)
Theorem ringTable_monotone_unit (rings : Z) (ringStart ringEnd : Q) :
  let table := ringTable rings ringStart ringEnd in
  Z.of_nat (length table) = Z.max 1 rings + 1
  /\ Forall (fun v => (0 <= v <= 1)%Q) table
  /\ Sorted Qle table.
Proof.
  unfold ringTable.
  destruct (ringBounds_unit ringStart ringEnd) as [[Hs0 Hs1] [He0 He1]].
  destruct (ringBounds ringStart ringEnd) as [start end_]. simpl in *.
  destruct (Z.max 1 rings =? 1) eqn:Eseg.
  - apply Z.eqb_eq in Eseg. rewrite Eseg.
    assert (Hm : (0 <= Qmax start (Qmin 1 end_) <= 1)%Q).
    { split.
      - eapply Qle_trans; [exact Hs0|apply Q.le_max_l].
      - apply Q.max_lub; [exact Hs1|apply Q.le_min_l]. }
    repeat split.
    + repeat constructor; try apply Hm; try apply Qle_refl. discriminate.
    + repeat constructor. apply Hm.
  - set (segments := Z.max 1 rings) in *.
    set (adj := if Qle_bool (end_ - start) 0 then _ else _).
    destruct adj as [span end1].
    destruct (ringLoop_spec segments start end1
                (span / inject_Z (segments - 1)) (Z.to_nat segments) 1 0
                ltac:(discriminate)) as (Hlen & Hall & Hsorted & Hhd).
    repeat split.
    + simpl length. rewrite Hlen. unfold segments. lia.
    + constructor; [split; [apply Qle_refl|discriminate]|exact Hall].
    + constructor; assumption.
Qed.

(** C6, as the code has it: when the clamped end does not exceed the clamped
    start, an end of at least 1 is kept and the start becomes the end minus
    0.1; otherwise the start is kept and the end becomes the start plus 0.1;
    the bound that moves is clamped to [0,1]. *)
Theorem ringBounds_adjustment (ringStart ringEnd : Q) :
  let start := clampFloat ringStart 0 1 in
  let end_ := clampFloat ringEnd 0 1 in
  (end_ <= start)%Q ->
  ((1 <= end_)%Q ->
   ringBounds ringStart ringEnd = (clampFloat (end_ - (1 # 10)) 0 1, end_)
   /\ (fst (ringBounds ringStart ringEnd) == 9 # 10)%Q
   /\ (snd (ringBounds ringStart ringEnd) == 1)%Q)
  /\ ((end_ < 1)%Q ->
      ringBounds ringStart ringEnd
      = (start, clampFloat (start + (1 # 10)) 0 1)
      /\ ((start <= 9 # 10)%Q ->
          (snd (ringBounds ringStart ringEnd) == start + (1 # 10))%Q)).
Proof.
  intros start end_ Hle. unfold ringBounds. fold start end_.
  apply Qle_bool_iff in Hle. rewrite Hle.
  destruct (clampFloat_unit ringEnd) as [He0 He1]. fold end_ in He0, He1.
  destruct (clampFloat_unit ringStart) as [Hs0 Hs1]. fold start in Hs0, Hs1.
  split.
  - intros H1. pose proof H1 as H1b. apply Qle_bool_iff in H1b. rewrite H1b.
    assert (Heq : (end_ == 1)%Q) by (apply Qle_antisym; assumption).
    split; [reflexivity|]. simpl. split; [|exact Heq].
    unfold clampFloat.
    destruct (Qltb (end_ - (1 # 10)) 0) eqn:E1.
    { apply Qltb_lt in E1. rewrite Heq in E1. discriminate E1. }
    destruct (Qltb 1 (end_ - (1 # 10))) eqn:E2.
    { apply Qltb_lt in E2. rewrite Heq in E2. discriminate E2. }
    rewrite Heq. reflexivity.
  - intros H1. apply Qle_bool_gt in H1. rewrite H1.
    split; [reflexivity|]. simpl. intros H9.
    unfold clampFloat.
    destruct (Qltb (start + (1 # 10)) 0) eqn:E1.
    { apply Qltb_lt in E1. lra. }
    destruct (Qltb 1 (start + (1 # 10))) eqn:E2.
    { apply Qltb_lt in E2. lra. }
    reflexivity.
Qed.

Lemma ringBounds_adjustment_witness :
  (clampFloat 1 0 1 <= clampFloat 1 0 1)%Q
  /\ ringBounds 1 1 = (clampFloat (clampFloat 1 0 1 - (1 # 10)) 0 1,
                       clampFloat 1 0 1).
Proof.
  split; [discriminate|].
  apply (ringBounds_adjustment 1 1); discriminate.
Defined.

(** C6 as stated fails: with both bounds at 1 the end is not shrunk (it
    stays 1 and the start becomes 0.9), and with start 0.5 and end 0.3 the
    start is not grown (it stays 0.5 and the end becomes 0.6). *)
Lemma ringBounds_not_as_worded :
  ((fst (ringBounds 1 1) == 9 # 10)%Q /\ (snd (ringBounds 1 1) == 1)%Q
   /\ (snd (spec_ringBounds 1 1) == 9 # 10)%Q
   /\ ~ (snd (ringBounds 1 1) == snd (spec_ringBounds 1 1))%Q)
  /\ ((fst (ringBounds (1 # 2) (3 # 10)) == 1 # 2)%Q
      /\ (snd (ringBounds (1 # 2) (3 # 10)) == 6 # 10)%Q
      /\ (fst (spec_ringBounds (1 # 2) (3 # 10)) == 6 # 10)%Q
      /\ ~ (fst (ringBounds (1 # 2) (3 # 10))
            == fst (spec_ringBounds (1 # 2) (3 # 10)))%Q).
Proof.
  repeat split; try reflexivity; vm_compute; discriminate.
Qed.

(** ** Tone mapping *)

Lemma blendClamp_comp (u v : Q) : (u == v)%Q -> blendClamp u = blendClamp v.
Proof.
  intros H. unfold blendClamp, Qltb, Math_round.
  assert (H1 : Qle_bool 0 u = Qle_bool 0 v) by (rewrite H; reflexivity).
  assert (H2 : Qle_bool u 255 = Qle_bool v 255) by (rewrite H; reflexivity).
  assert (H3 : Qfloor (u + (1 # 2)) = Qfloor (v + (1 # 2)))
    by (rewrite H; reflexivity).
  rewrite H1, H2, H3. reflexivity.
Qed.

Lemma blend_at_one (t : Q) (u v : Z) :
  (t == 1)%Q -> ((1 - t) * inject_Z u + t * inject_Z v == inject_Z v)%Q.
Proof. intros H. rewrite H. ring. Qed.

(** Blending at ratio 1 gives the second colour when its channels are
    colour values and its alpha is not zero. *)
Lemma blendColor_one (a b : Color) (t : Q) :
  (t == 1)%Q ->
  0 <= cr b <= 255 -> 0 <= cg b <= 255 -> 0 <= cb b <= 255 ->
  0 < ca b <= 255 ->
  blendColor a b t = b.
Proof.
  intros Ht Hr Hg Hb Ha.
  assert (Hclamp : forall u v : Z, 0 <= v <= 255 ->
            blendClamp ((1 - t) * inject_Z u + t * inject_Z v) = v).
  { intros u v Hv. rewrite (blendClamp_comp _ _ (blend_at_one t u v Ht)).
    unfold blendClamp.
    destruct (Qltb (inject_Z v) 0) eqn:E1.
    { apply Qltb_lt in E1. change 0%Q with (inject_Z 0) in E1.
      rewrite <- Zlt_Qlt in E1. lia. }
    destruct (Qltb 255 (inject_Z v)) eqn:E2.
    { apply Qltb_lt in E2. change 255%Q with (inject_Z 255) in E2.
      rewrite <- Zlt_Qlt in E2. lia. }
    unfold Math_round.
    change (1 # 2)%Q with (/ inject_Z 2)%Q.
    unfold Qfloor, Qplus, Qinv, inject_Z. simpl.

    replace (v * 2 + 1) with (1 + v * 2) by lia.
    rewrite Z.div_add by lia. reflexivity. }
  unfold blendColor.
  assert (Hnz : Qeq_bool ((1 - t) * inject_Z (ca a) + t * inject_Z (ca b)) 0
                = false).
  { apply not_true_iff_false. intros H. apply Qeq_bool_iff in H.
    rewrite (blend_at_one t _ _ Ht) in H.
    change 0%Q with (inject_Z 0) in H. rewrite inject_Z_injective in H. lia. }
  rewrite Hnz, !Hclamp by lia.
  destruct b; reflexivity.
Qed.

Lemma clampFloat_at_least_one (v : Q) : (1 <= v)%Q -> (clampFloat v 0 1 == 1)%Q.
Proof.
  intros H. unfold clampFloat.
  destruct (Qltb v 0) eqn:E1.
  { apply Qltb_lt in E1. lra. }
  destruct (Qltb 1 v) eqn:E2; [reflexivity|].
  apply Qltb_ge in E2. apply Qle_antisym; assumption.
Qed.

(** What the tone mapper needs of [Math.log]: above 1 it is positive and
    does not decrease. *)
Hypothesis Math_log_pos : forall v : Q, (1 < v)%Q -> (0 < Math_log v)%Q.
Hypothesis Math_log_mono :
  forall u v : Q, (1 < u)%Q -> (u <= v)%Q -> (Math_log u <= Math_log v)%Q.

Lemma dense_ratio_clamps (coverage : Z) (brownCap_ : Q) (logTone_ : bool) :
  (Qmax 1 brownCap_ + 1 <= inject_Z coverage)%Q ->
  let cap_ := Qmax 1 brownCap_ in
  (clampFloat
     (if logTone_
      then Math_log (inject_Z coverage) / Math_log (cap_ + 1)
      else (inject_Z coverage - 1) / cap_) 0 1 == 1)%Q.
Proof.
  intros H cap_. fold cap_ in H.
  assert (Hcap : (1 <= cap_)%Q) by apply Q.le_max_l.
  apply clampFloat_at_least_one. destruct logTone_.
  - assert (H1 : (1 < cap_ + 1)%Q) by lra.
    apply Qle_shift_div_l; [apply Math_log_pos; exact H1|].
    rewrite Qmult_1_l. apply Math_log_mono; assumption.
  - apply Qle_shift_div_l; lra.
Qed.

(** C8, as the code has it.  A cell of coverage 0 is the water colour
    (22, 75, 135) whose alpha is the configured background alpha when that
    is between 1 and 255, and 255 when it is 0; a cell of coverage 1 is
    exactly the land colour; and a cell of coverage at least [cap + 1],
    [cap = max(1, brownCap)], is exactly the dense colour, in the
    logarithmic and in the linear tone mode. *)
Theorem tone_mapping_boundaries (params : GenerationParams) :
  (1 <= bgAlpha params <= 255 ->
   pixelColor params 0 = mkColor 22 75 135 (bgAlpha params))
  /\ (bgAlpha params = 0 -> pixelColor params 0 = mkColor 22 75 135 255)
  /\ pixelColor params 1 = mkColor 34 139 34 255
  /\ (forall coverage : Z,
        (Qmax 1 (brownCap params) + 1 <= inject_Z coverage)%Q ->
        pixelColor params coverage = mkColor 139 69 19 255).
Proof.
  repeat split.
  - intros H. unfold pixelColor, water. simpl.
    destruct (bgAlpha params =? 0) eqn:E; [apply Z.eqb_eq in E; lia|].
    unfold clampInt.
    destruct (bgAlpha params <? 0) eqn:E1; [apply Z.ltb_lt in E1; lia|].
    destruct (bgAlpha params >? 255) eqn:E2; [|reflexivity].
    apply Z.gtb_lt in E2. lia.
  - intros H. unfold pixelColor, water. simpl. rewrite H. reflexivity.
  - intros coverage H.
    assert (Hc : 2 <= coverage).
    { assert (H2 : (inject_Z 2 <= inject_Z coverage)%Q).
      { eapply Qle_trans; [|exact H].
        pose proof (Q.le_max_l 1 (brownCap params)).
        change (inject_Z 2) with 2%Q. lra. }
      rewrite <- Zle_Qle in H2. exact H2. }
    unfold pixelColor, coverageToColor.
    destruct (coverage =? 0) eqn:E0; [apply Z.eqb_eq in E0; lia|].
    destruct (coverage <=? 0) eqn:E1; [apply Z.leb_le in E1; lia|].
    destruct (coverage =? 1) eqn:E2; [apply Z.eqb_eq in E2; lia|].
    apply (blendColor_one green brown); simpl; try lia.
    apply dense_ratio_clamps. exact H.
Qed.

(** ** Placement bounds *)

(** Every value of [quick()] lies in [0,1). *)
Hypothesis quick_range :
  forall g : PRNG, (0 <= fst (quick g))%Q /\ (fst (quick g) < 1)%Q.

Lemma yields_ret {A : Type} (a : A) (P : A -> Prop) : P a -> yields (ret a) P.
Proof. intros H r. exact H. Qed.

Lemma yields_bind {A B : Type} (m : Rand A) (k : A -> Rand B)
  (R : A -> Prop) (P : B -> Prop) :
  yields m R -> (forall a, R a -> yields (k a) P) -> yields (bind m k) P.
Proof.
  intros Hm Hk r. unfold bind.
  specialize (Hm r). destruct (m r) as [a r']. simpl in Hm.
  apply Hk. exact Hm.
Qed.

Lemma yields_bind_any {A B : Type} (m : Rand A) (k : A -> Rand B)
  (P : B -> Prop) :
  (forall a, yields (k a) P) -> yields (bind m k) P.
Proof.
  intros Hk. apply (yields_bind m k (fun _ => True)).
  - intros r. exact I.
  - intros a _. apply Hk.
Qed.

Lemma yields_float : yields RNG_float (fun u => (0 <= u)%Q /\ (u < 1)%Q).
Proof.
  intros r. unfold RNG_float.
  pose proof (quick_range (uniform r)) as H.
  destruct (quick (uniform r)) as [u g]. exact H.
Qed.

Lemma yields_intn (n : Z) :
  0 < n -> yields (RNG_intn n) (fun k => 0 <= k < n).
Proof.
  intros Hn. unfold RNG_intn.
  destruct (n <=? 0) eqn:E; [apply Z.leb_le in E; lia|].
  eapply yields_bind; [apply yields_float|].
  intros u [Hu0 Hu1]. apply yields_ret. unfold Math_floor.
  assert (Hnq : (0 < inject_Z n)%Q).
  { change 0%Q with (inject_Z 0). rewrite <- Zlt_Qlt. exact Hn. }
  split.
  - change 0 with (Qfloor (inject_Z 0)) at 1.
    apply Qfloor_resp_le. change (inject_Z 0) with 0%Q.
    apply Qmult_le_0_compat; [exact Hu0|apply Qlt_le_weak; exact Hnq].
  - assert (Hlt : (u * inject_Z n < inject_Z n)%Q).
    { rewrite <- (Qmult_1_l (inject_Z n)) at 2.
      apply Qmult_lt_compat_r; assumption. }
    pose proof (Qfloor_le (u * inject_Z n)) as Hfl.
    rewrite Zlt_Qlt. eapply Qle_lt_trans; eassumption.
Qed.

Lemma clampInt_range (v lo hi : Z) : lo <= hi -> lo <= clampInt v lo hi <= hi.
Proof.
  intros H. unfold clampInt.
  destruct (v <? lo) eqn:E1; [lia|]. apply Z.ltb_ge in E1.
  destruct (v >? hi) eqn:E2; [lia|].
  rewrite Z.gtb_ltb in E2. apply Z.ltb_ge in E2. lia.
Qed.

Section Fits.

Variable g : Generator.
Variables tw th : Z.
Hypothesis fits_w : tw < g_width g.
Hypothesis fits_h : th < g_height g.













End Fits.


(** C9: a tile at least as wide or at least as high as the canvas is placed
    at (0,0) and the RNG is left as it was; a tile exactly as wide as the
    canvas, which fits, is such a tile. *)
Theorem positionForTile_degenerate (g : Generator) (tw th : Z) (r : RNG) :
  g_width g <= tw \/ g_height g <= th ->
  positionForTile g tw th r = (mkPoint 0 0, r).
Proof.
  intros H. unfold positionForTile.
  destruct (g_width g <=? tw) eqn:Ew; [reflexivity|].
  destruct (g_height g <=? th) eqn:Eh; [reflexivity|].
  apply Z.leb_gt in Ew, Eh. lia.
Qed.

(** ** Coverage counts wrap at 65536 *)

Lemma updateAt_nth {A : Type} (f : A -> A) (d : A) :
  forall (l : list A) (i : nat),
    (i < length l)%nat -> nth i (updateAt f i l) d = f (nth i l d).
Proof.
  induction l as [|a l IH]; intros i Hi; simpl in Hi; [lia|].
  destruct i as [|i]; simpl; [reflexivity|]. apply IH. lia.
Qed.

Lemma coverageIncr_nth (coverage : list Z) (idx : Z) :
  0 <= idx < Z.of_nat (length coverage) ->
  nth (Z.to_nat idx) (coverageIncr coverage idx) 0
  = (nth (Z.to_nat idx) coverage 0 + 1) mod 65536.
Proof.
  intros H. unfold coverageIncr.
  destruct (idx <? 0) eqn:E; [apply Z.ltb_lt in E; lia|].
  rewrite updateAt_nth by lia. reflexivity.
Qed.

Lemma placeUnit_unit_canvas (params : GenerationParams) (g : Generator)
  (cnt c : Z) (r : RNG) :
  width params = 1 -> height params = 1 -> polish params = false ->
  g_width g = 1 ->
  placeUnit params (mkTileBatch 1 1 cnt) (g, [c]) r
  = (recordPlacement g 0 0 1 1, [(c + 1) mod 65536], r).
Proof.
  intros Hw Hh Hp Hg.
  unfold placeUnit. simpl batch_w. simpl batch_h.
  rewrite Z.eqb_refl. simpl negb. rewrite andb_false_r.
  unfold bind at 1. unfold ret at 1.
  rewrite Hw, Hh, Hp. simpl orb. cbv iota.
  unfold bind, positionForTile. rewrite Hg. simpl. reflexivity.
Qed.

Lemma placeUnits_unit_canvas (params : GenerationParams) (cnt : Z) :
  width params = 1 -> height params = 1 -> polish params = false ->
  forall (n : nat) (g : Generator) (c : Z) (r : RNG),
    g_width g = 1 -> 0 <= c < 65536 ->
    exists g',
      placeUnits n params (mkTileBatch 1 1 cnt) (g, [c]) r
      = (g', [(c + Z.of_nat n) mod 65536], r).
Proof.
  intros Hw Hh Hp. induction n as [|n IH]; intros g c r Hg Hc.
  - exists g. cbn [placeUnits]. unfold ret.
    rewrite Z.add_0_r, Z.mod_small by lia. reflexivity.
  - cbn [placeUnits]. unfold bind.
    rewrite (placeUnit_unit_canvas params g cnt c r Hw Hh Hp Hg).
    assert (Hg' : g_width (recordPlacement g 0 0 1 1) = 1) by exact Hg.
    destruct (IH (recordPlacement g 0 0 1 1) ((c + 1) mod 65536) r Hg'
                ltac:(apply Z.mod_pos_bound; lia)) as [g' Heq].
    exists g'. rewrite Heq.
    replace ((c + Z.of_nat (S n)) mod 65536)
      with (((c + 1) mod 65536 + Z.of_nat n) mod 65536); [reflexivity|].
    rewrite Zplus_mod_idemp_l. f_equal. lia.
Qed.

(** C10: a cell of the coverage grid counts modulo 65536.  An increment of
    a cell stores the successor modulo 65536; after [n >= 1] placements on
    one cell that started at 0 the cell holds [n mod 65536]; and the run of
    [wrapParams] covers its only cell 65536 times, reports 65536
    placements, and renders the cell as water. *)
Theorem coverage_wraps_to_water :
  (forall (coverage : list Z) (idx : Z),
      0 <= idx < Z.of_nat (length coverage) ->
      nth (Z.to_nat idx) (coverageIncr coverage idx) 0
      = (nth (Z.to_nat idx) coverage 0 + 1) mod 65536)
  /\ (forall (params : GenerationParams) (g : Generator) (r : RNG) (n : Z),
        width params = 1 /\ height params = 1 /\ polish params = false
        /\ g_width g = 1 /\ 0 <= n ->
        snd (fst (fst (placeTiles g params [mkTileBatch 1 1 n] [0] r)))
        = [n mod 65536])
  /\ (forall now : Z,
        generateMap now wrapParams
        = Ok (mkResult (PNG_sync_write 1 1 [22; 75; 135; 255]) 1 65536
                (seedFromString now (seed wrapParams)))).
Proof.
  split; [exact coverageIncr_nth|]. split.
  - intros params g r n (Hw & Hh & Hp & Hg & Hn).
    unfold placeTiles. cbn [placeBatches batch_count]. unfold bind.
    destruct (placeUnits_unit_canvas params n Hw Hh Hp (Z.to_nat n) g 0 r Hg
                ltac:(lia)) as [g' Heq].
    rewrite Heq. cbn. rewrite Z2Nat.id by lia. reflexivity.
  - intros now. unfold generateMap.
    assert (Hspecs : finalizeSpecs wrapParams = Ok [mkTileBatch 1 1 65536])
      by (vm_compute; reflexivity).
    rewrite Hspecs.
    change (newGenerator wrapParams) with
      (@ret Generator
         (mkGenerator 1 1 mode_center 10 (1 # 10) (8 # 10) 4 (1 # 4)
            [] [] [] 0 0%Q 0%Q)).
    unfold ret at 1.
    change (repeat 0 (Z.to_nat (width wrapParams * height wrapParams)))
      with [0].
    unfold placeTiles. cbn [placeBatches batch_count]. unfold bind.
    match goal with
    | |- context [placeUnits ?k wrapParams ?b (?g, [0]) ?r] =>
        destruct (placeUnits_unit_canvas wrapParams 65536
                    eq_refl eq_refl eq_refl k g 0 r eq_refl ltac:(lia))
          as [g' Heq]; rewrite Heq
    end.
    change ((0 + Z.of_nat (Z.to_nat 65536)) mod 65536) with 0.
    reflexivity.
Qed.

(** ** Determinism *)

(** C1: with a non-empty seed string the result of [generateMap] (the
    encoded image, the batch count, the number of placements and the seed
    value, or the error) is the same whatever the clock reads: two calls
    on the same parameters return the same result. *)
Theorem generateMap_deterministic (params : GenerationParams)
  (now1 now2 : Z) :
  seed params <> [] ->
  generateMap now1 params = generateMap now2 params.
Proof.
  intros Hseed. unfold generateMap.
  destruct (seed params) as [|c cs] eqn:E; [congruence|].
  reflexivity.
Qed.

(** Without a seed string the reported seed is the clock. *)
Lemma generateMap_unseeded (params : GenerationParams) (now : Z)
  (res : GenerationResult) :
  seed params = [] -> generateMap now params = Ok res -> seedValue res = now.
Proof.
  intros Hseed. unfold generateMap. rewrite Hseed. simpl seedFromString.
  destruct (finalizeSpecs params) as [[|b bs]|e]; try discriminate.
  destruct (newGenerator params _) as [generator rng].
  destruct (placeTiles _ _ _ _ _) as [[[g' cov] total] r'].
  intros H. injection H as <-. reflexivity.
Qed.

(** ** Apportionment: sums, floors and fractions *)

Lemma fold_Zadd (l : list Z) : forall a, fold_left Z.add l a = a + Zsum l.
Proof.
  unfold Zsum. induction l as [|x l IH]; intros a; simpl; [lia|].
  rewrite (IH (a + x)), (IH x). lia.
Qed.

Lemma Zsum_cons (x : Z) (l : list Z) : Zsum (x :: l) = x + Zsum l.
Proof. unfold Zsum at 1. simpl. apply fold_Zadd. Qed.

Lemma fold_Qplus (l : list Q) :
  forall a, (fold_left Qplus l a == a + Qsum l)%Q.
Proof.
  unfold Qsum. induction l as [|x l IH]; intros a; simpl; [ring|].
  rewrite (IH (a + x)%Q), (IH (0 + x)%Q). ring.
Qed.

Lemma Qsum_cons (x : Q) (l : list Q) : (Qsum (x :: l) == x + Qsum l)%Q.
Proof. unfold Qsum at 1. simpl. rewrite fold_Qplus. ring. Qed.

Lemma Qfloor_unique (q : Q) (z : Z) :
  (inject_Z z <= q)%Q -> (q < inject_Z (z + 1))%Q -> Qfloor q = z.
Proof.
  intros Hlo Hhi.
  pose proof (Qfloor_le q) as H1. pose proof (Qlt_floor q) as H2.
  assert (Ha : (inject_Z (Qfloor q) < inject_Z (z + 1))%Q)
    by (eapply Qle_lt_trans; eassumption).
  assert (Hb : (inject_Z z < inject_Z (Qfloor q + 1))%Q)
    by (eapply Qle_lt_trans; eassumption).
  rewrite <- Zlt_Qlt in Ha, Hb. lia.
Qed.

Lemma inject_Z_minus (x y : Z) :
  inject_Z (x - y) = (inject_Z x - inject_Z y)%Q.
Proof.
  unfold Z.sub, Qminus. rewrite inject_Z_plus, inject_Z_opp. reflexivity.
Qed.

Lemma Qfloor_nonneg (q : Q) : (0 <= q)%Q -> 0 <= Qfloor q.
Proof.
  intros H. rewrite <- (Qfloor_Z 0). apply Qfloor_resp_le. exact H.
Qed.

Lemma Qfloor_sub_Z (q : Q) (z : Z) : Qfloor (q - inject_Z z) = Qfloor q - z.
Proof.
  apply Qfloor_unique.
  - pose proof (Qfloor_le q). rewrite inject_Z_minus. lra.
  - pose proof (Qlt_floor q) as H.
    replace (Qfloor q - z + 1) with (Qfloor q + 1 - z) by lia.
    rewrite inject_Z_minus. lra.
Qed.


Lemma updateAt_length {A : Type} (f : A -> A) :
  forall (l : list A) (i : nat), length (updateAt f i l) = length l.
Proof.
  induction l as [|a l IH]; intros [|i]; simpl; try reflexivity.
  f_equal. apply IH.
Qed.

Lemma updateAt_nth_other {A : Type} (f : A -> A) (d : A) :
  forall (l : list A) (i j : nat),
    i <> j -> nth j (updateAt f i l) d = nth j l d.
Proof.
  induction l as [|a l IH]; intros [|i] [|j] H; simpl; try reflexivity.
  - congruence.
  - apply IH. congruence.
Qed.

Lemma Zsum_updateAt (f : Z -> Z) :
  forall (l : list Z) (i : nat),
    (i < length l)%nat ->
    Zsum (updateAt f i l) = Zsum l - nth i l 0 + f (nth i l 0).
Proof.
  induction l as [|a l IH]; intros i Hi; simpl in Hi; [lia|].
  destruct i as [|i]; simpl.
  - rewrite !Zsum_cons. lia.
  - rewrite !Zsum_cons, IH by lia. lia.
Qed.

Lemma fold_incrementFloor_length (fs : list Fraction) :
  forall fl, length (fold_left incrementFloor fs fl) = length fl.
Proof.
  induction fs as [|f fs IH]; intros fl; simpl; [reflexivity|].
  rewrite IH. apply updateAt_length.
Qed.

Lemma fold_decrementFloor_length (fs : list Fraction) :
  forall fl, length (fold_left decrementFloor fs fl) = length fl.
Proof.
  induction fs as [|f fs IH]; intros fl; simpl; [reflexivity|].
  rewrite IH. apply updateAt_length.
Qed.

Lemma fold_incrementFloor_sum (fs : list Fraction) :
  forall fl,
    Forall (fun f => (index f < length fl)%nat) fs ->
    Zsum (fold_left incrementFloor fs fl) = Zsum fl + Z.of_nat (length fs).
Proof.
  induction fs as [|f fs IH]; intros fl Hall; simpl fold_left.
  - simpl. lia.
  - inversion Hall as [|? ? Hf Hrest]; subst.
    rewrite IH.
    + unfold incrementFloor. rewrite Zsum_updateAt by exact Hf.
      simpl length. lia.
    + unfold incrementFloor. rewrite updateAt_length. exact Hrest.
Qed.

(** The entries of [fractions]: their indices grow, and they account for
    what the floors leave out. *)
Lemma fractionsFrom_index (totals : list Q) :
  forall i,
    Forall (fun f => (i <= index f < i + length totals)%nat)
      (fractionsFrom i totals).
Proof.
  induction totals as [|t totals IH]; intros i; simpl; [constructor|].
  assert (Hrest : Forall (fun f => (i <= index f < i + S (length totals))%nat)
                    (fractionsFrom (S i) totals)).
  { eapply Forall_impl; [|apply IH]. simpl. intros f Hf. lia. }
  destruct (Qltb 0 _); [constructor; [simpl; lia|]|]; exact Hrest.
Qed.

Lemma fractionsFrom_NoDup (totals : list Q) :
  forall i, NoDup (map index (fractionsFrom i totals)).
Proof.
  induction totals as [|t totals IH]; intros i; simpl; [constructor|].
  destruct (Qltb 0 _); [|apply IH].
  simpl. constructor; [|apply IH].
  intros Hin. apply in_map_iff in Hin. destruct Hin as (f & Hf & Hin).
  pose proof (fractionsFrom_index totals (S i)) as Hall.
  rewrite Forall_forall in Hall. specialize (Hall f Hin). lia.
Qed.

Lemma fractionsFrom_frac (totals : list Q) :
  forall i,
    Forall (fun f => (0 < frac f)%Q /\ (frac f < 1)%Q) (fractionsFrom i totals).
Proof.
  induction totals as [|t totals IH]; intros i; simpl; [constructor|].
  destruct (Qltb 0 _) eqn:E; [|apply IH].
  constructor; [|apply IH]. simpl. apply Qltb_lt in E. split; [exact E|].
  unfold Math_floor. pose proof (Qlt_floor t) as H.
  rewrite inject_Z_plus in H. change (inject_Z 1) with 1%Q in H. lra.
Qed.

Lemma fractionsFrom_sum (totals : list Q) :
  forall i,
    (Qsum totals ==
     inject_Z (Zsum (map Math_floor totals))
     + Qsum (map frac (fractionsFrom i totals)))%Q.
Proof.
  induction totals as [|t totals IH]; intros i; simpl.
  - reflexivity.
  - rewrite Qsum_cons, Zsum_cons, inject_Z_plus, (IH (S i)).
    destruct (Qltb 0 _) eqn:E.
    + simpl map. rewrite Qsum_cons. simpl frac. ring.
    + apply Qltb_ge in E. unfold Math_floor in *.
      pose proof (Qfloor_le t) as H.
      assert (Heq : (t == inject_Z (Qfloor t))%Q) by lra.
      rewrite Heq at 1. ring.
Qed.

Lemma fractions_sum_bound (fs : list Fraction) :
  Forall (fun f => (0 < frac f)%Q /\ (frac f < 1)%Q) fs ->
  (0 <= Qsum (map frac fs))%Q
  /\ (Qsum (map frac fs) <= inject_Z (Z.of_nat (length fs)))%Q
  /\ (fs <> [] -> (Qsum (map frac fs) < inject_Z (Z.of_nat (length fs)))%Q).
Proof.
  induction 1 as [|f fs [Hf0 Hf1] _ (IH0 & IH1 & IH2)].
  - simpl. repeat split; try discriminate. congruence.
  - simpl map. simpl length. rewrite Nat2Z.inj_succ.
    unfold Z.succ. rewrite inject_Z_plus. change (inject_Z 1) with 1%Q.
    assert (Hs := Qsum_cons (frac f) (map frac fs)).
    split; [lra|]. split; [lra|]. intros _. lra.
Qed.

(** ** Apportionment: the sort *)

Section Sorting.

Variable A : Type.
Variable cmp : A -> A -> Q.

Lemma sortInsert_perm (x : A) (l : list A) :
  Permutation (sortInsert cmp x l) (x :: l).
Proof.
  induction l as [|y l IH]; simpl; [reflexivity|].
  destruct (Qle_bool (cmp x y) 0); [reflexivity|].
  rewrite IH. apply perm_swap.
Qed.

Lemma Array_sort_perm (l : list A) : Permutation (Array_sort cmp l) l.
Proof.
  induction l as [|x l IH]; simpl; [reflexivity|].
  unfold Array_sort in *. simpl.
  rewrite sortInsert_perm. constructor. exact IH.
Qed.

(** The order of a comparator: [a] may stand before [b]. *)
Definition cmpLe (a b : A) : Prop := (cmp a b <= 0)%Q.

Hypothesis cmp_total : forall a b, cmpLe a b \/ cmpLe b a.
Hypothesis cmp_trans : forall a b c, cmpLe a b -> cmpLe b c -> cmpLe a c.

Lemma sortInsert_sorted (x : A) (l : list A) :
  StronglySorted cmpLe l -> StronglySorted cmpLe (sortInsert cmp x l).
Proof.
  induction 1 as [|y l Hs IH Hall]; simpl.
  - constructor; constructor.
  - destruct (Qle_bool (cmp x y) 0) eqn:E.
    + apply Qle_bool_iff in E. constructor.
      * constructor; assumption.
      * constructor; [exact E|].
        eapply Forall_impl; [|exact Hall].
        intros z Hz. eapply cmp_trans; eassumption.
    + assert (Hyx : cmpLe y x).
      { destruct (cmp_total x y) as [H|H]; [|exact H].
        apply Qle_bool_iff in H. unfold cmpLe in *. congruence. }
      constructor; [exact IH|].
      eapply Permutation_Forall;
        [apply Permutation_sym; apply sortInsert_perm|].
      constructor; assumption.
Qed.

Lemma Array_sort_sorted (l : list A) : StronglySorted cmpLe (Array_sort cmp l).
Proof.
  induction l as [|x l IH]; [constructor|].
  unfold Array_sort in *. simpl. apply sortInsert_sorted. exact IH.
Qed.

End Sorting.

Lemma StronglySorted_app_cross {A : Type} (R : A -> A -> Prop)
  (l1 l2 : list A) :
  StronglySorted R (l1 ++ l2) ->
  forall a b, In a l1 -> In b l2 -> R a b.
Proof.
  induction l1 as [|x l1 IH]; intros Hs a b Ha Hb; [destruct Ha|].
  simpl in Hs. inversion Hs as [|? ? Hs' Hall]; subst.
  destruct Ha as [<-|Ha].
  - rewrite Forall_forall in Hall. apply Hall. apply in_or_app. right. exact Hb.
  - apply IH; assumption.
Qed.

Lemma StronglySorted_weaken {A : Type} (R R' : A -> A -> Prop) (l : list A) :
  (forall a b, R a b -> R' a b) -> StronglySorted R l -> StronglySorted R' l.
Proof.
  intros HR. induction 1 as [|x l Hs IH Hall]; constructor; [exact IH|].
  eapply Forall_impl; [|exact Hall]. intros b. apply HR.
Qed.

Lemma index_diff_le (a b : nat) :
  (inject_Z (Z.of_nat a - Z.of_nat b) <= 0)%Q <-> (a <= b)%nat.
Proof.
  change 0%Q with (inject_Z 0). rewrite <- Zle_Qle. lia.
Qed.

Lemma fracDescending_le (f g : Fraction) :
  cmpLe Fraction fracDescending f g <-> largerFirst f g.
Proof.
  unfold cmpLe, fracDescending, largerFirst.
  destruct (Qeq_bool (frac f) (frac g)) eqn:E.
  - apply Qeq_bool_iff in E. rewrite index_diff_le. split.
    + intros H. right. split; assumption.
    + intros [H|[_ H]]; [lra|exact H].
  - apply Qeq_bool_neq in E. split.
    + intros H. left. apply Qnot_le_lt. intros Hle. apply E. lra.
    + intros [H|[H _]]; [lra|contradiction].
Qed.

Lemma fracAscending_le (f g : Fraction) :
  cmpLe Fraction fracAscending f g <-> smallerFirst f g.
Proof.
  unfold cmpLe, fracAscending, smallerFirst.
  destruct (Qeq_bool (frac f) (frac g)) eqn:E.
  - apply Qeq_bool_iff in E. rewrite index_diff_le. split.
    + intros H. right. split; assumption.
    + intros [H|[_ H]]; [lra|exact H].
  - apply Qeq_bool_neq in E. split.
    + intros H. left. apply Qnot_le_lt. intros Hle. apply E. lra.
    + intros [H|[H _]]; [lra|contradiction].
Qed.

Lemma largerFirst_total (f g : Fraction) : largerFirst f g \/ largerFirst g f.
Proof.
  unfold largerFirst.
  destruct (Q_dec (frac f) (frac g)) as [[H|H]|H].
  - right. left. exact H.
  - left. left. exact H.
  - destruct (Nat.le_ge_cases (index f) (index g)).
    + left. right. split; assumption.
    + right. right. split; [symmetry|]; assumption.
Qed.

Lemma largerFirst_trans (f g h : Fraction) :
  largerFirst f g -> largerFirst g h -> largerFirst f h.
Proof.
  unfold largerFirst.
  intros [H1|[H1 H1']] [H2|[H2 H2']].
  - left. lra.
  - left. lra.
  - left. lra.
  - right. split; [lra|lia].
Qed.

Lemma smallerFirst_total (f g : Fraction) :
  smallerFirst f g \/ smallerFirst g f.
Proof.
  unfold smallerFirst.
  destruct (Q_dec (frac f) (frac g)) as [[H|H]|H].
  - left. left. exact H.
  - right. left. exact H.
  - destruct (Nat.le_ge_cases (index f) (index g)).
    + left. right. split; assumption.
    + right. right. split; [symmetry|]; assumption.
Qed.

Lemma smallerFirst_trans (f g h : Fraction) :
  smallerFirst f g -> smallerFirst g h -> smallerFirst f h.
Proof.
  unfold smallerFirst.
  intros [H1|[H1 H1']] [H2|[H2 H2']].
  - left. lra.
  - left. lra.
  - left. lra.
  - right. split; [lra|lia].
Qed.

Lemma sort_descending_sorted (l : list Fraction) :
  StronglySorted largerFirst (Array_sort fracDescending l).
Proof.
  eapply StronglySorted_weaken.
  - intros f g H. apply fracDescending_le. exact H.
  - apply Array_sort_sorted.
    + intros a b. rewrite !fracDescending_le. apply largerFirst_total.
    + intros a b c. rewrite !fracDescending_le. apply largerFirst_trans.
Qed.

Lemma sort_ascending_sorted (l : list Fraction) :
  StronglySorted smallerFirst (Array_sort fracAscending l).
Proof.
  eapply StronglySorted_weaken.
  - intros f g H. apply fracAscending_le. exact H.
  - apply Array_sort_sorted.
    + intros a b. rewrite !fracAscending_le. apply smallerFirst_total.
    + intros a b c. rewrite !fracAscending_le. apply smallerFirst_trans.
Qed.

(** ** Apportionment: which entries receive or lose a unit *)

Lemma indexIn_true (i : nat) (fs : list Fraction) :
  indexIn i fs = true <-> In i (map index fs).
Proof.
  unfold indexIn. rewrite existsb_exists. split.
  - intros (j & Hj & E). apply Nat.eqb_eq in E. subst. exact Hj.
  - intros H. exists i. split; [exact H|apply Nat.eqb_refl].
Qed.

Lemma NoDup_app_disjoint {A : Type} (l1 l2 : list A) :
  NoDup (l1 ++ l2) -> forall a, In a l1 -> In a l2 -> False.
Proof.
  induction l1 as [|x l1 IH]; intros Hnd a H1 H2; [destruct H1|].
  simpl in Hnd. inversion Hnd as [|? ? Hx Hrest]; subst.
  destruct H1 as [<-|H1].
  - apply Hx. apply in_or_app. right. exact H2.
  - eapply IH; eassumption.
Qed.

Lemma Array_slice0_nonneg {A : Type} (l : list A) (e : Q) :
  (0 <= e)%Q -> Array_slice0 l e = firstn (Z.to_nat (Qfloor e)) l.
Proof.
  intros He. unfold Array_slice0, ToIntegerOrInfinity.
  pose proof He as Hb. apply Qle_bool_iff in Hb. rewrite Hb.
  assert (H0 : 0 <= Qfloor e).
  { change 0 with (Qfloor (inject_Z 0)). apply Qfloor_resp_le. exact He. }
  destruct (Qfloor e <? 0) eqn:E; [apply Z.ltb_lt in E; lia|reflexivity].
Qed.

Lemma fold_incrementFloor_nth (fs : list Fraction) :
  forall (fl : list Z) (i : nat),
    NoDup (map index fs) -> (i < length fl)%nat ->
    nth i (fold_left incrementFloor fs fl) 0
    = nth i fl 0 + (if indexIn i fs then 1 else 0).
Proof.
  induction fs as [|f fs IH]; intros fl i Hnd Hi; simpl fold_left.
  - simpl. lia.
  - simpl in Hnd. inversion Hnd as [|? ? Hf Hrest]; subst.
    rewrite IH by (unfold incrementFloor; rewrite ?updateAt_length; assumption).
    unfold indexIn at 2. simpl existsb. fold (indexIn i fs).
    unfold incrementFloor.
    destruct (Nat.eqb i (index f)) eqn:E.
    + apply Nat.eqb_eq in E. subst i.
      rewrite updateAt_nth by exact Hi.
      assert (Hno : indexIn (index f) fs = false).
      { apply not_true_iff_false. rewrite indexIn_true. exact Hf. }
      rewrite Hno. simpl. lia.
    + apply Nat.eqb_neq in E.
      rewrite updateAt_nth_other by congruence. reflexivity.
Qed.

Lemma fold_decrementFloor_nth (fs : list Fraction) :
  forall (fl : list Z) (i : nat),
    NoDup (map index fs) -> (i < length fl)%nat ->
    nth i (fold_left decrementFloor fs fl) 0
    = nth i fl 0 - (if indexIn i fs && (0 <? nth i fl 0) then 1 else 0).
Proof.
  induction fs as [|f fs IH]; intros fl i Hnd Hi; simpl fold_left.
  - simpl. lia.
  - simpl in Hnd. inversion Hnd as [|? ? Hf Hrest]; subst.
    rewrite IH by (unfold decrementFloor; rewrite ?updateAt_length; assumption).
    unfold indexIn at 2. simpl existsb. fold (indexIn i fs).
    unfold decrementFloor.
    destruct (Nat.eqb i (index f)) eqn:E.
    + apply Nat.eqb_eq in E. subst i.
      rewrite updateAt_nth by exact Hi.
      assert (Hno : indexIn (index f) fs = false).
      { apply not_true_iff_false. rewrite indexIn_true. exact Hf. }
      rewrite Hno. simpl. destruct (0 <? nth (index f) fl 0); lia.
    + apply Nat.eqb_neq in E.
      rewrite updateAt_nth_other by congruence. reflexivity.
Qed.

(** The head of a sorted array against its tail, strictly: the indices of
    the entries differ. *)
Lemma sorted_split_strict (R : Fraction -> Fraction -> Prop)
  (sorted fractions : list Fraction) (n : nat) :
  StronglySorted R sorted ->
  Permutation sorted fractions ->
  NoDup (map index fractions) ->
  forall f g,
    In f (firstn n sorted) -> In g (skipn n sorted) ->
    R f g /\ index f <> index g.
Proof.
  intros Hs Hp Hnd f g Hf Hg.
  rewrite <- (firstn_skipn n sorted) in Hs, Hp.
  split; [eapply StronglySorted_app_cross; eassumption|].
  assert (Hnd' : NoDup (map index (firstn n sorted)
                        ++ map index (skipn n sorted))).
  { rewrite <- map_app. eapply Permutation_NoDup; [|exact Hnd].
    apply Permutation_map. apply Permutation_sym. exact Hp. }
  intros Heq.
  apply (NoDup_app_disjoint _ _ Hnd' (index f)).
  - apply in_map. exact Hf.
  - rewrite Heq. apply in_map. exact Hg.
Qed.

(** ** Apportionment: conservation of the total *)





Lemma capScale_cases (specs : list TileSpec) (capLimit : Q) :
  positiveCounts specs ->
  (capScale specs capLimit = 1%Q
   /\ ((capLimit <= 0)%Q \/ (sumCounts specs <= capLimit)%Q))
  \/ (capScale specs capLimit = (capLimit / sumCounts specs)%Q
      /\ (0 < capLimit)%Q /\ (capLimit < sumCounts specs)%Q
      /\ (capScale specs capLimit < 1)%Q
      /\ (0 < capScale specs capLimit)%Q).
Proof.
  intros Hpos. unfold capScale.
  destruct (Qltb 0 capLimit) eqn:E1; simpl.
  - destruct (Qltb capLimit (sumCounts specs)) eqn:E2.
    + right. apply Qltb_lt in E1, E2.
      assert (HS : (0 < sumCounts specs)%Q) by lra.
      repeat split; try assumption.
      * apply Qlt_shift_div_r; lra.
      * apply Qlt_shift_div_l; lra.
    + left. apply Qltb_ge in E2. split; [reflexivity|right; exact E2].
  - left. apply Qltb_ge in E1. split; [reflexivity|left; exact E1].
Qed.


Lemma Math_round_floor (v : Q) : Qfloor v <= Math_round v.
Proof. unfold Math_round. apply Qfloor_resp_le. lra. Qed.

Lemma Forall_index_perm (n : nat) (l l' : list Fraction) :
  Permutation l l' ->
  Forall (fun f => (index f < n)%nat) l' ->
  Forall (fun f => (index f < n)%nat) l.
Proof.
  intros Hp H. eapply Permutation_Forall; [apply Permutation_sym|]; eassumption.
Qed.

Lemma Forall_firstn {A : Type} (P : A -> Prop) (n : nat) (l : list A) :
  Forall P l -> Forall P (firstn n l).
Proof.
  intros H. rewrite Forall_forall in *. intros a Ha. apply H.
  rewrite <- (firstn_skipn n l). apply in_or_app. left. exact Ha.
Qed.

Lemma collectBatches_total (specs : list TileSpec) :
  forall floors : list Z,
    length floors = length specs ->
    Forall (fun v => 0 <= v) floors ->
    totalCount (collectBatches specs floors) = Zsum floors.
Proof.
  unfold totalCount.
  induction specs as [|s specs IH]; intros [|v floors] Hlen Hall;
    simpl in Hlen; try discriminate; [reflexivity|].
  inversion Hall; subst. simpl collectBatches.
  destruct (v <=? 0) eqn:E.
  - apply Z.leb_le in E. rewrite Zsum_cons, IH by (assumption || lia). lia.
  - simpl map. rewrite !Zsum_cons, IH by (assumption || lia). reflexivity.
Qed.

Lemma collectBatches_positive (specs : list TileSpec) :
  forall floors : list Z,
    Forall (fun b => 0 < batch_count b) (collectBatches specs floors).
Proof.
  induction specs as [|s specs IH]; intros [|v floors]; simpl;
    try constructor.
  destruct (v <=? 0) eqn:E; [apply IH|].
  apply Z.leb_gt in E. constructor; [exact E|apply IH].
Qed.

(** ** The counts that reach the normalizer are positive *)

Lemma parseTilePart_positive (partRaw : jsstring) (s : TileSpec) :
  parseTilePart partRaw = Ok (Some s) -> (0 < spec_count s)%Q.
Proof.
  unfold parseTilePart.
  destruct (String_trim partRaw) as [|c part]; [discriminate|].
  destruct (String_split 120 _) as [|d0 [|d1 [|d2 ds]]]; try discriminate.
  destruct (parseInt10 _) as [w|]; [|discriminate].
  destruct (parseInt10 _) as [h|]; [|discriminate].
  destruct (_ || _); [discriminate|].
  match goal with
  | |- match ?parsed with _ => _ end = _ -> _ =>
      destruct parsed as [cnt|]; [|discriminate]
  end.
  destruct (Qle_bool cnt 0) eqn:E; [discriminate|].
  intros H. injection H as <-. simpl. apply Qle_bool_gt. exact E.
Qed.

Lemma parseTileParts_positive (parts : list jsstring) :
  forall specs, parseTileParts parts = Ok specs -> positiveCounts specs.
Proof.
  induction parts as [|part parts IH]; intros specs; simpl.
  - intros H. injection H as <-. constructor.
  - destruct (parseTilePart part) as [entry|] eqn:E; [|discriminate].
    destruct (parseTileParts parts) as [rest|]; [|discriminate].
    intros H. injection H as <-.
    destruct entry as [s|]; [|apply IH; reflexivity].
    constructor; [eapply parseTilePart_positive; exact E|].
    apply IH. reflexivity.
Qed.

Lemma parseTileList_positive (input : jsstring) (specs : list TileSpec) :
  parseTileList input = Ok specs -> positiveCounts specs.
Proof.
  unfold parseTileList.
  destruct (String_trim input) as [|c rest].
  - intros H. injection H as <-. repeat constructor.
  - destruct (parseTileParts _) as [[|s parsed]|] eqn:E; try discriminate.
    intros H. injection H as <-.
    eapply parseTileParts_positive. exact E.
Qed.

Lemma addToFound_positive (w h : Z) (n : Q) :
  (0 < n)%Q ->
  forall specs specs',
    positiveCounts specs -> addToFound specs w h n = Some specs' ->
    positiveCounts specs'.
Proof.
  intros Hn. induction specs as [|s specs IH]; intros specs' Hpos; simpl;
    [discriminate|].
  inversion Hpos as [|? ? Hs Hrest]; subst.
  destruct (_ && _).
  - intros H. injection H as <-. constructor; [simpl; lra|exact Hrest].
  - destruct (addToFound specs w h n) as [found|]; [|discriminate].
    simpl. intros H. injection H as <-.
    constructor; [exact Hs|]. apply IH; [exact Hrest|reflexivity].
Qed.

Lemma applyLegacyEntry_positive (specs : list TileSpec) (entry : Z * Z * Q) :
  positiveCounts specs -> positiveCounts (applyLegacyEntry specs entry).
Proof.
  intros Hpos. destruct entry as [[w h] n]. unfold applyLegacyEntry.
  destruct (Qle_bool n 0) eqn:E; [exact Hpos|].
  apply Qle_bool_gt in E.
  destruct (addToFound specs w h n) as [found|] eqn:F.
  - eapply addToFound_positive; eassumption.
  - apply Forall_app. split; [exact Hpos|]. repeat constructor. exact E.
Qed.

Lemma activateMultiplier_positive (specs : list TileSpec) (ka_ : Q) :
  positiveCounts specs -> positiveCounts (activateMultiplier specs ka_).
Proof.
  intros Hpos. unfold activateMultiplier.
  destruct (Qle_bool ka_ 0) eqn:E; [exact Hpos|].
  destruct (Qeq_bool ka_ 1); [exact Hpos|].
  apply Qle_bool_gt in E. unfold positiveCounts in *.
  rewrite Forall_map. eapply Forall_impl; [|exact Hpos].
  intros s Hs. simpl. apply Qmult_lt_0_compat; assumption.
Qed.

(** Every successful [finalizeSpecs] hands positive counts to
    [finalizeTileBatches]. *)
Lemma finalizeSpecs_positive (params : GenerationParams)
  (batches_ : list TileBatch) :
  finalizeSpecs params = Ok batches_ ->
  exists specs,
    positiveCounts specs
    /\ batches_ = finalizeTileBatches specs (cap params).
Proof.
  unfold finalizeSpecs.
  destruct (parseTileList (tileString params)) as [parsed|] eqn:E;
    [|discriminate].
  intros H. injection H as <-.
  eexists. split; [|reflexivity].
  apply activateMultiplier_positive. unfold applyLegacyTiles.
  cbn [fold_left]. do 3 apply applyLegacyEntry_positive.
  eapply parseTileList_positive. exact E.
Qed.

(** ** Runs of the normalizer *)

(** The scenarios of the specification that need no placement. *)
Example largest_remainder_by_hand :
  finalizeTileBatches defaultTiles 7
  = [mkTileBatch 2 2 3; mkTileBatch 2 1 3; mkTileBatch 1 1 1].
Proof. vm_compute. reflexivity. Qed.

Example cap_scenario :
  finalizeSpecs
    (mkParams 100 100 (codeUnits "2x2*10000") 1 100 mode_center 10 (1 # 10)
       (8 # 10) (codeUnits "s") true 8 0 4 (1 # 4) true false 0 0 0)
  = Ok [mkTileBatch 2 2 100].
Proof. vm_compute. reflexivity. Qed.

(* ================================================================== *)
(** * Further properties of the normalizer *)

Lemma Array_slice0_prefix {A : Type} (l : list A) (e : Q) :
  exists n, Array_slice0 l e = firstn n l.
Proof.
  unfold Array_slice0. destruct (_ <? 0); eexists; reflexivity.
Qed.

(** The entries of [fractions] are the remainders of the totals. *)
Lemma fractionsFrom_entry (totals : list Q) :
  forall (k : nat) (f : Fraction),
    In f (fractionsFrom k totals) ->
    (k <= index f)%nat
    /\ frac f = (nth (index f - k) totals 0
                 - inject_Z (Math_floor (nth (index f - k) totals 0)))%Q.
Proof.
  induction totals as [|t totals IH]; intros k f Hin; simpl in Hin;
    [destruct Hin|].
  assert (Hrest : In f (fractionsFrom (S k) totals) ->
                  (k <= index f)%nat
                  /\ frac f = (nth (index f - k) (t :: totals) 0
                               - inject_Z (Math_floor
                                   (nth (index f - k) (t :: totals) 0)))%Q).
  { intros H. destruct (IH (S k) f H) as [Hk Hf]. split; [lia|].
    replace (index f - k)%nat with (S (index f - S k)) by lia.
    exact Hf. }
  destruct (Qltb 0 _); [|apply Hrest; exact Hin].
  destruct Hin as [<-|Hin]; [|apply Hrest; exact Hin].
  simpl. rewrite Nat.sub_diag. split; [lia|reflexivity].
Qed.



(** ** Legacy boosts and the multiplier *)







(** ** The tile specification language *)

Lemma parseTilePart_dims (partRaw : jsstring) (s : TileSpec) :
  parseTilePart partRaw = Ok (Some s) -> 0 < spec_w s /\ 0 < spec_h s.
Proof.
  unfold parseTilePart.
  destruct (String_trim partRaw) as [|c part]; [discriminate|].
  destruct (String_split 120 _) as [|d0 [|d1 [|d2 ds]]]; try discriminate.
  destruct (parseInt10 _) as [w|]; [|discriminate].
  destruct (parseInt10 _) as [h|]; [|discriminate].
  destruct (_ || _) eqn:E; [discriminate|].
  apply orb_false_iff in E. destruct E as [Ew Eh].
  apply Z.leb_gt in Ew, Eh.
  match goal with
  | |- match ?parsed with _ => _ end = _ -> _ =>
      destruct parsed as [cnt|]; [|discriminate]
  end.
  destruct (Qle_bool cnt 0); [discriminate|].
  intros H. injection H as <-. simpl. split; assumption.
Qed.

Lemma parseTileParts_dims (parts : list jsstring) :
  forall specs,
    parseTileParts parts = Ok specs ->
    Forall (fun s => 0 < spec_w s /\ 0 < spec_h s) specs.
Proof.
  induction parts as [|part parts IH]; intros specs; simpl.
  - intros H. injection H as <-. constructor.
  - destruct (parseTilePart part) as [entry|] eqn:E; [|discriminate].
    destruct (parseTileParts parts) as [rest|]; [|discriminate].
    intros H. injection H as <-.
    destruct entry as [s|]; [|apply IH; reflexivity].
    constructor; [eapply parseTilePart_dims; exact E|].
    apply IH. reflexivity.
Qed.

(** A tile string that parses yields at least one entry, and every entry
    has a positive width, a positive height and a positive count. *)
Theorem parseTileList_valid (input : jsstring) (specs : list TileSpec) :
  parseTileList input = Ok specs ->
  specs <> []
  /\ Forall (fun s => 0 < spec_w s /\ 0 < spec_h s /\ (0 < spec_count s)%Q)
       specs.
Proof.
  intros Hok. pose proof (parseTileList_positive input specs Hok) as Hpos.
  unfold parseTileList in Hok.
  destruct (String_trim input) as [|c rest].
  - injection Hok as <-. split; [discriminate|].
    repeat constructor.
  - destruct (parseTileParts _) as [[|s parsed]|] eqn:E; try discriminate.
    injection Hok as <-. split; [discriminate|].
    pose proof (parseTileParts_dims _ _ E) as Hdims.
    unfold positiveCounts in Hpos.
    rewrite Forall_forall in *. intros t Ht.
    destruct (Hdims t Ht). split; [|split]; auto.
Qed.

Lemma trimStart_blank (s : jsstring) :
  Forall (fun c => isWhiteSpace c = true) s -> trimStart s = [].
Proof.
  induction 1 as [|c s Hc _ IH]; simpl; [reflexivity|].
  rewrite Hc. exact IH.
Qed.

(** A tile string of white space only, the empty one among them, stands
    for the built-in set 2x2*400, 2x1*300, 1x1*100. *)
Theorem parseTileList_blank (input : jsstring) :
  Forall (fun c => isWhiteSpace c = true) input ->
  parseTileList input
  = Ok [mkTileSpec 2 2 400; mkTileSpec 2 1 300; mkTileSpec 1 1 100].
Proof.
  intros H. unfold parseTileList, String_trim.
  rewrite (trimStart_blank input H). reflexivity.
Qed.

(* ================================================================== *)
(** * Further properties of the engine *)

(** ** The RNG *)

(** [intn] draws once and lands in [0, n) when [n] is positive; when [n]
    is not positive it returns 0 and draws nothing. *)
Theorem RNG_intn_spec (n : Z) (r : RNG) :
  (n <= 0 -> RNG_intn n r = (0, r))
  /\ (0 < n ->
      0 <= fst (RNG_intn n r) < n
      /\ snd (RNG_intn n r) = mkRNG (snd (quick (uniform r))) (spare r)).
Proof.
  split; intros Hn.
  - unfold RNG_intn. destruct (n <=? 0) eqn:E; [reflexivity|].
    apply Z.leb_gt in E. lia.
  - split; [apply (yields_intn n Hn r)|].
    unfold RNG_intn. destruct (n <=? 0) eqn:E; [apply Z.leb_le in E; lia|].
    unfold bind, RNG_float, ret.
    destruct (quick (uniform r)) as [u g']. reflexivity.
Qed.

(** The normal values come in pairs: from an empty cache the first call
    draws twice and caches the second value, the next call returns the
    cached value, draws nothing and empties the cache. *)
Theorem RNG_normFloat64_pair (r : RNG) :
  spare r = None ->
  let first := RNG_normFloat64 r in
  let second := RNG_normFloat64 (snd first) in
  uniform (snd first) = snd (quick (snd (quick (uniform r))))
  /\ spare (snd first) = Some (fst second)
  /\ snd second = mkRNG (uniform (snd first)) None.
Proof.
  intros Hs first second. unfold second, first, RNG_normFloat64.
  rewrite Hs. unfold RNG_float. simpl.
  destruct (quick (uniform r)) as [u0 g1]. simpl.
  destruct (quick g1) as [v0 g2]. simpl. repeat split.
Qed.

(** ** Anchors *)

Lemma islandLoop_spec (w h margin : Z) :
  0 < w - 2 * margin -> 0 < h - 2 * margin ->
  forall count : nat,
    yields (islandLoop count w h margin)
      (fun centers =>
         length centers = count
         /\ Forall (fun p => margin <= px p < w - margin
                             /\ margin <= py p < h - margin) centers).
Proof.
  intros Hw Hh. induction count as [|count IH]; cbn [islandLoop].
  - apply yields_ret. split; [reflexivity|constructor].
  - assert (Ew : (0 <? w - 2 * margin) = true) by (apply Z.ltb_lt; exact Hw).
    assert (Eh : (0 <? h - 2 * margin) = true) by (apply Z.ltb_lt; exact Hh).
    rewrite Ew, Eh.
    eapply yields_bind; [apply yields_intn; exact Hw|]. intros dx Hdx.
    eapply yields_bind; [apply yields_intn; exact Hh|]. intros dy Hdy.
    eapply yields_bind; [exact IH|]. intros rest [Hlen Hall].
    apply yields_ret. cbv beta in Hdx, Hdy. split; [simpl; congruence|].
    constructor; [simpl; lia|exact Hall].
Qed.

Lemma tenth_margin (m : Z) :
  0 <= m ->
  0 <= Math_floor (inject_Z m * (1 # 10))
  /\ 10 * Math_floor (inject_Z m * (1 # 10)) <= m.
Proof.
  intros Hm. unfold Math_floor.
  assert (H0 : (0 <= inject_Z m)%Q).
  { change 0%Q with (inject_Z 0). rewrite <- Zle_Qle. exact Hm. }
  split; [apply Qfloor_nonneg; lra|].
  pose proof (Qfloor_le (inject_Z m * (1 # 10))) as H.
  rewrite Zle_Qle, inject_Z_mult. change (inject_Z 10) with 10%Q. lra.
Qed.

(** Island mode has [max(1, islands)] centres, 3 when [islands] is 0, and
    every centre is a cell of the canvas, at least the margin away from
    its border. *)
Theorem initIslands_centers (w h islands_ : Z) (r : RNG) :
  1 <= w -> 1 <= h ->
  let centers := fst (initIslands w h islands_ r) in
  let margin := Math_floor (inject_Z (Z.min w h) * (1 # 10)) in
  Z.of_nat (length centers)
  = Z.max 1 (if islands_ =? 0 then 3 else islands_)
  /\ Forall (fun p => inCanvas w h p
                      /\ margin <= px p < w - margin
                      /\ margin <= py p < h - margin) centers.
Proof.
  intros Hw Hh centers margin.
  destruct (tenth_margin (Z.min w h) ltac:(lia)) as [Hm0 Hm10].
  fold margin in Hm0, Hm10.
  destruct (islandLoop_spec w h margin ltac:(lia) ltac:(lia)
              (Z.to_nat (Z.max 1 (if islands_ =? 0 then 3 else islands_))) r)
    as [Hlen Hall].
  assert (Hc : centers
               = fst (islandLoop
                        (Z.to_nat
                           (Z.max 1 (if islands_ =? 0 then 3 else islands_)))
                        w h margin r)) by reflexivity.
  rewrite Hc.
  split; [rewrite Hlen; lia|].
  eapply Forall_impl; [|exact Hall].
  intros p [Hx Hy]. unfold inCanvas. lia.
Qed.

(** Dual-continent mode has two centres, both cells of the canvas, at the
    same height, the first not to the right of the second. *)
Theorem initContinents_centers (w h : Z) :
  1 <= w -> 1 <= h ->
  exists left right : Point,
    initContinents w h = [left; right]
    /\ inCanvas w h left /\ inCanvas w h right
    /\ px left <= px right /\ py left = py right
    /\ px left = w / 4 /\ px right = 3 * w / 4 /\ py left = h / 2.
Proof.
  intros Hw Hh. unfold initContinents. eexists. eexists.
  split; [reflexivity|]. unfold inCanvas, Math_floor. cbn [px py].
  change 4%Q with (inject_Z 4). change 2%Q with (inject_Z 2).
  rewrite <- !Zdiv_Qdiv.
  assert (H1 : 0 <= w / 4 < w) by (split; [apply Z.div_pos; lia|
    apply Z.div_lt_upper_bound; lia]).
  assert (H2 : 0 <= 3 * w / 4 < w) by (split; [apply Z.div_pos; lia|
    apply Z.div_lt_upper_bound; lia]).
  assert (H3 : 0 <= h / 2 < h) by (split; [apply Z.div_pos; lia|
    apply Z.div_lt_upper_bound; lia]).
  assert (H4 : w / 4 <= 3 * w / 4) by (apply Z.div_le_mono; lia).
  repeat split; lia.
Qed.

(** ** Ring segments *)

Lemma ringWeights_length (start end_ span : Q) :
  forall bounds : list Q,
    length (ringWeights bounds start end_ span) = (length bounds - 1)%nat.
Proof.
  induction bounds as [|a [|b rest] IH]; try reflexivity.
  change (length (ringWeights (a :: b :: rest) start end_ span))
    with (S (length (ringWeights (b :: rest) start end_ span))).
  rewrite IH. simpl. lia.
Qed.

Lemma pickSegment_range (last : Z) :
  forall (weights : list Q) (i : Z) (threshold : Q),
    let seg := pickSegment weights i threshold last in
    seg = last \/ i <= seg < i + Z.of_nat (length weights).
Proof.
  induction weights as [|w weights IH]; intros i threshold; simpl.
  - left. reflexivity.
  - destruct (Qle_bool _ 0); [right; lia|].
    destruct (IH (i + 1) (threshold - w)%Q) as [H|H]; [left; exact H|].
    right. lia.
Qed.

(** [selectRingSegment] answers -1 exactly when the table has no segment,
    and otherwise the index of one of its segments. *)
Theorem selectRingSegment_range (g : Generator) (r : RNG) :
  let segments := Z.of_nat (length (ringBoundaries g)) - 1 in
  let segment := fst (selectRingSegment g r) in
  (segments <= 0 -> segment = -1)
  /\ (0 < segments -> 0 <= segment < segments).
Proof.
  intros segments segment. unfold segment, selectRingSegment.
  fold segments.
  destruct (segments <=? 0) eqn:E.
  - apply Z.leb_le in E. split; [reflexivity|lia].
  - apply Z.leb_gt in E. split; [lia|]. intros _.
    destruct (Qle_bool _ 0); [simpl; lia|].
    unfold bind, RNG_float, ret. destruct (quick (uniform r)) as [u g'].
    simpl.
    match goal with
    | |- _ <= pickSegment ?ws ?i ?t ?l < _ =>
        destruct (pickSegment_range l ws i t) as [H|H];
          [rewrite H; lia|]
    end.
    rewrite ringWeights_length in H. unfold segments in *. lia.
Qed.

(** ** Weighted mode *)

Lemma weightedAttempts_score (g : Generator) (tw th : Z)
  (currentDist : option Q) :
  forall (n : nat) (best : Point) (bestScore : Q),
    bestScore = weightedScore g tw th best ->
    yields
      (weightedAttempts n g tw th (inject_Z (g_width g) / 2)
         (inject_Z (g_height g) / 2) currentDist best bestScore)
      (fun p => (weightedScore g tw th p <= bestScore)%Q).
Proof.
  induction n as [|n IH]; intros best bestScore Hbest; simpl.
  - apply yields_ret. rewrite Hbest. apply Qle_refl.
  - apply yields_bind_any. intros p.
    fold (weightedScore g tw th p).
    destruct (Qltb (weightedScore g tw th p) bestScore) eqn:E.
    + apply Qltb_lt in E.
      assert (Hnext : yields
                (weightedAttempts n g tw th (inject_Z (g_width g) / 2)
                   (inject_Z (g_height g) / 2) currentDist p
                   (weightedScore g tw th p))
                (fun q => (weightedScore g tw th q <= bestScore)%Q)).
      { intros r. specialize (IH p (weightedScore g tw th p) eq_refl r).
        cbv beta in IH. lra. }
      destruct currentDist as [d|]; [|exact Hnext].
      destruct (Qle_bool _ _); [|exact Hnext].
      apply yields_ret. lra.
    + apply IH. exact Hbest.
Qed.

(** Weighted mode is greedy: the position it returns scores no worse than
    the centred placement it starts from. *)
Theorem positionWeighted_no_worse (g : Generator) (tw th : Z) (r : RNG) :
  (weightedScore g tw th (fst (positionWeighted g tw th r))
   <= weightedScore g tw th (centredCandidate g tw th))%Q.
Proof.
  unfold positionWeighted. fold (centredCandidate g tw th).
  change (distanceAfterPlacement g
            (clampInt (Math_round (inject_Z (g_width g) / 2)
                       - Math_floor (inject_Z tw / 2)) 0 (g_width g - tw))
            (clampInt (Math_round (inject_Z (g_height g) / 2)
                       - Math_floor (inject_Z th / 2)) 0 (g_height g - th))
            tw th (inject_Z (g_width g) / 2) (inject_Z (g_height g) / 2))
    with (weightedScore g tw th (centredCandidate g tw th)).
  destruct (centerOfMass g) as [[cx cy]|].
  - match goal with
    | |- context [Qltb ?m ?b] => destruct (Qltb m b) eqn:E
    end.
    + apply Qltb_lt in E.
      match goal with
      | |- context [weightedAttempts _ _ _ _ _ _ _ ?p ?s] =>
          pose proof (weightedAttempts_score g tw th
                        (Some (Math_hypot (cx - inject_Z (g_width g) / 2)
                                 (cy - inject_Z (g_height g) / 2)))
                        24 p s eq_refl r) as H
      end.
      cbv beta in H. lra.
    + apply (weightedAttempts_score g tw th _ 24 _ _ eq_refl r).
  - apply (weightedAttempts_score g tw th None 24 _ _ eq_refl r).
Qed.

(** ** The running centroid *)

(** The score of weighted mode is the distance that the centroid has once
    the placement is recorded; a tile without area is not recorded. *)
Theorem distanceAfterPlacement_recorded (g : Generator) (x y tw th : Z)
  (targetX targetY : Q) :
  0 <= totalArea g ->
  (0 < tw * th ->
   exists cx cy : Q,
     centerOfMass (recordPlacement g x y tw th) = Some (cx, cy)
     /\ distanceAfterPlacement g x y tw th targetX targetY
        = Math_hypot (cx - targetX) (cy - targetY))
  /\ (tw * th <= 0 -> recordPlacement g x y tw th = g).
Proof.
  intros Harea. split; intros Ha.
  - unfold distanceAfterPlacement, recordPlacement, centerOfMass.
    destruct (tw * th <=? 0) eqn:E; [apply Z.leb_le in E; lia|].
    cbn [totalArea sumX sumY].
    destruct (totalArea g + tw * th <=? 0) eqn:E2;
      [apply Z.leb_le in E2; lia|].
    eexists. eexists. split; reflexivity.
  - unfold recordPlacement.
    destruct (tw * th <=? 0) eqn:E; [reflexivity|].
    apply Z.leb_gt in E. lia.
Qed.

Lemma recordPlacement_dims (g : Generator) (x y tw th : Z) :
  g_width (recordPlacement g x y tw th) = g_width g
  /\ g_height (recordPlacement g x y tw th) = g_height g.
Proof.
  unfold recordPlacement. destruct (tw * th <=? 0); split; reflexivity.
Qed.









(** ** Coverage accumulation *)

Lemma fold_left_invariant {A B : Type} (f : A -> B -> A) (P : A -> Prop) :
  (forall a b, P a -> P (f a b)) ->
  forall (l : list B) (a : A), P a -> P (fold_left f l a).
Proof.
  intros Hf. induction l as [|b l IH]; intros a Ha; simpl; [exact Ha|].
  apply IH. apply Hf. exact Ha.
Qed.

Lemma coverageIncr_length (coverage : list Z) (idx : Z) :
  length (coverageIncr coverage idx) = length coverage.
Proof.
  unfold coverageIncr. destruct (idx <? 0); [reflexivity|].
  apply updateAt_length.
Qed.

Lemma rasterWith_length (w_canvas : Z) (ys xs : list Z)
  (hit : Z -> Z -> bool) (coverage : list Z) :
  length (rasterWith w_canvas coverage ys xs hit) = length coverage.
Proof.
  unfold rasterWith.
  apply (fold_left_invariant _ (fun cov => length cov = length coverage));
    [|reflexivity].
  intros cov yy Hcov.
  apply (fold_left_invariant _ (fun cov => length cov = length coverage));
    [|exact Hcov].
  intros cov' xx Hcov'. destruct (hit xx yy); [|exact Hcov'].
  rewrite coverageIncr_length. exact Hcov'.
Qed.

Lemma fold_left_ext {A B : Type} (f g : A -> B -> A) :
  (forall a b, f a b = g a b) ->
  forall (l : list B) (a : A), fold_left f l a = fold_left g l a.
Proof.
  intros H. induction l as [|b l IH]; intros a; simpl; [reflexivity|].
  rewrite H. apply IH.
Qed.

Lemma rasterPlain_rasterWith (w_canvas : Z) (coverage : list Z)
  (x y w h : Z) :
  rasterPlain w_canvas coverage x y w h
  = rasterWith w_canvas coverage (zrange y (y + h)) (zrange x (x + w))
      (fun _ _ => true).
Proof. reflexivity. Qed.

Lemma rasterPolish_rasterWith (w_canvas h_canvas : Z) (coverage : list Z)
  (x y w h : Z) :
  rasterPolish w_canvas h_canvas coverage x y w h
  = rasterWith w_canvas coverage
      (zrange (Z.max 0 (y - 1)) (Z.min h_canvas (y + h + 1)))
      (zrange (Z.max 0 (x - 1)) (Z.min w_canvas (x + w + 1)))
      (polishHit x y w h).
Proof.
  unfold rasterPolish, rasterWith. cbv zeta.
  apply fold_left_ext. intros cov yy.
  apply fold_left_ext. intros cov' xx.
  unfold polishHit. cbv zeta.
  destruct ((x <=? xx) && (xx <? x + w) && ((y <=? yy) && (yy <? y + h)));
    reflexivity.
Qed.

Lemma rasterPlain_length (w_canvas : Z) (coverage : list Z) (x y w h : Z) :
  length (rasterPlain w_canvas coverage x y w h) = length coverage.
Proof. rewrite rasterPlain_rasterWith. apply rasterWith_length. Qed.

Lemma rasterPolish_length (w_canvas h_canvas : Z) (coverage : list Z)
  (x y w h : Z) :
  length (rasterPolish w_canvas h_canvas coverage x y w h) = length coverage.
Proof. rewrite rasterPolish_rasterWith. apply rasterWith_length. Qed.

Lemma placeUnit_shape (params : GenerationParams) (batch : TileBatch)
  (g : Generator) (coverage : list Z) (st : Generator * list Z) :
  sameShape g coverage st ->
  yields (placeUnit params batch st) (sameShape g coverage).
Proof.
  intros (Hl & Hw & Hh). destruct st as [g0 cov]. simpl in Hl, Hw, Hh.
  unfold placeUnit. apply yields_bind_any. intros swap.
  destruct (if swap then (batch_h batch, batch_w batch)
            else (batch_w batch, batch_h batch)) as [w h].
  destruct (_ || _).
  - apply yields_ret. repeat split; assumption.
  - apply yields_bind_any. intros p. apply yields_ret.
    destruct (recordPlacement_dims g0 (px p) (py p) w h) as [Hd1 Hd2].
    unfold sameShape. simpl.
    destruct (polish params);
      rewrite ?rasterPolish_length, ?rasterPlain_length;
      repeat split; congruence.
Qed.

Lemma placeUnits_shape (params : GenerationParams) (batch : TileBatch)
  (g : Generator) (coverage : list Z) :
  forall (n : nat) (st : Generator * list Z),
    sameShape g coverage st ->
    yields (placeUnits n params batch st) (sameShape g coverage).
Proof.
  induction n as [|n IH]; intros st Hst; simpl.
  - apply yields_ret. exact Hst.
  - eapply yields_bind; [apply placeUnit_shape; exact Hst|].
    intros st' Hst'. apply IH. exact Hst'.
Qed.

Lemma placeBatches_total (params : GenerationParams)
  (g : Generator) (coverage : list Z) :
  forall (batches_ : list TileBatch) (st : Generator * list Z) (total : Z),
    sameShape g coverage st ->
    yields (placeBatches params batches_ st total)
      (fun res => sameShape g coverage (fst res)
                  /\ snd res = total + totalCount batches_).
Proof.
  induction batches_ as [|batch rest IH]; intros st total Hst; simpl.
  - apply yields_ret. split; [exact Hst|].
    change (totalCount []) with 0. simpl snd. lia.
  - eapply yields_bind; [apply placeUnits_shape; exact Hst|].
    intros st' Hst' r.
    destruct (IH st' (total + batch_count batch) Hst' r) as [H1 H2].
    split; [exact H1|]. rewrite H2. unfold totalCount. simpl map.
    rewrite Zsum_cons. lia.
Qed.

(** [placeTiles] reports the sum of the batch counts, the units it skips
    included, and returns a grid of the length it was given and a
    generator of the same canvas. *)
Theorem placeTiles_total (params : GenerationParams) (g : Generator)
  (batches_ : list TileBatch) (coverage : list Z) (r : RNG) :
  let res := fst (placeTiles g params batches_ coverage r) in
  snd res = totalCount batches_
  /\ length (snd (fst res)) = length coverage
  /\ g_width (fst (fst res)) = g_width g
  /\ g_height (fst (fst res)) = g_height g.
Proof.
  intros res.
  destruct (placeBatches_total params g coverage batches_ (g, coverage) 0
              ltac:(repeat split) r) as [(H1 & H2 & H3) H4].
  repeat split; assumption.
Qed.

(** A unit that fits the canvas in neither orientation is skipped: the
    generator and the grid are returned as they were. *)
Theorem placeUnit_skips_oversized (params : GenerationParams)
  (batch : TileBatch) (st : Generator * list Z) (r : RNG) :
  (width params < batch_w batch \/ height params < batch_h batch) ->
  (width params < batch_h batch \/ height params < batch_w batch) ->
  fst (placeUnit params batch st r) = st.
Proof.
  intros H1 H2. destruct st as [g cov]. unfold placeUnit, bind.
  match goal with
  | |- context [?m r] =>
      match type of m with Rand bool => destruct (m r) as [swap r'] end
  end.
  destruct swap.
  - assert (E : (width params <? batch_h batch)
                || (height params <? batch_w batch) = true).
    { apply orb_true_iff. rewrite !Z.ltb_lt. exact H2. }
    rewrite <- orb_assoc, E, orb_true_r. reflexivity.
  - assert (E : (width params <? batch_w batch)
                || (height params <? batch_h batch) = true).
    { apply orb_true_iff. rewrite !Z.ltb_lt. exact H1. }
    rewrite <- orb_assoc, E, orb_true_r. reflexivity.
Qed.

(** ** Which cells a rasterization increments *)

Lemma zrange_In (lo hi v : Z) : In v (zrange lo hi) <-> lo <= v < hi.
Proof.
  unfold zrange. rewrite in_map_iff. split.
  - intros (k & <- & Hk). apply in_seq in Hk. lia.
  - intros H. exists (Z.to_nat (v - lo)). split; [lia|].
    apply in_seq. lia.
Qed.

Lemma zrange_NoDup (lo hi : Z) : NoDup (zrange lo hi).
Proof.
  unfold zrange. apply Finite.Injective_map_NoDup; [|apply seq_NoDup].
  intros a b H. lia.
Qed.

Lemma existsb_zrange (lo hi c : Z) :
  existsb (Z.eqb c) (zrange lo hi) = (lo <=? c) && (c <? hi).
Proof.
  apply Bool.eq_iff_eq_true.
  rewrite existsb_exists, andb_true_iff, Z.leb_le, Z.ltb_lt. split.
  - intros (v & Hv & E). apply Z.eqb_eq in E. subst v.
    apply zrange_In. exact Hv.
  - intros H. exists c. split; [apply zrange_In; exact H|apply Z.eqb_refl].
Qed.

Lemma coverageIncr_cell (coverage : list Z) (idx cell : Z) :
  0 <= cell -> (Z.to_nat cell < length coverage)%nat ->
  nth (Z.to_nat cell) (coverageIncr coverage idx) 0
  = if idx =? cell then (nth (Z.to_nat cell) coverage 0 + 1) mod 65536
    else nth (Z.to_nat cell) coverage 0.
Proof.
  intros Hc Hlen. unfold coverageIncr.
  destruct (idx =? cell) eqn:E.
  - apply Z.eqb_eq in E. subst idx.
    destruct (cell <? 0) eqn:E0; [apply Z.ltb_lt in E0; lia|].
    rewrite updateAt_nth by exact Hlen. reflexivity.
  - apply Z.eqb_neq in E.
    destruct (idx <? 0) eqn:E0; [reflexivity|]. apply Z.ltb_ge in E0.
    apply updateAt_nth_other. lia.
Qed.

(** A loop of which at most one step touches a cell, and that step
    increments it. *)
Lemma fold_touch_once {A : Type} (step : list Z -> A -> list Z)
  (touch : A -> bool) (j len : nat) (key : A) :
  (forall cov a, length cov = len -> length (step cov a) = len) ->
  (forall cov a, length cov = len ->
     nth j (step cov a) 0
     = if touch a then (nth j cov 0 + 1) mod 65536 else nth j cov 0) ->
  forall items : list A,
    NoDup items ->
    (forall a, In a items -> touch a = true -> a = key) ->
    forall cov, length cov = len ->
      nth j (fold_left step items cov) 0
      = if existsb touch items then (nth j cov 0 + 1) mod 65536
        else nth j cov 0.
Proof.
  intros Hlen Hstep. induction items as [|a items IH];
    intros Hnd Hkey cov Hcov; simpl; [reflexivity|].
  apply NoDup_cons_iff in Hnd. destruct Hnd as [Ha Hrest].
  rewrite IH; [|exact Hrest|intros b Hb; apply Hkey; right; exact Hb
               |apply Hlen; exact Hcov].
  rewrite Hstep by exact Hcov.
  destruct (touch a) eqn:Ea; [|reflexivity].
  assert (Hno : existsb touch items = false).
  { apply not_true_iff_false. intros Hex.
    apply existsb_exists in Hex. destruct Hex as (b & Hb & Eb).
    assert (b = key) by (apply Hkey; [right; exact Hb|exact Eb]).
    assert (a = key) by (apply Hkey; [left; reflexivity|exact Ea]).
    subst. contradiction. }
  rewrite Hno. reflexivity.
Qed.

Lemma rasterWith_cell (w_canvas : Z) (ys xs : list Z) (hit : Z -> Z -> bool)
  (coverage : list Z) (cx cy : Z) :
  NoDup ys -> NoDup xs ->
  (forall xx, In xx xs -> 0 <= xx < w_canvas) ->
  0 <= cx < w_canvas -> 0 <= cy ->
  (Z.to_nat (cy * w_canvas + cx) < length coverage)%nat ->
  nth (Z.to_nat (cy * w_canvas + cx))
    (rasterWith w_canvas coverage ys xs hit) 0
  = if existsb (Z.eqb cy) ys && existsb (Z.eqb cx) xs && hit cx cy
    then (nth (Z.to_nat (cy * w_canvas + cx)) coverage 0 + 1) mod 65536
    else nth (Z.to_nat (cy * w_canvas + cx)) coverage 0.
Proof.
  intros Hys Hxs Hrange Hcx Hcy Hlen.
  set (cell := cy * w_canvas + cx) in *.
  assert (Hcell : 0 <= cell) by (unfold cell; nia).
  set (touchx := fun yy xx => hit xx yy && (yy * w_canvas + xx =? cell)).
  assert (Hunique : forall yy xx, In xx xs -> touchx yy xx = true ->
                      yy = cy /\ xx = cx).
  { intros yy xx Hin Ht. unfold touchx in Ht.
    apply andb_true_iff in Ht. destruct Ht as [_ Ht].
    apply Z.eqb_eq in Ht. specialize (Hrange xx Hin). unfold cell in Ht.
    assert (Hy : yy = cy).
    { destruct (Z.lt_trichotomy yy cy) as [Hlt|[Heq|Hgt]]; [|exact Heq|].
      - assert ((yy + 1) * w_canvas <= cy * w_canvas)
          by (apply Z.mul_le_mono_nonneg_r; lia). lia.
      - assert ((cy + 1) * w_canvas <= yy * w_canvas)
          by (apply Z.mul_le_mono_nonneg_r; lia). lia. }
    subst yy. split; [reflexivity|lia]. }
  assert (Hrow : forall yy cov, length cov = length coverage ->
            nth (Z.to_nat cell)
              (fold_left
                 (fun cov' xx =>
                    if hit xx yy then coverageIncr cov' (yy * w_canvas + xx)
                    else cov') xs cov) 0
            = if existsb (touchx yy) xs
              then (nth (Z.to_nat cell) cov 0 + 1) mod 65536
              else nth (Z.to_nat cell) cov 0).
  { intros yy cov Hcov.
    apply (fold_touch_once _ (touchx yy) _ (length coverage) cx).
    - intros c a Hc. destruct (hit a yy); [|exact Hc].
      rewrite coverageIncr_length. exact Hc.
    - intros c a Hc. unfold touchx. destruct (hit a yy); [|reflexivity].
      simpl andb. apply coverageIncr_cell; [exact Hcell|].
      rewrite Hc. exact Hlen.
    - exact Hxs.
    - intros a Ha Ht. apply (Hunique yy a Ha Ht).
    - exact Hcov. }
  unfold rasterWith.
  rewrite (fold_touch_once _ (fun yy => existsb (touchx yy) xs) _
             (length coverage) cy).
  - match goal with
    | |- (if ?a then _ else _) = (if ?b then _ else _) =>
        replace a with b; [reflexivity|]
    end.
    apply Bool.eq_iff_eq_true.
    rewrite !andb_true_iff, !existsb_exists. split.
    + intros [[(yy & Hyy & Ey) (xx & Hxx & Ex)] Hhit].
      apply Z.eqb_eq in Ey, Ex. subst yy xx.
      exists cy. split; [exact Hyy|]. apply existsb_exists.
      exists cx. split; [exact Hxx|]. unfold touchx.
      rewrite Hhit, Z.eqb_refl. reflexivity.
    + intros (yy & Hyy & Hex). apply existsb_exists in Hex.
      destruct Hex as (xx & Hxx & Ht).
      destruct (Hunique yy xx Hxx Ht) as [-> ->].
      unfold touchx in Ht. apply andb_true_iff in Ht.
      repeat split.
      * exists cy. split; [exact Hyy|apply Z.eqb_refl].
      * exists cx. split; [exact Hxx|apply Z.eqb_refl].
      * apply Ht.
  - intros cov yy Hcov.
    apply (fold_left_invariant _ (fun c => length c = length coverage));
      [|exact Hcov].
    intros c xx Hc. destruct (hit xx yy); [|exact Hc].
    rewrite coverageIncr_length. exact Hc.
  - intros cov yy Hcov. apply Hrow. exact Hcov.
  - exact Hys.
  - intros yy Hyy Hex. apply existsb_exists in Hex.
    destruct Hex as (xx & Hxx & Ht). apply (Hunique yy xx Hxx Ht).
  - reflexivity.
Qed.

(** Without polish, a tile that lies between the left and right border of
    the canvas increments exactly the cells of its rectangle, each by one
    modulo 65536, and leaves every other cell as it was. *)
Theorem rasterPlain_cells (w_canvas : Z) (coverage : list Z)
  (x y w h cx cy : Z) :
  0 <= x -> x + w <= w_canvas ->
  0 <= cx < w_canvas -> 0 <= cy ->
  (Z.to_nat (cy * w_canvas + cx) < length coverage)%nat ->
  nth (Z.to_nat (cy * w_canvas + cx))
    (rasterPlain w_canvas coverage x y w h) 0
  = if inTile x y w h cx cy
    then (nth (Z.to_nat (cy * w_canvas + cx)) coverage 0 + 1) mod 65536
    else nth (Z.to_nat (cy * w_canvas + cx)) coverage 0.
Proof.
  intros Hx Hxw Hcx Hcy Hlen.
  rewrite rasterPlain_rasterWith.
  rewrite rasterWith_cell; try assumption;
    [|apply zrange_NoDup|apply zrange_NoDup
     |intros xx Hin; apply zrange_In in Hin; lia].
  rewrite !existsb_zrange, andb_true_r. unfold inTile.
  match goal with
  | |- (if ?a then _ else _) = (if ?b then _ else _) =>
      replace a with b; [reflexivity|]
  end.
  destruct (x <=? cx), (cx <? x + w), (y <=? cy), (cy <? y + h); reflexivity.
Qed.

Ltac decide_comparisons :=
  repeat match goal with
    | |- context [?a <? ?b] =>
        first [ replace (a <? b) with true by (symmetry; apply Z.ltb_lt; lia)
              | replace (a <? b) with false by (symmetry; apply Z.ltb_ge; lia) ]
    | |- context [?a <=? ?b] =>
        first [ replace (a <=? b) with true by (symmetry; apply Z.leb_le; lia)
              | replace (a <=? b) with false
                  by (symmetry; apply Z.leb_gt; lia) ]
    end.

Lemma polishHit_shape (w_canvas h_canvas x y w h cx cy : Z) :
  1 <= w -> 1 <= h -> 0 <= cx < w_canvas -> 0 <= cy < h_canvas ->
  (Z.max 0 (y - 1) <=? cy) && (cy <? Z.min h_canvas (y + h + 1))
  && ((Z.max 0 (x - 1) <=? cx) && (cx <? Z.min w_canvas (x + w + 1)))
  && polishHit x y w h cx cy
  = inPolishedTile x y w h cx cy.
Proof.
  intros Hw Hh Hcx Hcy. unfold polishHit, inPolishedTile. cbv zeta.
  assert (Cx : cx < x - 1 \/ cx = x - 1 \/ x <= cx < x + w
               \/ cx = x + w \/ x + w < cx) by lia.
  assert (Cy : cy < y - 1 \/ cy = y - 1 \/ y <= cy < y + h
               \/ cy = y + h \/ y + h < cy) by lia.
  destruct Cx as [Cx|[Cx|[Cx|[Cx|Cx]]]];
    destruct Cy as [Cy|[Cy|[Cy|[Cy|Cy]]]];
    try subst cx; try subst cy;
    decide_comparisons; reflexivity.
Qed.

(** With polish, a tile increments exactly the cells of the canvas that
    belong to its rectangle or share an edge with it (the rectangle grown
    by one cell, without its four corners), each by one modulo 65536, and
    leaves every other cell as it was. *)
Theorem rasterPolish_cells (w_canvas h_canvas : Z) (coverage : list Z)
  (x y w h cx cy : Z) :
  1 <= w -> 1 <= h ->
  0 <= cx < w_canvas -> 0 <= cy < h_canvas ->
  (Z.to_nat (cy * w_canvas + cx) < length coverage)%nat ->
  nth (Z.to_nat (cy * w_canvas + cx))
    (rasterPolish w_canvas h_canvas coverage x y w h) 0
  = if inPolishedTile x y w h cx cy
    then (nth (Z.to_nat (cy * w_canvas + cx)) coverage 0 + 1) mod 65536
    else nth (Z.to_nat (cy * w_canvas + cx)) coverage 0.
Proof.
  intros Hw Hh Hcx Hcy Hlen.
  rewrite rasterPolish_rasterWith.
  rewrite rasterWith_cell; try assumption;
    [|apply zrange_NoDup|apply zrange_NoDup
     |intros xx Hin; apply zrange_In in Hin; lia|lia].
  rewrite !existsb_zrange.
  rewrite (polishHit_shape w_canvas h_canvas x y w h cx cy) by assumption.
  reflexivity.
Qed.

(** ** Colours and the pixel buffer *)

Lemma blendClamp_between (lo hi : Z) (v : Q) :
  0 <= lo -> hi <= 255 ->
  (inject_Z lo <= v)%Q -> (v <= inject_Z hi)%Q ->
  lo <= blendClamp v <= hi.
Proof.
  intros Hlo Hhi Hl Hu.
  assert (H0 : (inject_Z 0 <= inject_Z lo)%Q) by (rewrite <- Zle_Qle; exact Hlo).
  assert (H255 : (inject_Z hi <= inject_Z 255)%Q)
    by (rewrite <- Zle_Qle; exact Hhi).
  assert (Hlh : lo <= hi).
  { rewrite Zle_Qle. eapply Qle_trans; eassumption. }
  unfold blendClamp.
  destruct (Qltb v 0) eqn:E0.
  { apply Qltb_lt in E0. change (inject_Z 0) with 0%Q in H0. lra. }
  destruct (Qltb 255 v) eqn:E1.
  { apply Qltb_lt in E1. change (inject_Z 255) with 255%Q in H255. lra. }
  unfold Math_round. split.
  - rewrite <- (Qfloor_Z lo). apply Qfloor_resp_le. lra.
  - assert (H : (inject_Z (Qfloor (v + (1 # 2))) < inject_Z (hi + 1))%Q).
    { eapply Qle_lt_trans; [apply Qfloor_le|].
      rewrite inject_Z_plus. change (inject_Z 1) with 1%Q. lra. }
    rewrite <- Zlt_Qlt in H. lia.
Qed.

Lemma blendColor_green_brown (t : Q) :
  (0 <= t <= 1)%Q ->
  let c := blendColor green brown t in
  34 <= cr c <= 139 /\ 69 <= cg c <= 139 /\ 19 <= cb c <= 34 /\ ca c = 255.
Proof.
  intros [Ht0 Ht1]. unfold blendColor, green, brown. cbn [cr cg cb ca].
  split; [|split; [|split]].
  - apply blendClamp_between; [lia|lia| |];
      change (inject_Z 34) with 34%Q; change (inject_Z 139) with 139%Q; lra.
  - apply blendClamp_between; [lia|lia| |];
      change (inject_Z 69) with 69%Q; change (inject_Z 139) with 139%Q; lra.
  - apply blendClamp_between; [lia|lia| |];
      change (inject_Z 19) with 19%Q; change (inject_Z 34) with 34%Q; lra.
  - assert (E : ((1 - t) * inject_Z 255 + t * inject_Z 255 == 255)%Q)
      by (change (inject_Z 255) with 255%Q; ring).
    assert (Ez : Qeq_bool ((1 - t) * inject_Z 255 + t * inject_Z 255) 0
                 = false).
    { apply not_true_iff_false. intros H. apply Qeq_bool_iff in H.
      rewrite E in H. discriminate H. }
    rewrite Ez. rewrite (blendClamp_comp _ 255 E). reflexivity.
Qed.

Lemma coverageToColor_channels (cov : Z) (brownCap_ : Q) (logTone_ : bool) :
  1 <= cov ->
  let c := coverageToColor cov brownCap_ logTone_ green brown in
  34 <= cr c <= 139 /\ 69 <= cg c <= 139 /\ 19 <= cb c <= 34 /\ ca c = 255.
Proof.
  intros Hcov. unfold coverageToColor.
  destruct (cov <=? 0) eqn:E0; [apply Z.leb_le in E0; lia|].
  destruct (cov =? 1); [cbn; lia|].
  apply blendColor_green_brown. apply clampFloat_unit.
Qed.

(** A covered cell is drawn opaque, in a colour between the land colour
    and the dense colour channel by channel, whatever the coverage count,
    the tone mode, the brown cap and the logarithm are. *)
Theorem coverageToColor_land (cov : Z) (brownCap_ : Q) (logTone_ : bool) :
  1 <= cov ->
  let c := coverageToColor cov brownCap_ logTone_ green brown in
  cr green <= cr c <= cr brown
  /\ cg brown <= cg c <= cg green
  /\ cb brown <= cb c <= cb green
  /\ ca c = 255.
Proof.
  intros Hcov. exact (coverageToColor_channels cov brownCap_ logTone_ Hcov).
Qed.

Lemma pixelColor_bytes (params : GenerationParams) (cov : Z) :
  let c := pixelColor params cov in
  isByte (cr c) /\ isByte (cg c) /\ isByte (cb c) /\ isByte (ca c).
Proof.
  unfold pixelColor, isByte. destruct (cov =? 0) eqn:E.
  - unfold water. cbn [cr cg cb ca].
    pose proof (clampInt_range
                  (if bgAlpha params =? 0 then 255 else bgAlpha params)
                  0 255 ltac:(lia)).
    lia.
  - apply Z.eqb_neq in E. destruct (Z.le_gt_cases 1 cov) as [H|H].
    + pose proof (coverageToColor_channels cov (brownCap params)
                    (logTone params) H) as Hc.
      cbv zeta in Hc. lia.
    + unfold coverageToColor.
      destruct (cov <=? 0) eqn:E0; [cbn; lia|apply Z.leb_gt in E0; lia].
Qed.

Lemma pixelBytes_pixelColor (params : GenerationParams) (cov : Z) :
  let c := pixelColor params cov in
  pixelBytes c = [cr c; cg c; cb c; ca c].
Proof.
  intros c. destruct (pixelColor_bytes params cov) as (Hr & Hg & Hb & Ha).
  fold c in Hr, Hg, Hb, Ha. unfold isByte in *.
  unfold pixelBytes, ToUint8.
  rewrite !Z.mod_small by lia. reflexivity.
Qed.

Lemma zrange_length (lo hi : Z) : length (zrange lo hi) = Z.to_nat (hi - lo).
Proof. unfold zrange. rewrite length_map, length_seq. reflexivity. Qed.

Lemma zrange_nth (lo hi d : Z) (i : nat) :
  (i < Z.to_nat (hi - lo))%nat -> nth i (zrange lo hi) d = lo + Z.of_nat i.
Proof.
  intros Hi. unfold zrange.
  rewrite (nth_indep _ d (lo + Z.of_nat 0))
    by (rewrite length_map, length_seq; exact Hi).
  rewrite (map_nth (fun k => lo + Z.of_nat k)), seq_nth by exact Hi.
  reflexivity.
Qed.

Lemma flat_map_blocks_length {A B : Type} (f : A -> list B) (k : nat) :
  (forall a, length (f a) = k) ->
  forall l, length (flat_map f l) = (k * length l)%nat.
Proof.
  intros Hf. induction l as [|a l IH]; simpl; [lia|].
  rewrite length_app, Hf, IH. lia.
Qed.

Lemma flat_map_blocks_skipn {A B : Type} (f : A -> list B) (k : nat) :
  (forall a, length (f a) = k) ->
  forall (i : nat) (l : list A),
    skipn (k * i) (flat_map f l) = flat_map f (skipn i l).
Proof.
  intros Hf. induction i as [|i IH]; intros l.
  - rewrite Nat.mul_0_r. reflexivity.
  - destruct l as [|a l].
    + simpl. apply skipn_nil.
    + cbn [flat_map skipn]. rewrite <- IH.
      replace (k * S i)%nat with (length (f a) + k * i)%nat
        by (rewrite Hf; lia).
      rewrite skipn_app, skipn_all2 by lia.
      replace (length (f a) + k * i - length (f a))%nat with (k * i)%nat
        by lia.
      reflexivity.
Qed.

Lemma skipn_cons_nth {A : Type} (d : A) :
  forall (i : nat) (l : list A),
    (i < length l)%nat -> skipn i l = nth i l d :: skipn (S i) l.
Proof.
  induction i as [|i IH]; intros [|a l] Hi; simpl in Hi; try lia.
  - reflexivity.
  - cbn [skipn nth]. rewrite (IH l) by lia. reflexivity.
Qed.

Lemma flat_map_block {A B : Type} (f : A -> list B) (k : nat) (d : A) :
  (forall a, length (f a) = k) ->
  forall (i : nat) (l : list A),
    (i < length l)%nat ->
    exists rest, skipn (k * i) (flat_map f l) = f (nth i l d) ++ rest.
Proof.
  intros Hf i l Hi. rewrite (flat_map_blocks_skipn f k Hf).
  rewrite (skipn_cons_nth d i l Hi). cbn [flat_map]. eexists. reflexivity.
Qed.

(** The pixel buffer holds four bytes per cell of the canvas, and the four
    bytes at offset 4 * (y * width + x) are the red, green, blue and alpha
    channels of the colour of the cell (x, y), none of them truncated by
    the store into the byte buffer. *)
Theorem renderData_pixel (params : GenerationParams) (coverage : list Z)
  (x y : Z) :
  0 <= x < width params -> 0 <= y < height params ->
  let idx := y * width params + x in
  let c := pixelColor params (nth (Z.to_nat idx) coverage 0) in
  length (renderData params coverage)
  = Z.to_nat (4 * (width params * height params))
  /\ firstn 4 (skipn (Z.to_nat (4 * idx)) (renderData params coverage))
     = [cr c; cg c; cb c; ca c]
  /\ isByte (cr c) /\ isByte (cg c) /\ isByte (cb c) /\ isByte (ca c).
Proof.
  intros Hx Hy idx c.
  set (pix := fun yy xx =>
                pixelBytes
                  (pixelColor params
                     (nth (Z.to_nat (yy * width params + xx)) coverage 0))).
  set (row := fun yy => flat_map (pix yy) (zrange 0 (width params))).
  assert (Hpix : forall yy xx, length (pix yy xx) = 4%nat)
    by (intros; reflexivity).
  assert (Hrow : forall yy,
             length (row yy) = (4 * Z.to_nat (width params))%nat).
  { intros yy. unfold row.
    rewrite (flat_map_blocks_length (pix yy) 4 (Hpix yy)), zrange_length.
    rewrite Z.sub_0_r. reflexivity. }
  assert (Edata : renderData params coverage
                  = flat_map row (zrange 0 (height params)))
    by reflexivity.
  split; [|split; [|apply pixelColor_bytes]].
  - rewrite Edata, (flat_map_blocks_length row _ Hrow), zrange_length. lia.
  - destruct (flat_map_block row _ 0 Hrow (Z.to_nat y)
                (zrange 0 (height params))) as [rest Hrest].
    { rewrite zrange_length. lia. }
    rewrite zrange_nth in Hrest by lia.
    replace (0 + Z.of_nat (Z.to_nat y)) with y in Hrest by lia.
    destruct (flat_map_block (pix y) 4 0 (Hpix y) (Z.to_nat x)
                (zrange 0 (width params))) as [rest' Hrest'].
    { rewrite zrange_length. lia. }
    rewrite zrange_nth in Hrest' by lia.
    replace (0 + Z.of_nat (Z.to_nat x)) with x in Hrest' by lia.
    replace (Z.to_nat (4 * idx))
      with (4 * Z.to_nat x + 4 * Z.to_nat (width params) * Z.to_nat y)%nat
      by (unfold idx; nia).
    rewrite <- skipn_skipn, Edata, Hrest.
    rewrite skipn_app.
    replace (4 * Z.to_nat x - length (row y))%nat with 0%nat
      by (rewrite Hrow; lia).
    fold (row y) in Hrest'. rewrite Hrest'.
    unfold pix at 1. fold idx. rewrite pixelBytes_pixelColor. fold c.
    reflexivity.
Qed.

(** ** What a successful generation reports *)

Lemma totalCount_at_least_length (batches_ : list TileBatch) :
  Forall (fun b => 0 < batch_count b) batches_ ->
  Z.of_nat (length batches_) <= totalCount batches_.
Proof.
  induction 1 as [|b rest Hb Hrest IH].
  - change (totalCount []) with 0. simpl. lia.
  - unfold totalCount in *. simpl map. rewrite Zsum_cons.
    cbn [length]. lia.
Qed.

(** ** Normalized requests *)

Lemma positiveOr_positive (v : option Z) (d : Z) :
  0 < d -> 0 < positiveOr v d.
Proof.
  intros Hd. unfold positiveOr. destruct v as [a|]; [|exact Hd].
  destruct (0 <? a) eqn:E; [apply Z.ltb_lt in E; exact E|exact Hd].
Qed.

Lemma positiveOrQ_positive (v : option Q) (d : Q) :
  (0 < d)%Q -> (0 < positiveOrQ v d)%Q.
Proof.
  intros Hd. unfold positiveOrQ. destruct v as [a|]; [|exact Hd].
  destruct (Qltb 0 a) eqn:E; [apply Qltb_lt in E; exact E|exact Hd].
Qed.

Lemma positiveOrQ_nonneg (v : option Q) : (0 <= positiveOrQ v 0)%Q.
Proof.
  unfold positiveOrQ. destruct v as [a|]; [|apply Qle_refl].
  destruct (Qltb 0 a) eqn:E; [apply Qltb_lt in E; lra|apply Qle_refl].
Qed.

Lemma adjusted_spec (s : Q) :
  (s <= 1)%Q ->
  ((s < 1)%Q -> (s < clampFloat (s + (5 # 100)) s 1)%Q)
  /\ (clampFloat (s + (5 # 100)) s 1 <= 1)%Q
  /\ ((1 <= s)%Q -> (clampFloat (s + (5 # 100)) s 1 == s)%Q).
Proof.
  intros Hs. unfold clampFloat.
  destruct (Qltb (s + (5 # 100)) s) eqn:E1; [apply Qltb_lt in E1; lra|].
  destruct (Qltb 1 (s + (5 # 100))) eqn:E2.
  - apply Qltb_lt in E2.
    split; [intros Hlt; exact Hlt|]. split; [lra|intros Hge; lra].
  - apply Qltb_ge in E2.
    split; [intros Hlt; lra|]. split; [exact E2|intros Hge; lra].
Qed.

(** The ring test of [normalizeRequest] fails exactly when the clamped
    start is 1. *)
Lemma ring_test (rs re : Q) :
  let ringStart := clampFloat rs 0 1 in
  let ringEnd := clampFloat re 0 1 in
  let adjusted := clampFloat (ringStart + (5 # 100)) ringStart 1 in
  (Qle_bool ringEnd ringStart && Qeq_bool adjusted ringStart = true
   <-> (1 <= rs)%Q)
  /\ (Qle_bool ringEnd ringStart && Qeq_bool adjusted ringStart = false ->
      (0 <= ringStart)%Q
      /\ (ringStart
          < (if Qle_bool ringEnd ringStart then adjusted else ringEnd))%Q
      /\ ((if Qle_bool ringEnd ringStart then adjusted else ringEnd) <= 1)%Q).
Proof.
  intros ringStart ringEnd adjusted.
  pose proof (clampFloat_unit rs) as [Hs0 Hs1]. fold ringStart in Hs0, Hs1.
  pose proof (clampFloat_unit re) as [He0 He1]. fold ringEnd in He0, He1.
  assert (Hadj : ((ringStart < 1)%Q -> (ringStart < adjusted)%Q)
                 /\ (adjusted <= 1)%Q
                 /\ ((1 <= ringStart)%Q -> (adjusted == ringStart)%Q)).
  { apply adjusted_spec. exact Hs1. }
  destruct Hadj as (Hadj1 & Hadj2 & Hadj3).
  assert (Hrs : (1 <= rs)%Q <-> (1 <= ringStart)%Q).
  { unfold ringStart, clampFloat.
    destruct (Qltb rs 0) eqn:E1;
      [apply Qltb_lt in E1; split; intros H; lra|].
    destruct (Qltb 1 rs) eqn:E2;
      [apply Qltb_lt in E2; split; intros H; lra|].
    reflexivity. }
  split.
  - rewrite andb_true_iff, Qeq_bool_iff, Hrs. split.
    + intros [_ Heq]. destruct (Qlt_le_dec ringStart 1) as [Hlt|Hge];
        [|exact Hge].
      specialize (Hadj1 Hlt). lra.
    + intros Hge. split; [|apply Hadj3; exact Hge].
      apply Qle_bool_iff. lra.
  - intros Hfalse. split; [exact Hs0|].
    destruct (Qle_bool ringEnd ringStart) eqn:Ele.
    + simpl in Hfalse.
      assert (Hlt : (ringStart < 1)%Q).
      { destruct (Qlt_le_dec ringStart 1) as [Hlt|Hge]; [exact Hlt|].
        assert (Qeq_bool adjusted ringStart = true)
          by (apply Qeq_bool_iff, Hadj3; exact Hge).
        congruence. }
      split; [apply Hadj1; exact Hlt|exact Hadj2].
    + apply Qle_bool_gt in Ele. split; [exact Ele|exact He1].
Qed.

Lemma normalizeRequest_ranges_aux (toLowerCase : jsstring -> jsstring)
  (req : MapRequest) (params : GenerationParams) :
  normalizeRequest toLowerCase req = Returns params ->
  (0 <= ringStart params)%Q /\ (ringStart params < ringEnd params)%Q
  /\ (ringEnd params <= 1)%Q.
Proof.
  unfold normalizeRequest.
  destruct (positiveOr (req_w req) 100 <=? 0); [discriminate|].
  destruct (positiveOr (req_h req) 100 <=? 0); [discriminate|].
  destruct (MODE_ALIASES _) as [v|]; [|discriminate].
  destruct (ring_test (nullish (req_ringStart req) (1 # 10)%Q)
              (nullish (req_ringEnd req) (8 # 10)%Q)) as [_ Hring].
  cbv zeta in Hring.
  destruct (_ && _); [discriminate|].
  specialize (Hring eq_refl). intros H. injection H as <-. exact Hring.
Qed.

(** Whatever the request holds, the parameters that [normalizeRequest]
    returns have a canvas of at least one cell each way, at least one
    ring, a ring range with 0 <= ringStart < ringEnd <= 1, a cap that is
    not negative, a positive brown cap, a background alpha between 0 and
    255, at least one island and a positive island radius fraction. *)
Theorem normalizeRequest_ranges (toLowerCase : jsstring -> jsstring)
  (req : MapRequest) (params : GenerationParams) :
  normalizeRequest toLowerCase req = Returns params ->
  1 <= width params /\ 1 <= height params /\ 1 <= rings params
  /\ (0 <= ringStart params)%Q /\ (ringStart params < ringEnd params)%Q
  /\ (ringEnd params <= 1)%Q
  /\ (0 <= cap params)%Q /\ (0 < brownCap params)%Q
  /\ 0 <= bgAlpha params <= 255
  /\ 1 <= islands params /\ (0 < islandRFrac params)%Q.
Proof.
  unfold normalizeRequest.
  pose proof (positiveOr_positive (req_w req) 100 ltac:(lia)) as Hw.
  pose proof (positiveOr_positive (req_h req) 100 ltac:(lia)) as Hh.
  destruct (positiveOr (req_w req) 100 <=? 0) eqn:Ew;
    [apply Z.leb_le in Ew; lia|].
  destruct (positiveOr (req_h req) 100 <=? 0) eqn:Eh;
    [apply Z.leb_le in Eh; lia|].
  destruct (MODE_ALIASES _) as [v|]; [|discriminate].
  destruct (ring_test (nullish (req_ringStart req) (1 # 10)%Q)
              (nullish (req_ringEnd req) (8 # 10)%Q)) as [_ Hring].
  cbv zeta in Hring.
  destruct (_ && _); [discriminate|].
  specialize (Hring eq_refl). destruct Hring as (R0 & R1 & R2).
  intros H. injection H as <-. cbn.
  pose proof (positiveOr_positive (req_rings req) 10 ltac:(lia)).
  pose proof (positiveOr_positive (req_islands req) 4 ltac:(lia)).
  pose proof (clampInt_range (nullish (req_bgA req) 0) 0 255 ltac:(lia)).
  split; [lia|]. split; [lia|]. split; [lia|].
  split; [exact R0|]. split; [exact R1|]. split; [exact R2|].
  split; [apply positiveOrQ_nonneg|].
  split; [apply positiveOrQ_positive; reflexivity|].
  split; [lia|]. split; [lia|].
  apply positiveOrQ_positive. reflexivity.
Qed.

(** [normalizeRequest] rejects a request in two cases only: the
    lower-cased mode is no key of the alias table, or it is one and the
    requested ring start is 1 or more, whatever the ring end is.  The
    checks of the width and of the height never fail. *)
Theorem normalizeRequest_rejects (toLowerCase : jsstring -> jsstring)
  (req : MapRequest) (e : RequestError) :
  normalizeRequest toLowerCase req = Throws e
  <-> (MODE_ALIASES (rawModeOf toLowerCase req) = None
       /\ e = UnsupportedMode (req_mode req))
      \/ (MODE_ALIASES (rawModeOf toLowerCase req) <> None
          /\ (1 <= nullish (req_ringStart req) (1 # 10))%Q
          /\ e = RingEndNotGreater).
Proof.
  unfold normalizeRequest, rawModeOf.
  pose proof (positiveOr_positive (req_w req) 100 ltac:(lia)) as Hw.
  pose proof (positiveOr_positive (req_h req) 100 ltac:(lia)) as Hh.
  destruct (positiveOr (req_w req) 100 <=? 0) eqn:Ew;
    [apply Z.leb_le in Ew; lia|].
  destruct (positiveOr (req_h req) 100 <=? 0) eqn:Eh;
    [apply Z.leb_le in Eh; lia|].
  destruct (MODE_ALIASES _) as [v|].
  - destruct (ring_test (nullish (req_ringStart req) (1 # 10)%Q)
                (nullish (req_ringEnd req) (8 # 10)%Q)) as [Hring _].
    cbv zeta in Hring.
    destruct (_ && _).
    + split.
      * intros H. injection H as <-. right.
        split; [discriminate|]. split; [apply Hring; reflexivity|reflexivity].
      * intros [[H _]|(_ & _ & ->)]; [discriminate H|reflexivity].
    + split; [discriminate|].
      intros [[H _]|(_ & H & _)]; [discriminate H|].
      apply Hring in H. discriminate H.
  - split.
    + intros H. injection H as <-. left. split; reflexivity.
    + intros [[_ ->]|(H & _)]; [reflexivity|congruence].
Qed.

(** The ring range of normalized parameters is one that [initRingBands]
    takes as it is: its own adjustment of the bounds never applies. *)
Theorem normalized_ringBounds (toLowerCase : jsstring -> jsstring)
  (req : MapRequest) (params : GenerationParams) :
  normalizeRequest toLowerCase req = Returns params ->
  ringBounds (ringStart params) (ringEnd params)
  = (ringStart params, ringEnd params).
Proof.
  intros Hret.
  destruct (normalizeRequest_ranges_aux toLowerCase req params Hret)
    as (R0 & R1 & R2).
  unfold ringBounds.
  assert (Es : clampFloat (ringStart params) 0 1 = ringStart params).
  { unfold clampFloat.
    destruct (Qltb (ringStart params) 0) eqn:E1;
      [apply Qltb_lt in E1; lra|].
    destruct (Qltb 1 (ringStart params)) eqn:E2;
      [apply Qltb_lt in E2; lra|reflexivity]. }
  assert (Ee : clampFloat (ringEnd params) 0 1 = ringEnd params).
  { unfold clampFloat.
    destruct (Qltb (ringEnd params) 0) eqn:E1;
      [apply Qltb_lt in E1; lra|].
    destruct (Qltb 1 (ringEnd params)) eqn:E2;
      [apply Qltb_lt in E2; lra|reflexivity]. }
  rewrite Es, Ee.
  destruct (Qle_bool (ringEnd params) (ringStart params)) eqn:E;
    [apply Qle_bool_iff in E; lra|reflexivity].
Qed.

(** ** From the tile editor to the parser *)

Lemma digitsValue_snoc (ds : list Z) (d : Z) :
  digitsValue (ds ++ [d]) = 10 * digitsValue ds + d.
Proof. unfold digitsValue. rewrite fold_left_app. reflexivity. Qed.

Lemma decimalValue_snoc (s : jsstring) (c : Z) :
  decimalValue (s ++ [c]) = 10 * decimalValue s + (c - 48).
Proof. unfold decimalValue. rewrite map_app. apply digitsValue_snoc. Qed.

Lemma decimalDigitsFrom_spec :
  forall (fuel : nat) (n : Z) (acc : jsstring),
    0 <= n < 2 ^ (Z.of_nat fuel + 1) ->
    exists ds,
      decimalDigitsFrom fuel n acc = ds ++ acc
      /\ ds <> []
      /\ Forall (fun c => isDigit c = true) ds
      /\ decimalValue ds = n.
Proof.
  assert (Hdigit : forall n, 0 <= n -> isDigit (48 + n mod 10) = true).
  { intros n Hn. unfold isDigit.
    pose proof (Z.mod_pos_bound n 10 ltac:(lia)).
    apply andb_true_iff. split; apply Z.leb_le; lia. }
  assert (Hone : forall n acc, 0 <= n -> n / 10 = 0 ->
            exists ds,
              (48 + n mod 10) :: acc = ds ++ acc
              /\ ds <> []
              /\ Forall (fun c => isDigit c = true) ds
              /\ decimalValue ds = n).
  { intros n acc Hn Hq. exists [48 + n mod 10].
    split; [reflexivity|]. split; [discriminate|].
    split; [constructor; [apply Hdigit; exact Hn|constructor]|].
    unfold decimalValue, digitsValue. cbn [map fold_left].
    pose proof (Z.div_mod n 10 ltac:(lia)). lia. }
  induction fuel as [|fuel IH]; intros n acc Hn.
  - cbn [decimalDigitsFrom]. apply Hone; [lia|].
    apply Z.div_small. change (2 ^ (Z.of_nat 0 + 1)) with 2 in Hn. lia.
  - cbn [decimalDigitsFrom]. destruct (n / 10 =? 0) eqn:E.
    + apply Z.eqb_eq in E. apply Hone; [lia|exact E].
    + assert (Hq : 0 <= n / 10 < 2 ^ (Z.of_nat fuel + 1)).
      { split; [apply Z.div_pos; lia|].
        apply Z.div_lt_upper_bound; [lia|].
        replace (Z.of_nat (S fuel) + 1) with (Z.succ (Z.of_nat fuel + 1))
          in Hn by lia.
        rewrite Z.pow_succ_r in Hn by lia. lia. }
      destruct (IH (n / 10) ((48 + n mod 10) :: acc) Hq)
        as (ds & Eds & Hne & Hall & Hval).
      exists (ds ++ [48 + n mod 10]).
      split; [rewrite Eds, <- app_assoc; reflexivity|].
      split; [destruct ds; discriminate|].
      split.
      * apply Forall_app. split; [exact Hall|].
        constructor; [apply Hdigit; lia|constructor].
      * rewrite decimalValue_snoc, Hval.
        pose proof (Z.div_mod n 10 ltac:(lia)). lia.
Qed.

(** The digits of a positive integer: a non-empty string of digits whose
    value is the integer. *)
Lemma decimalDigits_spec (n : Z) :
  0 < n ->
  decimalDigits n <> []
  /\ Forall (fun c => isDigit c = true) (decimalDigits n)
  /\ decimalValue (decimalDigits n) = n.
Proof.
  intros Hn. unfold decimalDigits.
  destruct (decimalDigitsFrom_spec (Z.to_nat (Z.log2 n)) n [])
    as (ds & Eds & Hne & Hall & Hval).
  { pose proof (Z.log2_nonneg n).
    rewrite Z2Nat.id by assumption.
    pose proof (Z.log2_spec n Hn).
    replace (Z.log2 n + 1) with (Z.succ (Z.log2 n)) by lia. lia. }
  rewrite Eds, app_nil_r. repeat split; assumption.
Qed.

Lemma isDigit_range (c : Z) : isDigit c = true <-> 48 <= c <= 57.
Proof.
  unfold isDigit. rewrite andb_true_iff, !Z.leb_le. reflexivity.
Qed.

Lemma digit_not_space (c : Z) : isDigit c = true -> isWhiteSpace c = false.
Proof.
  intros H. apply isDigit_range in H. unfold isWhiteSpace.
  repeat match goal with
    | |- context [?a <=? ?b] =>
        first [ replace (a <=? b) with true by (symmetry; apply Z.leb_le; lia)
              | replace (a <=? b) with false
                  by (symmetry; apply Z.leb_gt; lia) ]
    | |- context [?a =? ?b] =>
        replace (a =? b) with false by (symmetry; apply Z.eqb_neq; lia)
    end.
  reflexivity.
Qed.

Lemma takeDigits_digits (ds rest : jsstring) :
  Forall (fun c => isDigit c = true) ds ->
  takeDigits rest = ([], rest) ->
  takeDigits (ds ++ rest) = (map (fun c => c - 48) ds, rest).
Proof.
  intros Hall Hrest. induction Hall as [|c ds Hc _ IH]; [exact Hrest|].
  cbn [app takeDigits map]. unfold isDigit in Hc. rewrite Hc, IH.
  reflexivity.
Qed.

Lemma takeSign_digit (c : Z) (s : jsstring) :
  isDigit c = true -> takeSign (c :: s) = (false, c :: s).
Proof.
  intros H. apply isDigit_range in H.
  assert (Hc : c = 48 \/ c = 49 \/ c = 50 \/ c = 51 \/ c = 52 \/ c = 53
               \/ c = 54 \/ c = 55 \/ c = 56 \/ c = 57) by lia.
  repeat (destruct Hc as [->|Hc]; [reflexivity|]). subst c. reflexivity.
Qed.

Lemma parseInt10_digits (s : jsstring) :
  s <> [] -> Forall (fun c => isDigit c = true) s ->
  parseInt10 s = Some (decimalValue s).
Proof.
  intros Hne Hall. destruct s as [|c s]; [contradiction|].
  pose proof (Forall_inv Hall) as Hc.
  unfold parseInt10. cbn [trimStart].
  rewrite (digit_not_space c Hc), (takeSign_digit c s Hc).
  rewrite <- (app_nil_r (c :: s)) at 1.
  rewrite (takeDigits_digits (c :: s) [] Hall eq_refl).
  reflexivity.
Qed.

Lemma parseFloat_digits (s : jsstring) :
  s <> [] -> Forall (fun c => isDigit c = true) s ->
  parseFloat s = Some (inject_Z (decimalValue s)).
Proof.
  intros Hne Hall. destruct s as [|c s]; [contradiction|].
  pose proof (Forall_inv Hall) as Hc.
  unfold parseFloat. cbn [trimStart].
  rewrite (digit_not_space c Hc), (takeSign_digit c s Hc).
  assert (Hinf : match c :: s with
                 | 73 :: 110 :: 102 :: 105 :: 110 :: 105 :: 116 :: 121 :: _ =>
                     true
                 | _ => false
                 end = false).
  { apply isDigit_range in Hc.
    assert (Hd : c = 48 \/ c = 49 \/ c = 50 \/ c = 51 \/ c = 52 \/ c = 53
                 \/ c = 54 \/ c = 55 \/ c = 56 \/ c = 57) by lia.
    repeat (destruct Hd as [->|Hd]; [reflexivity|]). subst c. reflexivity. }
  rewrite Hinf.
  rewrite <- (app_nil_r (c :: s)) at 1.
  rewrite (takeDigits_digits (c :: s) [] Hall eq_refl).
  cbn [map app length takeExponent Z.of_nat].
  rewrite app_nil_r. f_equal.
  unfold decimalValue. cbn [map].
  set (v := digitsValue _).
  unfold Qdiv, Qmult, Qinv, inject_Z. simpl. f_equal. lia.
Qed.

Lemma trimStart_id (s : jsstring) :
  isWhiteSpace (hd 0 s) = false -> trimStart s = s.
Proof.
  destruct s as [|c s]; [reflexivity|]. cbn [hd trimStart].
  intros ->. reflexivity.
Qed.

(** A string that neither starts nor ends with white space is its own
    trim. *)
Lemma String_trim_id (s : jsstring) :
  isWhiteSpace (hd 0 s) = false -> isWhiteSpace (last s 0) = false ->
  String_trim s = s.
Proof.
  intros Hhd Hlast. unfold String_trim. rewrite (trimStart_id s Hhd).
  destruct s as [|c s]; [reflexivity|].
  rewrite (app_removelast_last 0 (l := c :: s)) at 1 by discriminate.
  rewrite rev_app_distr. cbn [rev app].
  cbn [trimStart]. rewrite Hlast.
  change (last (c :: s) 0 :: rev (removelast (c :: s)))
    with (rev [last (c :: s) 0] ++ rev (removelast (c :: s))).
  rewrite <- rev_app_distr, rev_involutive.
  symmetry. apply app_removelast_last. discriminate.
Qed.

Lemma hd_app {A : Type} (d : A) (a b : list A) :
  a <> [] -> hd d (a ++ b) = hd d a.
Proof. destruct a; [contradiction|reflexivity]. Qed.

Lemma last_app {A : Type} (d : A) (a b : list A) :
  b <> [] -> last (a ++ b) d = last b d.
Proof.
  intros Hb. induction a as [|x a IH]; [reflexivity|].
  cbn [app]. destruct (a ++ b) eqn:E.
  - destruct a; [contradiction|discriminate].
  - rewrite <- IH. reflexivity.
Qed.

Lemma Forall_hd {A : Type} (P : A -> Prop) (d : A) (l : list A) :
  l <> [] -> Forall P l -> P (hd d l).
Proof.
  destruct l; [contradiction|]. intros _ H. exact (Forall_inv H).
Qed.

Lemma Forall_last {A : Type} (P : A -> Prop) (d : A) (l : list A) :
  l <> [] -> Forall P l -> P (last l d).
Proof.
  intros Hne H. rewrite Forall_forall in H. apply H.
  rewrite (app_removelast_last d Hne) at 2.
  apply in_or_app. right. left. reflexivity.
Qed.

Lemma digitEnds_trim (s : jsstring) : digitEnds s -> String_trim s = s.
Proof.
  intros [H1 H2]. apply String_trim_id; apply digit_not_space; assumption.
Qed.

Lemma digitEnds_digits (s : jsstring) :
  s <> [] -> Forall (fun c => isDigit c = true) s -> digitEnds s.
Proof.
  intros Hne Hall. split.
  - apply (Forall_hd (fun c => isDigit c = true) 0 s Hne Hall).
  - apply (Forall_last (fun c => isDigit c = true) 0 s Hne Hall).
Qed.

Lemma digitEnds_app (a m b : jsstring) :
  a <> [] -> b <> [] -> digitEnds a -> digitEnds b -> digitEnds (a ++ m ++ b).
Proof.
  intros Ha Hb [Ha1 _] [_ Hb2]. split.
  - rewrite hd_app by exact Ha. exact Ha1.
  - rewrite app_assoc, last_app by exact Hb. exact Hb2.
Qed.

Lemma String_split_nonempty (sep : Z) (s : jsstring) :
  exists cur rest, String_split sep s = cur :: rest.
Proof.
  induction s as [|c s (cur & rest & IH)]; cbn [String_split].
  - eexists _, _. reflexivity.
  - rewrite IH. destruct (c =? sep); eexists _, _; reflexivity.
Qed.

Lemma String_split_none (sep : Z) (s : jsstring) :
  Forall (fun c => c <> sep) s -> String_split sep s = [s].
Proof.
  induction 1 as [|c s Hc _ IH]; [reflexivity|].
  cbn [String_split]. rewrite IH.
  apply Z.eqb_neq in Hc. rewrite Hc. reflexivity.
Qed.

Lemma String_split_first (sep : Z) (a b : jsstring) :
  Forall (fun c => c <> sep) a ->
  String_split sep (a ++ sep :: b) = a :: String_split sep b.
Proof.
  induction 1 as [|c a Hc _ IH].
  - cbn [app String_split].
    destruct (String_split_nonempty sep b) as (cur & rest & ->).
    rewrite Z.eqb_refl. reflexivity.
  - cbn [app String_split]. rewrite IH.
    apply Z.eqb_neq in Hc. rewrite Hc. reflexivity.
Qed.

Lemma String_split_join (sep : Z) (parts : list jsstring) :
  parts <> [] ->
  Forall (Forall (fun c => c <> sep)) parts ->
  String_split sep (Array_join [sep] parts) = parts.
Proof.
  intros Hne Hall. destruct parts as [|p rest]; [contradiction|clear Hne].
  revert p Hall. induction rest as [|q rest IH]; intros p Hall.
  - cbn [Array_join flat_map]. rewrite app_nil_r.
    apply String_split_none. exact (Forall_inv Hall).
  - cbn [Array_join flat_map app].
    rewrite (String_split_first sep p _ (Forall_inv Hall)).
    f_equal. apply (IH q). exact (Forall_inv_tail Hall).
Qed.

Lemma digits_without (sep : Z) (s : jsstring) :
  isDigit sep = false ->
  Forall (fun c => isDigit c = true) s -> Forall (fun c => c <> sep) s.
Proof.
  intros Hsep H. eapply Forall_impl; [|exact H].
  intros c Hc E. subst c. congruence.
Qed.

(** The parser reads an entry of three strings of digits joined by [x] and
    [*] as the three values. *)
Lemma parseTilePart_formatted (sw sh sc : jsstring) :
  sw <> [] -> sh <> [] -> sc <> [] ->
  Forall (fun c => isDigit c = true) sw ->
  Forall (fun c => isDigit c = true) sh ->
  Forall (fun c => isDigit c = true) sc ->
  0 < decimalValue sw -> 0 < decimalValue sh -> 0 < decimalValue sc ->
  parseTilePart (sw ++ codeUnits "x" ++ sh ++ codeUnits "*" ++ sc)
  = Ok (Some (mkTileSpec (decimalValue sw) (decimalValue sh)
                (inject_Z (decimalValue sc)))).
Proof.
  intros Nw Nh Nc Dw Dh Dc Pw Ph Pc.
  change (codeUnits "x") with [120]. change (codeUnits "*") with [42].
  pose proof (digitEnds_digits sw Nw Dw) as Ew.
  pose proof (digitEnds_digits sh Nh Dh) as Eh.
  pose proof (digitEnds_digits sc Nc Dc) as Ec.
  set (dims := sw ++ [120] ++ sh).
  assert (Edims : digitEnds dims) by (apply digitEnds_app; assumption).
  assert (Ndims : dims <> []) by (unfold dims; destruct sw; [contradiction|discriminate]).
  set (part := sw ++ [120] ++ sh ++ [42] ++ sc).
  assert (Epart : part = dims ++ [42] ++ sc).
  { unfold part, dims. rewrite <- !app_assoc. reflexivity. }
  assert (Etrim : String_trim part = part).
  { apply digitEnds_trim. rewrite Epart. apply digitEnds_app; assumption. }
  unfold parseTilePart. rewrite Etrim.
  destruct part as [|c0 part'] eqn:Ep.
  { destruct dims; [contradiction|discriminate Epart]. }
  rewrite Epart.
  assert (Hsplit : String_split 42 (dims ++ [42] ++ sc) = [dims; sc]).
  { cbn [app]. rewrite String_split_first.
    - rewrite String_split_none; [reflexivity|].
      apply digits_without; [reflexivity|exact Dc].
    - unfold dims. apply Forall_app. split.
      + apply digits_without; [reflexivity|exact Dw].
      + constructor; [discriminate|].
        apply digits_without; [reflexivity|exact Dh]. }
  rewrite Hsplit. cbn [hd nth_error].
  assert (Hdim : String_split 120 dims = [sw; sh]).
  { unfold dims. cbn [app]. rewrite String_split_first.
    - rewrite String_split_none; [reflexivity|].
      apply digits_without; [reflexivity|exact Dh].
    - apply digits_without; [reflexivity|exact Dw]. }
  rewrite Hdim.
  rewrite (digitEnds_trim sw Ew), (digitEnds_trim sh Eh).
  rewrite (parseInt10_digits sw Nw Dw), (parseInt10_digits sh Nh Dh).
  assert (Hpos : (decimalValue sw <=? 0) || (decimalValue sh <=? 0) = false).
  { apply orb_false_iff. split; apply Z.leb_gt; assumption. }
  rewrite Hpos.
  destruct sc as [|c sc'] eqn:Esc; [contradiction|]. rewrite <- Esc in *.
  rewrite (digitEnds_trim sc Ec), (parseFloat_digits sc Nc Dc).
  assert (Hcount : Qle_bool (inject_Z (decimalValue sc)) 0 = false).
  { apply Qle_bool_gt. change 0%Q with (inject_Z 0).
    rewrite <- Zlt_Qlt. exact Pc. }
  rewrite Hcount. reflexivity.
Qed.

Lemma formatTile_parsed (toString : Q -> jsstring) (t : Z * Z * Z) :
  (forall n, safePositive n -> toString (inject_Z n) = decimalDigits n) ->
  safeTile t ->
  let part := formatTile toString (entryOf t) in
  part <> [] /\ digitEnds part /\ Forall (fun c => c <> 44) part
  /\ parseTilePart part = Ok (Some (specOf t)).
Proof.
  intros Hstr Ht. destruct t as [[w h] c]. destruct Ht as (Hw & Hh & Hc).
  unfold formatTile, entryOf. cbn [entry_width entry_height entry_count].
  rewrite (Hstr w Hw), (Hstr h Hh), (Hstr c Hc).
  destruct (decimalDigits_spec w ltac:(apply Hw)) as (Nw & Dw & Vw).
  destruct (decimalDigits_spec h ltac:(apply Hh)) as (Nh & Dh & Vh).
  destruct (decimalDigits_spec c ltac:(apply Hc)) as (Nc & Dc & Vc).
  cbv zeta. split; [|split; [|split]].
  - destruct (decimalDigits w); [contradiction|discriminate].
  - replace (decimalDigits w ++ codeUnits "x" ++ decimalDigits h
             ++ codeUnits "*" ++ decimalDigits c)
      with (decimalDigits w
            ++ (codeUnits "x" ++ decimalDigits h ++ codeUnits "*")
            ++ decimalDigits c)
      by (rewrite <- !app_assoc; reflexivity).
    apply digitEnds_app; try assumption; apply digitEnds_digits; assumption.
  - repeat (apply Forall_app; split);
      try (apply digits_without; [reflexivity|assumption]);
      repeat constructor; discriminate.
  - rewrite parseTilePart_formatted; try assumption;
      rewrite ?Vw, ?Vh, ?Vc; try reflexivity;
      [apply Hw|apply Hh|apply Hc].
Qed.

Lemma Array_join_cons (sep p q : jsstring) (rest : list jsstring) :
  Array_join sep (p :: q :: rest) = p ++ sep ++ Array_join sep (q :: rest).
Proof. cbn [Array_join flat_map]. rewrite <- app_assoc. reflexivity. Qed.

Lemma Array_join_digitEnds (sep : jsstring) (parts : list jsstring) :
  parts <> [] ->
  Forall (fun p => p <> [] /\ digitEnds p) parts ->
  Array_join sep parts <> [] /\ digitEnds (Array_join sep parts).
Proof.
  intros Hne Hall. destruct parts as [|p rest]; [contradiction|clear Hne].
  revert p Hall. induction rest as [|q rest IH]; intros p Hall.
  - cbn [Array_join flat_map]. rewrite app_nil_r. exact (Forall_inv Hall).
  - rewrite Array_join_cons.
    destruct (Forall_inv Hall) as [Np Ep].
    destruct (IH q (Forall_inv_tail Hall)) as [Nq Eq].
    split; [destruct p; [contradiction|discriminate]|].
    apply digitEnds_app; assumption.
Qed.

(** The tile string that the page writes for a non-empty list of tiles
    whose widths, heights and counts are integers between 1 and 2^53 - 1
    is read back by [parseTileList] as the very same tiles, in the same
    order; [toString] is any conversion that writes such an integer as its
    decimal digits. *)
Theorem formatTiles_parseTileList (toString : Q -> jsstring)
  (tiles : list (Z * Z * Z)) :
  (forall n, safePositive n -> toString (inject_Z n) = decimalDigits n) ->
  tiles <> [] ->
  Forall safeTile tiles ->
  parseTileList (formatTiles toString (map entryOf tiles))
  = Ok (map specOf tiles).
Proof.
  intros Hstr Hne Hall.
  set (parts := map (formatTile toString) (map entryOf tiles)).
  assert (Hparts : Forall (fun p => p <> [] /\ digitEnds p) parts
                   /\ Forall (Forall (fun c => c <> 44)) parts
                   /\ parseTileParts parts = Ok (map specOf tiles)).
  { unfold parts. clear Hne parts.
    induction Hall as [|t tiles Ht _ IH].
    - repeat split; constructor.
    - destruct IH as (I1 & I2 & I3).
      destruct (formatTile_parsed toString t Hstr Ht) as (P1 & P2 & P3 & P4).
      cbv zeta in P1, P2, P3, P4. cbn [map]. split; [|split].
      + constructor; [split; assumption|exact I1].
      + constructor; assumption.
      + cbn [parseTileParts]. rewrite P4, I3. reflexivity. }
  destruct Hparts as (H1 & H2 & H3).
  assert (Nparts : parts <> [])
    by (unfold parts; destruct tiles; [contradiction|discriminate]).
  destruct (Array_join_digitEnds [44] parts Nparts H1) as [Njoin Ejoin].
  unfold parseTileList, formatTiles. fold parts.
  change (codeUnits ",") with [44].
  rewrite (digitEnds_trim _ Ejoin).
  destruct (Array_join [44] parts) as [|c0 joined] eqn:Ej; [contradiction|].
  rewrite <- Ej, (String_split_join 44 parts Nparts H2), H3.
  destruct tiles as [|t tiles]; [contradiction|reflexivity].
Qed.

(** ** The central region of center mode *)

Lemma clampFloat_inside (v lo hi : Q) :
  (lo <= v)%Q -> (v <= hi)%Q -> clampFloat v lo hi = v.
Proof.
  intros H1 H2. unfold clampFloat.
  destruct (Qltb v lo) eqn:E1; [apply Qltb_lt in E1; lra|].
  destruct (Qltb hi v) eqn:E2; [apply Qltb_lt in E2; lra|reflexivity].
Qed.

Lemma clampInt_inside (v lo hi : Z) : lo <= v <= hi -> clampInt v lo hi = v.
Proof.
  intros H. unfold clampInt.
  destruct (v <? lo) eqn:E1; [apply Z.ltb_lt in E1; lia|].
  destruct (v >? hi) eqn:E2; [|reflexivity].
  rewrite Z.gtb_ltb in E2. apply Z.ltb_lt in E2. lia.
Qed.

Lemma scaled_offset (c m s : Q) :
  (-1 <= c)%Q -> (c <= 1)%Q -> (0 <= m)%Q -> (0 <= s)%Q -> (s <= 1)%Q ->
  (- m <= c * m * s)%Q /\ (c * m * s <= m)%Q.
Proof.
  intros Hc1 Hc2 Hm Hs1 Hs2.
  assert (Hk1 : (0 <= m * s)%Q) by (apply Qmult_le_0_compat; assumption).
  assert (Hk2 : (m * s <= m)%Q) by nra.
  assert (E : (c * m * s == c * (m * s))%Q) by ring.
  rewrite E. split; nra.
Qed.

(** One coordinate of a placement around the centre: a target within [m]
    of the centred position is rounded to a cell within [m + 1/2] of it,
    and the clamp to the canvas changes nothing. *)
Lemma round_coordinate (Wz tz : Z) (hW hT t m : Q) :
  (hW + hW == inject_Z Wz)%Q -> (hT + hT == inject_Z tz)%Q ->
  (0 <= m)%Q -> (m <= hW - hT)%Q ->
  (- m <= t - (hW - hT))%Q -> (t - (hW - hT) <= m)%Q ->
  let x := clampInt (Math_round t) 0 (Wz - tz) in
  0 <= x <= Wz - tz
  /\ (- (m + (1 # 2)) <= inject_Z x + hT - hW)%Q
  /\ (inject_Z x + hT - hW <= m + (1 # 2))%Q.
Proof.
  intros EW ET Hm0 Hm1 Ht1 Ht2.
  assert (Hlo : (inject_Z (Math_round t) <= t + (1 # 2))%Q)
    by (unfold Math_round; apply Qfloor_le).
  assert (Hhi : (t + (1 # 2) < inject_Z (Math_round t + 1))%Q)
    by (unfold Math_round; apply Qlt_floor).
  rewrite inject_Z_plus in Hhi. change (inject_Z 1) with 1%Q in Hhi.
  assert (Hr0 : 0 <= Math_round t).
  { unfold Math_round. apply Qfloor_nonneg. lra. }
  assert (Hr1 : Math_round t <= Wz - tz).
  { assert (H : (inject_Z (Math_round t) < inject_Z (Wz - tz + 1))%Q).
    { rewrite inject_Z_plus, inject_Z_minus.
      change (inject_Z 1) with 1%Q. lra. }
    rewrite <- Zlt_Qlt in H. lia. }
  intros x. unfold x. rewrite clampInt_inside by lia.
  split; [lia|]. split; lra.
Qed.

Lemma half_twice (z : Z) : (inject_Z z / 2 + inject_Z z / 2 == inject_Z z)%Q.
Proof. field. Qed.

Lemma diskAttempts_region (g : Generator) (tw th : Z) (mx my : Q) (n : nat) :
  (forall v : Q, (-1 <= Math_cos v)%Q /\ (Math_cos v <= 1)%Q) ->
  (forall v : Q, (-1 <= Math_sin v)%Q /\ (Math_sin v <= 1)%Q) ->
  (forall v : Q, (0 <= v)%Q -> (v < 1)%Q ->
                 (0 <= Math_sqrt v)%Q /\ (Math_sqrt v <= 1)%Q) ->
  (0 <= mx)%Q -> (mx <= inject_Z (g_width g) / 2 - inject_Z tw / 2)%Q ->
  (0 <= my)%Q -> (my <= inject_Z (g_height g) / 2 - inject_Z th / 2)%Q ->
  yields (diskAttempts (S n) g tw th mx my)
    (fun found =>
       exists p, found = Some p
         /\ inBounds g tw th p
         /\ (- (mx + (1 # 2))
             <= inject_Z (px p) + inject_Z tw / 2 - inject_Z (g_width g) / 2)%Q
         /\ (inject_Z (px p) + inject_Z tw / 2 - inject_Z (g_width g) / 2
             <= mx + (1 # 2))%Q
         /\ (- (my + (1 # 2))
             <= inject_Z (py p) + inject_Z th / 2
                - inject_Z (g_height g) / 2)%Q
         /\ (inject_Z (py p) + inject_Z th / 2 - inject_Z (g_height g) / 2
             <= my + (1 # 2))%Q).
Proof.
  intros Hcos Hsin Hsqrt Hx0 Hx1 Hy0 Hy1.
  cbn [diskAttempts].
  eapply yields_bind; [apply yields_float|]. intros u Hu. cbv beta in Hu.
  eapply yields_bind; [apply yields_float|]. intros v Hv. cbv beta in Hv.
  destruct (Hsqrt v (proj1 Hv) (proj2 Hv)) as [Hs0 Hs1].
  set (theta := (u * 2 * Math_PI)%Q).
  destruct (Hcos theta) as [Hc0 Hc1]. destruct (Hsin theta) as [Hn0 Hn1].
  destruct (scaled_offset (Math_cos theta) mx (Math_sqrt v)
              Hc0 Hc1 Hx0 Hs0 Hs1) as [Dx0 Dx1].
  destruct (scaled_offset (Math_sin theta) my (Math_sqrt v)
              Hn0 Hn1 Hy0 Hs0 Hs1) as [Dy0 Dy1].
  set (dx := (Math_cos theta * mx * Math_sqrt v)%Q) in *.
  set (dy := (Math_sin theta * my * Math_sqrt v)%Q) in *.
  pose proof (half_twice (g_width g)) as EW.
  pose proof (half_twice (g_height g)) as EH.
  pose proof (half_twice tw) as ETw. pose proof (half_twice th) as ETh.
  set (hW := (inject_Z (g_width g) / 2)%Q) in *.
  set (hH := (inject_Z (g_height g) / 2)%Q) in *.
  set (hTw := (inject_Z tw / 2)%Q) in *.
  set (hTh := (inject_Z th / 2)%Q) in *.
  rewrite (clampFloat_inside (hW + dx)) by lra.
  rewrite (clampFloat_inside (hH + dy)) by lra.
  destruct (round_coordinate (g_width g) tw hW hTw (hW + dx - hTw) mx
              EW ETw Hx0 Hx1 ltac:(lra) ltac:(lra)) as (Bx & Ox0 & Ox1).
  destruct (round_coordinate (g_height g) th hH hTh (hH + dy - hTh) my
              EH ETh Hy0 Hy1 ltac:(lra) ltac:(lra)) as (By & Oy0 & Oy1).
  cbv zeta in Bx, Ox0, Ox1, By, Oy0, Oy1.
  set (x := clampInt (Math_round (hW + dx - hTw)) 0 (g_width g - tw)) in *.
  set (y := clampInt (Math_round (hH + dy - hTh)) 0 (g_height g - th)) in *.
  assert (Hcond : (0 <=? x) && (x <=? g_width g - tw)
                  && (0 <=? y) && (y <=? g_height g - th) = true).
  { rewrite !andb_true_iff, !Z.leb_le. lia. }
  rewrite Hcond. apply yields_ret.
  exists (mkPoint x y). split; [reflexivity|]. cbn [px py].
  split; [split; assumption|].
  split; [exact Ox0|]. split; [exact Ox1|]. split; [exact Oy0|exact Oy1].
Qed.

Lemma sampleCenteredDisk_region (g : Generator) (tw th : Z) (fraction : Q) :
  (forall v : Q, (-1 <= Math_cos v)%Q /\ (Math_cos v <= 1)%Q) ->
  (forall v : Q, (-1 <= Math_sin v)%Q /\ (Math_sin v <= 1)%Q) ->
  (forall v : Q, (0 <= v)%Q -> (v < 1)%Q ->
                 (0 <= Math_sqrt v)%Q /\ (Math_sqrt v <= 1)%Q) ->
  0 < tw < g_width g -> 0 < th < g_height g -> (0 < fraction)%Q ->
  yields (sampleCenteredDisk g tw th fraction)
    (fun p => inBounds g tw th p /\ centredWithin g tw th fraction p).
Proof.
  intros Hcos Hsin Hsqrt Htw Hth Hf. unfold sampleCenteredDisk. cbv zeta.
  pose proof (half_twice (g_width g)) as EW.
  pose proof (half_twice (g_height g)) as EH.
  pose proof (half_twice tw) as ETw. pose proof (half_twice th) as ETh.
  assert (HW : (0 < inject_Z (g_width g))%Q)
    by (change 0%Q with (inject_Z 0); rewrite <- Zlt_Qlt; lia).
  assert (HH : (0 < inject_Z (g_height g))%Q)
    by (change 0%Q with (inject_Z 0); rewrite <- Zlt_Qlt; lia).
  assert (HTw : (inject_Z tw < inject_Z (g_width g))%Q)
    by (rewrite <- Zlt_Qlt; lia).
  assert (HTh : (inject_Z th < inject_Z (g_height g))%Q)
    by (rewrite <- Zlt_Qlt; lia).
  assert (EfW : (inject_Z (g_width g) * fraction / 2
                 == inject_Z (g_width g) / 2 * fraction)%Q) by field.
  assert (EfH : (inject_Z (g_height g) * fraction / 2
                 == inject_Z (g_height g) / 2 * fraction)%Q) by field.
  set (hW := (inject_Z (g_width g) / 2)%Q) in *.
  set (hH := (inject_Z (g_height g) / 2)%Q) in *.
  set (hTw := (inject_Z tw / 2)%Q) in *.
  set (hTh := (inject_Z th / 2)%Q) in *.
  assert (HfW : (0 < hW * fraction)%Q)
    by (apply Qmult_lt_0_compat; [lra|exact Hf]).
  assert (HfH : (0 < hH * fraction)%Q)
    by (apply Qmult_lt_0_compat; [lra|exact Hf]).
  set (fW := (inject_Z (g_width g) * fraction / 2)%Q) in *.
  set (fH := (inject_Z (g_height g) * fraction / 2)%Q) in *.
  set (mx := Qmax 0 (Qmin (Qmin hW fW) (hW - hTw))).
  set (my := Qmax 0 (Qmin (Qmin hH fH) (hH - hTh))).
  assert (Hmx : (0 < mx)%Q /\ (mx <= hW - hTw)%Q /\ (mx <= fW)%Q).
  { unfold mx.
    pose proof (Q.le_min_l (Qmin hW fW) (hW - hTw)).
    pose proof (Q.le_min_r (Qmin hW fW) (hW - hTw)).
    pose proof (Q.le_min_r hW fW).
    assert (Hpos : (0 < Qmin (Qmin hW fW) (hW - hTw))%Q).
    { apply Q.min_glb_lt; [apply Q.min_glb_lt|]; lra. }
    rewrite Q.max_r by lra. split; [exact Hpos|split; lra]. }
  assert (Hmy : (0 < my)%Q /\ (my <= hH - hTh)%Q /\ (my <= fH)%Q).
  { unfold my.
    pose proof (Q.le_min_l (Qmin hH fH) (hH - hTh)).
    pose proof (Q.le_min_r (Qmin hH fH) (hH - hTh)).
    pose proof (Q.le_min_r hH fH).
    assert (Hpos : (0 < Qmin (Qmin hH fH) (hH - hTh))%Q).
    { apply Q.min_glb_lt; [apply Q.min_glb_lt|]; lra. }
    rewrite Q.max_r by lra. split; [exact Hpos|split; lra]. }
  destruct Hmx as (Mx0 & Mx1 & Mx2). destruct Hmy as (My0 & My1 & My2).
  assert (Ez : Qeq_bool mx 0 = false).
  { apply not_true_iff_false. intros H. apply Qeq_bool_iff in H. lra. }
  rewrite Ez. cbn [andb].
  eapply yields_bind.
  - apply (diskAttempts_region g tw th mx my 15 Hcos Hsin Hsqrt);
      fold hW hH hTw hTh; lra.
  - intros found (p & -> & Hb & Ox0 & Ox1 & Oy0 & Oy1).
    apply yields_ret. split; [exact Hb|].
    unfold centredWithin. cbv zeta.
    fold hW hH hTw hTh fW fH in Ox0, Ox1, Oy0, Oy1 |- *.
    split; [lra|]. split; [lra|]. split; lra.
Qed.

(** Center mode concentrates the tiles: of a tile smaller than the canvas,
    a roll below 0.7 puts the centre within the central 30% of the canvas
    each way, and a roll below 0.99 within the central half, up to the
    half cell of the rounding; [cos] and [sin] are any functions into
    [-1, 1] and [sqrt] any function from [0, 1) into [0, 1]. *)
Theorem positionCenter_region (g : Generator) (tw th : Z) (r : RNG) :
  (forall v : Q, (-1 <= Math_cos v)%Q /\ (Math_cos v <= 1)%Q) ->
  (forall v : Q, (-1 <= Math_sin v)%Q /\ (Math_sin v <= 1)%Q) ->
  (forall v : Q, (0 <= v)%Q -> (v < 1)%Q ->
                 (0 <= Math_sqrt v)%Q /\ (Math_sqrt v <= 1)%Q) ->
  0 < tw < g_width g -> 0 < th < g_height g ->
  let roll := fst (RNG_float r) in
  let p := fst (positionCenter g tw th r) in
  ((roll < 7 # 10)%Q -> centredWithin g tw th (3 # 10) p)
  /\ ((roll < 99 # 100)%Q -> centredWithin g tw th (1 # 2) p).
Proof.
  intros Hcos Hsin Hsqrt Htw Hth roll p.
  assert (Hmono : forall q, centredWithin g tw th (3 # 10) q ->
                            centredWithin g tw th (1 # 2) q).
  { intros q. unfold centredWithin. cbv zeta.
    assert (HW : (0 < inject_Z (g_width g))%Q)
      by (change 0%Q with (inject_Z 0); rewrite <- Zlt_Qlt; lia).
    assert (HH : (0 < inject_Z (g_height g))%Q)
      by (change 0%Q with (inject_Z 0); rewrite <- Zlt_Qlt; lia).
    assert (E1 : (inject_Z (g_width g) * (3 # 10) / 2
                  == inject_Z (g_width g) * (3 # 20))%Q) by field.
    assert (E2 : (inject_Z (g_width g) * (1 # 2) / 2
                  == inject_Z (g_width g) * (1 # 4))%Q) by field.
    assert (E3 : (inject_Z (g_height g) * (3 # 10) / 2
                  == inject_Z (g_height g) * (3 # 20))%Q) by field.
    assert (E4 : (inject_Z (g_height g) * (1 # 2) / 2
                  == inject_Z (g_height g) * (1 # 4))%Q) by field.
    rewrite E1, E2, E3, E4.
    set (ox := (inject_Z (px q) + inject_Z tw / 2
                - inject_Z (g_width g) / 2)%Q).
    set (oy := (inject_Z (py q) + inject_Z th / 2
                - inject_Z (g_height g) / 2)%Q).
    intros (A & B & C & D).
    split; [lra|]. split; [lra|]. split; lra. }
  unfold p, roll, positionCenter, bind.
  destruct (RNG_float r) as [u r1]. cbn [fst].
  pose proof (sampleCenteredDisk_region g tw th (3 # 10)
                Hcos Hsin Hsqrt Htw Hth eq_refl r1) as [_ H30].
  pose proof (sampleCenteredDisk_region g tw th (1 # 2)
                Hcos Hsin Hsqrt Htw Hth eq_refl r1) as [_ H50].
  destruct (Qltb u (7 # 10)) eqn:E7.
  - split; intros _; [exact H30|apply Hmono; exact H30].
  - apply Qltb_ge in E7. destruct (Qltb u (99 # 100)) eqn:E99.
    + split; [intros Hlt; lra|intros _; exact H50].
    + apply Qltb_ge in E99. split; intros Hlt; lra.
Qed.

(** ** The outer radius of ring mode *)

Lemma half_floor (tz : Z) (hT : Q) :
  (hT + hT == inject_Z tz)%Q ->
  (inject_Z (Qfloor hT) <= hT)%Q /\ (hT <= inject_Z (Qfloor hT) + (1 # 2))%Q.
Proof.
  intros E. split; [apply Qfloor_le|].
  pose proof (Qlt_floor hT) as Hlt.
  rewrite inject_Z_plus in Hlt. change (inject_Z 1) with 1%Q in Hlt.
  assert (H : (inject_Z tz < inject_Z (2 * Qfloor hT + 2))%Q).
  { rewrite inject_Z_plus, inject_Z_mult.
    change (inject_Z 2) with 2%Q. lra. }
  rewrite <- Zlt_Qlt in H.
  assert (H' : (inject_Z tz <= inject_Z (2 * Qfloor hT + 1))%Q)
    by (rewrite <- Zle_Qle; lia).
  rewrite inject_Z_plus, inject_Z_mult in H'.
  change (inject_Z 2) with 2%Q in H'. change (inject_Z 1) with 1%Q in H'.
  lra.
Qed.

(** One coordinate of a placement on a circle: a point within [R] of the
    centre of the canvas gives a cell whose tile is centred within [R + 1]
    of it, and the clamp to the canvas only moves it towards the centre. *)
Lemma ring_coordinate (Wz tz : Z) (hW hT c R : Q) :
  (hW + hW == inject_Z Wz)%Q -> (hT + hT == inject_Z tz)%Q ->
  tz <= Wz -> (0 <= R)%Q -> (- R <= c - hW)%Q -> (c - hW <= R)%Q ->
  let x := clampInt (Math_round c - Math_floor hT) 0 (Wz - tz) in
  0 <= x <= Wz - tz
  /\ (- (R + 1) <= inject_Z x + hT - hW)%Q
  /\ (inject_Z x + hT - hW <= R + 1)%Q.
Proof.
  intros EW ET Htz HR Hc1 Hc2.
  assert (Hlo : (inject_Z (Math_round c) <= c + (1 # 2))%Q)
    by (unfold Math_round; apply Qfloor_le).
  assert (Hhi : (c + (1 # 2) < inject_Z (Math_round c + 1))%Q)
    by (unfold Math_round; apply Qlt_floor).
  rewrite inject_Z_plus in Hhi. change (inject_Z 1) with 1%Q in Hhi.
  destruct (half_floor tz hT ET) as [Hf1 Hf2].
  assert (HT : (inject_Z tz <= inject_Z Wz)%Q)
    by (rewrite <- Zle_Qle; exact Htz).
  cbv zeta. unfold Math_floor, clampInt.
  set (x0 := Math_round c - Qfloor hT).
  assert (Ex0 : (inject_Z x0
                 == inject_Z (Math_round c) - inject_Z (Qfloor hT))%Q)
    by (unfold x0; rewrite inject_Z_minus; reflexivity).
  destruct (x0 <? 0) eqn:E1.
  - apply Z.ltb_lt in E1. split; [lia|].
    assert (Hq : (inject_Z x0 < inject_Z 0)%Q)
      by (rewrite <- Zlt_Qlt; exact E1).
    change (inject_Z 0) with 0%Q in *. split; lra.
  - apply Z.ltb_ge in E1. destruct (x0 >? Wz - tz) eqn:E2.
    + rewrite Z.gtb_ltb in E2. apply Z.ltb_lt in E2.
      assert (Hq : (inject_Z (Wz - tz) < inject_Z x0)%Q)
        by (rewrite <- Zlt_Qlt; exact E2).
      rewrite inject_Z_minus in *. split; [lia|]. split; lra.
    + rewrite Z.gtb_ltb in E2. apply Z.ltb_ge in E2.
      split; [lia|]. split; lra.
Qed.

Lemma ringPoint_within (g : Generator) (tw th : Z) (radiusFrac theta : Q) :
  (forall v : Q, (-1 <= Math_cos v)%Q /\ (Math_cos v <= 1)%Q) ->
  (forall v : Q, (-1 <= Math_sin v)%Q /\ (Math_sin v <= 1)%Q) ->
  0 < tw < g_width g -> 0 < th < g_height g ->
  (0 <= radiusFrac)%Q -> (radiusFrac <= g_ringEnd g)%Q ->
  inBounds g tw th (ringPoint g tw th radiusFrac theta)
  /\ withinOuterRing g tw th (ringPoint g tw th radiusFrac theta).
Proof.
  intros Hcos Hsin Htw Hth Hrf0 Hrf1.
  unfold ringPoint, withinOuterRing. cbv zeta. cbn [px py].
  pose proof (half_twice (g_width g)) as EW.
  pose proof (half_twice (g_height g)) as EH.
  pose proof (half_twice tw) as ETw. pose proof (half_twice th) as ETh.
  assert (Hmin : (0 <= inject_Z (Z.min (g_width g) (g_height g)) / 2)%Q).
  { assert (H : (0 <= inject_Z (Z.min (g_width g) (g_height g)))%Q)
      by (change 0%Q with (inject_Z 0); rewrite <- Zle_Qle; lia).
    pose proof (half_twice (Z.min (g_width g) (g_height g))). lra. }
  set (radiusMax := (inject_Z (Z.min (g_width g) (g_height g)) / 2)%Q) in *.
  set (radius := (radiusFrac * radiusMax)%Q).
  assert (Hr0 : (0 <= radius)%Q)
    by (apply Qmult_le_0_compat; assumption).
  assert (Hr1 : (radius <= g_ringEnd g * radiusMax)%Q)
    by (apply Qmult_le_compat_r; assumption).
  destruct (Hcos theta) as [Hc0 Hc1]. destruct (Hsin theta) as [Hs0 Hs1].
  assert (Dx : (- radius <= Math_cos theta * radius)%Q
               /\ (Math_cos theta * radius <= radius)%Q) by (split; nra).
  assert (Dy : (- radius <= Math_sin theta * radius)%Q
               /\ (Math_sin theta * radius <= radius)%Q) by (split; nra).
  set (dx := (Math_cos theta * radius)%Q) in *.
  set (dy := (Math_sin theta * radius)%Q) in *.
  set (hW := (inject_Z (g_width g) / 2)%Q) in *.
  set (hH := (inject_Z (g_height g) / 2)%Q) in *.
  set (hTw := (inject_Z tw / 2)%Q) in *.
  set (hTh := (inject_Z th / 2)%Q) in *.
  set (reach := (g_ringEnd g * radiusMax)%Q) in *.
  destruct (ring_coordinate (g_width g) tw hW hTw (hW + dx) reach
              EW ETw ltac:(lia) ltac:(lra) ltac:(lra) ltac:(lra))
    as (Bx & Ox0 & Ox1).
  destruct (ring_coordinate (g_height g) th hH hTh (hH + dy) reach
              EH ETh ltac:(lia) ltac:(lra) ltac:(lra) ltac:(lra))
    as (By & Oy0 & Oy1).
  cbv zeta in Bx, Ox0, Ox1, By, Oy0, Oy1.
  split; [split; assumption|].
  split; [exact Ox0|]. split; [exact Ox1|]. split; [exact Oy0|exact Oy1].
Qed.

Lemma ringAttempts_within (g : Generator) (tw th : Z) :
  (forall v : Q, (-1 <= Math_cos v)%Q /\ (Math_cos v <= 1)%Q) ->
  (forall v : Q, (-1 <= Math_sin v)%Q /\ (Math_sin v <= 1)%Q) ->
  0 < tw < g_width g -> 0 < th < g_height g ->
  (0 <= g_ringStart g)%Q ->
  forall n : nat,
    yields (ringAttempts n g tw th)
      (fun found =>
         match found with
         | Some p => inBounds g tw th p /\ withinOuterRing g tw th p
         | None => True
         end).
Proof.
  intros Hcos Hsin Htw Hth Hstart.
  induction n as [|n IH]; cbn [ringAttempts].
  - apply yields_ret. exact I.
  - apply yields_bind_any. intros segment.
    destruct (_ || _); [exact IH|]. cbv zeta.
    set (inner := Qmax (boundaryAt g segment) (g_ringStart g)).
    set (outer := Qmin (Qmax inner (boundaryAt g (segment + 1)))
                    (g_ringEnd g)).
    destruct (Qle_bool outer inner) eqn:E; [exact IH|].
    apply Qle_bool_gt in E.
    eapply yields_bind; [apply yields_float|]. intros u [Hu0 Hu1].
    apply yields_bind_any. intros v. apply yields_ret.
    assert (Hin : (g_ringStart g <= inner)%Q) by apply Q.le_max_r.
    assert (Hout : (outer <= g_ringEnd g)%Q) by apply Q.le_min_r.
    apply ringPoint_within; try assumption; nra.
Qed.

(** Ring mode never centres a tile beyond the outer radius: with
    0 <= ringStart < ringEnd, a tile smaller than the canvas is centred
    within ringEnd * min(width, height) / 2 of the centre of the canvas
    each way, plus one cell for the roundings; [cos] and [sin] are any
    functions into [-1, 1]. *)
Theorem positionRing_within_outer (g : Generator) (tw th : Z) (r : RNG) :
  (forall v : Q, (-1 <= Math_cos v)%Q /\ (Math_cos v <= 1)%Q) ->
  (forall v : Q, (-1 <= Math_sin v)%Q /\ (Math_sin v <= 1)%Q) ->
  0 < tw < g_width g -> 0 < th < g_height g ->
  (0 <= g_ringStart g)%Q -> (g_ringStart g < g_ringEnd g)%Q ->
  withinOuterRing g tw th (fst (positionRing g tw th r)).
Proof.
  intros Hcos Hsin Htw Hth Hstart Hend.
  assert (H : yields (positionRing g tw th)
                (fun p => inBounds g tw th p /\ withinOuterRing g tw th p)).
  { unfold positionRing.
    eapply yields_bind;
      [apply (ringAttempts_within g tw th Hcos Hsin Htw Hth Hstart)|].
    intros [p|] Hfound; [apply yields_ret; exact Hfound|].
    assert (Espan : (Qmax (g_ringEnd g - g_ringStart g) 0
                     == g_ringEnd g - g_ringStart g)%Q)
      by (apply Q.max_l; lra).
    assert (Elt : Qltb 0 (Qmax (g_ringEnd g - g_ringStart g) 0) = true)
      by (apply Qltb_lt; rewrite Espan; lra).
    cbv zeta. rewrite Elt.
    eapply yields_bind; [apply yields_float|]. intros u [Hu0 Hu1].
    apply yields_bind_any. intros v. apply yields_ret.
    set (span := Qmax (g_ringEnd g - g_ringStart g) 0) in *.
    apply ringPoint_within; try assumption; nra. }
  apply (H r).
Qed.

End Engine.

(* ================================================================== *)
(** * The tile batch normalizer in binary64 *)

(** ** Rounding to binary64 *)

Lemma roundHalfEven_comp (x y : Q) :
  (x == y)%Q -> roundHalfEven x = roundHalfEven y.
Proof.
  intros E. unfold roundHalfEven.
  rewrite (Qfloor_comp _ _ E).
  assert (Ec : Qcompare (x - inject_Z (Qfloor y)) (1 # 2)
               = Qcompare (y - inject_Z (Qfloor y)) (1 # 2))
    by (rewrite E; reflexivity).
  rewrite Ec. reflexivity.
Qed.

Lemma roundHalfEven_bounds (x : Q) :
  (inject_Z (roundHalfEven x) - (1 # 2) <= x)%Q
  /\ (x <= inject_Z (roundHalfEven x) + (1 # 2))%Q.
Proof.
  unfold roundHalfEven.
  pose proof (Qfloor_le x) as Hlo. pose proof (Qlt_floor x) as Hhi.
  rewrite inject_Z_plus in Hhi. change (inject_Z 1) with 1%Q in Hhi.
  destruct (Qcompare (x - inject_Z (Qfloor x)) (1 # 2)) eqn:E.
  - apply Qeq_alt in E.
    destruct (Z.even (Qfloor x));
      [|rewrite inject_Z_plus; change (inject_Z 1) with 1%Q]; split; lra.
  - apply Qlt_alt in E. split; lra.
  - apply Qgt_alt in E. rewrite inject_Z_plus.
    change (inject_Z 1) with 1%Q. split; lra.
Qed.

Lemma roundHalfEven_Z (z : Z) : roundHalfEven (inject_Z z) = z.
Proof.
  unfold roundHalfEven. rewrite Qfloor_Z.
  assert (E : Qcompare (inject_Z z - inject_Z z) (1 # 2) = Lt).
  { rewrite <- Qlt_alt. ring_simplify (inject_Z z - inject_Z z)%Q. reflexivity. }
  rewrite E. reflexivity.
Qed.

Lemma roundHalfEven_mono_Z (x : Q) (z : Z) :
  (x <= inject_Z z)%Q -> roundHalfEven x <= z.
Proof.
  intros H. destruct (roundHalfEven_bounds x) as [Hlo _].
  assert (Hlt : (inject_Z (roundHalfEven x) < inject_Z (z + 1))%Q).
  { rewrite inject_Z_plus. change (inject_Z 1) with 1%Q. lra. }
  rewrite <- Zlt_Qlt in Hlt. lia.
Qed.

Lemma roundHalfEven_Z_mono (x : Q) (z : Z) :
  (inject_Z z <= x)%Q -> z <= roundHalfEven x.
Proof.
  intros H. destruct (roundHalfEven_bounds x) as [_ Hhi].
  assert (Hlt : (inject_Z (z - 1) < inject_Z (roundHalfEven x))%Q).
  { rewrite inject_Z_minus. change (inject_Z 1) with 1%Q. lra. }
  rewrite <- Zlt_Qlt in Hlt. lia.
Qed.

(** *** Rounding to 53 significant bits, in units of the least quantum *)

Lemma quantumShift_nonneg (n : Z) : 0 <= quantumShift n.
Proof.
  unfold quantumShift. destruct (n <? 2 ^ 53) eqn:E; [lia|].
  apply Z.ltb_ge in E.
  assert (H : Z.log2 (2 ^ 53) <= Z.log2 n) by (apply Z.log2_le_mono; exact E).
  rewrite Z.log2_pow2 in H by lia. lia.
Qed.

Lemma quantumShift_upper (n : Z) :
  0 <= n -> n < 2 ^ (quantumShift n + 53).
Proof.
  intros Hn. unfold quantumShift. destruct (n <? 2 ^ 53) eqn:E.
  - apply Z.ltb_lt in E. exact E.
  - apply Z.ltb_ge in E.
    assert (Hpos : 0 < n) by (pose proof (Z.pow_pos_nonneg 2 53); lia).
    destruct (Z.log2_spec n Hpos) as [_ H].
    replace (Z.log2 n - 52 + 53) with (Z.succ (Z.log2 n)) by lia. exact H.
Qed.

Lemma quantumShift_lower (n : Z) :
  2 ^ 53 <= n -> 2 ^ (quantumShift n + 52) <= n.
Proof.
  intros Hn. unfold quantumShift.
  assert (E : (n <? 2 ^ 53) = false) by (apply Z.ltb_ge; exact Hn).
  rewrite E.
  assert (Hpos : 0 < n) by (pose proof (Z.pow_pos_nonneg 2 53); lia).
  destruct (Z.log2_spec n Hpos) as [H _].
  replace (Z.log2 n - 52 + 52) with (Z.log2 n) by lia. exact H.
Qed.

Lemma inject_Z_pos (z : Z) : 0 < z -> (0 < inject_Z z)%Q.
Proof. intros H. change 0%Q with (inject_Z 0). rewrite <- Zlt_Qlt. exact H. Qed.

Lemma inject_Z_nonneg (z : Z) : 0 <= z -> (0 <= inject_Z z)%Q.
Proof. intros H. change 0%Q with (inject_Z 0). rewrite <- Zle_Qle. exact H. Qed.

Lemma Qdiv_mult_cancel (x p : Q) : (0 < p)%Q -> (x / p * p == x)%Q.
Proof. intros Hp. field. lra. Qed.

(** The rounded value is within half a quantum, and the significand has
    at most 53 bits. *)
Lemma roundUnits_spec (x : Q) :
  (0 <= x)%Q ->
  let s := quantumShift (Qfloor x) in
  let m := roundHalfEven (x / inject_Z (2 ^ s)) in
  roundUnits x = m * 2 ^ s
  /\ 0 <= s /\ 0 <= m <= 2 ^ 53
  /\ (inject_Z (roundUnits x) - inject_Z (2 ^ s) * (1 # 2) <= x)%Q
  /\ (x <= inject_Z (roundUnits x) + inject_Z (2 ^ s) * (1 # 2))%Q.
Proof.
  intros Hx s m.
  pose proof (quantumShift_nonneg (Qfloor x)) as Hs. fold s in Hs.
  pose proof (quantumShift_upper (Qfloor x) (Qfloor_nonneg x Hx)) as Hup.
  fold s in Hup.
  assert (HP : 0 < 2 ^ s) by (apply Z.pow_pos_nonneg; lia).
  pose proof (inject_Z_pos _ HP) as HPq.
  set (P := inject_Z (2 ^ s)) in *.
  pose proof (Qdiv_mult_cancel x P HPq) as Hy.
  set (y := (x / P)%Q) in *.
  assert (Hy0 : (0 <= y)%Q).
  { unfold y. apply Qle_shift_div_l; [exact HPq|lra]. }
  assert (Hxlt : (x < inject_Z (2 ^ (s + 53)))%Q).
  { eapply Qlt_le_trans; [apply Qlt_floor|].
    rewrite <- Zle_Qle. lia. }
  assert (Hylt : (y <= inject_Z (2 ^ 53))%Q).
  { unfold y. apply Qle_shift_div_r; [exact HPq|].
    unfold P. rewrite <- inject_Z_mult, <- Z.pow_add_r by lia.
    rewrite (Z.add_comm 53 s). apply Qlt_le_weak. exact Hxlt. }
  destruct (roundHalfEven_bounds y) as [Hlo Hhi]. fold m in Hlo, Hhi.
  assert (Hm0 : 0 <= m) by (apply roundHalfEven_Z_mono; exact Hy0).
  assert (Hm1 : m <= 2 ^ 53) by (apply roundHalfEven_mono_Z; exact Hylt).
  assert (Er : roundUnits x = m * 2 ^ s) by reflexivity.
  split; [exact Er|]. split; [exact Hs|]. split; [lia|].
  rewrite Er, inject_Z_mult. fold P.
  split; nra.
Qed.

(** In the normal range the error is at most 2^-53 of the value. *)
Lemma roundUnits_relative (x : Q) :
  (inject_Z (2 ^ 52) <= x)%Q ->
  (x - x * (1 # 2 ^ 53) <= inject_Z (roundUnits x))%Q
  /\ (inject_Z (roundUnits x) <= x + x * (1 # 2 ^ 53))%Q.
Proof.
  intros Hx.
  assert (Hx0 : (0 <= x)%Q).
  { eapply Qle_trans; [|exact Hx]. apply inject_Z_nonneg. lia. }
  destruct (roundUnits_spec x Hx0) as (_ & Hs & _ & Hlo & Hhi).
  cbv zeta in Hs, Hlo, Hhi.
  set (s := quantumShift (Qfloor x)) in *.
  assert (Hq : (inject_Z (2 ^ s) * (1 # 2) <= x * (1 # 2 ^ 53))%Q).
  { assert (H : (inject_Z (2 ^ s) * inject_Z (2 ^ 52) <= x)%Q).
    { unfold s, quantumShift. destruct (Qfloor x <? 2 ^ 53) eqn:E.
      - change (inject_Z (2 ^ 0)) with 1%Q. lra.
      - apply Z.ltb_ge in E.
        pose proof (quantumShift_lower (Qfloor x) E) as Hl.
        unfold quantumShift in Hl.
        assert (E' : (Qfloor x <? 2 ^ 53) = false) by (apply Z.ltb_ge; exact E).
        rewrite E' in Hl.
        assert (Hlog : 0 <= Z.log2 (Qfloor x) - 52).
        { pose proof (quantumShift_nonneg (Qfloor x)) as Hq.
          unfold quantumShift in Hq. rewrite E' in Hq. exact Hq. }
        rewrite <- inject_Z_mult, <- Z.pow_add_r by lia.
        eapply Qle_trans; [|apply Qfloor_le].
        rewrite <- Zle_Qle. exact Hl. }
    assert (E53 : ((1 # 2 ^ 53) * inject_Z (2 ^ 52) == 1 # 2)%Q)
      by reflexivity.
    set (P := inject_Z (2 ^ s)) in *.
    assert (E1 : ((1 # 2 ^ 53) == (1 # 2) * (1 # 2 ^ 52))%Q) by reflexivity.
    assert (E2 : (inject_Z (2 ^ 52) * (1 # 2 ^ 52) == 1)%Q) by reflexivity.
    set (c := inject_Z (2 ^ 52)) in *. set (d := (1 # 2 ^ 52)%Q) in *.
    rewrite E1.
    assert (Hd : (0 <= d)%Q) by (unfold d; discriminate).
    assert (H2 : (P * c * d <= x * d)%Q) by (apply Qmult_le_compat_r; assumption).
    assert (H3 : (P * c * d == P)%Q).
    { rewrite <- Qmult_assoc, E2. ring. }
    lra. }
  split; lra.
Qed.

(** A value with at most 53 significant bits is its own rounding. *)
Lemma roundUnits_exact (m t : Z) :
  0 <= m <= 2 ^ 53 -> 0 <= t ->
  roundUnits (inject_Z (m * 2 ^ t)) = m * 2 ^ t.
Proof.
  intros Hm Ht. unfold roundUnits. rewrite Qfloor_Z.
  set (n := m * 2 ^ t).
  assert (Ht2 : 0 < 2 ^ t) by (apply Z.pow_pos_nonneg; lia).
  assert (Hn : 0 <= n) by (unfold n; nia).
  pose proof (quantumShift_nonneg n) as Hs.
  set (s := quantumShift n) in *.
  assert (Hdiv : (2 ^ s | n)).
  { unfold s, quantumShift. destruct (n <? 2 ^ 53) eqn:E.
    - apply Z.divide_1_l.
    - apply Z.ltb_ge in E.
      assert (Hpos : 0 < n) by (pose proof (Z.pow_pos_nonneg 2 53); lia).
      assert (Hm0 : 0 < m) by (unfold n in Hpos; nia).
      assert (Hlog : Z.log2 n = t + Z.log2 m)
        by (unfold n; apply Z.log2_mul_pow2; lia).
      assert (Hlm : Z.log2 m <= 53).
      { replace 53 with (Z.log2 (2 ^ 53)) by (apply Z.log2_pow2; lia).
        apply Z.log2_le_mono. lia. }
      destruct (Z.eq_dec (Z.log2 m) 53) as [E53|N53].
      + assert (m = 2 ^ 53).
        { destruct (Z.log2_spec m Hm0) as [H _]. rewrite E53 in H. lia. }
        rewrite Hlog, E53. unfold n. subst m.
        rewrite <- Z.pow_add_r by lia.
        exists (2 ^ 52). rewrite <- Z.pow_add_r by lia. f_equal. lia.
      + rewrite Hlog. unfold n.
        assert (Hle : t + Z.log2 m - 52 <= t) by lia.
        assert (H0 : 0 <= t + Z.log2 m - 52).
        { pose proof Hs as Hs'. unfold s, quantumShift in Hs'.
          assert (E' : (m * 2 ^ t <? 2 ^ 53) = false)
            by (apply Z.ltb_ge; exact E).
          fold n in E'. rewrite E' in Hs'. rewrite Hlog in Hs'. exact Hs'. }
        exists (m * 2 ^ (t - (t + Z.log2 m - 52))).
        rewrite <- Z.mul_assoc, <- Z.pow_add_r by lia. do 2 f_equal. lia. }
  destruct Hdiv as [k Hk].
  assert (HP : 0 < 2 ^ s) by (apply Z.pow_pos_nonneg; lia).
  assert (Ey : (inject_Z n / inject_Z (2 ^ s) == inject_Z k)%Q).
  { rewrite Hk, inject_Z_mult. field.
    pose proof (inject_Z_pos _ HP). lra. }
  rewrite (roundHalfEven_comp _ _ Ey), roundHalfEven_Z. lia.
Qed.

(** *** Binary64 *)


Lemma unitScale_pos : (0 < unitScale)%Q.
Proof. reflexivity. Qed.

Lemma roundUnits_comp (x y : Q) : (x == y)%Q -> roundUnits x = roundUnits y.
Proof.
  intros E. unfold roundUnits. rewrite (Qfloor_comp _ _ E).
  set (s := quantumShift (Qfloor y)).
  assert (Ey : (x / inject_Z (2 ^ s) == y / inject_Z (2 ^ s))%Q)
    by (rewrite E; reflexivity).
  rewrite (roundHalfEven_comp _ _ Ey). reflexivity.
Qed.

Lemma Qmake_scale (a : Z) : (a # scaleUnits == inject_Z a / unitScale)%Q.
Proof. unfold unitScale. apply Qmake_Qdiv. Qed.

Lemma Qred_inject_Z (z : Z) : Qred (inject_Z z) = inject_Z z.
Proof.
  apply Qcanon.Qred_identity. simpl. apply Z.gcd_1_r.
Qed.

Lemma Finite_inj (a b : Q) : Finite a = Finite b -> a = b.
Proof. intros H. injection H. auto. Qed.

(** What [binary64] does with the magnitude. *)
Lemma binary64_cases (q : Q) :
  let units := roundUnits (Qabs q * unitScale) in
  (2 ^ 2098 <= units ->
   binary64 q = if Qle_bool 0 q then PosInfinity else NegInfinity)
  /\ (units < 2 ^ 2098 ->
      binary64 q = Finite (Qred (Z.sgn (Qnum q) * units # scaleUnits))).
Proof.
  intros units. unfold binary64. fold unitScale. fold units.
  split; intros H.
  - assert (E : (2 ^ 2098 <=? units) = true) by (apply Z.leb_le; exact H).
    rewrite E. reflexivity.
  - assert (E : (2 ^ 2098 <=? units) = false) by (apply Z.leb_gt; exact H).
    rewrite E. reflexivity.
Qed.

Lemma Qabs_sgn (q : Q) : (inject_Z (Z.sgn (Qnum q)) * Qabs q == q)%Q.
Proof.
  destruct q as [[|p|p] d]; unfold Qabs, Qeq, Qmult, inject_Z; simpl; lia.
Qed.

(** The value of a finite result: the sign times the rounded magnitude. *)
Lemma binary64_value (q r : Q) :
  binary64 q = Finite r ->
  (r == inject_Z (Z.sgn (Qnum q))
        * (inject_Z (roundUnits (Qabs q * unitScale)) / unitScale))%Q
  /\ roundUnits (Qabs q * unitScale) < 2 ^ 2098.
Proof.
  intros H. destruct (binary64_cases q) as [Hover Hfin]. cbv zeta in *.
  destruct (Z.lt_ge_cases (roundUnits (Qabs q * unitScale)) (2 ^ 2098))
    as [Hlt|Hge].
  - rewrite (Hfin Hlt) in H. apply Finite_inj in H. subst r.
    split; [|exact Hlt].
    eapply Qeq_trans; [apply Qred_correct|].
    rewrite Qmake_scale, inject_Z_mult. unfold Qdiv. ring.
  - rewrite (Hover Hge) in H. destruct (Qle_bool 0 q); discriminate H.
Qed.

Lemma sgn_Qnum_pos (q : Q) : (0 < q)%Q -> Z.sgn (Qnum q) = 1.
Proof.
  destruct q as [[|p|p] d]; unfold Qlt; simpl; intros H; lia.
Qed.

Lemma Qabs_unitScale (q : Q) :
  (0 <= q)%Q -> (Qabs q * unitScale == q * unitScale)%Q.
Proof. intros H. rewrite (Qabs_pos q H). reflexivity. Qed.

(** The unit roundoff. *)

(** In the normal range [binary64] is finite, with a relative error of at
    most the unit roundoff. *)
Lemma binary64_relative (q : Q) :
  (1 # 2 ^ 1022 <= q)%Q -> (q <= inject_Z (2 ^ 1023))%Q ->
  exists r,
    binary64 q = Finite r
    /\ (q - q * roundoff <= r)%Q /\ (r <= q + q * roundoff)%Q.
Proof.
  intros Hlo Hhi.
  assert (Hq : (0 < q)%Q) by (eapply Qlt_le_trans; [|exact Hlo]; reflexivity).
  pose proof unitScale_pos as HK.
  assert (Ex : (Qabs q * unitScale == q * unitScale)%Q)
    by (apply Qabs_unitScale; lra).
  assert (Hx : (inject_Z (2 ^ 52) <= q * unitScale)%Q).
  { assert (E : (inject_Z (2 ^ 52) == (1 # 2 ^ 1022) * unitScale)%Q)
      by reflexivity.
    rewrite E. apply Qmult_le_compat_r; [exact Hlo|lra]. }
  destruct (roundUnits_relative (q * unitScale) Hx) as [Rlo Rhi].
  fold roundoff in Rlo, Rhi.
  rewrite <- (roundUnits_comp _ _ Ex) in Rlo, Rhi.
  set (units := roundUnits (Qabs q * unitScale)) in *.
  assert (Hxhi : (q * unitScale <= inject_Z (2 ^ 2097))%Q).
  { assert (E : (inject_Z (2 ^ 2097) == inject_Z (2 ^ 1023) * unitScale)%Q)
      by reflexivity.
    rewrite E. apply Qmult_le_compat_r; [exact Hhi|lra]. }
  assert (Hfin : units < 2 ^ 2098).
  { rewrite Zlt_Qlt.
    assert (E : (inject_Z (2 ^ 2098) == inject_Z (2 ^ 2097) * 2)%Q)
      by reflexivity.
    assert (Hu : (roundoff < 1)%Q) by reflexivity.
    assert (Hu0 : (0 <= roundoff)%Q) by discriminate.
    set (x := (q * unitScale)%Q) in *. set (u := roundoff) in *.
    assert (Hxpos : (0 < x)%Q).
    { eapply Qlt_le_trans; [|exact Hx]. reflexivity. }
    rewrite E. set (t := inject_Z (2 ^ 2097)) in *.
    assert (Hstrict : (x * u < x * 1)%Q)
      by (apply Qmult_lt_l; assumption).
    lra. }
  destruct (binary64_cases q) as [_ Hf]. cbv zeta in Hf. fold units in Hf.
  specialize (Hf Hfin). rewrite (sgn_Qnum_pos q Hq), Z.mul_1_l in Hf.
  exists (Qred (units # scaleUnits)). split; [exact Hf|].
  assert (Er : (Qred (units # scaleUnits) == inject_Z units / unitScale)%Q).
  { eapply Qeq_trans; [apply Qred_correct|apply Qmake_scale]. }
  rewrite Er.
  split.
  - apply Qle_shift_div_l; [exact HK|].
    assert (E : ((q - q * roundoff) * unitScale
                 == q * unitScale - q * unitScale * roundoff)%Q) by ring.
    rewrite E. exact Rlo.
  - apply Qle_shift_div_r; [exact HK|].
    assert (E : ((q + q * roundoff) * unitScale
                 == q * unitScale + q * unitScale * roundoff)%Q) by ring.
    rewrite E. exact Rhi.
Qed.

(** An integer of at most 53 bits is a binary64 number. *)
Lemma binary64_Z (z : Z) :
  Z.abs z <= 2 ^ 53 -> binary64 (inject_Z z) = Finite (inject_Z z).
Proof.
  intros Hz.
  assert (Ex : (Qabs (inject_Z z) * unitScale
                == inject_Z (Z.abs z * 2 ^ 1074))%Q).
  { rewrite inject_Z_mult.
    assert (Ea : (Qabs (inject_Z z) == inject_Z (Z.abs z))%Q)
      by (unfold Qabs, inject_Z; simpl; reflexivity).
    rewrite Ea. reflexivity. }
  assert (Eu : roundUnits (Qabs (inject_Z z) * unitScale)
               = Z.abs z * 2 ^ 1074).
  { rewrite (roundUnits_comp _ _ Ex). apply roundUnits_exact; lia. }
  destruct (binary64_cases (inject_Z z)) as [_ Hf]. cbv zeta in Hf.
  rewrite Eu in Hf. rewrite Hf.
  - f_equal. rewrite <- (Qred_inject_Z z) at 2. apply Qred_complete.
    rewrite Qmake_scale. simpl Qnum.
    assert (E : Z.sgn z * (Z.abs z * 2 ^ 1074) = z * 2 ^ 1074).
    { rewrite Z.mul_assoc, (Z.mul_comm (Z.sgn z)), Z.abs_sgn. reflexivity. }
    rewrite E, inject_Z_mult. unfold Qdiv.
    assert (EK : (inject_Z (2 ^ 1074) * / unitScale == 1)%Q) by reflexivity.
    rewrite <- Qmult_assoc, EK. ring.
  - assert (H : 2 ^ 53 * 2 ^ 1074 < 2 ^ 2098) by reflexivity.
    assert (H0 : 0 < 2 ^ 1074) by reflexivity.
    nia.
Qed.

(** A value whose magnitude has at most 53 significant bits and is below
    2^1024 is a binary64 number: [binary64] returns it, reduced. *)
Lemma binary64_exact (q : Q) (m t : Z) :
  0 <= m <= 2 ^ 53 -> 0 <= t -> m * 2 ^ t < 2 ^ 2098 ->
  (Qabs q * unitScale == inject_Z (m * 2 ^ t))%Q ->
  binary64 q = Finite (Qred q).
Proof.
  intros Hm Ht Hlt Ex.
  assert (Eu : roundUnits (Qabs q * unitScale) = m * 2 ^ t).
  { rewrite (roundUnits_comp _ _ Ex). apply roundUnits_exact; assumption. }
  destruct (binary64_cases q) as [_ Hf]. cbv zeta in Hf.
  rewrite Eu in Hf. rewrite (Hf Hlt). f_equal.
  apply Qred_complete. rewrite Qmake_scale, inject_Z_mult, <- Ex.
  pose proof unitScale_pos as HK.
  assert (E1 : (inject_Z (Z.sgn (Qnum q)) * (Qabs q * unitScale) / unitScale
                == inject_Z (Z.sgn (Qnum q)) * Qabs q)%Q) by (field; lra).
  rewrite E1. apply Qabs_sgn.
Qed.

(** The binary64 numbers, as rationals in lowest terms. *)

Lemma roundUnits_zero (x : Q) : (x == 0)%Q -> roundUnits x = 0.
Proof.
  intros E. rewrite (roundUnits_comp x (inject_Z (0 * 2 ^ 0)) E).
  apply roundUnits_exact; lia.
Qed.

Lemma Qabs_nonneg_scaled (q : Q) : (0 <= Qabs q * unitScale)%Q.
Proof.
  apply Qmult_le_0_compat; [apply Qabs_nonneg|].
  apply Qlt_le_weak, unitScale_pos.
Qed.

(** The magnitude of a finite result, in units. *)
Lemma binary64_units (q r : Q) :
  binary64 q = Finite r ->
  exists m t,
    0 <= m <= 2 ^ 53 /\ 0 <= t /\ m * 2 ^ t < 2 ^ 2098
    /\ (Qabs r * unitScale == inject_Z (m * 2 ^ t))%Q
    /\ r = Qred r.
Proof.
  intros H.
  destruct (binary64_value q r H) as [Ev Hlt].
  destruct (roundUnits_spec (Qabs q * unitScale) (Qabs_nonneg_scaled q))
    as (Eu & Hs & Hm & _ & _).
  cbv zeta in Eu, Hs, Hm.
  set (s := quantumShift (Qfloor (Qabs q * unitScale))) in *.
  set (m := roundHalfEven (Qabs q * unitScale / inject_Z (2 ^ s))) in *.
  rewrite Eu in Ev, Hlt.
  pose proof unitScale_pos as HK.
  assert (Hcanon : r = Qred r).
  { destruct (binary64_cases q) as [_ Hf]. cbv zeta in Hf.
    rewrite Eu in Hf. rewrite (Hf Hlt) in H. apply Finite_inj in H.
    rewrite <- H. symmetry. apply Qred_complete, Qred_correct. }
  assert (Hmt : 0 <= m * 2 ^ s)
    by (pose proof (Z.pow_pos_nonneg 2 s); nia).
  destruct (Z.eq_dec (m * 2 ^ s) 0) as [E0|N0].
  - exists 0, 0. split; [lia|]. split; [lia|]. split; [reflexivity|].
    split; [|exact Hcanon].
    rewrite E0 in Ev.
    assert (Er : (r == 0)%Q).
    { rewrite Ev. unfold Qdiv. change (inject_Z 0) with 0%Q. ring. }
    rewrite Er. reflexivity.
  - exists m, s. split; [exact Hm|]. split; [exact Hs|].
    split; [exact Hlt|]. split; [|exact Hcanon].
    assert (Hpos : (0 < inject_Z (m * 2 ^ s))%Q) by (apply inject_Z_pos; lia).
    assert (Hsq : Z.sgn (Qnum q) = 1 \/ Z.sgn (Qnum q) = -1
                  \/ Z.sgn (Qnum q) = 0) by lia.
    destruct Hsq as [E|[E|E]]; rewrite E in Ev.
    + rewrite Ev. change (inject_Z 1) with 1%Q.
      rewrite Qabs_pos; [field; lra|].
      rewrite Qmult_1_l. apply Qle_shift_div_l; [exact HK|lra].
    + rewrite Ev. change (inject_Z (-1)) with (-1)%Q.
      rewrite Qabs_neg; [field; lra|].
      assert (Hd : (0 <= inject_Z (m * 2 ^ s) / unitScale)%Q)
        by (apply Qle_shift_div_l; [exact HK|lra]).
      lra.
    + exfalso. apply N0.
      assert (Eq0 : (Qabs q * unitScale == 0)%Q).
      { assert (Hn : Qnum q = 0) by lia.
        assert (Ez : (Qabs q == 0)%Q).
        { unfold Qabs, Qeq. destruct q as [n d]. simpl in Hn. subst n.
          reflexivity. }
        rewrite Ez. ring. }
      rewrite <- Eu. apply roundUnits_zero. exact Eq0.
Qed.

(** The results of [binary64] are binary64 numbers. *)
Lemma binary64_idempotent (q r : Q) :
  binary64 q = Finite r -> isBinary64 r.
Proof.
  intros H. destruct (binary64_units q r H) as (m & t & Hm & Ht & Hlt & E & Ec).
  unfold isBinary64. rewrite Ec at 2.
  apply (binary64_exact r m t); assumption.
Qed.

Lemma isBinary64_Z (z : Z) : Z.abs z <= 2 ^ 53 -> isBinary64 (inject_Z z).
Proof. apply binary64_Z. Qed.

(** The fractional part of a binary64 number is one, so the subtraction
    [a - Math.floor(a)] is exact. *)
Lemma binary64_fraction (a : Q) :
  isBinary64 a -> (0 <= a)%Q ->
  binary64 (a - inject_Z (Qfloor a)) = Finite (Qred (a - inject_Z (Qfloor a))).
Proof.
  intros Ha Ha0.
  destruct (binary64_units a a Ha) as (m & t & Hm & Ht & Hlt & E & _).
  rewrite Qabs_pos in E by exact Ha0.
  pose proof unitScale_pos as HK.
  set (K := Zpos scaleUnits).
  assert (EK : unitScale = inject_Z K) by reflexivity.
  assert (HKpos : 0 < K) by reflexivity.
  assert (Ea : (a == (m * 2 ^ t) # scaleUnits)%Q).
  { rewrite Qmake_scale, <- E. field. lra. }
  assert (Efloor : Qfloor a = (m * 2 ^ t) / K).
  { rewrite (Qfloor_comp _ _ Ea). reflexivity. }
  set (f := (a - inject_Z (Qfloor a))%Q).
  assert (Ef : (f * unitScale == inject_Z ((m * 2 ^ t) mod K))%Q).
  { unfold f. rewrite Efloor.
    assert (Ediv : (m * 2 ^ t) mod K = m * 2 ^ t - K * ((m * 2 ^ t) / K))
      by (rewrite Z.mod_eq by lia; reflexivity).
    rewrite Ediv, inject_Z_minus, (inject_Z_mult K), <- E, EK. ring. }
  assert (Hf0 : (0 <= f)%Q).
  { unfold f. pose proof (Qfloor_le a). lra. }
  assert (Hrepr : exists m' t', 0 <= m' <= 2 ^ 53 /\ 0 <= t'
                    /\ m' * 2 ^ t' < 2 ^ 2098
                    /\ (m * 2 ^ t) mod K = m' * 2 ^ t').
  { assert (Hbound : (m * 2 ^ t) mod K < 2 ^ 2098).
    { pose proof (Z.mod_pos_bound (m * 2 ^ t) K HKpos) as Hb.
      assert (K < 2 ^ 2098) by reflexivity. lia. }
    destruct (Z.le_gt_cases 1074 t) as [Hge|Hlt'].
    - exists 0, 0. split; [lia|]. split; [lia|]. split; [reflexivity|].
      assert (Ediv : m * 2 ^ t = (m * 2 ^ (t - 1074)) * K).
      { unfold K. change (Zpos scaleUnits) with (2 ^ 1074).
        rewrite <- Z.mul_assoc, <- Z.pow_add_r by lia. do 2 f_equal. lia. }
      rewrite Ediv, Z.mod_mul by lia. reflexivity.
    - exists (m mod 2 ^ (1074 - t)), t.
      assert (Hp : 0 < 2 ^ (1074 - t)) by (apply Z.pow_pos_nonneg; lia).
      assert (Hp2 : 0 < 2 ^ t) by (apply Z.pow_pos_nonneg; lia).
      pose proof (Z.mod_pos_bound m (2 ^ (1074 - t)) Hp) as Hb.
      assert (EKt : K = 2 ^ (1074 - t) * 2 ^ t).
      { unfold K. change (Zpos scaleUnits) with (2 ^ 1074).
        rewrite <- Z.pow_add_r by lia. f_equal. lia. }
      assert (Emod : (m * 2 ^ t) mod K = (m mod 2 ^ (1074 - t)) * 2 ^ t).
      { rewrite EKt. apply Z.mul_mod_distr_r; lia. }
      split; [pose proof (Z.mod_le m (2 ^ (1074 - t))); lia|].
      split; [lia|]. split; [rewrite <- Emod; exact Hbound|exact Emod]. }
  destruct Hrepr as (m' & t' & Hm' & Ht' & Hlt' & Emod).
  apply (binary64_exact f m' t'); try assumption.
  rewrite Qabs_pos by exact Hf0. rewrite Ef, Emod. reflexivity.
Qed.

(** *** Monotonicity of the rounding *)

Lemma roundHalfEven_floor (x : Q) :
  Qfloor x <= roundHalfEven x <= Qfloor x + 1.
Proof.
  unfold roundHalfEven.
  destruct (Qcompare (x - inject_Z (Qfloor x)) (1 # 2));
    [destruct (Z.even (Qfloor x))| |]; lia.
Qed.

Lemma roundHalfEven_mono (x y : Q) :
  (x <= y)%Q -> roundHalfEven x <= roundHalfEven y.
Proof.
  intros H. pose proof (Qfloor_resp_le _ _ H) as Hf.
  destruct (Z.eq_dec (Qfloor x) (Qfloor y)) as [E|E].
  - unfold roundHalfEven. rewrite E.
    destruct (Qcompare (x - inject_Z (Qfloor y)) (1 # 2)) eqn:Ex;
      destruct (Qcompare (y - inject_Z (Qfloor y)) (1 # 2)) eqn:Ey;
      try (destruct (Z.even (Qfloor y))); try lia; exfalso;
      rewrite <- ?Qeq_alt, <- ?Qlt_alt, <- ?Qgt_alt in Ex;
      rewrite <- ?Qeq_alt, <- ?Qlt_alt, <- ?Qgt_alt in Ey; lra.
  - pose proof (roundHalfEven_floor x). pose proof (roundHalfEven_floor y). lia.
Qed.

Lemma quantumShift_mono (a b : Z) :
  0 <= a <= b -> quantumShift a <= quantumShift b.
Proof.
  intros H. unfold quantumShift.
  destruct (a <? 2 ^ 53) eqn:Ea; destruct (b <? 2 ^ 53) eqn:Eb;
    try apply Z.ltb_lt in Ea; try apply Z.ltb_ge in Ea;
    try apply Z.ltb_lt in Eb; try apply Z.ltb_ge in Eb.
  - lia.
  - apply Z.log2_le_mono in Eb. rewrite Z.log2_pow2 in Eb by lia. lia.
  - lia.
  - assert (Hl : Z.log2 a <= Z.log2 b) by (apply Z.log2_le_mono; lia). lia.
Qed.

Lemma roundUnits_mono (x y : Q) :
  (0 <= x)%Q -> (x <= y)%Q -> roundUnits x <= roundUnits y.
Proof.
  intros Hx Hxy.
  assert (Hy : (0 <= y)%Q) by lra.
  pose proof (Qfloor_nonneg x Hx) as Hfx.
  pose proof (Qfloor_resp_le _ _ Hxy) as Hf.
  pose proof (quantumShift_mono (Qfloor x) (Qfloor y) (conj Hfx Hf)) as Hs.
  destruct (roundUnits_spec x Hx) as (Ex & Hsx & Hmx & _).
  destruct (roundUnits_spec y Hy) as (Ey & Hsy & Hmy & _).
  cbv zeta in *.
  set (sx := quantumShift (Qfloor x)) in *.
  set (sy := quantumShift (Qfloor y)) in *.
  destruct (Z.eq_dec sx sy) as [E|E].
  - rewrite Ex, Ey, E. apply Z.mul_le_mono_nonneg_r; [apply Z.pow_nonneg; lia|].
    apply roundHalfEven_mono.
    assert (Hp : (0 < inject_Z (2 ^ sy))%Q)
      by (apply inject_Z_pos; apply Z.pow_pos_nonneg; lia).
    apply Qmult_le_compat_r; [exact Hxy|].
    apply Qlt_le_weak. apply Qinv_lt_0_compat. exact Hp.
  - assert (Hlt : sx < sy) by lia.
    assert (H53 : 2 ^ 53 <= Qfloor y).
    { destruct (Z.lt_ge_cases (Qfloor y) (2 ^ 53)) as [Hc|Hc]; [|exact Hc].
      exfalso. unfold sy, quantumShift in Hlt.
      apply Z.ltb_lt in Hc. rewrite Hc in Hlt. lia. }
    pose proof (quantumShift_lower (Qfloor y) H53) as Hlow. fold sy in Hlow.
    assert (Hp : (0 < inject_Z (2 ^ sy))%Q)
      by (apply inject_Z_pos; apply Z.pow_pos_nonneg; lia).
    assert (Hmy' : 2 ^ 52 <= roundHalfEven (y / inject_Z (2 ^ sy))).
    { apply roundHalfEven_Z_mono.
      apply Qle_shift_div_l; [exact Hp|].
      rewrite <- inject_Z_mult, <- Z.pow_add_r by lia.
      apply Qle_trans with (inject_Z (Qfloor y)); [|apply Qfloor_le].
      rewrite <- Zle_Qle. rewrite Z.add_comm. replace (sy + 52) with (sy + 52) by lia.
      exact Hlow. }
    rewrite Ex, Ey.
    apply Z.le_trans with (2 ^ 53 * 2 ^ sx).
    + apply Z.mul_le_mono_nonneg_r; [apply Z.pow_nonneg; lia|lia].
    + apply Z.le_trans with (2 ^ 52 * 2 ^ sy).
      * rewrite <- !Z.pow_add_r by lia. apply Z.pow_le_mono_r; lia.
      * apply Z.mul_le_mono_nonneg_r; [apply Z.pow_nonneg; lia|exact Hmy'].
Qed.

(** *** Binary64 of a non-negative rational *)

Lemma sgn_Qnum_comp (q q' : Q) :
  (q == q')%Q -> Z.sgn (Qnum q) = Z.sgn (Qnum q').
Proof.
  destruct q as [n d], q' as [n' d']. unfold Qeq. simpl. intros H.
  destruct n, n'; simpl; try reflexivity; try lia.
Qed.

Lemma binary64_comp (q q' : Q) : (q == q')%Q -> binary64 q = binary64 q'.
Proof.
  intros H. unfold binary64.
  assert (Eu : roundUnits (Qabs q * inject_Z (Z.pos scaleUnits))
               = roundUnits (Qabs q' * inject_Z (Z.pos scaleUnits))).
  { apply roundUnits_comp. rewrite H. reflexivity. }
  rewrite Eu, (sgn_Qnum_comp _ _ H).
  assert (El : Qle_bool 0 q = Qle_bool 0 q') by (rewrite H; reflexivity).
  rewrite El. reflexivity.
Qed.

Lemma binary64_nonneg (q r : Q) :
  (0 <= q)%Q -> binary64 q = Finite r ->
  (r == inject_Z (roundUnits (q * unitScale)) / unitScale)%Q
  /\ roundUnits (q * unitScale) < 2 ^ 2098
  /\ (0 <= r)%Q.
Proof.
  intros Hq Hb. destruct (binary64_value q r Hb) as [Hr Hlt].
  rewrite (roundUnits_comp _ _ (Qabs_unitScale q Hq)) in Hr, Hlt.
  pose proof unitScale_pos as HK.
  assert (HU : 0 <= roundUnits (q * unitScale)).
  { destruct (roundUnits_spec (q * unitScale)) as (E & Hs & Hm & _).
    - apply Qmult_le_0_compat; lra.
    - cbv zeta in E. rewrite E. apply Z.mul_nonneg_nonneg; [lia|].
      apply Z.pow_nonneg. lia. }
  assert (HUq : (0 <= inject_Z (roundUnits (q * unitScale)) / unitScale)%Q).
  { apply Qle_shift_div_l; [exact HK|]. rewrite Qmult_0_l.
    apply inject_Z_nonneg. exact HU. }
  destruct (Qlt_le_dec 0 q) as [Hpos|Hz].
  - rewrite (sgn_Qnum_pos q Hpos) in Hr.
    assert (Er : (r == inject_Z (roundUnits (q * unitScale)) / unitScale)%Q).
    { rewrite Hr. change (inject_Z 1) with 1%Q. ring. }
    split; [exact Er|]. split; [exact Hlt|]. rewrite Er. exact HUq.
  - assert (E0 : (q == 0)%Q) by lra.
    assert (EU : roundUnits (q * unitScale) = 0).
    { apply roundUnits_zero. rewrite E0. ring. }
    rewrite EU in *.
    assert (Er : (r == 0)%Q).
    { rewrite Hr. unfold Qdiv. change (inject_Z 0) with 0%Q. ring. }
    split; [|split; [lia|lra]].
    rewrite Er. unfold Qdiv. change (inject_Z 0) with 0%Q. ring.
Qed.

Lemma binary64_finite (q : Q) :
  (0 <= q)%Q -> roundUnits (q * unitScale) < 2 ^ 2098 ->
  exists r, binary64 q = Finite r.
Proof.
  intros Hq Hlt. destruct (binary64_cases q) as [_ Hf]. cbv zeta in Hf.
  rewrite (roundUnits_comp _ _ (Qabs_unitScale q Hq)) in Hf.
  eexists. apply Hf. exact Hlt.
Qed.

Lemma binary64_mono (q1 q2 r2 : Q) :
  (0 <= q1)%Q -> (q1 <= q2)%Q -> binary64 q2 = Finite r2 ->
  exists r1, binary64 q1 = Finite r1 /\ (0 <= r1)%Q /\ (r1 <= r2)%Q.
Proof.
  intros H1 H12 Hb.
  assert (H2 : (0 <= q2)%Q) by lra.
  destruct (binary64_nonneg q2 r2 H2 Hb) as (Er2 & Hlt & _).
  pose proof unitScale_pos as HK.
  assert (Hm : roundUnits (q1 * unitScale) <= roundUnits (q2 * unitScale)).
  { apply roundUnits_mono.
    - apply Qmult_le_0_compat; lra.
    - apply Qmult_le_compat_r; lra. }
  destruct (binary64_finite q1 H1) as [r1 Hb1]; [lia|].
  exists r1. split; [exact Hb1|].
  destruct (binary64_nonneg q1 r1 H1 Hb1) as (Er1 & _ & Hr1).
  split; [exact Hr1|]. rewrite Er1, Er2.
  apply Qmult_le_compat_r.
  - rewrite <- Zle_Qle. exact Hm.
  - apply Qlt_le_weak. apply Qinv_lt_0_compat. exact HK.
Qed.

(** Between two integers of at most 53 bits. *)
Lemma binary64_between (q : Q) (a b : Z) :
  0 <= a -> b <= 2 ^ 53 ->
  (inject_Z a <= q)%Q -> (q <= inject_Z b)%Q ->
  exists r,
    binary64 q = Finite r /\ isBinary64 r
    /\ (inject_Z a <= r)%Q /\ (r <= inject_Z b)%Q.
Proof.
  intros Ha Hb Haq Hqb.
  assert (Hab : a <= b) by (rewrite Zle_Qle; lra).
  assert (H0a : (0 <= inject_Z a)%Q) by (apply inject_Z_nonneg; exact Ha).
  assert (Eb : binary64 (inject_Z b) = Finite (inject_Z b))
    by (apply binary64_Z; lia).
  assert (Ea : binary64 (inject_Z a) = Finite (inject_Z a))
    by (apply binary64_Z; lia).
  destruct (binary64_mono q (inject_Z b) (inject_Z b)) as (r & Hr & Hr0 & Hrb);
    [lra|exact Hqb|exact Eb|].
  exists r. split; [exact Hr|]. split; [eapply binary64_idempotent; exact Hr|].
  split; [|exact Hrb].
  destruct (binary64_mono (inject_Z a) q r H0a Haq Hr) as (r' & Hr' & _ & Hle).
  rewrite Ea in Hr'. apply Finite_inj in Hr'. subst r'. exact Hle.
Qed.

(** *** Rounding errors *)

Lemma roundoff_pos : (0 < roundoff)%Q.
Proof. reflexivity. Qed.

(** A non-negative binary64 number is a whole number of units. *)
Lemma isBinary64_units (a : Q) :
  isBinary64 a -> (0 <= a)%Q ->
  exists n : Z, 0 <= n /\ (a * unitScale == inject_Z n)%Q.
Proof.
  intros Ha H0.
  destruct (binary64_units a a Ha) as (m & t & Hm & Ht & _ & E & _).
  exists (m * 2 ^ t). split.
  - apply Z.mul_nonneg_nonneg; [lia|apply Z.pow_nonneg; lia].
  - rewrite <- E. symmetry. apply Qabs_unitScale. exact H0.
Qed.

(** The sum of two non-negative binary64 numbers has a relative error of
    at most the unit roundoff, whatever its magnitude: below the normal
    range it is exact. *)
Lemma binary64_add_relative (a b : Q) :
  isBinary64 a -> isBinary64 b -> (0 <= a)%Q -> (0 <= b)%Q ->
  (a + b <= inject_Z (2 ^ 1023))%Q ->
  exists r,
    binary64 (a + b) = Finite r /\ isBinary64 r
    /\ ((a + b) - (a + b) * roundoff <= r)%Q
    /\ (r <= (a + b) + (a + b) * roundoff)%Q.
Proof.
  intros Ha Hb Ha0 Hb0 Hhi.
  destruct (Qlt_le_dec (a + b) (1 # 2 ^ 1022)) as [Hsmall|Hnormal].
  - destruct (isBinary64_units a Ha Ha0) as (na & Hna & Ea).
    destruct (isBinary64_units b Hb Hb0) as (nb & Hnb & Eb).
    pose proof unitScale_pos as HK.
    assert (Es : ((a + b) * unitScale == inject_Z (na + nb))%Q).
    { rewrite inject_Z_plus, <- Ea, <- Eb. ring. }
    assert (Hn : na + nb < 2 ^ 52).
    { rewrite Zlt_Qlt, <- Es.
      assert (E : (inject_Z (2 ^ 52) == (1 # 2 ^ 1022) * unitScale)%Q)
        by reflexivity.
      rewrite E. apply Qmult_lt_compat_r; assumption. }
    assert (Hex : binary64 (a + b) = Finite (Qred (a + b))).
    { apply (binary64_exact (a + b) (na + nb) 0).
      - lia.
      - lia.
      - change (2 ^ 0) with 1. rewrite Z.mul_1_r.
        apply Z.lt_trans with (2 ^ 52); [exact Hn|reflexivity].
      - change (2 ^ 0) with 1. rewrite Z.mul_1_r. rewrite <- Es.
        apply Qabs_unitScale. lra. }
    exists (Qred (a + b)). split; [exact Hex|].
    split; [eapply binary64_idempotent; exact Hex|].
    assert (Er : (Qred (a + b) == a + b)%Q) by apply Qred_correct.
    rewrite Er.
    assert (Hu : (0 <= (a + b) * roundoff)%Q).
    { apply Qmult_le_0_compat; [lra|]. apply Qlt_le_weak, roundoff_pos. }
    split; lra.
  - destruct (binary64_relative (a + b) Hnormal Hhi) as (r & Hr & Hlo & Hup).
    exists r. split; [exact Hr|].
    split; [eapply binary64_idempotent; exact Hr|]. split; assumption.
Qed.

(** Half the least quantum. *)
Lemma binary64_error (q : Q) :
  (0 <= q)%Q -> (q <= inject_Z (2 ^ 1023))%Q ->
  exists r,
    binary64 q = Finite r /\ isBinary64 r /\ (0 <= r)%Q
    /\ (q - q * roundoff - (1 # 2 ^ 1075) <= r)%Q
    /\ (r <= q + q * roundoff + (1 # 2 ^ 1075))%Q.
Proof.
  intros H0 Hhi.
  assert (Hu : (0 <= q * roundoff)%Q).
  { apply Qmult_le_0_compat; [lra|]. apply Qlt_le_weak, roundoff_pos. }
  assert (Heta : (0 < 1 # 2 ^ 1075)%Q) by reflexivity.
  destruct (Qlt_le_dec q (1 # 2 ^ 1022)) as [Hsmall|Hnormal].
  - pose proof unitScale_pos as HK.
    set (x := (q * unitScale)%Q).
    assert (Hx0 : (0 <= x)%Q) by (apply Qmult_le_0_compat; lra).
    assert (Hx : (x < inject_Z (2 ^ 52))%Q).
    { assert (E : (inject_Z (2 ^ 52) == (1 # 2 ^ 1022) * unitScale)%Q)
        by reflexivity.
      rewrite E. apply Qmult_lt_compat_r; assumption. }
    assert (Hfl : Qfloor x < 2 ^ 53).
    { assert (Hf : Qfloor x <= 2 ^ 52).
      { rewrite <- (Qfloor_Z (2 ^ 52)). apply Qfloor_resp_le. lra. }
      apply Z.le_lt_trans with (2 ^ 52); [exact Hf|reflexivity]. }
    destruct (roundUnits_spec x Hx0) as (Eu & _ & Hm & Rlo & Rhi).
    cbv zeta in Eu, Hm, Rlo, Rhi.
    assert (Es : quantumShift (Qfloor x) = 0).
    { unfold quantumShift. apply Z.ltb_lt in Hfl. rewrite Hfl. reflexivity. }
    rewrite Es in Eu, Hm, Rlo, Rhi.
    change (2 ^ 0) with 1 in Eu, Hm, Rlo, Rhi.
    change (inject_Z 1) with 1%Q in Rlo, Rhi.
    assert (Hfin : roundUnits x < 2 ^ 2098).
    { rewrite Eu, Z.mul_1_r.
      apply Z.le_lt_trans with (2 ^ 53); [lia|reflexivity]. }
    destruct (binary64_finite q H0 Hfin) as [r Hr].
    destruct (binary64_nonneg q r H0 Hr) as (Er & _ & Hr0).
    fold x in Er.
    exists r. split; [exact Hr|].
    split; [eapply binary64_idempotent; exact Hr|]. split; [exact Hr0|].
    assert (Eeta : ((1 # 2 ^ 1075) == (1 # 2) / unitScale)%Q) by reflexivity.
    assert (Eq : (q == x / unitScale)%Q).
    { unfold x. unfold Qdiv. rewrite <- Qmult_assoc, Qmult_inv_r; [ring|].
      intros Hc. rewrite Hc in HK. discriminate. }
    rewrite Er.
    split.
    + apply Qle_trans with (q - (1 # 2 ^ 1075))%Q; [lra|].
      rewrite Eeta, Eq at 1.
      apply Qle_shift_div_l; [exact HK|].
      assert (E : ((x / unitScale - (1 # 2) / unitScale) * unitScale
                   == x - (1 # 2))%Q) by (field; lra).
      rewrite E. lra.
    + apply Qle_trans with (q + (1 # 2 ^ 1075))%Q; [|lra].
      rewrite Eeta, Eq at 1.
      apply Qle_shift_div_r; [exact HK|].
      assert (E : ((x / unitScale + (1 # 2) / unitScale) * unitScale
                   == x + (1 # 2))%Q) by (field; lra).
      rewrite E. lra.
  - destruct (binary64_relative q Hnormal Hhi) as (r & Hr & Hlo & Hup).
    destruct (binary64_nonneg q r H0 Hr) as (_ & _ & Hr0).
    exists r. split; [exact Hr|].
    split; [eapply binary64_idempotent; exact Hr|]. split; [exact Hr0|].
    split; lra.
Qed.

(** The sign of a difference of binary64 numbers survives the rounding. *)
Lemma binary64_sub_sign (a b : Q) :
  isBinary64 a -> isBinary64 b -> (0 <= a)%Q -> (0 <= b)%Q ->
  (b <= a)%Q -> (a <= 1)%Q ->
  exists r,
    binary64 (a - b) = Finite r /\ ((0 < r)%Q <-> (b < a)%Q)
    /\ ((r == 0)%Q <-> (a == b)%Q).
Proof.
  intros Ha Hb Ha0 Hb0 Hba Ha1.
  destruct (binary64_between (a - b) 0 1) as (r & Hr & _ & Hr0 & Hr1);
    [lia|discriminate| change (inject_Z 0) with 0%Q; lra
    | change (inject_Z 1) with 1%Q; lra|].
  change (inject_Z 0) with 0%Q in Hr0.
  exists r. split; [exact Hr|].
  destruct (isBinary64_units a Ha Ha0) as (na & Hna & Ea).
  destruct (isBinary64_units b Hb Hb0) as (nb & Hnb & Eb).
  pose proof unitScale_pos as HK.
  assert (Hd0 : (0 <= a - b)%Q) by lra.
  destruct (binary64_nonneg (a - b) r Hd0 Hr) as (Er & _ & _).
  assert (Ex : ((a - b) * unitScale == inject_Z (na - nb))%Q).
  { rewrite inject_Z_minus, <- Ea, <- Eb. ring. }
  rewrite (roundUnits_comp _ _ Ex) in Er.
  destruct (Qlt_le_dec b a) as [Hlt|Hge].
  - assert (Hn : 1 <= na - nb).
    { assert (Hp : (0 < inject_Z (na - nb))%Q).
      { rewrite <- Ex. apply Qmult_lt_0_compat; lra. }
      change 0%Q with (inject_Z 0) in Hp. rewrite <- Zlt_Qlt in Hp. lia. }
    assert (HU : 1 <= roundUnits (inject_Z (na - nb))).
    { change 1 with (roundUnits (inject_Z 1)) at 1.
      apply roundUnits_mono; [discriminate|]. rewrite <- Zle_Qle. exact Hn. }
    assert (Hrpos : (0 < r)%Q).
    { rewrite Er. apply Qlt_shift_div_l; [exact HK|]. rewrite Qmult_0_l.
      apply inject_Z_pos. lia. }
    split; split; intros H; try assumption; lra.
  - assert (Eab : (a == b)%Q) by lra.
    assert (Ez : (r == 0)%Q).
    { rewrite Er.
      assert (En : na - nb = 0).
      { assert (E0 : (inject_Z (na - nb) == 0)%Q)
          by (rewrite <- Ex, Eab; ring).
        change 0%Q with (inject_Z 0) in E0. rewrite inject_Z_injective in E0.
        exact E0. }
      rewrite En. unfold Qdiv. change (roundUnits (inject_Z 0)) with 0.
      change (inject_Z 0) with 0%Q. ring. }
    split; split; intros H; try assumption; lra.
Qed.

(** ** The normalizer in binary64: integers are exact *)

Lemma Number_ofZ_add (x y : Z) :
  Z.abs (x + y) <= 2 ^ 53 ->
  Number_add (Number_ofZ x) (Number_ofZ y) = Number_ofZ (x + y).
Proof.
  intros H. unfold Number_ofZ, Number_add.
  rewrite (binary64_comp _ (inject_Z (x + y)))
    by (rewrite inject_Z_plus; reflexivity).
  apply binary64_Z. exact H.
Qed.

Lemma Number_ofZ_sub (x y : Z) :
  Z.abs (x - y) <= 2 ^ 53 ->
  Number_sub (Number_ofZ x) (Number_ofZ y) = Number_ofZ (x - y).
Proof.
  intros H. unfold Number_ofZ, Number_sub, Number_neg, Number_add.
  rewrite (binary64_comp _ (inject_Z (x - y)))
    by (rewrite inject_Z_minus; reflexivity).
  apply binary64_Z. exact H.
Qed.

Lemma Number_lt_ofZ (x y : Z) :
  Number_lt (Number_ofZ x) (Number_ofZ y) = (x <? y).
Proof.
  unfold Number_lt, Number_ofZ, Qltb.
  destruct (x <? y) eqn:E.
  - apply Z.ltb_lt in E. apply negb_true_iff.
    destruct (Qle_bool (inject_Z y) (inject_Z x)) eqn:E'; [|reflexivity].
    apply Qle_bool_iff in E'. rewrite <- Zle_Qle in E'. lia.
  - apply Z.ltb_ge in E. apply negb_false_iff. apply Qle_bool_iff.
    rewrite <- Zle_Qle. exact E.
Qed.

Lemma Number_le_zero (a : Q) :
  (0 <= a)%Q -> Number_le (Finite a) (Finite 0) = Qeq_bool a 0.
Proof.
  intros H. unfold Number_le, Number_lt, Number_eq, Qltb.
  assert (E : Qle_bool 0 a = true) by (apply Qle_bool_iff; exact H).
  rewrite E. reflexivity.
Qed.

Lemma Zsum_nonneg (l : list Z) :
  Forall (fun v => 0 <= v) l -> 0 <= Zsum l.
Proof.
  induction 1 as [|v l Hv _ IH]; [reflexivity|]. rewrite Zsum_cons. lia.
Qed.

Lemma Zsum_bounds (l : list Z) :
  Forall (fun v => 0 <= v) l -> Forall (fun v => 0 <= v <= Zsum l) l.
Proof.
  induction 1 as [|v l Hv Hl IH]; constructor.
  - rewrite Zsum_cons. pose proof (Zsum_nonneg l Hl). lia.
  - eapply Forall_impl; [|exact IH]. intros w Hw. rewrite Zsum_cons.
    pose proof (Zsum_nonneg l Hl). cbv beta in Hw. lia.
Qed.

Lemma floors_nonneg (al : list Q) :
  Forall (fun a => isBinary64 a /\ (0 <= a)%Q) al ->
  Forall (fun v => 0 <= v) (map Qfloor al).
Proof.
  intros H. apply Forall_map. eapply Forall_impl; [|exact H].
  intros a [_ Ha]. apply Qfloor_nonneg. exact Ha.
Qed.

Lemma floorsOf_exact (al : list Q) :
  Forall (fun a => isBinary64 a /\ (0 <= a)%Q) al ->
  Binary64.floorsOf (map Finite al) = map Number_ofZ (map Qfloor al).
Proof.
  unfold Binary64.floorsOf. induction 1 as [|a al [_ Ha] _ IH];
    [reflexivity|].
  simpl. rewrite IH. f_equal. rewrite (Number_le_zero a Ha).
  destruct (Qeq_bool a 0) eqn:E; [|reflexivity].
  apply Qeq_bool_iff in E. rewrite (Qfloor_comp _ _ E). reflexivity.
Qed.

Lemma totalFloorsOf_exact (al : list Q) :
  Forall (fun a => isBinary64 a /\ (0 <= a)%Q) al ->
  forall acc : Z,
    0 <= acc -> acc + Zsum (map Qfloor al) <= 2 ^ 53 ->
    fold_left
      (fun t a =>
         if Number_le a (Finite 0) then t
         else Number_add t (Number_floor a))
      (map Finite al) (Number_ofZ acc)
    = Number_ofZ (acc + Zsum (map Qfloor al)).
Proof.
  induction 1 as [|a al [Hb Ha] Hal IH]; intros acc Hacc Hsum.
  - simpl. f_equal. unfold Zsum. simpl. lia.
  - cbn [map] in *. rewrite Zsum_cons in Hsum. cbn [fold_left].
    pose proof (Qfloor_nonneg a Ha) as Hf.
    pose proof (Zsum_nonneg _ (floors_nonneg al Hal)) as Hrest.
    rewrite (Number_le_zero a Ha).
    assert (Estep : (if Qeq_bool a 0 then Number_ofZ acc
                     else Number_add (Number_ofZ acc) (Number_floor (Finite a)))
                    = Number_ofZ (acc + Qfloor a)).
    { destruct (Qeq_bool a 0) eqn:E.
      - apply Qeq_bool_iff in E. rewrite (Qfloor_comp _ _ E).
        change (Qfloor 0) with 0. rewrite Z.add_0_r. reflexivity.
      - apply Number_ofZ_add. lia. }
    rewrite Estep, IH by lia. rewrite Zsum_cons. f_equal. lia.
Qed.

Lemma Qltb_comp (a b c d : Q) :
  (a == c)%Q -> (b == d)%Q -> Qltb a b = Qltb c d.
Proof. intros H1 H2. unfold Qltb. rewrite H1, H2. reflexivity. Qed.

Lemma fractionsFrom_exact (al : list Q) :
  Forall (fun a => isBinary64 a /\ (0 <= a)%Q) al ->
  forall i : nat,
    Binary64.fractionsFrom i (map Finite al)
    = map reduceFraction (fractionsFrom i al).
Proof.
  induction 1 as [|a al [Hb Ha] _ IH]; intros i; [reflexivity|].
  cbn [map Binary64.fractionsFrom fractionsFrom].
  rewrite (Number_le_zero a Ha).
  assert (Esub : Number_sub (Finite a) (Number_floor (Finite a))
                 = Finite (Qred (a - inject_Z (Qfloor a)))).
  { unfold Number_sub, Number_floor, Number_neg, Number_add, Math_floor.
    apply (binary64_fraction a Hb Ha). }
  unfold Math_floor in *.
  destruct (Qeq_bool a 0) eqn:E.
  - apply Qeq_bool_iff in E.
    assert (E0 : Qltb 0 (a - inject_Z (Qfloor a)) = false).
    { rewrite (Qltb_comp _ _ 0 0); [reflexivity|reflexivity|].
      rewrite (Qfloor_comp _ _ E), E. reflexivity. }
    rewrite E0. apply IH.
  - rewrite Esub.
    rewrite (Qltb_comp 0 (Qred (a - inject_Z (Qfloor a))) 0
               (a - inject_Z (Qfloor a)))
      by (try reflexivity; apply Qred_correct).
    destruct (Qltb 0 (a - inject_Z (Qfloor a))); simpl; rewrite IH;
      reflexivity.
Qed.

Lemma updateAt_map {A B : Type} (h : A -> B) (f : A -> A) (g : B -> B) :
  forall (l : list A) (i : nat),
    Forall (fun v => h (f v) = g (h v)) l ->
    map h (updateAt f i l) = updateAt g i (map h l).
Proof.
  induction l as [|v l IH]; intros i Hl; [destruct i; reflexivity|].
  inversion Hl as [|? ? Hv Hrest]; subst.
  destruct i; simpl; [rewrite Hv; reflexivity|].
  rewrite IH by exact Hrest. reflexivity.
Qed.

Lemma updateAt_Forall {A : Type} (P Q' : A -> Prop) (f : A -> A) :
  (forall v, P v -> Q' v) -> (forall v, P v -> Q' (f v)) ->
  forall (l : list A) (i : nat), Forall P l -> Forall Q' (updateAt f i l).
Proof.
  intros H1 H2. induction l as [|v l IH]; intros i Hl;
    [destruct i; constructor|].
  inversion Hl; subst. destruct i; simpl; constructor; auto.
  eapply Forall_impl; [|eassumption]. exact H1.
Qed.

Lemma fold_incrementFloor_exact (fs : list Fraction) :
  forall (fl : list Z) (bound : Z),
    Forall (fun v => 0 <= v <= bound) fl ->
    bound + Z.of_nat (length fs) <= 2 ^ 53 ->
    fold_left Binary64.incrementFloor fs (map Number_ofZ fl)
    = map Number_ofZ (fold_left incrementFloor fs fl).
Proof.
  induction fs as [|f fs IH]; intros fl bound Hfl Hb; [reflexivity|].
  simpl fold_left. simpl length in Hb.
  assert (Estep : Binary64.incrementFloor (map Number_ofZ fl) f
                  = map Number_ofZ (incrementFloor fl f)).
  { unfold Binary64.incrementFloor, incrementFloor. symmetry.
    apply updateAt_map. eapply Forall_impl; [|exact Hfl].
    intros v Hv. cbv beta in *. symmetry.
    apply (Number_ofZ_add v 1). lia. }
  rewrite Estep. apply (IH _ (bound + 1)); [|lia].
  unfold incrementFloor.
  apply updateAt_Forall with (P := fun v => 0 <= v <= bound);
    [intros; lia|intros; lia|exact Hfl].
Qed.

Lemma collectBatches_exact (specs : list Binary64.TileSpec) :
  forall (fl : list Z) (acc : Z),
    length fl = length specs ->
    Forall (fun v => 0 <= v) fl ->
    0 <= acc -> acc + Zsum fl <= 2 ^ 53 ->
    fold_left Number_add
      (map Binary64.batch_count
         (Binary64.collectBatches specs (map Number_ofZ fl)))
      (Number_ofZ acc)
    = Number_ofZ (acc + Zsum fl)
    /\ Forall
         (fun b => exists z : Z,
                     Binary64.batch_count b = Number_ofZ z /\ 1 <= z)
         (Binary64.collectBatches specs (map Number_ofZ fl)).
Proof.
  induction specs as [|s specs IH]; intros fl acc Hlen Hfl Hacc Hsum.
  - destruct fl; [|discriminate Hlen]. simpl. split; [|constructor].
    f_equal. unfold Zsum. simpl. lia.
  - destruct fl as [|v fl]; [discriminate Hlen|].
    inversion Hfl as [|? ? Hv Hrest]; subst.
    rewrite Zsum_cons in Hsum. pose proof (Zsum_nonneg fl Hrest) as Hr.
    cbn [map Binary64.collectBatches].
    change (Number_ofZ v) with (Finite (inject_Z v)).
    rewrite (Number_le_zero (inject_Z v)) by (apply inject_Z_nonneg; exact Hv).
    destruct (Qeq_bool (inject_Z v) 0) eqn:E.
    + apply Qeq_bool_iff in E. change 0%Q with (inject_Z 0) in E.
      rewrite inject_Z_injective in E. subst v.
      rewrite Zsum_cons.
      destruct (IH fl acc) as [Ht Hp]; try assumption; try lia.
      { simpl in Hlen. lia. }
      split; [|exact Hp]. rewrite Ht. f_equal.
    + assert (Hv1 : 1 <= v).
      { destruct (Z.eq_dec v 0) as [->|]; [|lia].
        discriminate E. }
      cbn [map fold_left Binary64.batch_count].
      change (Finite (inject_Z v)) with (Number_ofZ v).
      rewrite Number_ofZ_add by lia.
      destruct (IH fl (acc + v)) as [Ht Hp]; try assumption; try lia.
      { simpl in Hlen. lia. }
      split.
      * rewrite Ht, Zsum_cons. f_equal. lia.
      * constructor; [|exact Hp]. exists v. split; [reflexivity|exact Hv1].
Qed.

(** ** The normalizer in binary64: the rounding errors *)

Lemma roundoff_scale (z : Z) :
  z <= 2 ^ 53 -> (inject_Z z * roundoff <= 1)%Q.
Proof.
  intros H.
  assert (E : (1 == inject_Z (2 ^ 53) * roundoff)%Q) by reflexivity.
  rewrite E. apply Qmult_le_compat_r; [|apply Qlt_le_weak, roundoff_pos].
  rewrite <- Zle_Qle. exact H.
Qed.

Lemma Qsum_nonneg (l : list Q) :
  Forall (fun q => isBinary64 q /\ (0 <= q)%Q) l -> (0 <= Qsum l)%Q.
Proof.
  induction 1 as [|q l [_ Hq] _ IH]; [apply Qle_refl|].
  rewrite Qsum_cons. lra.
Qed.

(** The running sum of non-negative binary64 numbers: after [m] additions
    it is within [m] roundoffs below and [2 m] roundoffs above the exact
    sum. *)
Lemma sum_relative (ql : list Q) :
  Forall (fun q => isBinary64 q /\ (0 <= q)%Q) ql ->
  forall (s0 S0 : Q) (j : Z),
    isBinary64 s0 -> (0 <= S0)%Q -> 0 <= j ->
    (S0 - inject_Z j * roundoff * S0 <= s0)%Q ->
    (s0 <= S0 + 2 * inject_Z j * roundoff * S0)%Q ->
    2 * (j + Z.of_nat (length ql)) <= 2 ^ 53 ->
    (S0 + Qsum ql <= inject_Z (2 ^ 1022))%Q ->
    exists s : Q,
      fold_left Number_add (map Finite ql) (Finite s0) = Finite s
      /\ isBinary64 s
      /\ (S0 + Qsum ql
          - inject_Z (j + Z.of_nat (length ql)) * roundoff * (S0 + Qsum ql)
          <= s)%Q
      /\ (s <= S0 + Qsum ql
               + 2 * inject_Z (j + Z.of_nat (length ql)) * roundoff
                 * (S0 + Qsum ql))%Q.
Proof.
  induction 1 as [|q ql [Hqb Hq] Hql IH];
    intros s0 S0 j Hs0 HS0 Hj Hlo Hhi Hn Hmax.
  - exists s0. split; [reflexivity|]. split; [exact Hs0|].
    cbn [length Z.of_nat]. rewrite Z.add_0_r.
    assert (E : (Qsum [] == 0)%Q) by reflexivity.
    rewrite E. split.
    + eapply Qle_trans; [|exact Hlo]. ring_simplify. apply Qle_refl.
    + eapply Qle_trans; [exact Hhi|]. ring_simplify. apply Qle_refl.
  - cbn [length] in Hn. rewrite Nat2Z.inj_succ in Hn.
    pose proof (Qsum_nonneg ql Hql) as Hrest.
    rewrite Qsum_cons in Hmax.
    pose proof roundoff_pos as Hu.
    set (u := roundoff) in *.
    set (J := inject_Z j) in *.
    assert (He0 : (0 <= (J * u))%Q).
    { apply Qmult_le_0_compat; [apply inject_Z_nonneg; exact Hj|lra]. }
    assert (He : (2 * (J * u) <= 1)%Q).
    { assert (H2 : (inject_Z (2 * j) * u <= 1)%Q)
        by (apply roundoff_scale; lia).
      rewrite inject_Z_mult in H2. change (inject_Z 2) with 2%Q in H2.
      fold J in H2. lra. }
    assert (Hu1 : (u <= 1)%Q) by (unfold u; discriminate).
    assert (HeS : (0 <= (J * u) * S0)%Q) by (apply Qmult_le_0_compat; assumption).
    assert (HeS1 : ((J * u) * S0 <= (1 # 2) * S0)%Q).
    { apply Qmult_le_compat_r; [lra|exact HS0]. }
    assert (Hs0pos : (0 <= s0)%Q) by lra.
    assert (Hs0up : (s0 <= 2 * S0)%Q) by lra.
    assert (Hsum : (s0 + q <= inject_Z (2 ^ 1023))%Q).
    { assert (E : (inject_Z (2 ^ 1023) == 2 * inject_Z (2 ^ 1022))%Q)
        by reflexivity.
      rewrite E. lra. }
    destruct (binary64_add_relative s0 q Hs0 Hqb Hs0pos Hq Hsum)
      as (s1 & Es1 & Hs1 & Hlo1 & Hhi1).
    fold u in Hlo1, Hhi1.
    cbn [map fold_left]. unfold Number_add at 2. rewrite Es1.
    assert (Hlo' : (S0 + q - inject_Z (j + 1) * u * (S0 + q) <= s1)%Q).
    { rewrite inject_Z_plus. change (inject_Z 1) with 1%Q.
      fold J.
      assert (P1 : (0 <= (J * u) * u * S0)%Q)
        by (apply Qmult_le_0_compat; [apply Qmult_le_0_compat|]; lra).
      assert (P2 : (0 <= (J * u) * q)%Q) by (apply Qmult_le_0_compat; lra).
      assert (P3 : (0 <= (s0 - (S0 - (J * u) * S0)) * (1 - u))%Q)
        by (apply Qmult_le_0_compat; lra).
      lra. }
    assert (Hhi' : (s1 <= S0 + q + 2 * inject_Z (j + 1) * u * (S0 + q))%Q).
    { rewrite inject_Z_plus. change (inject_Z 1) with 1%Q.
      fold J.
      assert (P1 : (0 <= (1 - 2 * (J * u)) * (u * S0))%Q)
        by (apply Qmult_le_0_compat; [|apply Qmult_le_0_compat]; lra).
      assert (P2 : (0 <= (J * u) * q)%Q) by (apply Qmult_le_0_compat; lra).
      assert (P4 : (0 <= u * q)%Q) by (apply Qmult_le_0_compat; lra).
      assert (P3 : (0 <= ((S0 + 2 * (J * u) * S0) - s0) * (1 + u))%Q)
        by (apply Qmult_le_0_compat; lra).
      lra. }
    destruct (IH s1 (S0 + q)%Q (j + 1)) as (s & Es & Hs & Hlo2 & Hhi2);
      try assumption; try lia; try lra.
    exists s. split; [exact Es|]. split; [exact Hs|].
    cbn [length]. rewrite Nat2Z.inj_succ.
    replace (j + Z.succ (Z.of_nat (length ql)))
      with (j + 1 + Z.of_nat (length ql)) by lia.
    rewrite Qsum_cons.
    assert (E : (S0 + (q + Qsum ql) == S0 + q + Qsum ql)%Q) by ring.
    rewrite !E. split; assumption.
Qed.

(** The running sum of non-negative binary64 numbers between the sums of
    their integer parts, rounded down and rounded up. *)
Lemma sum_between (ql : list Q) :
  Forall (fun q => isBinary64 q /\ (0 <= q)%Q) ql ->
  forall (i : nat) (s0 : Q) (a b : Z),
    0 <= a -> (inject_Z a <= s0)%Q -> (s0 <= inject_Z b)%Q ->
    b + Zsum (map Qfloor ql) + Z.of_nat (length (fractionsFrom i ql))
    <= 2 ^ 53 ->
    exists s : Q,
      fold_left Number_add (map Finite ql) (Finite s0) = Finite s
      /\ (inject_Z (a + Zsum (map Qfloor ql)) <= s)%Q
      /\ (s <= inject_Z (b + Zsum (map Qfloor ql)
                         + Z.of_nat (length (fractionsFrom i ql))))%Q.
Proof.
  induction 1 as [|q ql [Hqb Hq] Hql IH]; intros i s0 a b Ha Hlo Hhi Hmax.
  - exists s0. split; [reflexivity|]. cbn [map fractionsFrom length Z.of_nat].
    change (Zsum []) with 0. rewrite !Z.add_0_r. split; assumption.
  - cbn [map fractionsFrom] in *. unfold Math_floor in *.
    rewrite Zsum_cons in *.
    pose proof (Qfloor_nonneg q Hq) as Hf.
    pose proof (Zsum_nonneg _ (floors_nonneg ql Hql)) as Hrest.
    set (d := if Qltb 0 (q - inject_Z (Qfloor q)) then 1 else 0).
    assert (Hlen : Z.of_nat
                     (length
                        (if Qltb 0 (q - inject_Z (Qfloor q))
                         then mkFraction i (q - inject_Z (Qfloor q))
                                :: fractionsFrom (S i) ql
                         else fractionsFrom (S i) ql))
                   = d + Z.of_nat (length (fractionsFrom (S i) ql))).
    { unfold d. destruct (Qltb 0 (q - inject_Z (Qfloor q)));
        cbn [length]; lia. }
    rewrite Hlen in *.
    assert (Hd : 0 <= d <= 1) by (unfold d; destruct (Qltb _ _); lia).
    assert (Hqd : (q <= inject_Z (Qfloor q + d))%Q).
    { unfold d. destruct (Qltb 0 (q - inject_Z (Qfloor q))) eqn:E.
      - apply Qlt_le_weak. apply Qlt_floor.
      - apply Qltb_ge in E. rewrite Z.add_0_r. lra. }
    pose proof (Qfloor_le q) as Hfq.
    destruct (binary64_between (s0 + q) (a + Qfloor q) (b + Qfloor q + d))
      as (s1 & Es1 & _ & Hlo1 & Hhi1).
    + lia.
    + lia.
    + rewrite inject_Z_plus. lra.
    + rewrite !inject_Z_plus in *. lra.
    + cbn [fold_left]. unfold Number_add at 2. rewrite Es1.
      destruct (IH (S i) s1 (a + Qfloor q) (b + Qfloor q + d))
        as (s & Es & Hlo2 & Hhi2); try assumption; try lia.
      exists s. split; [exact Es|].
      replace (a + (Qfloor q + Zsum (map Qfloor ql)))
        with (a + Qfloor q + Zsum (map Qfloor ql)) by lia.
      replace (b + (Qfloor q + Zsum (map Qfloor ql))
               + (d + Z.of_nat (length (fractionsFrom (S i) ql))))
        with (b + Qfloor q + d + Zsum (map Qfloor ql)
              + Z.of_nat (length (fractionsFrom (S i) ql))) by lia.
      split; assumption.
Qed.

(** The arithmetic of the scaling: with the sum [s] of the counts within
    its error of the exact [S], the scale [r] within a roundoff of
    [K / s], and the scaled counts summing to [A] within their errors,
    [A] is less than one unit away from the cap [K]. *)
Lemma scaling_bounds (K N u eta S s r A : Q) :
  (1 <= K)%Q -> (0 <= N)%Q -> (0 < u)%Q -> (u <= 1)%Q -> (0 <= eta)%Q ->
  (N * eta <= u)%Q ->
  (2 * (N + 2) * (K + 1) * u <= 1)%Q ->
  (0 <= S)%Q -> (0 <= r)%Q ->
  (S - N * u * S <= s)%Q -> (s <= S + 2 * N * u * S)%Q ->
  (K - K * u <= r * s)%Q -> (r * s <= K + K * u)%Q ->
  (S * r - S * r * u - N * eta <= A)%Q ->
  (A <= S * r + S * r * u + N * eta)%Q ->
  (K - 1 < A)%Q /\ (A < K + 1)%Q.
Proof.
  intros HK HN Hu Hu1 Heta HNeta HD HS Hr Hslo Hshi Hrlo Hrhi HAlo HAhi.
  assert (HKu : (0 <= K * u)%Q) by (apply Qmult_le_0_compat; lra).
  assert (HNu : (0 <= N * u)%Q) by (apply Qmult_le_0_compat; lra).
  assert (HNKu : (0 <= N * (K * u))%Q) by (apply Qmult_le_0_compat; lra).
  assert (HD' : (2 * (N * (K * u)) + 2 * (N * u) + 4 * (K * u) + 4 * u <= 1)%Q).
  { eapply Qle_trans; [|exact HD]. ring_simplify. apply Qle_refl. }
  assert (HKuu : (0 <= K * u * (1 - u))%Q)
    by (apply Qmult_le_0_compat; lra).
  assert (HKuu0 : (0 <= K * u * u)%Q)
    by (apply Qmult_le_0_compat; lra).
  assert (HSr : (0 <= S * r)%Q) by (apply Qmult_le_0_compat; lra).
  assert (H1Nu : (0 < 1 - N * u)%Q) by lra.
  split.
  - (* below *)
    assert (HP : (0 < 1 + 2 * (N * u))%Q) by lra.
    apply (Qmult_lt_r _ _ _ HP).
    assert (F1 : (0 <= (A - (S * r - S * r * u - N * eta))
                      * (1 + 2 * (N * u)))%Q)
      by (apply Qmult_le_0_compat; lra).
    assert (F2 : (0 <= ((S + 2 * N * u * S) - s) * (r * (1 - u)))%Q).
    { apply Qmult_le_0_compat; [lra|]. apply Qmult_le_0_compat; lra. }
    assert (F3 : (0 <= (r * s - (K - K * u)) * (1 - u))%Q)
      by (apply Qmult_le_0_compat; lra).
    assert (F4 : (0 <= N * eta * (N * u))%Q)
      by (apply Qmult_le_0_compat; [apply Qmult_le_0_compat|]; lra).
    assert (F5 : (0 <= N * eta * (1 - N * u))%Q)
      by (apply Qmult_le_0_compat; [apply Qmult_le_0_compat|]; lra).
    lra.
  - (* above *)
    apply (Qmult_lt_r _ _ _ H1Nu).
    assert (F1 : (0 <= ((S * r + S * r * u + N * eta) - A)
                      * (1 - N * u))%Q)
      by (apply Qmult_le_0_compat; lra).
    assert (F2 : (0 <= (s - (S - N * u * S)) * (r * (1 + u)))%Q).
    { apply Qmult_le_0_compat; [lra|]. apply Qmult_le_0_compat; lra. }
    assert (F3 : (0 <= ((K + K * u) - r * s) * (1 + u))%Q)
      by (apply Qmult_le_0_compat; lra).
    assert (F4 : (0 <= N * eta * (N * u))%Q)
      by (apply Qmult_le_0_compat; [apply Qmult_le_0_compat|]; lra).
    lra.
Qed.

(** ** The normalizer in binary64: counts, scale and target *)

Lemma counts_exact (specs : list Binary64.TileSpec) :
  Binary64.positiveCounts specs ->
  map Binary64.spec_count specs = map Finite (Binary64.exactCounts specs)
  /\ Forall (fun q => isBinary64 q /\ (0 < q)%Q) (Binary64.exactCounts specs).
Proof.
  unfold Binary64.exactCounts.
  induction 1 as [|s specs (q & Eq & Hb & Hq) _ [IH1 IH2]];
    [split; [reflexivity|constructor]|].
  cbn [map]. rewrite IH1, Eq. split; [reflexivity|].
  constructor; [split; assumption|exact IH2].
Qed.

Lemma Forall_positive_nonneg (ql : list Q) :
  Forall (fun q => isBinary64 q /\ (0 < q)%Q) ql ->
  Forall (fun q => isBinary64 q /\ (0 <= q)%Q) ql.
Proof.
  intros H. eapply Forall_impl; [|exact H]. intros q [Hb Hq].
  split; [exact Hb|lra].
Qed.

Lemma isBinary64_reduced (q : Q) : isBinary64 q -> q = Qred q.
Proof.
  intros H. destruct (binary64_units q q H) as (_ & _ & _ & _ & _ & _ & E).
  exact E.
Qed.

Lemma isBinary64_eq (a b : Q) :
  isBinary64 a -> isBinary64 b -> (a == b)%Q -> a = b.
Proof.
  intros Ha Hb E. rewrite (isBinary64_reduced a Ha), (isBinary64_reduced b Hb).
  apply Qred_complete. exact E.
Qed.

(** With a scale of 1 the adjusted counts are the counts. *)
Lemma adjustedCounts_one (specs : list Binary64.TileSpec) :
  Binary64.positiveCounts specs ->
  Binary64.adjustedCounts specs (Finite 1)
  = map Finite (Binary64.exactCounts specs).
Proof.
  unfold Binary64.adjustedCounts, Binary64.exactCounts.
  induction 1 as [|s specs (q & Eq & Hb & Hq) _ IH]; [reflexivity|].
  cbn [map]. rewrite IH, Eq. f_equal.
  unfold Number_mul, Number_value.
  rewrite (binary64_comp _ q) by ring. exact Hb.
Qed.

(** Positive totals are kept as they are. *)
Lemma scaledTotals_positive64 (ql : list Q) :
  Forall (fun q => isBinary64 q /\ (0 < q)%Q) ql ->
  Binary64.scaledTotals (map Finite ql) = map Finite ql.
Proof.
  unfold Binary64.scaledTotals.
  induction 1 as [|q ql [_ Hq] _ IH]; [reflexivity|].
  cbn [map]. rewrite IH. f_equal.
  rewrite Number_le_zero by lra.
  destruct (Qeq_bool q 0) eqn:E; [|reflexivity].
  apply Qeq_bool_iff in E. lra.
Qed.

Lemma sumCounts_exact (specs : list Binary64.TileSpec) :
  Binary64.positiveCounts specs ->
  Binary64.sumCounts specs
  = fold_left Number_add (map Finite (Binary64.exactCounts specs)) (Finite 0).
Proof.
  intros H. unfold Binary64.sumCounts.
  destruct (counts_exact specs H) as [E _]. rewrite E. reflexivity.
Qed.

Lemma exactCounts_length (specs : list Binary64.TileSpec) :
  length (Binary64.exactCounts specs) = length specs.
Proof. unfold Binary64.exactCounts. apply length_map. Qed.

(** The sum of the counts, as the program computes it. *)
Lemma sumCounts_relative (specs : list Binary64.TileSpec) :
  Binary64.positiveCounts specs ->
  2 * Z.of_nat (length specs) <= 2 ^ 53 ->
  (Qsum (Binary64.exactCounts specs) <= inject_Z (2 ^ 1022))%Q ->
  exists s : Q,
    Binary64.sumCounts specs = Finite s /\ isBinary64 s
    /\ (Qsum (Binary64.exactCounts specs)
        - inject_Z (Z.of_nat (length specs)) * roundoff
          * Qsum (Binary64.exactCounts specs) <= s)%Q
    /\ (s <= Qsum (Binary64.exactCounts specs)
             + 2 * inject_Z (Z.of_nat (length specs)) * roundoff
               * Qsum (Binary64.exactCounts specs))%Q.
Proof.
  intros Hpos Hn Hmax.
  destruct (counts_exact specs Hpos) as [_ Hq].
  apply Forall_positive_nonneg in Hq.
  destruct (sum_relative _ Hq 0%Q 0%Q 0) as (s & Es & Hs & Hlo & Hhi).
  - apply (isBinary64_Z 0). discriminate.
  - apply Qle_refl.
  - lia.
  - change (inject_Z 0) with 0%Q. ring_simplify. apply Qle_refl.
  - change (inject_Z 0) with 0%Q. ring_simplify. apply Qle_refl.
  - rewrite exactCounts_length. lia.
  - rewrite Qplus_0_l. exact Hmax.
  - exists s. rewrite sumCounts_exact by exact Hpos.
    split; [exact Es|]. split; [exact Hs|].
    rewrite exactCounts_length, Z.add_0_l in Hlo, Hhi.
    rewrite !Qplus_0_l in Hlo, Hhi. split; assumption.
Qed.

(** The scaled counts, each within its rounding error. *)
Lemma adjustedCounts_scaled (r : Q) (specs : list Binary64.TileSpec) :
  isBinary64 r -> (0 <= r)%Q -> (r <= 1)%Q ->
  Binary64.positiveCounts specs ->
  (Qsum (Binary64.exactCounts specs) <= inject_Z (2 ^ 1023))%Q ->
  exists al : list Q,
    Binary64.adjustedCounts specs (Finite r) = map Finite al
    /\ Forall (fun a => isBinary64 a /\ (0 <= a)%Q) al
    /\ length al = length specs
    /\ (Qsum (Binary64.exactCounts specs) * r
        - Qsum (Binary64.exactCounts specs) * r * roundoff
        - inject_Z (Z.of_nat (length specs)) * (1 # 2 ^ 1075)
        <= Qsum al)%Q
    /\ (Qsum al
        <= Qsum (Binary64.exactCounts specs) * r
           + Qsum (Binary64.exactCounts specs) * r * roundoff
           + inject_Z (Z.of_nat (length specs)) * (1 # 2 ^ 1075))%Q.
Proof.
  intros Hr Hr0 Hr1. unfold Binary64.adjustedCounts, Binary64.exactCounts.
  induction 1 as [|s specs (q & Eq & Hb & Hq) Hrest IH]; intros Hmax.
  - exists []. split; [reflexivity|]. split; [constructor|].
    split; [reflexivity|]. cbn [map length Z.of_nat].
    change (Qsum []) with 0%Q. change (inject_Z 0) with 0%Q.
    split; ring_simplify; apply Qle_refl.
  - cbn [map] in *. rewrite Eq in *. cbn [Number_value] in *.
    rewrite Qsum_cons in Hmax.
    assert (Hsum0 : (0 <= Qsum (map (fun s0 => Number_value
                                       (Binary64.spec_count s0)) specs))%Q).
    { apply Qsum_nonneg. apply Forall_positive_nonneg.
      apply (counts_exact specs Hrest). }
    destruct IH as (al & Eal & Hal & Hlen & Hlo & Hhi); [lra|].
    assert (Hqr0 : (0 <= q * r)%Q) by (apply Qmult_le_0_compat; lra).
    assert (Hqr1 : (q * r <= inject_Z (2 ^ 1023))%Q).
    { apply Qle_trans with (q * 1)%Q; [|lra].
      apply Qmult_le_l; [exact Hq|exact Hr1]. }
    destruct (binary64_error (q * r) Hqr0 Hqr1)
      as (a & Ea & Ha & Ha0 & Halo & Hahi).
    exists (a :: al). split.
    { cbn [map]. rewrite Eal. f_equal. exact Ea. }
    split; [constructor; [split; assumption|exact Hal]|].
    split; [cbn [length]; rewrite Hlen; reflexivity|].
    cbn [length]. rewrite Nat2Z.inj_succ. unfold Z.succ.
    rewrite inject_Z_plus. change (inject_Z 1) with 1%Q.
    rewrite !Qsum_cons. split; lra.
Qed.

Lemma fractionsFrom_length (al : list Q) :
  forall i : nat, (length (fractionsFrom i al) <= length al)%nat.
Proof.
  induction al as [|a al IH]; intros i; [apply Nat.le_refl|].
  cbn [fractionsFrom]. destruct (Qltb 0 _); cbn [length].
  - apply le_n_S. apply IH.
  - apply Nat.le_trans with (length al); [apply IH|apply Nat.le_succ_diag_r].
Qed.

(** The exact sum of the totals lies between the sum of the floors and
    that sum plus the number of positive remainders. *)
Lemma floors_le_sum (al : list Q) (i : nat) :
  (inject_Z (Zsum (map Qfloor al)) <= Qsum al)%Q
  /\ (Qsum al
      <= inject_Z (Zsum (map Qfloor al)
                   + Z.of_nat (length (fractionsFrom i al))))%Q.
Proof.
  pose proof (fractionsFrom_sum al i) as E.
  change (map Math_floor al) with (map Qfloor al) in E.
  destruct (fractions_sum_bound _ (fractionsFrom_frac al i)) as (H0 & H1 & _).
  rewrite inject_Z_plus. split; lra.
Qed.

Lemma Math_round_between (s : Q) (a b : Z) :
  (inject_Z a <= s)%Q -> (s <= inject_Z b)%Q -> a <= Math_round s <= b.
Proof.
  intros Ha Hb. unfold Math_round. split.
  - rewrite <- (Qfloor_Z a). apply Qfloor_resp_le. lra.
  - pose proof (Qfloor_le (s + (1 # 2))) as H.
    assert (Hlt : (inject_Z (Qfloor (s + (1 # 2))) < inject_Z (b + 1))%Q).
    { rewrite inject_Z_plus. change (inject_Z 1) with 1%Q. lra. }
    rewrite <- Zlt_Qlt in Hlt. lia.
Qed.

Lemma Number_min_ofZ (x y : Z) :
  Number_min (Number_ofZ x) (Number_ofZ y) = Number_ofZ (Z.min x y).
Proof.
  unfold Number_min.
  change (match Number_ofZ x with
          | NaN => NaN
          | _ => match Number_ofZ y with
                 | NaN => NaN
                 | _ => if Number_lt (Number_ofZ y) (Number_ofZ x)
                        then Number_ofZ y else Number_ofZ x
                 end
          end)
    with (if Number_lt (Number_ofZ y) (Number_ofZ x)
          then Number_ofZ y else Number_ofZ x).
  rewrite Number_lt_ofZ. destruct (y <? x) eqn:E.
  - apply Z.ltb_lt in E. rewrite Z.min_r by lia. reflexivity.
  - apply Z.ltb_ge in E. rewrite Z.min_l by lia. reflexivity.
Qed.

Lemma eta_roundoff (N : Q) :
  (0 <= N)%Q -> (N <= inject_Z (2 ^ 53))%Q -> (N * (1 # 2 ^ 1075) <= roundoff)%Q.
Proof.
  intros H0 H.
  apply Qle_trans with (inject_Z (2 ^ 53) * (1 # 2 ^ 1075))%Q.
  - apply Qmult_le_compat_r; [exact H|discriminate].
  - apply Qle_bool_iff. vm_compute. reflexivity.
Qed.

(** With a scale of 1 the target is the rounded sum of the counts. *)
Lemma roundedTotals_one (specs : list Binary64.TileSpec) :
  Binary64.positiveCounts specs ->
  Number_round
    (fold_left Number_add
       (Binary64.scaledTotals (Binary64.adjustedCounts specs (Finite 1)))
       (Finite 0))
  = Number_round (Binary64.sumCounts specs).
Proof.
  intros Hpos. destruct (counts_exact specs Hpos) as [_ Hq].
  rewrite adjustedCounts_one, scaledTotals_positive64 by assumption.
  rewrite sumCounts_exact by exact Hpos. reflexivity.
Qed.

(** Without scaling: the counts are the totals, and the target is their
    rounded sum, clamped to the cap. *)
Lemma unscaled_gap (specs : list Binary64.TileSpec) :
  Binary64.positiveCounts specs ->
  Zsum (map Qfloor (Binary64.exactCounts specs))
  + Z.of_nat (length specs) <= 2 ^ 53 ->
  exists s : Q,
    Binary64.sumCounts specs = Finite s
    /\ (inject_Z (Zsum (map Qfloor (Binary64.exactCounts specs))) <= s)%Q
    /\ Zsum (map Qfloor (Binary64.exactCounts specs)) <= Math_round s
    /\ Math_round s
       <= Zsum (map Qfloor (Binary64.exactCounts specs))
          + Z.of_nat (length (fractionsFrom 0 (Binary64.exactCounts specs))).
Proof.
  intros Hpos Hmax.
  destruct (counts_exact specs Hpos) as [_ Hq].
  apply Forall_positive_nonneg in Hq.
  pose proof (fractionsFrom_length (Binary64.exactCounts specs) 0) as Hp.
  rewrite exactCounts_length in Hp.
  destruct (sum_between _ Hq 0%nat 0%Q 0 0) as (s & Es & Hlo & Hhi).
  - lia.
  - apply Qle_refl.
  - apply Qle_refl.
  - lia.
  - rewrite !Z.add_0_l in Hlo, Hhi.
    exists s. rewrite sumCounts_exact by exact Hpos.
    split; [exact Es|]. split; [exact Hlo|].
    apply Math_round_between; assumption.
Qed.

(** The first pass and the target, in the range of [withinPrecision]: the
    adjusted counts are non-negative binary64 numbers, and the target is
    an integer between the sum of their floors and that sum plus the
    number of positive remainders. *)
Lemma target_gap64 (specs : list Binary64.TileSpec) (k : Z) :
  Binary64.positiveCounts specs ->
  Binary64.withinPrecision specs k ->
  exists (al : list Q) (T : Z),
    Binary64.adjustedCounts specs (Binary64.capScale specs (Number_ofZ k))
    = map Finite al
    /\ Forall (fun a => isBinary64 a /\ (0 <= a)%Q) al
    /\ length al = length specs
    /\ Binary64.targetTotal specs (Number_ofZ k) = Number_ofZ T
    /\ Zsum (map Qfloor al) <= T
    /\ T <= Zsum (map Qfloor al) + Z.of_nat (length (fractionsFrom 0 al))
    /\ T <= 2 ^ 53
    /\ Number_ofZ T
       = (if 0 <? k
          then Number_min (Number_ofZ k)
                 (Number_round (Binary64.sumCounts specs))
          else Number_round (Binary64.sumCounts specs)).
Proof.
  intros Hpos Hprec. unfold Binary64.withinPrecision in Hprec.
  destruct (counts_exact specs Hpos) as [_ Hq].
  pose proof (Forall_positive_nonneg _ Hq) as Hq0.
  set (ql := Binary64.exactCounts specs) in *.
  set (n := Z.of_nat (length specs)) in *.
  assert (Hn0 : 0 <= n) by (unfold n; lia).
  assert (E0 : Number_lt (Finite 0) (Number_ofZ k) = (0 <? k))
    by apply (Number_lt_ofZ 0 k).
  assert (E11 : Number_lt (Finite 1) (Finite 1) = false) by reflexivity.
  destruct (0 <? k) eqn:Ek.
  - (* under a cap *)
    apply Z.ltb_lt in Ek. destruct Hprec as [HD HS].
    assert (Hk53 : k <= 2 ^ 53) by nia.
    assert (Hn53 : 2 * n <= 2 ^ 53) by nia.
    assert (HS' : (Qsum ql <= inject_Z (2 ^ 1022))%Q).
    { eapply Qle_trans; [exact HS|]. rewrite <- Zle_Qle.
      apply Z.pow_le_mono_r; lia. }
    destruct (sumCounts_relative specs Hpos Hn53 HS')
      as (s & Es & Hs & Hslo & Hshi).
    fold ql n in Hslo, Hshi.
    pose proof (Qsum_nonneg ql Hq0) as HS0.
    pose proof roundoff_pos as Hu.
    assert (Hu1 : (roundoff <= 1)%Q) by discriminate.
    set (K := inject_Z k) in *. set (N := inject_Z n) in *.
    set (S := Qsum ql) in *. set (u := roundoff) in *.
    assert (HK1 : (1 <= K)%Q).
    { unfold K. change 1%Q with (inject_Z 1). rewrite <- Zle_Qle. lia. }
    assert (HN0 : (0 <= N)%Q) by (apply inject_Z_nonneg; exact Hn0).
    assert (HDq : (2 * (N + 2) * (K + 1) * u <= 1)%Q).
    { pose proof (roundoff_scale (2 * (n + 2) * (k + 1)) HD) as H.
      rewrite !inject_Z_mult, !inject_Z_plus in H.
      exact H. }
    assert (HNu : (4 * (N * u) <= 1)%Q).
    { assert (P1 : (0 <= N * u * (K - 1))%Q)
        by (apply Qmult_le_0_compat; [apply Qmult_le_0_compat|]; lra).
      assert (P2 : (0 <= K * u)%Q) by (apply Qmult_le_0_compat; lra).
      assert (P3 : (2 * (N + 2) * (K + 1) * u
                    == 2 * (N * u * (K - 1)) + 4 * (N * u) + 4 * (K * u)
                       + 4 * u)%Q) by ring.
      lra. }
    assert (HSNu : (0 <= S * (1 - 4 * (N * u)))%Q)
      by (apply Qmult_le_0_compat; lra).
    assert (HSNu0 : (0 <= N * u * S)%Q)
      by (apply Qmult_le_0_compat; [apply Qmult_le_0_compat|]; lra).
    unfold Binary64.capScale, Binary64.targetTotal. cbv zeta.
    unfold Binary64.capScale.
    rewrite E0, Es. cbn [andb].
    destruct (Number_lt (Number_ofZ k) (Finite s)) eqn:Esc.
    + (* the counts are scaled down *)
      unfold Number_lt, Number_ofZ in Esc. apply Qltb_lt in Esc. fold K in Esc.
      assert (Hspos : (0 < s)%Q) by lra.
      assert (Hs2 : (s <= 2 * S)%Q) by lra.
      set (x := (K / s)%Q).
      assert (Exs : (x * s == K)%Q) by (apply Qdiv_mult_cancel; exact Hspos).
      assert (Hx1 : (x <= 1)%Q).
      { unfold x. apply Qle_shift_div_r; [exact Hspos|lra]. }
      assert (Hx0 : (1 # 2 ^ 1022 <= x)%Q).
      { unfold x. apply Qle_shift_div_l; [exact Hspos|].
        apply Qle_trans with ((1 # 2 ^ 1022) * inject_Z (2 ^ 1001))%Q.
        - apply Qmult_le_l; [reflexivity|].
          apply Qle_trans with (2 * S)%Q; [exact Hs2|].
          assert (E : (inject_Z (2 ^ 1001) == 2 * inject_Z (2 ^ 1000))%Q)
            by reflexivity.
          rewrite E. lra.
        - apply Qle_trans with 1%Q; [|exact HK1].
          apply Qle_bool_iff. vm_compute. reflexivity. }
      assert (Hxhi : (x <= inject_Z (2 ^ 1023))%Q).
      { apply Qle_trans with 1%Q; [exact Hx1|]. apply Qle_bool_iff.
        vm_compute. reflexivity. }
      destruct (binary64_relative x Hx0 Hxhi) as (r & Er & Hrlo & Hrhi).
      fold u in Hrlo, Hrhi.
      assert (Hrb : isBinary64 r) by (eapply binary64_idempotent; exact Er).
      assert (Hxpos : (0 <= x)%Q).
      { eapply Qle_trans; [|exact Hx0]. discriminate. }
      destruct (binary64_nonneg x r Hxpos Er) as (_ & _ & Hr0).
      assert (Hr1 : (r <= 1)%Q).
      { destruct (binary64_between x 0 1) as (r' & Er' & _ & _ & Hr');
          [lia|discriminate|exact Hxpos|exact Hx1|].
        rewrite Er in Er'. apply Finite_inj in Er'. subst r'. exact Hr'. }
      assert (Ediv : Number_div (Number_ofZ k) (Finite s) = Finite r).
      { unfold Number_div, Number_ofZ.
        destruct (Qeq_bool s 0) eqn:Ez.
        - apply Qeq_bool_iff in Ez. lra.
        - exact Er. }
      rewrite Ediv.
      assert (Hrslo : (K - K * u <= r * s)%Q).
      { assert (P : (0 <= (r - (x - x * u)) * s)%Q)
          by (apply Qmult_le_0_compat; lra).
        assert (E : ((x - x * u) * s == K - K * u)%Q)
          by (rewrite <- Exs; ring).
        lra. }
      assert (Hrshi : (r * s <= K + K * u)%Q).
      { assert (P : (0 <= ((x + x * u) - r) * s)%Q)
          by (apply Qmult_le_0_compat; lra).
        assert (E : ((x + x * u) * s == K + K * u)%Q)
          by (rewrite <- Exs; ring).
        lra. }
      assert (HS23 : (Qsum (Binary64.exactCounts specs)
                      <= inject_Z (2 ^ 1023))%Q).
      { fold ql. eapply Qle_trans; [exact HS'|]. rewrite <- Zle_Qle.
        apply Z.pow_le_mono_r; lia. }
      destruct (adjustedCounts_scaled r specs Hrb Hr0 Hr1 Hpos HS23)
        as (al & Eal & Hal & Hlen & HAlo & HAhi).
      fold ql in HAlo, HAhi. fold S n in HAlo, HAhi. fold N u in HAlo, HAhi.
      assert (HNeta : (N * (1 # 2 ^ 1075) <= u)%Q).
      { apply eta_roundoff; [exact HN0|]. unfold N. rewrite <- Zle_Qle. lia. }
      destruct (scaling_bounds K N u (1 # 2 ^ 1075) S s r (Qsum al))
        as [Hbelow Habove]; try assumption; try discriminate.
      destruct (floors_le_sum al 0) as [HF HC].
      set (F := Zsum (map Qfloor al)) in *.
      set (p := Z.of_nat (length (fractionsFrom 0 al))) in *.
      assert (HFk : F <= k).
      { assert (Hlt : (inject_Z F < inject_Z (k + 1))%Q).
        { rewrite inject_Z_plus. fold K. change (inject_Z 1) with 1%Q. lra. }
        rewrite <- Zlt_Qlt in Hlt. lia. }
      assert (HkC : k <= F + p).
      { assert (Hlt : (inject_Z (k - 1) < inject_Z (F + p))%Q).
        { rewrite inject_Z_minus. fold K. change (inject_Z 1) with 1%Q. lra. }
        rewrite <- Zlt_Qlt in Hlt. lia. }
      assert (Hround : k <= Math_round s).
      { unfold Math_round. rewrite <- (Qfloor_Z k). apply Qfloor_resp_le.
        fold K. lra. }
      assert (Emin : Number_min (Number_ofZ k) (Number_round (Finite s))
                     = Number_ofZ k).
      { change (Number_round (Finite s)) with (Number_ofZ (Math_round s)).
        rewrite Number_min_ofZ, Z.min_l by exact Hround. reflexivity. }
      exists al, k.
      split; [exact Eal|]. split; [exact Hal|]. split; [exact Hlen|].
      split.
      { destruct (Number_lt (Finite r) (Finite 1)) eqn:Er1; [reflexivity|].
        unfold Number_lt in Er1. apply Qltb_ge in Er1.
        assert (E1 : r = 1%Q).
        { apply isBinary64_eq; [exact Hrb|apply (isBinary64_Z 1); discriminate|].
          lra. }
        subst r. rewrite (roundedTotals_one specs Hpos), Es. exact Emin. }
      split; [exact HFk|]. split; [exact HkC|]. split; [exact Hk53|].
      symmetry. exact Emin.
    + (* no scaling *)
      unfold Number_lt, Number_ofZ in Esc. apply Qltb_ge in Esc. fold K in Esc.
      rewrite E11, (roundedTotals_one specs Hpos), Es.
      change (Number_round (Finite s)) with (Number_ofZ (Math_round s)).
      rewrite Number_min_ofZ.
      destruct (floors_le_sum ql 0) as [HF _].
      fold S in HF.
      assert (HS2 : (S <= 2 * K)%Q) by lra.
      assert (HF2 : Zsum (map Qfloor ql) <= 2 * k).
      { rewrite Zle_Qle, inject_Z_mult. fold K. change (inject_Z 2) with 2%Q.
        lra. }
      assert (Hmax : Zsum (map Qfloor ql) + n <= 2 ^ 53) by nia.
      destruct (unscaled_gap specs Hpos Hmax) as (s' & Es' & Hlo & Hrlo & Hrhi).
      rewrite Es in Es'. apply Finite_inj in Es'. subst s'.
      fold ql in Hlo, Hrlo, Hrhi.
      assert (HFk : Zsum (map Qfloor ql) <= k).
      { rewrite Zle_Qle. fold K. lra. }
      exists ql, (Z.min k (Math_round s)).
      split; [apply adjustedCounts_one; exact Hpos|].
      split; [exact Hq0|].
      split; [apply exactCounts_length|].
      split; [reflexivity|].
      split; [lia|]. split; [lia|]. split; [lia|reflexivity].
  - (* without a cap *)
    destruct (unscaled_gap specs Hpos Hprec) as (s & Es & Hlo & Hrlo & Hrhi).
    fold ql in Hlo, Hrlo, Hrhi.
    pose proof (fractionsFrom_length ql 0) as Hp.
    unfold ql in Hp at 2. rewrite exactCounts_length in Hp. fold n in Hprec.
    unfold Binary64.capScale, Binary64.targetTotal. cbv zeta.
    unfold Binary64.capScale. rewrite E0. cbn [andb].
    rewrite (roundedTotals_one specs Hpos), Es.
    exists ql, (Math_round s).
    split; [apply adjustedCounts_one; exact Hpos|].
    split; [exact Hq0|].
    split; [apply exactCounts_length|].
    split; [reflexivity|].
    split; [exact Hrlo|]. split; [exact Hrhi|]. split; [unfold n in *; lia|].
    reflexivity.
Qed.

(** ** The normalizer in binary64: the rounding branches *)

Lemma fold_updateAt_nth {A : Type} (f : A -> A) (d : A) (fs : list Fraction) :
  forall (fl : list A) (i : nat),
    NoDup (map index fs) -> (i < length fl)%nat ->
    nth i (fold_left (fun l fr => updateAt f (index fr) l) fs fl) d
    = if indexIn i fs then f (nth i fl d) else nth i fl d.
Proof.
  induction fs as [|f0 fs IH]; intros fl i Hnd Hi; cbn [fold_left].
  - reflexivity.
  - cbn [map] in Hnd. inversion Hnd as [|? ? Hf Hrest]; subst.
    rewrite IH by (rewrite ?updateAt_length; assumption).
    unfold indexIn at 2. cbn [map existsb]. fold (indexIn i fs).
    destruct (Nat.eqb i (index f0)) eqn:E.
    + apply Nat.eqb_eq in E. subst i.
      rewrite updateAt_nth by exact Hi.
      assert (Hno : indexIn (index f0) fs = false).
      { apply not_true_iff_false. rewrite indexIn_true. exact Hf. }
      rewrite Hno. reflexivity.
    + apply Nat.eqb_neq in E.
      rewrite updateAt_nth_other by congruence. reflexivity.
Qed.

Lemma Number_slice0_prefix {A : Type} (l : list A) (e : number) :
  exists n : nat, Number_slice0 l e = firstn n l.
Proof.
  destruct e as [q| | |]; cbn [Number_slice0].
  - apply Array_slice0_prefix.
  - exists (length l). symmetry. apply firstn_all.
  - exists 0%nat. reflexivity.
  - exists 0%nat. reflexivity.
Qed.

Lemma Number_lt_asym (a b : number) :
  Number_lt a b = true -> Number_lt b a = false.
Proof.
  destruct a as [x| | |], b as [y| | |]; cbn [Number_lt];
    try reflexivity; try discriminate.
  intros H. apply Qltb_lt in H. apply Qltb_ge. lra.
Qed.

Lemma Number_lt_irrefl (a : number) : Number_lt a a = false.
Proof.
  destruct a as [x| | |]; cbn [Number_lt]; try reflexivity.
  apply Qltb_ge. apply Qle_refl.
Qed.

(** The entries of [fractions] are the positive remainders, in index
    order. *)
Lemma fractionsFrom64_entry (adjusted : list number) :
  forall (k : nat) (f : Fraction),
    In f (Binary64.fractionsFrom k adjusted) ->
    (k <= index f < k + length adjusted)%nat
    /\ Number_sub (nth (index f - k) adjusted NaN)
         (Number_floor (nth (index f - k) adjusted NaN)) = Finite (frac f)
    /\ (0 < frac f)%Q.
Proof.
  induction adjusted as [|a adjusted IH]; intros k f Hin;
    cbn [Binary64.fractionsFrom] in Hin; [destruct Hin|].
  assert (Hrest : In f (Binary64.fractionsFrom (S k) adjusted) ->
                  (k <= index f < k + length (a :: adjusted))%nat
                  /\ Number_sub (nth (index f - k) (a :: adjusted) NaN)
                       (Number_floor (nth (index f - k) (a :: adjusted) NaN))
                     = Finite (frac f)
                  /\ (0 < frac f)%Q).
  { intros H. destruct (IH (S k) f H) as (Hk & Hf & Hp).
    cbn [length]. split; [lia|].
    replace (index f - k)%nat with (S (index f - S k)) by lia.
    split; assumption. }
  destruct (Number_le a (Finite 0)); [apply Hrest; exact Hin|].
  destruct (Number_sub a (Number_floor a)) as [fr| | |] eqn:Esub;
    try (apply Hrest; exact Hin).
  destruct (Qltb 0 fr) eqn:Efr; [|apply Hrest; exact Hin].
  destruct Hin as [<-|Hin]; [|apply Hrest; exact Hin].
  cbn [index frac length]. rewrite Nat.sub_diag. cbn [nth].
  split; [lia|]. split; [exact Esub|]. apply Qltb_lt. exact Efr.
Qed.

Lemma fractionsFrom64_NoDup (adjusted : list number) :
  forall k : nat, NoDup (map index (Binary64.fractionsFrom k adjusted)).
Proof.
  induction adjusted as [|a adjusted IH]; intros k;
    cbn [Binary64.fractionsFrom]; [constructor|].
  destruct (Number_le a (Finite 0)); [apply IH|].
  destruct (Number_sub a (Number_floor a)) as [fr| | |]; try apply IH.
  destruct (Qltb 0 fr); [|apply IH].
  cbn [map index]. constructor; [|apply IH].
  intros Hin. apply in_map_iff in Hin. destruct Hin as (f & Ef & Hf).
  apply fractionsFrom64_entry in Hf. lia.
Qed.

(** A remainder is never infinite, so [fractions] misses no entry. *)
Lemma remainder_finite (a : number) :
  Number_sub a (Number_floor a) <> PosInfinity.
Proof.
  destruct a as [x| | |]; cbn; try discriminate.
  unfold Math_floor.
  destruct (binary64_between (x + - inject_Z (Qfloor x)) 0 1)
    as (r & Er & _); [lia|discriminate| | |rewrite Er; discriminate].
  - pose proof (Qfloor_le x). change (inject_Z 0) with 0%Q. lra.
  - pose proof (Qlt_floor x) as H. rewrite inject_Z_plus in H.
    change (inject_Z 1) with 1%Q in *. lra.
Qed.

Lemma reduceFraction_indices (l : list Fraction) :
  map index (map reduceFraction l) = map index l.
Proof. rewrite map_map. reflexivity. Qed.

Lemma Number_sum_ofZ (l : list Z) :
  forall acc : Z,
    Forall (fun v => 0 <= v) l -> 0 <= acc -> acc + Zsum l <= 2 ^ 53 ->
    fold_left Number_add (map Number_ofZ l) (Number_ofZ acc)
    = Number_ofZ (acc + Zsum l).
Proof.
  induction l as [|v l IH]; intros acc Hl Hacc Hmax.
  - cbn [map fold_left]. change (Zsum []) with 0. rewrite Z.add_0_r.
    reflexivity.
  - inversion Hl as [|? ? Hv Hrest]; subst.
    rewrite Zsum_cons in *. pose proof (Zsum_nonneg l Hrest).
    cbn [map fold_left]. rewrite Number_ofZ_add by lia.
    rewrite IH by (try assumption; lia). f_equal. lia.
Qed.

Lemma fold_incrementFloor_nonneg (fs : list Fraction) :
  forall fl : list Z,
    Forall (fun v => 0 <= v) fl ->
    Forall (fun v => 0 <= v) (fold_left incrementFloor fs fl).
Proof.
  induction fs as [|f fs IH]; intros fl Hfl; [exact Hfl|].
  cbn [fold_left]. apply IH. unfold incrementFloor.
  apply updateAt_Forall with (P := fun v => 0 <= v);
    [intros; lia|intros; lia|exact Hfl].
Qed.

(** In the range of [withinPrecision] only the adding branch can run, on
    integers that binary64 represents exactly. *)
Lemma finalFloors_exact (specs : list Binary64.TileSpec) (k : Z) :
  Binary64.positiveCounts specs ->
  Binary64.withinPrecision specs k ->
  exists (al : list Q) (T : Z) (chosen : list Fraction),
    Binary64.adjustedCounts specs (Binary64.capScale specs (Number_ofZ k))
    = map Finite al
    /\ Forall (fun a => isBinary64 a /\ (0 <= a)%Q) al
    /\ length al = length specs
    /\ Binary64.targetTotal specs (Number_ofZ k) = Number_ofZ T
    /\ Zsum (map Qfloor al) <= T <= 2 ^ 53
    /\ Number_ofZ T
       = (if 0 <? k
          then Number_min (Number_ofZ k)
                 (Number_round (Binary64.sumCounts specs))
          else Number_round (Binary64.sumCounts specs))
    /\ chosen
       = firstn (Z.to_nat (T - Zsum (map Qfloor al)))
           (Array_sort fracDescending
              (map reduceFraction (fractionsFrom 0 al)))
    /\ NoDup (map index chosen)
    /\ (forall i, In i (map index chosen) ->
          In i (map index (fractionsFrom 0 al)))
    /\ Binary64.finalFloors specs (Number_ofZ k)
       = map Number_ofZ (fold_left incrementFloor chosen (map Qfloor al))
    /\ Zsum (fold_left incrementFloor chosen (map Qfloor al)) = T
    /\ Forall (fun v => 0 <= v)
         (fold_left incrementFloor chosen (map Qfloor al)).
Proof.
  intros Hpos Hprec.
  destruct (target_gap64 specs k Hpos Hprec)
    as (al & T & Eal & Hal & Hlen & ET & HFT & HTC & HT53 & Erhs).
  set (F := Zsum (map Qfloor al)) in *.
  set (fractions := map reduceFraction (fractionsFrom 0 al)).
  set (sorted := Array_sort fracDescending fractions).
  set (chosen := firstn (Z.to_nat (T - F)) sorted).
  assert (Hperm : Permutation sorted fractions) by apply Array_sort_perm.
  assert (Hlf : length fractions = length (fractionsFrom 0 al))
    by (unfold fractions; apply length_map).
  assert (Hnd : NoDup (map index sorted)).
  { eapply Permutation_NoDup;
      [apply Permutation_map; apply Permutation_sym; exact Hperm|].
    unfold fractions. rewrite reduceFraction_indices.
    apply fractionsFrom_NoDup. }
  assert (Hndc : NoDup (map index chosen)).
  { unfold chosen. eapply NoDup_app_remove_r.
    rewrite <- map_app, firstn_skipn. exact Hnd. }
  assert (Hsub : forall i, In i (map index chosen) ->
                           In i (map index (fractionsFrom 0 al))).
  { intros i Hi. rewrite <- (reduceFraction_indices (fractionsFrom 0 al)).
    fold fractions.
    eapply Permutation_in; [apply Permutation_map; exact Hperm|].
    unfold chosen in Hi. rewrite <- (firstn_skipn (Z.to_nat (T - F)) sorted).
    rewrite map_app. apply in_or_app. left. exact Hi. }
  assert (Hlc : length chosen = Z.to_nat (T - F)).
  { unfold chosen. apply firstn_length_le.
    rewrite (Permutation_length Hperm), Hlf. lia. }
  pose proof (floors_nonneg al Hal) as Hfl0.
  pose proof (Zsum_nonneg _ Hfl0) as HF0. fold F in HF0.
  assert (Hidx : Forall (fun f => (index f < length (map Qfloor al))%nat)
                   chosen).
  { apply Forall_forall. intros f Hf.
    assert (Hi : In (index f) (map index (fractionsFrom 0 al)))
      by (apply Hsub; apply in_map; exact Hf).
    apply in_map_iff in Hi. destruct Hi as (g & Eg & Hg).
    pose proof (fractionsFrom_index al 0) as Hall.
    rewrite Forall_forall in Hall. specialize (Hall g Hg). cbv beta in Hall.
    rewrite length_map. lia. }
  exists al, T, chosen.
  split; [exact Eal|]. split; [exact Hal|]. split; [exact Hlen|].
  split; [exact ET|]. split; [lia|]. split; [exact Erhs|].
  split; [reflexivity|]. split; [exact Hndc|]. split; [exact Hsub|].
  split; [|split].
  - assert (Etf : Binary64.totalFloorsOf (map Finite al) = Number_ofZ F).
    { apply (totalFloorsOf_exact al Hal 0); [lia|fold F; lia]. }
    unfold Binary64.finalFloors. rewrite ET, Eal, Etf.
    unfold Binary64.adjustFloors.
    rewrite floorsOf_exact, fractionsFrom_exact by exact Hal.
    fold fractions.
    assert (E1 : (T <? F) = false) by (apply Z.ltb_ge; lia).
    rewrite Number_lt_ofZ, E1. cbv beta iota zeta.
    rewrite Number_lt_ofZ.
    destruct (F <? T) eqn:E2.
    + apply Z.ltb_lt in E2.
      rewrite Number_ofZ_sub by lia.
      unfold Number_ofZ at 1. cbn [Number_slice0].
      rewrite Array_slice0_nonneg by (apply inject_Z_nonneg; lia).
      rewrite Qfloor_Z. fold sorted chosen.
      apply (fold_incrementFloor_exact chosen (map Qfloor al) F).
      * apply Zsum_bounds. exact Hfl0.
      * rewrite Hlc. lia.
    + apply Z.ltb_ge in E2.
      assert (Hc : chosen = []).
      { unfold chosen. replace (T - F) with 0 by lia. reflexivity. }
      rewrite Hc. reflexivity.
  - rewrite fold_incrementFloor_sum by exact Hidx.
    fold F. rewrite Hlc. lia.
  - apply fold_incrementFloor_nonneg. exact Hfl0.
Qed.

(** A sum of positive counts is positive, or has overflowed. *)
Lemma binary64_add_positive (a q : Q) :
  (0 < a)%Q -> isBinary64 q -> (0 < q)%Q ->
  binary64 (a + q) = PosInfinity
  \/ exists r : Q, binary64 (a + q) = Finite r /\ (0 < r)%Q.
Proof.
  intros Ha Hb Hq.
  destruct (binary64_cases (a + q)) as [Hinf Hfin]. cbv zeta in Hinf, Hfin.
  destruct (Z_lt_le_dec (roundUnits (Qabs (a + q) * unitScale)) (2 ^ 2098))
    as [Hlt|Hge].
  - right. specialize (Hfin Hlt). eexists. split; [exact Hfin|].
    destruct (binary64_mono q (a + q) _ (Qlt_le_weak _ _ Hq)
                ltac:(lra) Hfin) as (r1 & Er1 & _ & Hle).
    rewrite Hb in Er1. apply Finite_inj in Er1. subst r1. lra.
  - left. rewrite (Hinf Hge).
    assert (E : Qle_bool 0 (a + q) = true) by (apply Qle_bool_iff; lra).
    rewrite E. reflexivity.
Qed.

Lemma sum_positive (ql : list Q) :
  Forall (fun q => isBinary64 q /\ (0 < q)%Q) ql ->
  forall x : number,
    (x = PosInfinity \/ exists a : Q, x = Finite a /\ (0 < a)%Q) ->
    Number_eq (fold_left Number_add (map Finite ql) x) (Finite 0) = false.
Proof.
  induction 1 as [|q ql [Hb Hq] _ IH]; intros x Hx.
  - cbn [map fold_left]. destruct Hx as [->|(a & -> & Ha)]; [reflexivity|].
    cbn [Number_eq]. destruct (Qeq_bool a 0) eqn:E; [|reflexivity].
    apply Qeq_bool_iff in E. lra.
  - cbn [map fold_left]. apply IH.
    destruct Hx as [->|(a & -> & Ha)]; [left; reflexivity|].
    cbn [Number_add]. apply binary64_add_positive; assumption.
Qed.

Lemma sumCounts_nonzero (s0 : Binary64.TileSpec)
  (specs : list Binary64.TileSpec) :
  Binary64.positiveCounts (s0 :: specs) ->
  Number_eq (Binary64.sumCounts (s0 :: specs)) (Finite 0) = false.
Proof.
  intros Hpos. rewrite sumCounts_exact by exact Hpos.
  destruct (counts_exact _ Hpos) as [_ Hq].
  unfold Binary64.exactCounts in *. cbn [map] in *.
  inversion Hq as [|q ql [Hb Hq0] Hrest]; subst.
  cbn [fold_left Number_add].
  rewrite (binary64_comp _ (Number_value (Binary64.spec_count s0))) by ring.
  rewrite Hb. apply sum_positive; [exact Hrest|].
  right. eexists. split; [reflexivity|exact Hq0].
Qed.

(** C2, as the code has it, in binary64.  For tile specs whose counts are
    positive binary64 numbers and an integer cap [k], in the range of
    [withinPrecision], the final batch counts sum to
    [min(k, round(sum))] when [k > 0] and to [round(sum)] when there is
    no cap, [sum] being the sum of the pre-cap counts as the program adds
    them up; and every batch count is an integer of at least 1. *)
Theorem apportionment_conservation (specs : list Binary64.TileSpec) (k : Z) :
  Binary64.positiveCounts specs ->
  Binary64.withinPrecision specs k ->
  let result := Binary64.finalizeTileBatches specs (Number_ofZ k) in
  let rounded := Number_round (Binary64.sumCounts specs) in
  Binary64.totalCount result
  = (if 0 <? k then Number_min (Number_ofZ k) rounded else rounded)
  /\ Forall
       (fun b => exists z : Z,
                   Binary64.batch_count b = Number_ofZ z /\ 1 <= z)
       result.
Proof.
  intros Hpos Hprec result rounded.
  destruct specs as [|s0 specs].
  - split; [|constructor].
    unfold result, rounded.
    change (Binary64.totalCount
              (Binary64.finalizeTileBatches [] (Number_ofZ k)))
      with (Number_ofZ 0).
    change (Number_round (Binary64.sumCounts [])) with (Number_ofZ 0).
    destruct (0 <? k) eqn:Ek; [|reflexivity].
    apply Z.ltb_lt in Ek.
    rewrite Number_min_ofZ, Z.min_r by lia. reflexivity.
  - destruct (finalFloors_exact _ k Hpos Hprec)
      as (al & T & chosen & _ & _ & Hlen & _ & HT & Erhs & _ & _ & _
          & Efinal & Hsum & Hnn).
    unfold result, Binary64.finalizeTileBatches.
    rewrite (sumCounts_nonzero s0 specs Hpos), Efinal.
    set (final := fold_left incrementFloor chosen (map Qfloor al)) in *.
    destruct (collectBatches_exact (s0 :: specs) final 0) as [Ht Hp].
    + unfold final. rewrite fold_incrementFloor_length, length_map.
      exact Hlen.
    + exact Hnn.
    + lia.
    + lia.
    + split; [|exact Hp].
      unfold Binary64.totalCount.
      change (Finite 0) with (Number_ofZ 0). rewrite Ht, Z.add_0_l, Hsum.
      exact Erhs.
Qed.

(** C3, as the code has it, in binary64.  [fractions] holds the entries
    whose remainder [adjusted - Math.floor(adjusted)], as binary64 computes
    it, is positive.  When the floors total less than the target, it is
    sorted by remainder, largest first, ties by index, and each entry of
    the slice [0 .. target - totalFloors) is incremented once; when they
    total more, it is sorted smallest first, ties by index, and each entry
    of the slice [0 .. totalFloors - target) is decremented once if its
    floor is positive.  No other entry changes.  In the range of
    [withinPrecision] the floors never total more than the target, and the
    final floors total the target. *)
Theorem largest_remainder_rounding (specs : list Binary64.TileSpec)
  (capLimit : number) :
  let adjusted :=
    Binary64.adjustedCounts specs (Binary64.capScale specs capLimit) in
  let floors := Binary64.floorsOf adjusted in
  let totalFloors := Binary64.totalFloorsOf adjusted in
  let fractions := Binary64.fractionsFrom 0 adjusted in
  let target := Binary64.targetTotal specs capLimit in
  let final := Binary64.finalFloors specs capLimit in
  (forall f : Fraction,
      In f fractions ->
      (index f < length adjusted)%nat
      /\ Number_sub (nth (index f) adjusted NaN)
           (Number_floor (nth (index f) adjusted NaN)) = Finite (frac f)
      /\ (0 < frac f)%Q)
  /\ (Number_lt totalFloors target = true ->
      exists chosen rest : list Fraction,
        Array_sort fracDescending fractions = chosen ++ rest
        /\ Permutation (chosen ++ rest) fractions
        /\ chosen
           = Number_slice0 (Array_sort fracDescending fractions)
               (Number_sub target totalFloors)
        /\ (forall q : Q,
               Number_sub target totalFloors = Finite q -> (0 <= q)%Q ->
               length chosen
               = Nat.min (Z.to_nat (Qfloor q)) (length fractions))
        /\ (forall f g, In f chosen -> In g rest ->
              (frac g < frac f)%Q
              \/ ((frac f == frac g)%Q /\ (index f < index g)%nat))
        /\ (forall i, (i < length floors)%nat ->
              nth i final NaN
              = if indexIn i chosen
                then Number_add (nth i floors NaN) (Finite 1)
                else nth i floors NaN))
  /\ (Number_lt target totalFloors = true ->
      exists chosen rest : list Fraction,
        Array_sort fracAscending fractions = chosen ++ rest
        /\ Permutation (chosen ++ rest) fractions
        /\ chosen
           = Number_slice0 (Array_sort fracAscending fractions)
               (Number_sub totalFloors target)
        /\ (forall q : Q,
               Number_sub totalFloors target = Finite q -> (0 <= q)%Q ->
               length chosen
               = Nat.min (Z.to_nat (Qfloor q)) (length fractions))
        /\ (forall f g, In f chosen -> In g rest ->
              (frac f < frac g)%Q
              \/ ((frac f == frac g)%Q /\ (index f < index g)%nat))
        /\ (forall i, (i < length floors)%nat ->
              nth i final NaN
              = if indexIn i chosen && Number_lt (Finite 0) (nth i floors NaN)
                then Number_sub (nth i floors NaN) (Finite 1)
                else nth i floors NaN))
  /\ (forall k : Z,
         capLimit = Number_ofZ k ->
         Binary64.positiveCounts specs ->
         Binary64.withinPrecision specs k ->
         Number_lt target totalFloors = false
         /\ fold_left Number_add final (Finite 0) = target).
Proof.
  intros adjusted floors totalFloors fractions target final.
  assert (Hnd : NoDup (map index fractions)) by apply fractionsFrom64_NoDup.
  assert (Hfinal : final
                   = Binary64.adjustFloors floors totalFloors fractions target)
    by reflexivity.
  split; [|split; [|split]].
  - intros f Hf. destruct (fractionsFrom64_entry adjusted 0 f Hf)
      as (Hi & Hsub & Hpos).
    rewrite Nat.sub_0_r in Hsub. split; [lia|]. split; assumption.
  - intros Hlt.
    set (sorted := Array_sort fracDescending fractions).
    set (remaining := Number_sub target totalFloors).
    assert (Hperm : Permutation sorted fractions) by apply Array_sort_perm.
    destruct (Number_slice0_prefix sorted remaining) as [n En].
    exists (Number_slice0 sorted remaining), (skipn n sorted).
    rewrite En, firstn_skipn.
    split; [reflexivity|]. split; [exact Hperm|]. split; [reflexivity|].
    split; [|split].
    + intros q Eq Hq. rewrite <- En.
      unfold remaining in *. rewrite Eq. cbn [Number_slice0].
      rewrite Array_slice0_nonneg by exact Hq.
      rewrite length_firstn, (Permutation_length Hperm). reflexivity.
    + intros f g Hf Hg.
      destruct (sorted_split_strict largerFirst sorted fractions n
                  (sort_descending_sorted fractions) Hperm Hnd f g Hf Hg)
        as [[H|[H1 H2]] Hne]; [left; exact H|right].
      split; [exact H1|lia].
    + intros i Hi. rewrite Hfinal. unfold Binary64.adjustFloors.
      rewrite (Number_lt_asym _ _ Hlt). cbv beta iota zeta. rewrite Hlt.
      fold sorted remaining. rewrite En.
      apply (fold_updateAt_nth (fun v => Number_add v (Finite 1)) NaN);
        [|exact Hi].
      eapply NoDup_app_remove_r. rewrite <- map_app, firstn_skipn.
      eapply Permutation_NoDup; [|exact Hnd].
      apply Permutation_map. apply Permutation_sym. exact Hperm.
  - intros Hlt.
    set (sorted := Array_sort fracAscending fractions).
    set (excess := Number_sub totalFloors target).
    assert (Hperm : Permutation sorted fractions) by apply Array_sort_perm.
    destruct (Number_slice0_prefix sorted excess) as [n En].
    exists (Number_slice0 sorted excess), (skipn n sorted).
    rewrite En, firstn_skipn.
    split; [reflexivity|]. split; [exact Hperm|]. split; [reflexivity|].
    split; [|split].
    + intros q Eq Hq. rewrite <- En.
      unfold excess in *. rewrite Eq. cbn [Number_slice0].
      rewrite Array_slice0_nonneg by exact Hq.
      rewrite length_firstn, (Permutation_length Hperm). reflexivity.
    + intros f g Hf Hg.
      destruct (sorted_split_strict smallerFirst sorted fractions n
                  (sort_ascending_sorted fractions) Hperm Hnd f g Hf Hg)
        as [[H|[H1 H2]] Hne]; [left; exact H|right].
      split; [exact H1|lia].
    + intros i Hi. rewrite Hfinal. unfold Binary64.adjustFloors.
      rewrite Hlt. cbv beta iota zeta. rewrite Number_lt_irrefl.
      fold sorted excess. rewrite En.
      rewrite (fold_updateAt_nth
                 (fun v => if Number_lt (Finite 0) v
                           then Number_sub v (Finite 1) else v) NaN);
        [|eapply NoDup_app_remove_r; rewrite <- map_app, firstn_skipn;
          eapply Permutation_NoDup; [|exact Hnd];
          apply Permutation_map; apply Permutation_sym; exact Hperm
         |exact Hi].
      destruct (indexIn i (firstn n sorted)); [|reflexivity].
      cbn [andb]. reflexivity.
  - intros k -> Hpos Hprec.
    destruct (finalFloors_exact specs k Hpos Hprec)
      as (al & T & chosen & Eal & Hal & _ & ET & HT & _ & _ & _ & _
          & Efinal & Hsum & Hnn).
    assert (Etf : totalFloors = Number_ofZ (Zsum (map Qfloor al))).
    { unfold totalFloors, adjusted. rewrite Eal.
      apply (totalFloorsOf_exact al Hal 0); lia. }
    unfold target, final. rewrite Etf, ET, Efinal. split.
    + rewrite Number_lt_ofZ. apply Z.ltb_ge. lia.
    + change (Finite 0) with (Number_ofZ 0).
      rewrite Number_sum_ofZ by (try assumption; lia).
      rewrite Z.add_0_l, Hsum. reflexivity.
Qed.

(** The quota rule in binary64: in the range of [withinPrecision] every
    final count is the floor of its scaled count, or one more when the
    scaled count is not an integer; so it differs from the scaled count by
    less than one. *)
Theorem final_counts_within_one (specs : list Binary64.TileSpec) (k : Z)
  (i : nat) :
  Binary64.positiveCounts specs ->
  Binary64.withinPrecision specs k ->
  (i < length specs)%nat ->
  let adjusted :=
    Binary64.adjustedCounts specs (Binary64.capScale specs (Number_ofZ k)) in
  let final := Binary64.finalFloors specs (Number_ofZ k) in
  exists (share : Q) (count : Z),
    nth i adjusted NaN = Finite share
    /\ nth i final NaN = Number_ofZ count
    /\ (count = Qfloor share
        \/ (count = Qfloor share + 1 /\ (inject_Z (Qfloor share) < share)%Q))
    /\ (share - 1 < inject_Z count)%Q /\ (inject_Z count < share + 1)%Q.
Proof.
  intros Hpos Hprec Hi adjusted final.
  destruct (finalFloors_exact specs k Hpos Hprec)
    as (al & T & chosen & Eal & Hal & Hlen & _ & _ & _ & _ & Hnd & Hsub
        & Efinal & _ & _).
  set (finalZ := fold_left incrementFloor chosen (map Qfloor al)) in *.
  set (share := nth i al 0%Q).
  exists share, (nth i finalZ 0).
  assert (Hia : (i < length al)%nat) by lia.
  assert (Hif : (i < length (map Qfloor al))%nat)
    by (rewrite length_map; exact Hia).
  assert (Hcount : nth i finalZ 0
                   = Qfloor share + (if indexIn i chosen then 1 else 0)).
  { unfold finalZ. rewrite fold_incrementFloor_nth by assumption.
    f_equal. change 0 with (Qfloor 0). apply map_nth. }
  assert (Hcases : nth i finalZ 0 = Qfloor share
                   \/ (nth i finalZ 0 = Qfloor share + 1
                       /\ (inject_Z (Qfloor share) < share)%Q)).
  { rewrite Hcount. destruct (indexIn i chosen) eqn:E; [right|left; lia].
    split; [reflexivity|].
    apply indexIn_true in E. apply Hsub in E.
    apply in_map_iff in E. destruct E as (g & Eg & Hg).
    destruct (fractionsFrom_entry al 0 g Hg) as [_ Hfr].
    pose proof (fractionsFrom_frac al 0) as Hall.
    rewrite Forall_forall in Hall. destruct (Hall g Hg) as [Hp _].
    rewrite Hfr, Eg, Nat.sub_0_r in Hp. fold share in Hp.
    unfold Math_floor in Hp. lra. }
  split.
  { unfold adjusted. rewrite Eal.
    rewrite (nth_indep _ NaN (Finite 0)) by (rewrite length_map; exact Hia).
    apply (map_nth Finite). }
  split.
  { unfold final. rewrite Efinal.
    rewrite (nth_indep _ NaN (Number_ofZ 0)).
    - apply (map_nth Number_ofZ).
    - rewrite length_map. unfold finalZ.
      rewrite fold_incrementFloor_length. exact Hif. }
  split; [exact Hcases|].
  pose proof (Qfloor_le share) as Hlo. pose proof (Qlt_floor share) as Hhi.
  rewrite inject_Z_plus in Hhi. change (inject_Z 1) with 1%Q in Hhi.
  destruct Hcases as [E|[E Hlt]]; rewrite E; [split; lra|].
  rewrite inject_Z_plus. change (inject_Z 1) with 1%Q. split; lra.
Qed.

(** ** Runs of the normalizer in binary64 *)

Lemma sevenTenths_positive : Binary64.positiveCounts sevenTenths.
Proof.
  repeat constructor; eexists;
    (split; [reflexivity|split; [vm_compute; reflexivity|reflexivity]]).
Qed.

Lemma sevenTenths_precision : Binary64.withinPrecision sevenTenths 2.
Proof. split; vm_compute; discriminate. Qed.

(** The tiles [1x1*1,2x1*2,2x2*7] under a cap of 2: the scale is 0.2, and
    binary64 computes the shares 0.2, 0.4 and 1.4000000000000001, so the
    spare unit goes to the last entry. *)
Lemma apportionment_conservation_witness :
  Binary64.positiveCounts sevenTenths
  /\ Binary64.withinPrecision sevenTenths 2
  /\ Binary64.finalizeTileBatches sevenTenths (Number_ofZ 2)
     = [Binary64.mkTileBatch 2 2 (Number_ofZ 2)]
  /\ Binary64.totalCount
       (Binary64.finalizeTileBatches sevenTenths (Number_ofZ 2))
     = Number_min (Number_ofZ 2)
         (Number_round (Binary64.sumCounts sevenTenths)).
Proof.
  split; [exact sevenTenths_positive|].
  split; [exact sevenTenths_precision|].
  split; [vm_compute; reflexivity|].
  exact (proj1 (apportionment_conservation sevenTenths 2
                  sevenTenths_positive sevenTenths_precision)).
Defined.

Lemma largest_remainder_rounding_witness :
  let adjusted :=
    Binary64.adjustedCounts sevenTenths
      (Binary64.capScale sevenTenths (Number_ofZ 2)) in
  let fractions := Binary64.fractionsFrom 0 adjusted in
  Binary64.totalFloorsOf adjusted = Number_ofZ 1
  /\ Binary64.targetTotal sevenTenths (Number_ofZ 2) = Number_ofZ 2
  /\ map index (Array_sort fracDescending fractions) = [2; 1; 0]%nat
  /\ Binary64.finalFloors sevenTenths (Number_ofZ 2)
     = [Number_ofZ 0; Number_ofZ 0; Number_ofZ 2]
  /\ fold_left Number_add
       (Binary64.finalFloors sevenTenths (Number_ofZ 2)) (Finite 0)
     = Binary64.targetTotal sevenTenths (Number_ofZ 2).
Proof.
  cbv zeta.
  split; [vm_compute; reflexivity|]. split; [vm_compute; reflexivity|].
  split; [vm_compute; reflexivity|]. split; [vm_compute; reflexivity|].
  exact (proj2 (proj2 (proj2 (proj2
           (largest_remainder_rounding sevenTenths (Number_ofZ 2)))) 2
           eq_refl sevenTenths_positive sevenTenths_precision)).
Defined.

Lemma final_counts_within_one_witness :
  exists (share : Q) (count : Z),
    nth 2 (Binary64.adjustedCounts sevenTenths
             (Binary64.capScale sevenTenths (Number_ofZ 2))) NaN
    = Finite share
    /\ nth 2 (Binary64.finalFloors sevenTenths (Number_ofZ 2)) NaN
       = Number_ofZ count
    /\ (count = Qfloor share
        \/ (count = Qfloor share + 1 /\ (inject_Z (Qfloor share) < share)%Q))
    /\ (share - 1 < inject_Z count)%Q /\ (inject_Z count < share + 1)%Q.
Proof.
  apply (final_counts_within_one sevenTenths 2 2
           sevenTenths_positive sevenTenths_precision).
  vm_compute. reflexivity.
Defined.

(** C2 as stated fails in three ways.  A cap that is not an integer: the
    tiles [2x2*10] under a cap of 2.5 yield 2 placements, and
    [min(cap, round(10))] is 2.5.  Counts whose sum overflows: the tiles
    [1x1*1e308,2x2*1e308] sum to [Infinity], the scale is 0, every
    adjusted count is 0, and under a cap of 10 no batch is left, where
    [min(cap, round(sum))] is 10.  A cap near 2^53: the tiles
    [1x1*10000000000003854] under a cap of 9007199254740991 yield
    9007199254740992 placements, one more than the cap. *)
Lemma apportionment_not_conserved :
  (let specs := [Binary64.mkTileSpec 2 2 (Number_ofZ 10)] in
   let capLimit := Finite (5 # 2) in
   Binary64.finalizeTileBatches specs capLimit
   = [Binary64.mkTileBatch 2 2 (Number_ofZ 2)]
   /\ Number_min capLimit (Number_round (Binary64.sumCounts specs))
      = Finite (5 # 2)
   /\ Binary64.totalCount (Binary64.finalizeTileBatches specs capLimit)
      <> Number_min capLimit (Number_round (Binary64.sumCounts specs)))
  /\ (let specs := [Binary64.mkTileSpec 1 1 e308;
                    Binary64.mkTileSpec 2 2 e308] in
      let capLimit := Number_ofZ 10 in
      Binary64.sumCounts specs = PosInfinity
      /\ Binary64.finalizeTileBatches specs capLimit = []
      /\ Number_min capLimit (Number_round (Binary64.sumCounts specs))
         = Number_ofZ 10
      /\ Binary64.totalCount (Binary64.finalizeTileBatches specs capLimit)
         <> Number_min capLimit (Number_round (Binary64.sumCounts specs)))
  /\ (let specs := [Binary64.mkTileSpec 1 1
                      (Number_ofZ 10000000000003854)] in
      let capLimit := Number_ofZ 9007199254740991 in
      Binary64.finalizeTileBatches specs capLimit
      = [Binary64.mkTileBatch 1 1 (Number_ofZ 9007199254740992)]
      /\ Number_min capLimit (Number_round (Binary64.sumCounts specs))
         = Number_ofZ 9007199254740991
      /\ Binary64.totalCount (Binary64.finalizeTileBatches specs capLimit)
         <> Number_min capLimit (Number_round (Binary64.sumCounts specs))).
Proof.
  cbv zeta.
  repeat match goal with |- _ /\ _ => split end;
    vm_compute; try reflexivity; discriminate.
Qed.

(** C3 as stated fails on both sides: the loops are slices of
    [fractions], which can hold too few entries.  Adding: the tiles
    [2x2*10] under a cap of 2.5 give one floor of 2 and a target of 2.5,
    the slice [0 .. 0.5) is empty and no unit is added; the tiles
    [1x1*1e308,2x2*1e308] under a cap of 10 give a scale of 0, floors of 0
    and no remainder, so no unit is added towards the target of 10.
    Removing: the tiles [1x1*10000000000003854] under a cap of
    9007199254740991 give one floor of 9007199254740992 and no remainder,
    so no unit is removed. *)
Lemma rounding_misses_target :
  (let specs := [Binary64.mkTileSpec 2 2 (Number_ofZ 10)] in
   let capLimit := Finite (5 # 2) in
   let adjusted :=
     Binary64.adjustedCounts specs (Binary64.capScale specs capLimit) in
   adjusted = [Finite (5 # 2)]
   /\ Binary64.totalFloorsOf adjusted = Number_ofZ 2
   /\ Binary64.targetTotal specs capLimit = Finite (5 # 2)
   /\ Binary64.fractionsFrom 0 adjusted = [mkFraction 0 (1 # 2)]
   /\ Number_slice0
        (Array_sort fracDescending (Binary64.fractionsFrom 0 adjusted))
        (Number_sub (Binary64.targetTotal specs capLimit)
           (Binary64.totalFloorsOf adjusted)) = []
   /\ Binary64.finalFloors specs capLimit = [Number_ofZ 2]
   /\ fold_left Number_add (Binary64.finalFloors specs capLimit) (Finite 0)
      <> Binary64.targetTotal specs capLimit)
  /\ (let specs := [Binary64.mkTileSpec 1 1 e308;
                    Binary64.mkTileSpec 2 2 e308] in
      let capLimit := Number_ofZ 10 in
      let adjusted :=
        Binary64.adjustedCounts specs (Binary64.capScale specs capLimit) in
      Binary64.capScale specs capLimit = Number_ofZ 0
      /\ Binary64.totalFloorsOf adjusted = Number_ofZ 0
      /\ Binary64.targetTotal specs capLimit = Number_ofZ 10
      /\ Binary64.fractionsFrom 0 adjusted = []
      /\ Binary64.finalFloors specs capLimit = [Number_ofZ 0; Number_ofZ 0]
      /\ fold_left Number_add (Binary64.finalFloors specs capLimit) (Finite 0)
         <> Binary64.targetTotal specs capLimit)
  /\ (let specs := [Binary64.mkTileSpec 1 1
                      (Number_ofZ 10000000000003854)] in
      let capLimit := Number_ofZ 9007199254740991 in
      let adjusted :=
        Binary64.adjustedCounts specs (Binary64.capScale specs capLimit) in
      Binary64.totalFloorsOf adjusted = Number_ofZ 9007199254740992
      /\ Binary64.targetTotal specs capLimit = Number_ofZ 9007199254740991
      /\ Binary64.fractionsFrom 0 adjusted = []
      /\ Binary64.finalFloors specs capLimit = [Number_ofZ 9007199254740992]
      /\ fold_left Number_add (Binary64.finalFloors specs capLimit) (Finite 0)
         <> Binary64.targetTotal specs capLimit).
Proof.
  cbv zeta.
  repeat match goal with |- _ /\ _ => split end;
    vm_compute; try reflexivity; discriminate.
Qed.

(* ================================================================== *)
(** * An instance of the library functions

    A small linear congruential generator for [seedrandom], rational
    stand-ins for the [Math] functions and the identity for the encoder:
    enough to run the engine and to apply the theorems above to it. *)

Definition lcgQuick (g : Z) : Q * Z :=
  ((g mod 1000) # 1000, (g * 1103515245 + 12345) mod 2147483648).

Definition ratCos (v : Q) : Q := (1 - v * v / 2)%Q.
Definition ratSin (v : Q) : Q := v.
Definition ratSqrt (v : Q) : Q := ((v + 1) / 2)%Q.
Definition ratLog (v : Q) : Q := (v - 1)%Q.
Definition ratPow (v e : Q) : Q := (v * v)%Q.
Definition ratHypot (u v : Q) : Q := (Qabs u + Qabs v)%Q.
Definition ratPI : Q := 355 # 113.
Definition rawImage (w h : Z) (data : list Z) : list Z := data.

Definition runPositionForTile : Generator -> Z -> Z -> Rand Z Point :=
  positionForTile Z lcgQuick ratCos ratSin ratSqrt ratLog ratPow ratHypot
    ratPI.

Definition runNewGenerator : GenerationParams -> Rand Z Generator :=
  newGenerator Z lcgQuick.

Definition runGenerateMap : Z -> GenerationParams -> result GenerationResult :=
  generateMap Z (fun seed => seed) lcgQuick ratCos ratSin ratSqrt ratLog
    ratPow ratHypot ratPI rawImage.

(** The first scenario of the specification: five 1x1 tiles on a 10x10
    canvas in weighted mode. *)
Definition scenarioParams : GenerationParams :=
  mkParams 10 10 (codeUnits "1x1*5") 1 0 mode_weighted 10 (1 # 10) (8 # 10)
    (codeUnits "t1") true 8 0 4 (1 # 4) true false 0 0 0.

(** A ring-mode request whose bounds need the adjustment. *)
Definition ringParams : GenerationParams :=
  mkParams 10 10 (codeUnits "2x3*4") 1 0 mode_ring 4 (1 # 2) (3 # 10)
    (codeUnits "ring") true 8 128 4 (1 # 4) true false 0 0 0.

Definition ringGenerator : Generator :=
  fst (runNewGenerator ringParams (mkRNG Z 7 None)).

(** A cosine and a sine with values on the unit circle: the rational
    parametrization by the tangent of the half angle. *)
Definition circleCos (v : Q) : Q := ((1 - v * v) / (1 + v * v))%Q.
Definition circleSin (v : Q) : Q := (2 * v / (1 + v * v))%Q.

(** A conversion of numbers to strings that is right on the integers. *)
Definition integerToString (q : Q) : jsstring := decimalDigits (Qfloor q).

(** Lower case on the ASCII letters. *)
Definition asciiLower (s : jsstring) : jsstring :=
  map (fun c => if (65 <=? c) && (c <=? 90) then c + 32 else c) s.

(** Two batches of 17 tiles under a cap of 5. *)
Definition cappedParams : GenerationParams :=
  mkParams 10 10 (codeUnits "2x2*10,1x1*7") 1 5 mode_center 10 (1 # 10)
    (8 # 10) (codeUnits "cap") true 8 0 4 (1 # 4) true false 0 0 0.

Definition cappedBatches : list TileBatch :=
  Eval vm_compute in
    match finalizeSpecs cappedParams with Ok b => b | Err _ => [] end.

Definition parsedTiles : list TileSpec :=
  Eval vm_compute in
    match parseTileList (codeUnits " 2x2*10, 1x1 ,3x1*2.5") with
    | Ok specs => specs
    | Err _ => []
    end.

Definition scenarioResult : GenerationResult :=
  Eval vm_compute in
    match runGenerateMap 0 scenarioParams with
    | Ok res => res
    | Err _ => mkResult [] 0 0 0
    end.

(** The request without any field, and a request for a ring. *)
Definition emptyRequest : MapRequest :=
  mkRequest None None None None None None None None None None None None None
    None None None None None None None.

Definition ringRequest : MapRequest :=
  mkRequest (Some 64) (Some 48) (Some (codeUnits "2x2*30")) None (Some 20%Q)
    (Some (codeUnits "RING")) (Some 3) (Some (6 # 10)%Q) (Some (2 # 10)%Q)
    (Some (codeUnits "s")) None None (Some 300) None None None None None None
    (Some true).

Definition emptyNormalized : GenerationParams :=
  Eval vm_compute in
    match normalizeRequest asciiLower emptyRequest with
    | Returns p => p
    | Throws _ => scenarioParams
    end.

Definition ringNormalized : GenerationParams :=
  Eval vm_compute in
    match normalizeRequest asciiLower ringRequest with
    | Returns p => p
    | Throws _ => scenarioParams
    end.

(** A generator in ring mode with bounds 0.2 and 0.7. *)
Definition bandParams : GenerationParams :=
  mkParams 20 16 (codeUnits "2x3*4") 1 0 mode_ring 4 (2 # 10) (7 # 10)
    (codeUnits "band") true 8 0 4 (1 # 4) true false 0 0 0.

Definition bandGenerator : Generator :=
  fst (runNewGenerator bandParams (mkRNG Z 7 None)).

Lemma lcgQuick_range (g : Z) :
  (0 <= fst (lcgQuick g))%Q /\ (fst (lcgQuick g) < 1)%Q.
Proof.
  unfold lcgQuick, Qle, Qlt. simpl.
  pose proof (Z.mod_pos_bound g 1000 ltac:(lia)). lia.
Qed.

Lemma ratLog_pos (v : Q) : (1 < v)%Q -> (0 < ratLog v)%Q.
Proof. unfold ratLog. intros H. lra. Qed.

Lemma ratLog_mono (u v : Q) :
  (1 < u)%Q -> (u <= v)%Q -> (ratLog u <= ratLog v)%Q.
Proof. unfold ratLog. intros _ H. lra. Qed.

(** The scenario runs to one batch, five placements and an image of 100
    pixels. *)
Example scenario_run :
  match runGenerateMap 0 scenarioParams with
  | Ok res =>
      batches res = 1 /\ totalPlacements res = 5
      /\ Z.of_nat (length (data res)) = 400
  | Err _ => False
  end.
Proof. vm_compute. repeat split. Qed.

Lemma generateMap_deterministic_witness :
  seed scenarioParams <> []
  /\ runGenerateMap 0 scenarioParams = runGenerateMap 1 scenarioParams.
Proof.
  split; [discriminate|].
  apply (generateMap_deterministic Z (fun seed => seed) lcgQuick ratCos ratSin
           ratSqrt ratLog ratPow ratHypot ratPI rawImage scenarioParams 0 1).
  discriminate.
Defined.


Lemma positionForTile_degenerate_witness :
  (g_width ringGenerator <= 10 \/ g_height ringGenerator <= 3)
  /\ runPositionForTile ringGenerator 10 3 (mkRNG Z 11 None)
     = (mkPoint 0 0, mkRNG Z 11 None).
Proof.
  assert (H : g_width ringGenerator <= 10 \/ g_height ringGenerator <= 3)
    by (left; vm_compute; discriminate).
  split; [exact H|].
  exact (positionForTile_degenerate Z lcgQuick ratCos ratSin ratSqrt ratLog
           ratPow ratHypot ratPI ringGenerator 10 3 (mkRNG Z 11 None) H).
Defined.

Lemma tone_mapping_boundaries_witness :
  1 <= bgAlpha ringParams <= 255
  /\ pixelColor ratLog ringParams 0 = mkColor 22 75 135 128
  /\ (Qmax 1 (brownCap ringParams) + 1 <= inject_Z 9)%Q
  /\ pixelColor ratLog ringParams 9 = mkColor 139 69 19 255.
Proof.
  destruct (tone_mapping_boundaries ratLog ratLog_pos ratLog_mono ringParams)
    as (H1 & _ & _ & H4).
  assert (Ha : 1 <= bgAlpha ringParams <= 255) by (simpl; lia).
  assert (Hc : (Qmax 1 (brownCap ringParams) + 1 <= inject_Z 9)%Q)
    by (vm_compute; discriminate).
  split; [exact Ha|]. split; [exact (H1 Ha)|].
  split; [exact Hc|exact (H4 9 Hc)].
Defined.

(** C8 as stated fails at the default background alpha: with [bgAlpha = 0]
    the water pixel is opaque, alpha 255, not alpha 0. *)
Lemma water_alpha_not_configured :
  bgAlpha scenarioParams = 0
  /\ pixelColor ratLog scenarioParams 0 = mkColor 22 75 135 255
  /\ ca (pixelColor ratLog scenarioParams 0) <> bgAlpha scenarioParams.
Proof. repeat split. vm_compute. discriminate. Qed.

(* ================================================================== *)
(** * The further properties at concrete inputs *)

Lemma Qsquare_nonneg (x : Q) : (0 <= x * x)%Q.
Proof. nra. Qed.

Lemma circleCos_range (v : Q) :
  (-1 <= circleCos v)%Q /\ (circleCos v <= 1)%Q.
Proof.
  unfold circleCos.
  assert (Hsq : (0 <= v * v)%Q) by nra.
  assert (Hpos : (0 < 1 + v * v)%Q) by lra.
  split.
  - apply Qle_shift_div_l; [exact Hpos|lra].
  - apply Qle_shift_div_r; [exact Hpos|lra].
Qed.

Lemma circleSin_range (v : Q) :
  (-1 <= circleSin v)%Q /\ (circleSin v <= 1)%Q.
Proof.
  unfold circleSin.
  assert (Hsq : (0 <= v * v)%Q) by nra.
  assert (Hpos : (0 < 1 + v * v)%Q) by lra.
  pose proof (Qsquare_nonneg (v + 1)) as Hup.
  pose proof (Qsquare_nonneg (v - 1)) as Hdown.
  assert (Eup : ((v + 1) * (v + 1) == v * v + 2 * v + 1)%Q) by ring.
  assert (Edown : ((v - 1) * (v - 1) == v * v - 2 * v + 1)%Q) by ring.
  set (vv := (v * v)%Q) in *.
  split.
  - apply Qle_shift_div_l; [exact Hpos|lra].
  - apply Qle_shift_div_r; [exact Hpos|lra].
Qed.

Lemma ratSqrt_range (v : Q) :
  (0 <= v)%Q -> (v < 1)%Q -> (0 <= ratSqrt v)%Q /\ (ratSqrt v <= 1)%Q.
Proof.
  intros H0 H1. unfold ratSqrt.
  split.
  - apply Qle_shift_div_l; [reflexivity|lra].
  - apply Qle_shift_div_r; [reflexivity|lra].
Qed.

Lemma integerToString_digits (n : Z) :
  safePositive n -> integerToString (inject_Z n) = decimalDigits n.
Proof. intros _. unfold integerToString. rewrite Qfloor_Z. reflexivity. Qed.


Lemma parseTileList_valid_witness :
  parseTileList (codeUnits " 2x2*10, 1x1 ,3x1*2.5") = Ok parsedTiles
  /\ parsedTiles <> []
  /\ Forall (fun s => 0 < spec_w s /\ 0 < spec_h s /\ (0 < spec_count s)%Q)
       parsedTiles.
Proof.
  assert (H : parseTileList (codeUnits " 2x2*10, 1x1 ,3x1*2.5")
              = Ok parsedTiles) by (vm_compute; reflexivity).
  split; [exact H|].
  exact (parseTileList_valid _ parsedTiles H).
Defined.

Lemma parseTileList_blank_witness :
  parseTileList [32; 9; 10] = Ok defaultTiles.
Proof.
  apply (parseTileList_blank [32; 9; 10]).
  repeat constructor.
Defined.

Lemma RNG_intn_spec_witness :
  0 <= fst (RNG_intn Z lcgQuick 6 (mkRNG Z 7 None)) < 6.
Proof.
  destruct (RNG_intn_spec Z lcgQuick lcgQuick_range 6 (mkRNG Z 7 None))
    as [_ H].
  destruct (H ltac:(lia)) as [Hrange _]. exact Hrange.
Defined.

Lemma RNG_normFloat64_pair_witness :
  let first :=
    RNG_normFloat64 Z lcgQuick ratCos ratSin ratSqrt ratLog ratPI
      (mkRNG Z 7 None) in
  let second :=
    RNG_normFloat64 Z lcgQuick ratCos ratSin ratSqrt ratLog ratPI
      (snd first) in
  spare Z (snd first) = Some (fst second)
  /\ spare Z (snd second) = None.
Proof.
  intros first second.
  destruct (RNG_normFloat64_pair Z lcgQuick ratCos ratSin ratSqrt ratLog
              ratPI (mkRNG Z 7 None) eq_refl) as (_ & H2 & H3).
  split; [exact H2|].
  fold first in H3. fold second in H3. rewrite H3. reflexivity.
Defined.

Lemma initIslands_centers_witness :
  Z.of_nat (length (fst (initIslands Z lcgQuick 20 16 0 (mkRNG Z 7 None))))
  = 3
  /\ Forall (inCanvas 20 16)
       (fst (initIslands Z lcgQuick 20 16 0 (mkRNG Z 7 None))).
Proof.
  destruct (initIslands_centers Z lcgQuick lcgQuick_range 20 16 0
              (mkRNG Z 7 None) ltac:(lia) ltac:(lia)) as [Hlen Hall].
  split; [exact Hlen|].
  eapply Forall_impl; [|exact Hall]. intros p Hp. apply Hp.
Defined.

Lemma initContinents_centers_witness :
  exists left right : Point,
    initContinents 20 16 = [left; right]
    /\ px left = 5 /\ px right = 15 /\ py left = 8 /\ py right = 8.
Proof.
  destruct (initContinents_centers 20 16 ltac:(lia) ltac:(lia))
    as (l & r & E & _ & _ & _ & Hy & Hl & Hr & Hly).
  exists l, r. split; [exact E|].
  split; [exact Hl|]. split; [exact Hr|]. split; [exact Hly|].
  rewrite <- Hy. exact Hly.
Defined.

Lemma distanceAfterPlacement_recorded_witness :
  0 <= totalArea bandGenerator
  /\ exists cx cy : Q,
       centerOfMass (recordPlacement bandGenerator 4 5 2 3) = Some (cx, cy)
       /\ distanceAfterPlacement ratHypot bandGenerator 4 5 2 3 10 8
          = ratHypot (cx - 10)%Q (cy - 8)%Q.
Proof.
  assert (H0 : 0 <= totalArea bandGenerator) by (vm_compute; discriminate).
  split; [exact H0|].
  destruct (distanceAfterPlacement_recorded ratHypot bandGenerator 4 5 2 3
              10 8 H0) as [H _].
  exact (H ltac:(lia)).
Defined.


Lemma placeUnit_skips_oversized_witness :
  fst (placeUnit Z lcgQuick circleCos circleSin ratSqrt ratLog ratPow
         ratHypot ratPI bandParams (mkTileBatch 21 17 1)
         (bandGenerator, repeat 0 320) (mkRNG Z 11 None))
  = (bandGenerator, repeat 0 320).
Proof.
  apply (placeUnit_skips_oversized Z lcgQuick circleCos circleSin ratSqrt
           ratLog ratPow ratHypot ratPI bandParams (mkTileBatch 21 17 1)).
  - left. reflexivity.
  - right. reflexivity.
Defined.

Lemma rasterPlain_cells_witness :
  nth 6 (rasterPlain 4 (repeat 0 16) 1 1 2 2) 0 = 1
  /\ nth 7 (rasterPlain 4 (repeat 0 16) 1 1 2 2) 0 = 0.
Proof.
  split.
  - exact (rasterPlain_cells 4 (repeat 0 16) 1 1 2 2 2 1
             ltac:(lia) ltac:(lia) ltac:(lia) ltac:(lia) ltac:(simpl; lia)).
  - exact (rasterPlain_cells 4 (repeat 0 16) 1 1 2 2 3 1
             ltac:(lia) ltac:(lia) ltac:(lia) ltac:(lia) ltac:(simpl; lia)).
Defined.

Lemma rasterPolish_cells_witness :
  nth 4 (rasterPolish 4 4 (repeat 0 16) 1 1 2 2) 0 = 1
  /\ nth 0 (rasterPolish 4 4 (repeat 0 16) 1 1 2 2) 0 = 0.
Proof.
  split.
  - exact (rasterPolish_cells 4 4 (repeat 0 16) 1 1 2 2 0 1
             ltac:(lia) ltac:(lia) ltac:(lia) ltac:(lia) ltac:(simpl; lia)).
  - exact (rasterPolish_cells 4 4 (repeat 0 16) 1 1 2 2 0 0
             ltac:(lia) ltac:(lia) ltac:(lia) ltac:(lia) ltac:(simpl; lia)).
Defined.

Lemma coverageToColor_land_witness :
  let c := coverageToColor ratLog 3 8 true green brown in
  34 <= cr c <= 139 /\ 69 <= cg c <= 139 /\ 19 <= cb c <= 34 /\ ca c = 255.
Proof.
  exact (coverageToColor_land ratLog 3 8 true ltac:(lia)).
Defined.

Lemma renderData_pixel_witness :
  length (renderData ratLog scenarioParams (repeat 0 100)) = 400%nat
  /\ firstn 4 (skipn 128 (renderData ratLog scenarioParams (repeat 0 100)))
     = [22; 75; 135; 255].
Proof.
  destruct (renderData_pixel ratLog scenarioParams (repeat 0 100) 2 3
              ltac:(simpl; lia) ltac:(simpl; lia)) as (H1 & H2 & _).
  split; [exact H1|exact H2].
Defined.

Lemma normalizeRequest_ranges_witness :
  normalizeRequest asciiLower ringRequest = Returns ringNormalized
  /\ width ringNormalized = 64 /\ mode ringNormalized = mode_ring
  /\ (ringStart ringNormalized < ringEnd ringNormalized)%Q
  /\ 0 <= bgAlpha ringNormalized <= 255.
Proof.
  assert (H : normalizeRequest asciiLower ringRequest = Returns ringNormalized)
    by (vm_compute; reflexivity).
  split; [exact H|]. split; [reflexivity|]. split; [reflexivity|].
  destruct (normalizeRequest_ranges asciiLower ringRequest ringNormalized H)
    as (_ & _ & _ & _ & H5 & _ & _ & _ & H9 & _).
  split; [exact H5|exact H9].
Defined.

Lemma normalized_ringBounds_witness :
  normalizeRequest asciiLower emptyRequest = Returns emptyNormalized
  /\ ringBounds (ringStart emptyNormalized) (ringEnd emptyNormalized)
     = (ringStart emptyNormalized, ringEnd emptyNormalized).
Proof.
  assert (H : normalizeRequest asciiLower emptyRequest
              = Returns emptyNormalized) by (vm_compute; reflexivity).
  split; [exact H|].
  exact (normalized_ringBounds asciiLower emptyRequest emptyNormalized H).
Defined.

Lemma formatTiles_parseTileList_witness :
  formatTiles integerToString (map entryOf [(2, 2, 10); (1, 1, 7)])
  = codeUnits "2x2*10,1x1*7"
  /\ parseTileList
       (formatTiles integerToString (map entryOf [(2, 2, 10); (1, 1, 7)]))
     = Ok [mkTileSpec 2 2 10; mkTileSpec 1 1 7].
Proof.
  split; [vm_compute; reflexivity|].
  apply (formatTiles_parseTileList integerToString [(2, 2, 10); (1, 1, 7)]
           integerToString_digits).
  - discriminate.
  - repeat constructor.
Defined.

Lemma positionCenter_region_witness :
  let roll := fst (RNG_float Z lcgQuick (mkRNG Z 11 None)) in
  let p :=
    fst (positionCenter Z lcgQuick circleCos circleSin ratSqrt ratPI
           bandGenerator 2 3 (mkRNG Z 11 None)) in
  (roll < 7 # 10)%Q /\ centredWithin bandGenerator 2 3 (3 # 10) p.
Proof.
  intros roll p.
  assert (Hroll : (roll < 7 # 10)%Q) by reflexivity.
  split; [exact Hroll|].
  destruct (positionCenter_region Z lcgQuick circleCos circleSin ratSqrt
              ratPI lcgQuick_range bandGenerator 2 3 (mkRNG Z 11 None)
              circleCos_range circleSin_range ratSqrt_range
              ltac:(simpl; lia) ltac:(simpl; lia)) as [H _].
  exact (H Hroll).
Defined.

Lemma positionRing_within_outer_witness :
  (0 <= g_ringStart bandGenerator)%Q
  /\ (g_ringStart bandGenerator < g_ringEnd bandGenerator)%Q
  /\ withinOuterRing bandGenerator 2 3
       (fst (positionRing Z lcgQuick circleCos circleSin ratPow ratPI
               bandGenerator 2 3 (mkRNG Z 11 None))).
Proof.
  assert (H0 : (0 <= g_ringStart bandGenerator)%Q)
    by (vm_compute; discriminate).
  assert (H1 : (g_ringStart bandGenerator < g_ringEnd bandGenerator)%Q)
    by (vm_compute; reflexivity).
  split; [exact H0|]. split; [exact H1|].
  exact (positionRing_within_outer Z lcgQuick circleCos circleSin ratPow
           ratPI lcgQuick_range bandGenerator 2 3 (mkRNG Z 11 None)
           circleCos_range circleSin_range ltac:(simpl; lia)
           ltac:(simpl; lia) H0 H1).
Defined.
